(** * Gekko/Broadway assembler: a shallow embedding of the assembly pipeline

    The development follows the layout of the C++ sources:
    - [AssemblerTables]  operand descriptors ([OperandDesc]) and parser tables;
    - [GekkoLexer]       the hand written lexer with its look-ahead deque;
    - [GekkoIRGen]       the IR ([IRBlock], chunks) and the IR generating
                         parse plugin ([GekkoIRPlugin]) with its fixups;
    - [GekkoParser]      the recursive descent parser and [ParseWithPlugin].

    Fixed width integers ([u8] .. [u64], [size_t]) are integers in [Z] with the
    wrap-around of every operation written out. *)

From Stdlib Require Import ZArith Lia Bool Ascii String List.
From stdpp Require Import base option list gmap strings.

Local Open Scope Z_scope.

(** ** Fixed width arithmetic *)

Definition wrap (w : Z) (x : Z) : Z := x mod 2 ^ w.
Definition wrap8 : Z -> Z := wrap 8.
Definition wrap16 : Z -> Z := wrap 16.
Definition wrap32 : Z -> Z := wrap 32.
Definition wrap64 : Z -> Z := wrap 64.

(** [~x] on a [w]-bit unsigned value. *)
Definition not_w (w : Z) (x : Z) : Z := wrap w (Z.lnot x).

Definition is_u32 (x : Z) : Prop := 0 <= x < 2 ^ 32.

(** * AssemblerTables: operand descriptors *)

(** [struct OperandDesc { u32 mask; struct { u32 shift : 31; bool is_signed : 1; }; }] *)
Record OperandDesc := mkOperandDesc {
  mask : Z;
  shift : Z;
  is_signed : bool
}.

(** [constexpr u32 mask(u32 left, u32 right)]: inclusive mask [left, right],
    MSB = 0, LSB = 31, computed in [u64] and truncated to [u32]. *)
Definition mask_of (left right : Z) : Z :=
  wrap32 (Z.land (wrap64 (wrap64 (Z.shiftl 1 (32 - left)) - 1))
                 (not_w 64 (wrap64 (wrap64 (Z.shiftl 1 (31 - right)) - 1)))).

(** All operands as referenced by the Gekko/Broadway user manual. *)
Definition _A := mkOperandDesc (mask_of 11 15) 16 false.
Definition _B := mkOperandDesc (mask_of 16 20) 11 false.
Definition _BD := mkOperandDesc (mask_of 16 29) 0 true.
Definition _BI := mkOperandDesc (mask_of 11 15) 16 false.
Definition _BO := mkOperandDesc (mask_of 6 10) 21 false.
Definition _C := mkOperandDesc (mask_of 21 25) 6 false.
Definition _Crba := mkOperandDesc (mask_of 11 15) 16 false.
Definition _Crbb := mkOperandDesc (mask_of 16 20) 11 false.
Definition _Crbd := mkOperandDesc (mask_of 6 10) 21 false.
Definition _Crfd := mkOperandDesc (mask_of 6 8) 23 false.
Definition _Crfs := mkOperandDesc (mask_of 11 13) 18 false.
Definition _CRM := mkOperandDesc (mask_of 12 19) 12 false.
Definition _D := mkOperandDesc (mask_of 6 10) 21 false.
Definition _FM := mkOperandDesc (mask_of 7 14) 17 false.
Definition _I1 := mkOperandDesc (mask_of 16 16) 15 false.
Definition _I2 := mkOperandDesc (mask_of 21 21) 10 false.
Definition _IMM := mkOperandDesc (mask_of 16 19) 12 false.
Definition _L := mkOperandDesc (mask_of 10 10) 21 false.
Definition _LI := mkOperandDesc (mask_of 6 29) 0 true.
Definition _MB := mkOperandDesc (mask_of 21 25) 6 false.
Definition _ME := mkOperandDesc (mask_of 26 30) 1 false.
Definition _NB := mkOperandDesc (mask_of 16 20) 11 false.
Definition _Offd := mkOperandDesc (mask_of 16 31) 0 true.
Definition _OffdPs := mkOperandDesc (mask_of 19 31) 0 true.
Definition _S := mkOperandDesc (mask_of 6 10) 21 false.
Definition _SH := mkOperandDesc (mask_of 16 20) 11 false.
Definition _SIMM := mkOperandDesc (mask_of 16 31) 0 true.
Definition _SPR := mkOperandDesc (mask_of 11 20) 11 false.
Definition _SR := mkOperandDesc (mask_of 12 15) 16 false.
Definition _TO := mkOperandDesc (mask_of 6 10) 21 false.
Definition _TPR := mkOperandDesc (mask_of 11 20) 11 false.
Definition _UIMM := mkOperandDesc (mask_of 16 31) 0 false.
Definition _W1 := mkOperandDesc (mask_of 17 19) 12 false.
Definition _W2 := mkOperandDesc (mask_of 22 24) 7 false.

(** The fixed operand descriptor catalogue. *)
Definition operand_catalogue : list OperandDesc :=
  [_A; _B; _BD; _BI; _BO; _C; _Crba; _Crbb; _Crbd; _Crfd; _Crfs; _CRM; _D; _FM;
   _I1; _I2; _IMM; _L; _LI; _MB; _ME; _NB; _Offd; _OffdPs; _S; _SH; _SIMM;
   _SPR; _SR; _TO; _TPR; _UIMM; _W1; _W2].

(** [mask >> shift] *)
Definition mask_sh (d : OperandDesc) : Z := Z.shiftr (mask d) (shift d).

(** High bit and low bit of a range mask:
    [mask_sh & (mask_sh ^ (mask_sh >> 1))] and [mask_sh & (mask_sh ^ (mask_sh << 1))]. *)
Definition mask_hibit (d : OperandDesc) : Z :=
  Z.land (mask_sh d) (Z.lxor (mask_sh d) (Z.shiftr (mask_sh d) 1)).
Definition mask_lobit (d : OperandDesc) : Z :=
  Z.land (mask_sh d) (Z.lxor (mask_sh d) (wrap32 (Z.shiftl (mask_sh d) 1))).

Definition MaxVal (d : OperandDesc) : Z :=
  if is_signed d then wrap32 (mask_hibit d - 1) else mask_sh d.

Definition MinVal (d : OperandDesc) : Z :=
  if is_signed d then not_w 32 (MaxVal d) else 0.

Definition TruncBits (d : OperandDesc) : Z := wrap32 (mask_lobit d - 1).

Definition Fits (d : OperandDesc) (val : Z) : bool :=
  if is_signed d then
    let positive_max := wrap32 (mask_hibit d - 1) in
    let negative_max := not_w 32 positive_max in
    let truncate_bits := wrap32 (mask_lobit d - 1) in
    ((val <=? positive_max) || (negative_max <=? val))
    && (Z.land val truncate_bits =? 0)
  else Z.land (mask_sh d) val =? val.

Definition Fit (d : OperandDesc) (val : Z) : Z :=
  Z.land (wrap32 (Z.shiftl val (shift d))) (mask d).

(** Decoding of an encoded operand field, following the wording of the
    operand-fit property: the masked field is shifted back down, sign extended
    from the field's high bit when the descriptor is signed, and the truncated
    low bits are restored as zero. *)
Definition DecodeField (d : OperandDesc) (word : Z) : Z :=
  let field := Z.shiftr (Z.land word (mask d)) (shift d) in
  let extended :=
    if is_signed d && (mask_hibit d <=? field)
    then wrap32 (field - 2 * mask_hibit d)
    else field in
  Z.land extended (not_w 32 (TruncBits d)).

(** * AssemblerShared: intervals, errors *)

(** [struct Interval { size_t begin; size_t len; }] *)
Module Interval.
Record t := mk { begin : nat; len : nat }.
End Interval.

(** [struct AssemblerError { std::string message; std::string_view error_line;
    size_t line; size_t col; size_t len; }] *)
Module AssemblerError.
Record t := mk {
  message : string;
  error_line : string;
  line : nat;
  col : nat;
  len : nat
}.
End AssemblerError.

(** [enum class GekkoDirective] *)
Module GekkoDirective.
Inductive t :=
| kByte | k2byte | k4byte | k8byte | kFloat | kDouble | kLocate | kPadAlign
| kAlign | kZeros | kSkip | kDefVar | kAscii | kAsciz.
End GekkoDirective.

(** * GekkoLexer *)

Module TokenType.
Inductive t :=
| kInvalid | kIdentifier | kStringLit | kHexadecimalLit | kDecimalLit
| kOctalLit | kBinaryLit | kFloatLit | kGPR | kFPR | kCRField | kSPR
| kLt | kGt | kEq | kSo
| kEol | kEof
| kDot | kColon | kComma | kLparen | kRparen | kPipe | kCaret | kAmpersand
| kLsh | kRsh | kPlus | kMinus | kStar | kSlash | kTilde | kGrave | kAt.

Definition eqb (a b : t) : bool :=
  match a, b with
  | kInvalid, kInvalid | kIdentifier, kIdentifier | kStringLit, kStringLit
  | kHexadecimalLit, kHexadecimalLit | kDecimalLit, kDecimalLit
  | kOctalLit, kOctalLit | kBinaryLit, kBinaryLit | kFloatLit, kFloatLit
  | kGPR, kGPR | kFPR, kFPR | kCRField, kCRField | kSPR, kSPR
  | kLt, kLt | kGt, kGt | kEq, kEq | kSo, kSo | kEol, kEol | kEof, kEof
  | kDot, kDot | kColon, kColon | kComma, kComma | kLparen, kLparen
  | kRparen, kRparen | kPipe, kPipe | kCaret, kCaret
  | kAmpersand, kAmpersand | kLsh, kLsh | kRsh, kRsh | kPlus, kPlus
  | kMinus, kMinus | kStar, kStar | kSlash, kSlash | kTilde, kTilde
  | kGrave, kGrave | kAt, kAt => true
  | _, _ => false
  end.
End TokenType.

(** [struct AssemblerToken]: [token_val] is the slice of the source text. *)
Record AssemblerToken := mkToken {
  token_type : TokenType.t;
  token_val : string;
  invalid_reason : string;
  invalid_region : Interval.t
}.

(** ** Character classes ([<cctype>] in the "C" locale) *)

Definition char_code (c : ascii) : nat := nat_of_ascii c.

Definition char_in (lo hi c : ascii) : bool :=
  (char_code lo <=? char_code c)%nat && (char_code c <=? char_code hi)%nat.

Definition isdigit (c : ascii) : bool := char_in "0" "9" c.
Definition isalpha (c : ascii) : bool := char_in "a" "z" c || char_in "A" "Z" c.
Definition isalnum (c : ascii) : bool := isalpha c || isdigit c.
Definition isxdigit (c : ascii) : bool :=
  isdigit c || char_in "a" "f" c || char_in "A" "F" c.
Definition isspace (c : ascii) : bool :=
  Ascii.eqb c " " || char_in "009" "013" c.

Definition newline : ascii := "010".
Definition dquote : ascii := "034".

Definition is_octal (c : ascii) : bool := char_in "0" "7" c.
Definition is_binary (c : ascii) : bool := Ascii.eqb c "0" || Ascii.eqb c "1".

(** [convert_nib<T>(c)], before the conversion to [T]. *)
Definition convert_nib (c : ascii) : Z :=
  if char_in "a" "f" c then Z.of_nat (char_code c) - 97 + 10
  else if char_in "A" "F" c then Z.of_nat (char_code c) - 65 + 10
  else Z.of_nat (char_code c) - 48.

Definition single_char_token (ch : ascii) : TokenType.t :=
  if Ascii.eqb ch "," then TokenType.kComma
  else if Ascii.eqb ch "(" then TokenType.kLparen
  else if Ascii.eqb ch ")" then TokenType.kRparen
  else if Ascii.eqb ch "|" then TokenType.kPipe
  else if Ascii.eqb ch "^" then TokenType.kCaret
  else if Ascii.eqb ch "&" then TokenType.kAmpersand
  else if Ascii.eqb ch "+" then TokenType.kPlus
  else if Ascii.eqb ch "-" then TokenType.kMinus
  else if Ascii.eqb ch "*" then TokenType.kStar
  else if Ascii.eqb ch "/" then TokenType.kSlash
  else if Ascii.eqb ch "~" then TokenType.kTilde
  else if Ascii.eqb ch "@" then TokenType.kAt
  else if Ascii.eqb ch ":" then TokenType.kColon
  else if Ascii.eqb ch "`" then TokenType.kGrave
  else if Ascii.eqb ch "." then TokenType.kDot
  else if Ascii.eqb ch "000" then TokenType.kEof
  else if Ascii.eqb ch newline then TokenType.kEol
  else TokenType.kInvalid.

(** ** Lexer tables *)

(** Mapping of SPRG names to values. *)
Definition sprg_map : list (string * Z) :=
  [("xer", 1); ("lr", 8); ("ctr", 9); ("dsisr", 18);
   ("dar", 19); ("dec", 22); ("sdr1", 25); ("srr0", 26);
   ("srr1", 27); ("sprg0", 272); ("sprg1", 273); ("sprg2", 274);
   ("sprg3", 275); ("ear", 282); ("tbl", 284); ("tbu", 285);
   ("ibat0u", 528); ("ibat0l", 529); ("ibat1u", 530); ("ibat1l", 531);
   ("ibat2u", 532); ("ibat2l", 533); ("ibat3u", 534); ("ibat3l", 535);
   ("dbat0u", 536); ("dbat0l", 537); ("dbat1u", 538); ("dbat1l", 539);
   ("dbat2u", 540); ("dbat2l", 541); ("dbat3u", 542); ("dbat3l", 543);
   ("gqr0", 912); ("gqr1", 913); ("gqr2", 914); ("gqr3", 915);
   ("gqr4", 916); ("gqr5", 917); ("gqr6", 918); ("gqr7", 919);
   ("hid2", 920); ("wpar", 921); ("dma_u", 922); ("dma_l", 923);
   ("ummcr0", 936); ("upmc1", 937); ("upmc2", 938); ("usia", 939);
   ("ummcr1", 940); ("upmc3", 941); ("upmc4", 942); ("usda", 943);
   ("mmcr0", 952); ("pmc1", 953); ("pmc2", 954); ("sia", 955);
   ("mmcr1", 956); ("pmc3", 957); ("pmc4", 958); ("sda", 959);
   ("hid0", 1008); ("hid1", 1009); ("iabr", 1010); ("dabr", 1013);
   ("l2cr", 1017); ("ictc", 1019); ("thrm1", 1020); ("thrm2", 1021);
   ("thrm3", 1022)]%string.

Definition sprg_map_find (name : string) : option Z :=
  snd <$> List.find (fun kv => String.eqb (fst kv) name) sprg_map.

(** In place of [std::regex], DFAs match the sufficiently complex tokens. *)
Abbreviation TransitionF := (ascii -> bool).
Abbreviation DfaEdge := (TransitionF * nat)%type.
Record DfaNode := mkDfaNode {
  edges : list DfaEdge;
  (* If None: this is a final node; if Some: invalid reason *)
  match_failure_reason : option string
}.

Definition _plus_or_minus : TransitionF := fun c => Ascii.eqb c "+" || Ascii.eqb c "-".
Definition _digit : TransitionF := isdigit.
Definition _e : TransitionF := fun c => Ascii.eqb c "e".
Definition _dot : TransitionF := fun c => Ascii.eqb c ".".
Definition _normal : TransitionF := fun c =>
  negb (Ascii.eqb c newline) && negb (Ascii.eqb c dquote) && negb (Ascii.eqb c "\").
Definition _invalid : TransitionF := fun c => Ascii.eqb c newline.
Definition _octal : TransitionF := is_octal.
Definition _hex : TransitionF := isxdigit.
Definition _normal_minus_octal : TransitionF := fun c => _normal c && negb (_octal c).
Definition _normal_minus_hex : TransitionF := fun c => _normal c && negb (_hex c).
Definition _escape : TransitionF := fun c => Ascii.eqb c "\".
Definition _sce : TransitionF := fun c =>
  negb (_octal c) && negb (Ascii.eqb c "x") && negb (Ascii.eqb c newline).
Definition _hexstart : TransitionF := fun c => Ascii.eqb c "x".
Definition _quote : TransitionF := fun c => Ascii.eqb c dquote.

(** Floating point strings that will be accepted by [std::stof]/[std::stod];
    regex: [[\+-]?(\d+(\.\d+)?|\.\d+)(e[\+-]?\d+)?] *)
Definition float_dfa : list DfaNode :=
  [ (* 0 *) mkDfaNode [(_plus_or_minus, 1%nat); (_digit, 2%nat); (_dot, 5%nat)]
              (Some "Invalid float: No numeric value"%string);
    (* 1 *) mkDfaNode [(_digit, 2%nat); (_dot, 5%nat)]
              (Some "Invalid float: No numeric value"%string);
    (* 2 *) mkDfaNode [(_digit, 2%nat); (_dot, 3%nat)] None;
    (* 3 *) mkDfaNode [(_digit, 4%nat)]
              (Some "Invalid float: No numeric value after decimal point"%string);
    (* 4 *) mkDfaNode [(_digit, 4%nat); (_e, 7%nat)] None;
    (* 5 *) mkDfaNode [(_digit, 6%nat)]
              (Some "Invalid float: No numeric value after decimal point"%string);
    (* 6 *) mkDfaNode [(_digit, 6%nat); (_e, 7%nat)] None;
    (* 7 *) mkDfaNode [(_digit, 9%nat); (_plus_or_minus, 8%nat)]
              (Some "Invalid float: No numeric value following exponent signifier"%string);
    (* 8 *) mkDfaNode [(_digit, 9%nat)]
              (Some "Invalid float: No numeric value following exponent signifier"%string);
    (* 9 *) mkDfaNode [(_digit, 9%nat)] None ].

Definition no_terminating_quote : string :=
  String.append "Invalid string: No terminating " (String dquote EmptyString).

(** C-style strings *)
Definition string_dfa : list DfaNode :=
  [ (* Base character check *)
    (* 0 *) mkDfaNode [(_normal, 0%nat); (_invalid, 1%nat); (_quote, 2%nat); (_escape, 3%nat)]
              (Some no_terminating_quote);
    (* Invalid (unescaped newline) *)
    (* 1 *) mkDfaNode [] (Some no_terminating_quote);
    (* String end *)
    (* 2 *) mkDfaNode [] None;
    (* Escape character breakout *)
    (* 3 *) mkDfaNode [(_sce, 0%nat); (_invalid, 1%nat); (_octal, 4%nat); (_hexstart, 6%nat)]
              (Some no_terminating_quote);
    (* Octal characters, at most 3 *)
    (* 4 *) mkDfaNode [(_normal_minus_octal, 0%nat); (_invalid, 1%nat); (_quote, 2%nat);
                       (_escape, 3%nat); (_octal, 5%nat)]
              (Some no_terminating_quote);
    (* 5 *) mkDfaNode [(_normal, 0%nat); (_invalid, 1%nat); (_quote, 2%nat); (_escape, 3%nat)]
              (Some no_terminating_quote);
    (* Hex characters, 1 or more *)
    (* 6 *) mkDfaNode [(_hex, 7%nat)] (Some "Invalid string: bad hex escape"%string);
    (* 7 *) mkDfaNode [(_normal_minus_hex, 0%nat); (_invalid, 1%nat); (_quote, 2%nat);
                       (_escape, 3%nat); (_hex, 7%nat)]
              (Some no_terminating_quote) ].

(** ** The lexer state *)

Module IdentifierMatchRule.
Inductive t :=
| kTypical
| kMnemonic   (* Mnemonics can contain +, -, or . *)
| kDirective. (* Directives can start with a digit *)
End IdentifierMatchRule.

Module CursorPosition.
Record t := mk { index : nat; line : nat; col : nat }.
Definition zero : t := mk 0 0 0.
End CursorPosition.

(** [Tagged<CursorPosition, AssemblerToken>] with [tag_of] and [value_of]. *)
Abbreviation TaggedToken := (CursorPosition.t * AssemblerToken)%type.

(** [class Lexer]; [pos], [scan_pos] and [lexed_tokens] are [mutable], so the
    [const] member functions of the source are state transformers here. *)
Record Lexer := mkLexer {
  lex_string : string;
  pos : CursorPosition.t;
  scan_pos : CursorPosition.t;
  lexed_tokens : list TaggedToken;
  match_rule : IdentifierMatchRule.t
}.

Definition Lexer_new (str : string) : Lexer :=
  mkLexer str CursorPosition.zero CursorPosition.zero [] IdentifierMatchRule.kTypical.

Definition set_pos (p : CursorPosition.t) (lx : Lexer) : Lexer :=
  mkLexer (lex_string lx) p (scan_pos lx) (lexed_tokens lx) (match_rule lx).
Definition set_scan_pos (p : CursorPosition.t) (lx : Lexer) : Lexer :=
  mkLexer (lex_string lx) (pos lx) p (lexed_tokens lx) (match_rule lx).
Definition set_lexed_tokens (q : list TaggedToken) (lx : Lexer) : Lexer :=
  mkLexer (lex_string lx) (pos lx) (scan_pos lx) q (match_rule lx).
Definition set_match_rule (r : IdentifierMatchRule.t) (lx : Lexer) : Lexer :=
  mkLexer (lex_string lx) (pos lx) (scan_pos lx) (lexed_tokens lx) r.

Definition ScanStart (lx : Lexer) : Lexer := set_scan_pos (pos lx) lx.
Definition ScanFinish (lx : Lexer) : Lexer := set_pos (scan_pos lx) lx.

Definition ScanFinishOut (lx : Lexer) : string * Lexer :=
  let start := CursorPosition.index (pos lx) in
  (String.substring start (CursorPosition.index (scan_pos lx) - start) (lex_string lx),
   set_pos (scan_pos lx) lx).

Definition Peek (lx : Lexer) : ascii :=
  match String.get (CursorPosition.index (scan_pos lx)) (lex_string lx) with
  | Some c => c
  | None => Ascii.zero
  end.

Definition Step (lx : Lexer) : Lexer :=
  let sp := scan_pos lx in
  if (String.length (lex_string lx) <=? CursorPosition.index sp)%nat then lx
  else if Ascii.eqb (Peek lx) newline
       then set_scan_pos (CursorPosition.mk (S (CursorPosition.index sp))
                                            (S (CursorPosition.line sp)) 0) lx
       else set_scan_pos (CursorPosition.mk (S (CursorPosition.index sp))
                                            (CursorPosition.line sp)
                                            (S (CursorPosition.col sp))) lx.

(** Characters left between the scan cursor and the end of the input. *)
Definition remaining (lx : Lexer) : nat :=
  String.length (lex_string lx) - CursorPosition.index (scan_pos lx).

(** [for (char c = Peek(); P(c); c = Step().Peek());]
    Every predicate used by the lexer rejects the character 0 that [Peek]
    returns at the end of the input, so [remaining] iterations are enough. *)
Fixpoint scan_while (P : ascii -> bool) (fuel : nat) (lx : Lexer) : Lexer :=
  match fuel with
  | O => lx
  | S fuel' => if P (Peek lx) then scan_while P fuel' (Step lx) else lx
  end.

Definition scan_loop (P : ascii -> bool) (lx : Lexer) : Lexer :=
  scan_while P (remaining lx) lx.

Definition SkipWs (lx : Lexer) : Lexer :=
  ScanFinish
    (scan_loop (fun c => isspace c && negb (Ascii.eqb c newline)) (ScanStart lx)).

Definition FeedbackTokens (lx : Lexer) : Lexer :=
  match lexed_tokens lx with
  | [] => lx
  | front :: _ => set_lexed_tokens [] (set_scan_pos (fst front) (set_pos (fst front) lx))
  end.

Definition IdentifierHeadExtra (lx : Lexer) (h : ascii) : bool :=
  match match_rule lx with
  | IdentifierMatchRule.kTypical | IdentifierMatchRule.kMnemonic => false
  | IdentifierMatchRule.kDirective => isdigit h
  end.

Definition IdentifierExtra (lx : Lexer) (c : ascii) : bool :=
  match match_rule lx with
  | IdentifierMatchRule.kTypical | IdentifierMatchRule.kDirective => false
  | IdentifierMatchRule.kMnemonic =>
      Ascii.eqb c "+" || Ascii.eqb c "-" || Ascii.eqb c "."
  end.

(** [do { ... } while (transition_found);] of [RunDfa]: the index of the node
    the automaton stops in. *)
Fixpoint RunDfa_loop (dfa : list DfaNode) (fuel : nat) (dfa_index : nat) (lx : Lexer)
  : nat * Lexer :=
  match fuel with
  | O => (dfa_index, lx)
  | S fuel' =>
      if Ascii.eqb (Peek lx) Ascii.zero then (dfa_index, lx)
      else
        match dfa !! dfa_index with
        | None => (dfa_index, lx)
        | Some n =>
            match List.find (fun edge : DfaEdge => fst edge (Peek lx)) (edges n) with
            | Some edge => RunDfa_loop dfa fuel' (snd edge) (Step lx)
            | None => (dfa_index, lx)
            end
        end
  end.

Definition RunDfa (dfa : list DfaNode) (lx : Lexer) : option string * Lexer :=
  let '(dfa_index, lx') := RunDfa_loop dfa (S (remaining lx)) 0 lx in
  (match dfa !! dfa_index with
   | Some n => match_failure_reason n
   | None => None
   end, lx').

(** [s[i]] on a [string_view] *)
Definition str_at (s : string) (i : nat) : ascii :=
  match String.get i s with Some c => c | None => Ascii.zero end.

(** [s.substr(n)] *)
Definition str_drop (n : nat) (s : string) : string :=
  String.substring n (String.length s - n) s.

Definition LexStringLit (lx : Lexer) : TokenType.t * string * Interval.t * Lexer :=
  (* The open quote has already been matched *)
  let string_start := (CursorPosition.index (scan_pos lx) - 1)%nat in
  let '(failure_reason, lx') := RunDfa string_dfa lx in
  match failure_reason with
  | Some reason =>
      (TokenType.kInvalid, reason,
       Interval.mk 0 (CursorPosition.index (scan_pos lx') - string_start), lx')
  | None => (TokenType.kStringLit, ""%string, Interval.mk 0 0, lx')
  end.

Definition valid_regnum (rn : string) : bool :=
  if (String.length rn =? 1)%nat && isdigit (str_at rn 0) then true
  else if (String.length rn =? 2)%nat && isdigit (str_at rn 0) && isdigit (str_at rn 1)
  then
    if Ascii.eqb (str_at rn 0) "1" || Ascii.eqb (str_at rn 0) "2" then true
    else if Ascii.eqb (str_at rn 0) "3"
         then (char_code (str_at rn 1) <=? char_code "2")%nat
         else false
  else false.

Definition ClassifyAlnum (lx : Lexer) : TokenType.t :=
  let alnum :=
    String.substring (CursorPosition.index (pos lx))
      (CursorPosition.index (scan_pos lx) - CursorPosition.index (pos lx))
      (lex_string lx) in
  if Ascii.eqb (str_at alnum 0) "r" && valid_regnum (str_drop 1 alnum)
  then TokenType.kGPR
  else if Ascii.eqb (str_at alnum 0) "f" && valid_regnum (str_drop 1 alnum)
  then TokenType.kFPR
  else if (String.length alnum =? 3)%nat && String.eqb (String.substring 0 2 alnum) "cr"
          && char_in "0" "7" (str_at alnum 2)
  then TokenType.kCRField
  else if String.eqb alnum "lt" then TokenType.kLt
  else if String.eqb alnum "gt" then TokenType.kGt
  else if String.eqb alnum "eq" then TokenType.kEq
  else if String.eqb alnum "so" then TokenType.kSo
  else if bool_decide (is_Some (sprg_map_find alnum)) then TokenType.kSPR
  else TokenType.kIdentifier.

Definition unrecognized_character : string := "Unrecognized character".

Definition LexSingle (lx0 : Lexer) : AssemblerToken * Lexer :=
  let lx1 := ScanStart (SkipWs lx0) in
  let h := Peek lx1 in
  let lx2 := Step lx1 in
  let '(tp, reason, region, lx3) :=
    if isalpha h || Ascii.eqb h "_" || IdentifierHeadExtra lx2 h then
      let lx := scan_loop (fun c => isalnum c || Ascii.eqb c "_" || IdentifierExtra lx2 c) lx2 in
      (ClassifyAlnum lx, ""%string, Interval.mk 0 0, lx)
    else if Ascii.eqb h dquote then LexStringLit lx2
    else if Ascii.eqb h "0" then
      let imm_type := Peek lx2 in
      if Ascii.eqb imm_type "x" then
        (TokenType.kHexadecimalLit, ""%string, Interval.mk 0 0,
         scan_loop isxdigit (Step lx2))
      else if Ascii.eqb imm_type "b" then
        (TokenType.kBinaryLit, ""%string, Interval.mk 0 0,
         scan_loop is_binary (Step lx2))
      else if is_octal imm_type then
        (TokenType.kOctalLit, ""%string, Interval.mk 0 0, scan_loop is_octal lx2)
      else (TokenType.kDecimalLit, ""%string, Interval.mk 0 0, lx2)
    else if isdigit h then
      (TokenType.kDecimalLit, ""%string, Interval.mk 0 0, scan_loop isdigit lx2)
    else if Ascii.eqb h "<" || Ascii.eqb h ">" then
      (* Special case for two-character operators *)
      let second_ch := Peek lx2 in
      if Ascii.eqb second_ch h then
        (if Ascii.eqb second_ch "<" then TokenType.kLsh else TokenType.kRsh,
         ""%string, Interval.mk 0 0, Step lx2)
      else (TokenType.kInvalid, unrecognized_character, Interval.mk 0 1, lx2)
    else
      let tp := single_char_token h in
      match tp with
      | TokenType.kInvalid => (tp, unrecognized_character, Interval.mk 0 1, lx2)
      | _ => (tp, ""%string, Interval.mk 0 0, lx2)
      end in
  let '(tok_str, lx4) := ScanFinishOut lx3 in
  (mkToken tp tok_str reason region, SkipWs lx4).

Definition LineNumber (lx : Lexer) : nat :=
  match lexed_tokens lx with
  | [] => CursorPosition.line (pos lx)
  | front :: _ => CursorPosition.line (fst front)
  end.

Definition ColNumber (lx : Lexer) : nat :=
  match lexed_tokens lx with
  | [] => CursorPosition.col (pos lx)
  | front :: _ => CursorPosition.col (fst front)
  end.

(** First loop of [CurrentLine]: walk back to the start of the line. *)
Fixpoint line_begin (s : string) (begin_index : nat) : nat :=
  match begin_index with
  | O => O
  | S prev => if Ascii.eqb (str_at s begin_index) newline then S begin_index
              else line_begin s prev
  end.

(** Second loop of [CurrentLine]: walk forward past the end of the line. *)
Fixpoint line_end (s : string) (fuel : nat) (end_index : nat) : nat :=
  match fuel with
  | O => end_index
  | S fuel' =>
      if (end_index <? String.length s)%nat then
        if Ascii.eqb (str_at s end_index) newline then S end_index
        else line_end s fuel' (S end_index)
      else end_index
  end.

Definition CurrentLine (lx : Lexer) : string :=
  let line_index :=
    match lexed_tokens lx with
    | [] => CursorPosition.index (pos lx)
    | front :: _ => CursorPosition.index (fst front)
    end in
  let begin_index := line_begin (lex_string lx) (line_index - 1) in
  let end_index :=
    line_end (lex_string lx) (String.length (lex_string lx)) begin_index in
  String.substring begin_index (end_index - begin_index) (lex_string lx).

Definition SetIdentifierMatchRule (set : IdentifierMatchRule.t) (lx : Lexer) : Lexer :=
  set_match_rule set (FeedbackTokens lx).

(** [lexed_tokens.emplace_back(pos_pre, LexSingle())] *)
Definition lex_and_buffer (lx : Lexer) : AssemblerToken * Lexer :=
  let pos_pre := pos lx in
  let '(tok, lx') := LexSingle lx in
  (tok, set_lexed_tokens (lexed_tokens lx' ++ [(pos_pre, tok)]) lx').

Definition Lookahead (lx : Lexer) : AssemblerToken * Lexer :=
  match lexed_tokens lx with
  | [] => lex_and_buffer lx
  | front :: _ => (snd front, lx)
  end.

Definition LookaheadRef (lx : Lexer) : AssemblerToken * Lexer := Lookahead lx.

Definition LookaheadType (lx : Lexer) : TokenType.t * Lexer :=
  let '(tok, lx') := LookaheadRef lx in (token_type tok, lx').

(** [while (lexed_tokens.size() < num_fwd) { LookaheadRef(); }]
    [None] when the loop has not been left after [fuel] iterations. *)
Fixpoint LookaheadTagRef_loop (fuel : nat) (num_fwd : nat) (lx : Lexer) : option Lexer :=
  match fuel with
  | O => None
  | S fuel' =>
      if (List.length (lexed_tokens lx) <? num_fwd)%nat
      then LookaheadTagRef_loop fuel' num_fwd (snd (LookaheadRef lx))
      else Some lx
  end.

(** [return lexed_tokens[num_fwd];] The inner [option] is [None] when the
    index is outside the deque. *)
Definition LookaheadTagRef (fuel : nat) (num_fwd : nat) (lx : Lexer)
  : option (option TaggedToken * Lexer) :=
  match LookaheadTagRef_loop fuel num_fwd lx with
  | None => None
  | Some lx' => Some (lexed_tokens lx' !! num_fwd, lx')
  end.

Definition LookaheadFloat (lx0 : Lexer) : AssemblerToken * Lexer :=
  let lx1 := SkipWs (FeedbackTokens lx0) in
  let pos_pre := pos lx1 in
  let '(failure_reason, lx2) := RunDfa float_dfa (ScanStart lx1) in
  (* Special case: lex at least a single char for no matches for errors to make sense *)
  let lx3 :=
    if (CursorPosition.index (scan_pos lx2) =? CursorPosition.index pos_pre)%nat
    then Step lx2 else lx2 in
  let '(tok_str, lx4) := ScanFinishOut lx3 in
  let tok :=
    match failure_reason with
    | None => mkToken TokenType.kFloatLit tok_str "" (Interval.mk 0 0)
    | Some reason =>
        mkToken TokenType.kInvalid tok_str reason (Interval.mk 0 (String.length tok_str))
    end in
  (tok, set_lexed_tokens (lexed_tokens lx4 ++ [(pos_pre, tok)]) lx4).

Definition Eat (lx : Lexer) : Lexer :=
  match lexed_tokens lx with
  | [] => snd (LexSingle lx)
  | _ :: rest => set_lexed_tokens rest lx
  end.

Definition EatAndReset (lx : Lexer) : Lexer :=
  SetIdentifierMatchRule IdentifierMatchRule.kTypical (Eat lx).

(** [std::generate_n(..., n, [this] { auto p = pos; return
    value_of(lexed_tokens.emplace_back(p, LexSingle())); })] *)
Fixpoint generate_tokens (n : nat) (lx : Lexer) : list AssemblerToken * Lexer :=
  match n with
  | O => ([], lx)
  | S n' =>
      let '(tok, lx') := lex_and_buffer lx in
      let '(toks, lx'') := generate_tokens n' lx' in
      (tok :: toks, lx'')
  end.

Definition LookaheadN (N : nat) (lx : Lexer) : list AssemblerToken * Lexer :=
  let filled_amt := Nat.min (List.length (lexed_tokens lx)) N in
  let filled := snd <$> take filled_amt (lexed_tokens lx) in
  let '(fresh, lx') := generate_tokens (N - filled_amt) lx in
  (filled ++ fresh, lx').

Fixpoint lex_n (n : nat) (lx : Lexer) : Lexer :=
  match n with
  | O => lx
  | S n' => lex_n n' (snd (LexSingle lx))
  end.

Definition EatN (N : nat) (lx : Lexer) : Lexer :=
  let consumed := Nat.min (List.length (lexed_tokens lx)) N in
  lex_n (N - consumed) (set_lexed_tokens (drop consumed (lexed_tokens lx)) lx).

(** ** Token values *)

Definition TokenTypeToStr (tp : TokenType.t) : string :=
  match tp with
  | TokenType.kGPR => "GPR"
  | TokenType.kFPR => "FPR"
  | TokenType.kSPR => "SPR"
  | TokenType.kCRField => "CR Field"
  | TokenType.kLt | TokenType.kGt | TokenType.kEq | TokenType.kSo => "CR Bit"
  | TokenType.kIdentifier => "Identifier"
  | TokenType.kStringLit => "String Literal"
  | TokenType.kDecimalLit => "Decimal Literal"
  | TokenType.kBinaryLit => "Binary Literal"
  | TokenType.kHexadecimalLit => "Hexadecimal Literal"
  | TokenType.kOctalLit => "Octal Literal"
  | TokenType.kFloatLit => "Float Literal"
  | TokenType.kInvalid => "Invalid"
  | TokenType.kLsh => "<<"
  | TokenType.kRsh => ">>"
  | TokenType.kComma => ","
  | TokenType.kLparen => "("
  | TokenType.kRparen => ")"
  | TokenType.kPipe => "|"
  | TokenType.kCaret => "^"
  | TokenType.kAmpersand => "&"
  | TokenType.kPlus => "+"
  | TokenType.kMinus => "-"
  | TokenType.kStar => "*"
  | TokenType.kSlash => "/"
  | TokenType.kTilde => "~"
  | TokenType.kAt => "@"
  | TokenType.kColon => ":"
  | TokenType.kGrave => "`"
  | TokenType.kDot => "."
  | TokenType.kEof => "End of File"
  | TokenType.kEol => "End of Line"
  end.

Definition TypeStr (tok : AssemblerToken) : string := TokenTypeToStr (token_type tok).

Definition ValStr (tok : AssemblerToken) : string :=
  match token_type tok with
  | TokenType.kEol => "<EOL>"
  | TokenType.kEof => "<EOF>"
  | _ => token_val tok
  end.

(** [std::accumulate(first, last, T{0}, step)] over the characters of a
    literal, at the width [w] of [T]. *)
Definition accumulate_chars (w : Z) (step : Z -> ascii -> Z) (s : string) : Z :=
  fold_left (fun acc c => wrap w (step acc c)) (list_ascii_of_string s) 0.

Definition hex_step (w : Z) (acc : Z) (c : ascii) : Z :=
  Z.lor (Z.shiftl acc 4) (wrap w (convert_nib c)).
Definition dec_step (acc : Z) (c : ascii) : Z := acc * 10 + (Z.of_nat (char_code c) - 48).
Definition oct_step (acc : Z) (c : ascii) : Z :=
  Z.lor (Z.shiftl acc 3) (Z.of_nat (char_code c) - 48).
Definition bin_step (acc : Z) (c : ascii) : Z :=
  Z.lor (Z.shiftl acc 1) (Z.of_nat (char_code c) - 48).

(** [eval_integral<T>(tp, val)] for the unsigned type of [w] bits. *)
Definition eval_integral (w : Z) (tp : TokenType.t) (val : string) : option Z :=
  match tp with
  | TokenType.kHexadecimalLit => Some (accumulate_chars w (hex_step w) (str_drop 2 val))
  | TokenType.kDecimalLit => Some (accumulate_chars w dec_step val)
  | TokenType.kOctalLit => Some (accumulate_chars w oct_step (str_drop 1 val))
  | TokenType.kBinaryLit => Some (accumulate_chars w bin_step val)
  | TokenType.kGPR | TokenType.kFPR => Some (accumulate_chars w dec_step (str_drop 1 val))
  | TokenType.kCRField => Some (accumulate_chars w dec_step (str_drop 2 val))
  | TokenType.kSPR => wrap w <$> sprg_map_find val
  | TokenType.kLt => Some 0
  | TokenType.kGt => Some 1
  | TokenType.kEq => Some 2
  | TokenType.kSo => Some 3
  | _ => None
  end.

(** [ConvertStringLiteral]: convert a string literal into its raw-data form.
    The octal and hexadecimal escape loops of the source read on while digits
    follow; [fuel] bounds them by the length of the literal. *)
Fixpoint escape_digits (is_digit : ascii -> bool) (step : Z -> ascii -> Z)
    (fuel : nat) (literal : string) (i : nat) (acc : Z) : nat * Z :=
  match fuel with
  | O => (i, acc)
  | S fuel' =>
      if is_digit (str_at literal i)
      then escape_digits is_digit step fuel' literal (S i)
             (wrap8 (step acc (str_at literal i)))
      else (i, acc)
  end.

Definition simple_escape (c : ascii) : ascii :=
  if Ascii.eqb c "a" then "007"
  else if Ascii.eqb c "b" then "008"
  else if Ascii.eqb c "f" then "012"
  else if Ascii.eqb c "n" then "010"
  else if Ascii.eqb c "r" then "013"
  else if Ascii.eqb c "t" then "009"
  else if Ascii.eqb c "v" then "011"
  else c.

Fixpoint ConvertStringLiteral_loop (fuel : nat) (literal : string) (i : nat) : list Z :=
  match fuel with
  | O => []
  | S fuel' =>
      if (i <? String.length literal - 1)%nat then
        if Ascii.eqb (str_at literal i) "\" then
          let i := S i in
          if is_octal (str_at literal i) then
            let '(i', octal_escape) :=
              escape_digits is_octal
                (fun acc c => Z.shiftl acc 3 + (Z.of_nat (char_code c) - 48))
                (String.length literal) literal i 0 in
            octal_escape :: ConvertStringLiteral_loop fuel' literal i'
          else if Ascii.eqb (str_at literal i) "x" then
            let '(i', hex_escape) :=
              escape_digits isxdigit
                (fun acc c => Z.shiftl acc 4 + wrap8 (convert_nib c))
                (String.length literal) literal (S i) 0 in
            hex_escape :: ConvertStringLiteral_loop fuel' literal i'
          else
            Z.of_nat (char_code (simple_escape (str_at literal i)))
              :: ConvertStringLiteral_loop fuel' literal (S i)
        else
          Z.of_nat (char_code (str_at literal i))
            :: ConvertStringLiteral_loop fuel' literal (S i)
      else []
  end.

Definition ConvertStringLiteral (literal : string) : list Z :=
  ConvertStringLiteral_loop (String.length literal) literal 1.

(** * GekkoIRGen: the intermediate representation *)

(** [struct GekkoInstruction] *)
Record GekkoInstruction := mkGekkoInstruction {
  (* Combination of a mnemonic index and variant:
     (<GekkoMnemonic> << 2) | (<variant bits>) *)
  mnemonic_index : nat;
  (* Below refers to GekkoParseResult::operand_pool *)
  op_index : nat;
  op_count : nat;
  (* Literal text of this instruction *)
  raw_text : string;
  line_number : nat;
  is_extended : bool
}.

(** [using ChunkVariant = std::variant<InstChunk, ByteChunk, PadChunk>]
    with [InstChunk = std::vector<GekkoInstruction>], [ByteChunk =
    std::vector<u8>] and [PadChunk = size_t]. *)
Inductive ChunkVariant :=
| InstChunk (insts : list GekkoInstruction)
| ByteChunk (bytes : list Z)
| PadChunk (count : Z).

Record IRBlock := mkIRBlock {
  chunks : list ChunkVariant;
  block_address : Z
}.

(** [IRBlock(u32 address)] *)
Definition IRBlock_new (address : Z) : IRBlock := mkIRBlock [] address.

(** [Tagged<Interval, u32>] *)
Abbreviation TaggedOperand := (Interval.t * Z)%type.

Record GekkoIR := mkGekkoIR {
  blocks : list IRBlock;
  operand_pool : list TaggedOperand
}.

(** The [u32 size] the accumulator lambda of [BlockEndAddress] assigns. *)
Definition chunk_size (chunk : ChunkVariant) : Z :=
  match chunk with
  | InstChunk insts => wrap32 (wrap64 (Z.of_nat (List.length insts) * 4))
  | ByteChunk bytes => wrap32 (Z.of_nat (List.length bytes))
  | PadChunk count => wrap32 count
  end.

(** [std::accumulate(chunks.begin(), chunks.end(), block_address, ...)] with a
    [u32] accumulator. *)
Definition BlockEndAddress (b : IRBlock) : Z :=
  fold_left (fun acc chunk => wrap32 (acc + chunk_size chunk)) (chunks b) (block_address b).

(** The number of bytes a chunk stands for: four per instruction, one per
    byte, the count of a pad chunk. *)
Definition chunk_bytes (chunk : ChunkVariant) : Z :=
  match chunk with
  | InstChunk insts => 4 * Z.of_nat (List.length insts)
  | ByteChunk bytes => Z.of_nat (List.length bytes)
  | PadChunk count => count
  end.

Definition sum_chunk_bytes (cs : list ChunkVariant) : Z :=
  fold_right (fun chunk acc => chunk_bytes chunk + acc) 0 cs.

(** ** Operators *)

Module AsmOp.
Inductive t :=
| kOr | kXor | kAnd | kLsh | kRsh | kAdd | kSub | kMul | kDiv | kNeg | kNot.
End AsmOp.

Module Terminal.
Inductive t :=
| kHex | kDec | kOct | kBin | kFlt | kStr | kId
| kGPR | kFPR | kSPR | kCRField | kLt | kGt | kEq | kSo | kDot.
End Terminal.

Module ParenType.
Inductive t := kNormal | kRelConv.
End ParenType.

(** The C++ operators on an unsigned type of [w] bits.  Operands narrower than
    [int] are promoted to [int], so a shift count is in range below
    [max w 32]; a shift count out of range and a division by zero have no
    defined result ([None]). *)
Definition binary_operator (w : Z) (op : AsmOp.t) (lhs rhs : Z) : option Z :=
  match op with
  | AsmOp.kOr => Some (Z.lor lhs rhs)
  | AsmOp.kXor => Some (Z.lxor lhs rhs)
  | AsmOp.kAnd => Some (Z.land lhs rhs)
  | AsmOp.kLsh =>
      if rhs <? Z.max w 32 then Some (wrap w (Z.shiftl lhs rhs)) else None
  | AsmOp.kRsh =>
      if rhs <? Z.max w 32 then Some (Z.shiftr lhs rhs) else None
  | AsmOp.kAdd => Some (wrap w (lhs + rhs))
  | AsmOp.kSub => Some (wrap w (lhs - rhs))
  | AsmOp.kMul => Some (wrap w (lhs * rhs))
  | AsmOp.kDiv => if rhs =? 0 then None else Some (lhs / rhs)
  | AsmOp.kNeg | AsmOp.kNot => None
  end.

Definition unary_operator (w : Z) (op : AsmOp.t) (val : Z) : option Z :=
  match op with
  | AsmOp.kNeg => Some (wrap w (- val))
  | AsmOp.kNot => Some (not_w w val)
  | _ => None
  end.

(** * Running the assembler: outcomes and the parse state *)

(** A run either finishes, stops in behaviour the C++ standard leaves
    undefined or on a failed [ASSERT] ([Abort]), or exceeds the recursion and
    iteration budget given to the model ([OutOfFuel]). *)
Inductive outcome (A : Type) : Type :=
| Done (a : A)
| Abort (why : string)
| OutOfFuel.
Arguments Done {A} a.
Arguments Abort {A} why.
Arguments OutOfFuel {A}.

(** [struct ParseState { Lexer lexer; ParsePlugin& plugin;
    std::optional<AssemblerError> error; bool eof; }] *)
Record ParseState (P : Type) := mkParseState {
  lexer : Lexer;
  plugin : P;
  error : option AssemblerError.t;
  eof : bool
}.
Arguments mkParseState {P} _ _ _ _.
Arguments lexer {P} _.
Arguments plugin {P} _.
Arguments error {P} _.
Arguments eof {P} _.

(** State passing over the parse state. *)
Definition M (P A : Type) : Type := ParseState P -> outcome (A * ParseState P).

Definition ret {P A : Type} (a : A) : M P A := fun st => Done (a, st).

Definition bind {P A B : Type} (c : M P A) (k : A -> M P B) : M P B :=
  fun st =>
    match c st with
    | Done (a, st') => k a st'
    | Abort why => Abort why
    | OutOfFuel => OutOfFuel
    end.

Declare Scope asm_scope.
Delimit Scope asm_scope with asm.
Notation "x <- c ;; k" := (bind c (fun x => k))
  (at level 100, c at next level, k at level 200, right associativity) : asm_scope.
Notation "c ;; k" := (bind c (fun _ => k))
  (at level 100, k at level 200, right associativity) : asm_scope.
Local Open Scope asm_scope.

Definition abort {P A : Type} (why : string) : M P A := fun _ => Abort why.
Definition out_of_fuel {P A : Type} : M P A := fun _ => OutOfFuel.
Definition get_state {P : Type} : M P (ParseState P) := fun st => Done (st, st).
Definition get_error {P : Type} : M P (option AssemblerError.t) :=
  fun st => Done (error st, st).
Definition set_error {P : Type} (e : option AssemblerError.t) : M P unit :=
  fun st => Done (tt, mkParseState (lexer st) (plugin st) e (eof st)).
Definition get_eof {P : Type} : M P bool := fun st => Done (eof st, st).
Definition set_eof {P : Type} (b : bool) : M P unit :=
  fun st => Done (tt, mkParseState (lexer st) (plugin st) (error st) b).
Definition get_plugin {P : Type} : M P P := fun st => Done (plugin st, st).
Definition put_plugin {P : Type} (p : P) : M P unit :=
  fun st => Done (tt, mkParseState (lexer st) p (error st) (eof st)).
Definition modify_plugin {P : Type} (f : P -> P) : M P unit :=
  fun st => Done (tt, mkParseState (lexer st) (f (plugin st)) (error st) (eof st)).

(** A lexer member function that returns a value. *)
Definition lex {P A : Type} (f : Lexer -> A * Lexer) : M P A :=
  fun st =>
    let '(a, lx) := f (lexer st) in
    Done (a, mkParseState lx (plugin st) (error st) (eof st)).
(** A lexer member function returning [void]. *)
Definition lex_ {P : Type} (f : Lexer -> Lexer) : M P unit :=
  fun st => Done (tt, mkParseState (f (lexer st)) (plugin st) (error st) (eof st)).
(** A lexer observer. *)
Definition lex_get {P A : Type} (f : Lexer -> A) : M P A :=
  fun st => Done (f (lexer st), st).

(** [if (state.error) { return; }] *)
Definition unless_error {P : Type} (k : M P unit) : M P unit :=
  e <- get_error ;; match e with Some _ => ret tt | None => k end.

Definition when {P : Type} (b : bool) (k : M P unit) : M P unit :=
  if b then k else ret tt.

Definition HasToken {P : Type} (tp : TokenType.t) : M P bool :=
  t <- lex LookaheadType ;; ret (TokenType.eqb t tp).

Definition EmitErrorHere {P : Type} (message : string) : M P unit :=
  cur_token <- lex Lookahead ;;
  current_line <- lex_get CurrentLine ;;
  line_number <- lex_get LineNumber ;;
  col_number <- lex_get ColNumber ;;
  match token_type cur_token with
  | TokenType.kInvalid =>
      set_error (Some (AssemblerError.mk (invalid_reason cur_token) current_line
                         line_number
                         (col_number + Interval.begin (invalid_region cur_token))
                         (Interval.len (invalid_region cur_token))))
  | _ =>
      set_error (Some (AssemblerError.mk message current_line line_number col_number
                         (String.length (token_val cur_token))))
  end.

Definition ParseToken {P : Type} (tp : TokenType.t) : M P unit :=
  tok <- lex LookaheadRef ;;
  if TokenType.eqb (token_type tok) tp then lex_ Eat
  else EmitErrorHere
         ("Expected '" ++ TokenTypeToStr tp ++ "' but found '" ++ ValStr tok ++ "'")%string.

(** ** Parser tables *)

Module ParseAlg.
Inductive t :=
| None | Op1 | NoneOrOp1 | Op1Off1 | Op2 | Op1Or2 | Op3 | Op2Or3 | Op4 | Op5
| Op1Off1Op2.
End ParseAlg.

Module ParseInfo.
Record t := mk { mnemonic_index : nat; parse_algorithm : ParseAlg.t }.
End ParseInfo.

(** Mapping of directive names to an enumeration. *)
Definition directives_map : list (string * GekkoDirective.t) :=
  [("byte", GekkoDirective.kByte);
   ("2byte", GekkoDirective.k2byte);
   ("4byte", GekkoDirective.k4byte);
   ("8byte", GekkoDirective.k8byte);
   ("float", GekkoDirective.kFloat);
   ("double", GekkoDirective.kDouble);
   ("locate", GekkoDirective.kLocate);
   ("padalign", GekkoDirective.kPadAlign);
   ("align", GekkoDirective.kAlign);
   ("zeros", GekkoDirective.kZeros);
   ("skip", GekkoDirective.kSkip);
   ("defvar", GekkoDirective.kDefVar);
   ("ascii", GekkoDirective.kAscii);
   ("asciz", GekkoDirective.kAsciz)]%string.

Definition directives_map_find (name : string) : option GekkoDirective.t :=
  snd <$> List.find (fun kv => String.eqb (fst kv) name) directives_map.

(** ** The plugin interface *)

(** [class ParsePlugin]: overridable skeleton functions which get called when
    the parser parses a given point of interest.  [P] is the state of the
    plugin object; the callouts reach the owning parse state through [M]. *)
Class ParsePlugin (P : Type) := {
  ForwardError : AssemblerError.t -> P -> P;
  Error : P -> option AssemblerError.t;
  PostParseAction : M P unit;
  (* Nonterminal callouts *)
  OnDirectivePre : GekkoDirective.t -> M P unit;
  OnDirectivePost : GekkoDirective.t -> M P unit;
  OnInstructionPre : ParseInfo.t -> bool -> M P unit;
  OnInstructionPost : ParseInfo.t -> bool -> M P unit;
  OnOperandPre : M P unit;
  OnOperandPost : M P unit;
  OnResolvedExprPre : M P unit;
  OnResolvedExprPost : M P unit;
  (* Operator callouts *)
  OnOperator : AsmOp.t -> M P unit;
  (* Individual token callouts *)
  OnTerminal : Terminal.t -> AssemblerToken -> M P unit;
  OnHiaddr : string -> M P unit;
  OnLoaddr : string -> M P unit;
  OnOpenParen : ParenType.t -> M P unit;
  OnCloseParen : ParenType.t -> M P unit;
  OnError : M P unit;
  OnLabelDecl : string -> M P unit;
  OnVarDecl : string -> M P unit
}.

(** * GekkoIRGen: the IR generating plugin *)

Module EvalMode.
Inductive t := RelAddrDoublePass | AbsAddrSinglePass.
End EvalMode.

(** The closures on the fixup stack ([std::function<u32()>]), one constructor
    for each place that builds one; the arguments are the captured values.
    An [evaluator] is the captured function pointer; it has no result where
    the C++ operator has none. *)
Inductive Fixup :=
| FixupLiteral (lit : Z)
| FixupSymbolResolve (sym : string) (absolute : bool) (source_address : Z)
    (err_on_fail : AssemblerError.t)
| FixupUnaryEvaluator (evaluator : Z -> option Z) (sub : Fixup)
| FixupBinaryEvaluator (evaluator : Z -> Z -> option Z) (lhs rhs : Fixup)
| FixupAbsoluteAddressConv (inst_address : Z) (sub : Fixup).

(** [using EvalStack = std::variant<std::vector<u8>, std::vector<u16>,
    std::vector<u32>, std::vector<u64>, std::vector<float>,
    std::vector<double>>]; a [float] or [double] is kept as its bit pattern. *)
Inductive EvalStack :=
| StackU8 (vec : list Z)
| StackU16 (vec : list Z)
| StackU32 (vec : list Z)
| StackU64 (vec : list Z)
| StackFloat (vec : list Z)
| StackDouble (vec : list Z).

(** The data members of [class GekkoIRPlugin : public ParsePlugin].
    [active_block] points into [output_result.blocks] and is kept as the index
    of the block; [active_var] points at a slot of [constants] and is kept as
    its key; [owner_error] is the member of the base class. *)
Record GekkoIRPlugin := mkGekkoIRPlugin {
  output_result : GekkoIR;
  active_block : nat;
  build_inst : GekkoInstruction;
  active_var : option string;
  operand_scan_begin : nat;
  labels : gmap string Z;
  constants : gmap string Z;
  symset : gset string;
  evaluation_mode : EvalMode.t;
  fixup_stack : list Fixup;
  operand_fixups : list Fixup;
  operand_str_start : nat;
  eval_stack : EvalStack;
  string_lit : string;
  active_directive : GekkoDirective.t;
  owner_error : option AssemblerError.t
}.

Definition set_output_result (v : GekkoIR) (p : GekkoIRPlugin) : GekkoIRPlugin :=
  mkGekkoIRPlugin v (active_block p) (build_inst p) (active_var p) (operand_scan_begin p) (labels p) (constants p) (symset p) (evaluation_mode p) (fixup_stack p) (operand_fixups p) (operand_str_start p) (eval_stack p) (string_lit p) (active_directive p) (owner_error p).
Definition set_active_block (v : nat) (p : GekkoIRPlugin) : GekkoIRPlugin :=
  mkGekkoIRPlugin (output_result p) v (build_inst p) (active_var p) (operand_scan_begin p) (labels p) (constants p) (symset p) (evaluation_mode p) (fixup_stack p) (operand_fixups p) (operand_str_start p) (eval_stack p) (string_lit p) (active_directive p) (owner_error p).
Definition set_build_inst (v : GekkoInstruction) (p : GekkoIRPlugin) : GekkoIRPlugin :=
  mkGekkoIRPlugin (output_result p) (active_block p) v (active_var p) (operand_scan_begin p) (labels p) (constants p) (symset p) (evaluation_mode p) (fixup_stack p) (operand_fixups p) (operand_str_start p) (eval_stack p) (string_lit p) (active_directive p) (owner_error p).
Definition set_active_var (v : option string) (p : GekkoIRPlugin) : GekkoIRPlugin :=
  mkGekkoIRPlugin (output_result p) (active_block p) (build_inst p) v (operand_scan_begin p) (labels p) (constants p) (symset p) (evaluation_mode p) (fixup_stack p) (operand_fixups p) (operand_str_start p) (eval_stack p) (string_lit p) (active_directive p) (owner_error p).
Definition set_operand_scan_begin (v : nat) (p : GekkoIRPlugin) : GekkoIRPlugin :=
  mkGekkoIRPlugin (output_result p) (active_block p) (build_inst p) (active_var p) v (labels p) (constants p) (symset p) (evaluation_mode p) (fixup_stack p) (operand_fixups p) (operand_str_start p) (eval_stack p) (string_lit p) (active_directive p) (owner_error p).
Definition set_labels (v : gmap string Z) (p : GekkoIRPlugin) : GekkoIRPlugin :=
  mkGekkoIRPlugin (output_result p) (active_block p) (build_inst p) (active_var p) (operand_scan_begin p) v (constants p) (symset p) (evaluation_mode p) (fixup_stack p) (operand_fixups p) (operand_str_start p) (eval_stack p) (string_lit p) (active_directive p) (owner_error p).
Definition set_constants (v : gmap string Z) (p : GekkoIRPlugin) : GekkoIRPlugin :=
  mkGekkoIRPlugin (output_result p) (active_block p) (build_inst p) (active_var p) (operand_scan_begin p) (labels p) v (symset p) (evaluation_mode p) (fixup_stack p) (operand_fixups p) (operand_str_start p) (eval_stack p) (string_lit p) (active_directive p) (owner_error p).
Definition set_symset (v : gset string) (p : GekkoIRPlugin) : GekkoIRPlugin :=
  mkGekkoIRPlugin (output_result p) (active_block p) (build_inst p) (active_var p) (operand_scan_begin p) (labels p) (constants p) v (evaluation_mode p) (fixup_stack p) (operand_fixups p) (operand_str_start p) (eval_stack p) (string_lit p) (active_directive p) (owner_error p).
Definition set_evaluation_mode (v : EvalMode.t) (p : GekkoIRPlugin) : GekkoIRPlugin :=
  mkGekkoIRPlugin (output_result p) (active_block p) (build_inst p) (active_var p) (operand_scan_begin p) (labels p) (constants p) (symset p) v (fixup_stack p) (operand_fixups p) (operand_str_start p) (eval_stack p) (string_lit p) (active_directive p) (owner_error p).
Definition set_fixup_stack (v : list Fixup) (p : GekkoIRPlugin) : GekkoIRPlugin :=
  mkGekkoIRPlugin (output_result p) (active_block p) (build_inst p) (active_var p) (operand_scan_begin p) (labels p) (constants p) (symset p) (evaluation_mode p) v (operand_fixups p) (operand_str_start p) (eval_stack p) (string_lit p) (active_directive p) (owner_error p).
Definition set_operand_fixups (v : list Fixup) (p : GekkoIRPlugin) : GekkoIRPlugin :=
  mkGekkoIRPlugin (output_result p) (active_block p) (build_inst p) (active_var p) (operand_scan_begin p) (labels p) (constants p) (symset p) (evaluation_mode p) (fixup_stack p) v (operand_str_start p) (eval_stack p) (string_lit p) (active_directive p) (owner_error p).
Definition set_operand_str_start (v : nat) (p : GekkoIRPlugin) : GekkoIRPlugin :=
  mkGekkoIRPlugin (output_result p) (active_block p) (build_inst p) (active_var p) (operand_scan_begin p) (labels p) (constants p) (symset p) (evaluation_mode p) (fixup_stack p) (operand_fixups p) v (eval_stack p) (string_lit p) (active_directive p) (owner_error p).
Definition set_eval_stack (v : EvalStack) (p : GekkoIRPlugin) : GekkoIRPlugin :=
  mkGekkoIRPlugin (output_result p) (active_block p) (build_inst p) (active_var p) (operand_scan_begin p) (labels p) (constants p) (symset p) (evaluation_mode p) (fixup_stack p) (operand_fixups p) (operand_str_start p) v (string_lit p) (active_directive p) (owner_error p).
Definition set_string_lit (v : string) (p : GekkoIRPlugin) : GekkoIRPlugin :=
  mkGekkoIRPlugin (output_result p) (active_block p) (build_inst p) (active_var p) (operand_scan_begin p) (labels p) (constants p) (symset p) (evaluation_mode p) (fixup_stack p) (operand_fixups p) (operand_str_start p) (eval_stack p) v (active_directive p) (owner_error p).
Definition set_active_directive (v : GekkoDirective.t) (p : GekkoIRPlugin) : GekkoIRPlugin :=
  mkGekkoIRPlugin (output_result p) (active_block p) (build_inst p) (active_var p) (operand_scan_begin p) (labels p) (constants p) (symset p) (evaluation_mode p) (fixup_stack p) (operand_fixups p) (operand_str_start p) (eval_stack p) (string_lit p) v (owner_error p).
Definition set_owner_error (v : option AssemblerError.t) (p : GekkoIRPlugin) : GekkoIRPlugin :=
  mkGekkoIRPlugin (output_result p) (active_block p) (build_inst p) (active_var p) (operand_scan_begin p) (labels p) (constants p) (symset p) (evaluation_mode p) (fixup_stack p) (operand_fixups p) (operand_str_start p) (eval_stack p) (string_lit p) (active_directive p) v.

(** What the C++ standard and the C library leave to the platform: the order
    in which the two operand closures of a binary evaluator are called
    ([evaluator(lhs(), rhs())]), and the floating point conversions
    ([std::stof], [std::stod], [static_cast<float>], [static_cast<double>],
    each followed by the [std::bit_cast] to the pattern kept on the stack). *)
Record Platform := mkPlatform {
  args_right_to_left : bool;
  stof : string -> Z;
  stod : string -> Z;
  to_float : Z -> Z;
  to_double : Z -> Z
}.

(** ** Fixups *)

(** Calling a fixup closure: it reads the symbol tables of the plugin and may
    write [owner->error]; [None] where an evaluator has no defined result. *)
Fixpoint call_fixup (rtl : bool) (labels constants : gmap string Z) (f : Fixup)
    (err : option AssemblerError.t) : option (Z * option AssemblerError.t) :=
  match f with
  | FixupLiteral lit => Some (lit, err)
  | FixupSymbolResolve sym absolute source_address err_on_fail =>
      match labels !! sym with
      | Some address =>
          Some (if absolute then address else wrap32 (address - source_address), err)
      | None =>
          match constants !! sym with
          | Some value => Some (wrap32 value, err)
          | None => Some (0, Some err_on_fail)
          end
      end
  | FixupUnaryEvaluator evaluator sub =>
      match call_fixup rtl labels constants sub err with
      | Some (v, err1) =>
          match evaluator v with Some r => Some (r, err1) | None => None end
      | None => None
      end
  | FixupBinaryEvaluator evaluator lhs rhs =>
      if rtl then
        match call_fixup rtl labels constants rhs err with
        | Some (r, err1) =>
            match call_fixup rtl labels constants lhs err1 with
            | Some (l, err2) =>
                match evaluator l r with Some v => Some (v, err2) | None => None end
            | None => None
            end
        | None => None
        end
      else
        match call_fixup rtl labels constants lhs err with
        | Some (l, err1) =>
            match call_fixup rtl labels constants rhs err1 with
            | Some (r, err2) =>
                match evaluator l r with Some v => Some (v, err2) | None => None end
            | None => None
            end
        | None => None
        end
  | FixupAbsoluteAddressConv inst_address sub =>
      match call_fixup rtl labels constants sub err with
      | Some (v, err1) => Some (wrap32 (v - inst_address), err1)
      | None => None
      end
  end.

(** ** Chunks of the active block *)

(** [GetChunk<T>()] followed by an update of the chunk it returns. *)
Definition alter_InstChunk (f : list GekkoInstruction -> list GekkoInstruction)
    (cs : list ChunkVariant) : list ChunkVariant :=
  match last cs with
  | Some (InstChunk insts) => removelast cs ++ [InstChunk (f insts)]
  | _ => cs ++ [InstChunk (f [])]
  end.

Definition alter_ByteChunk (f : list Z -> list Z) (cs : list ChunkVariant)
  : list ChunkVariant :=
  match last cs with
  | Some (ByteChunk bytes) => removelast cs ++ [ByteChunk (f bytes)]
  | _ => cs ++ [ByteChunk (f [])]
  end.

Definition alter_PadChunk (f : Z -> Z) (cs : list ChunkVariant) : list ChunkVariant :=
  match last cs with
  | Some (PadChunk count) => removelast cs ++ [PadChunk (f count)]
  | _ => cs ++ [PadChunk (f 0)]
  end.

Definition alter_chunks (f : list ChunkVariant -> list ChunkVariant) (b : IRBlock)
  : IRBlock :=
  mkIRBlock (f (chunks b)) (block_address b).

(** The bytes [AddBytes<T>] pushes for a value of [size] bytes, big-endian. *)
Definition big_endian_bytes (size : nat) (val : Z) : list Z :=
  (fun i : nat => Z.land (Z.shiftr val (8 * Z.of_nat i)) 255) <$> rev (seq 0 size).

(** ** The evaluation stack of the single-pass mode *)

Definition stack_vec (s : EvalStack) : list Z :=
  match s with
  | StackU8 vec | StackU16 vec | StackU32 vec | StackU64 vec
  | StackFloat vec | StackDouble vec => vec
  end.

Definition stack_with_vec (s : EvalStack) (vec : list Z) : EvalStack :=
  match s with
  | StackU8 _ => StackU8 vec
  | StackU16 _ => StackU16 vec
  | StackU32 _ => StackU32 vec
  | StackU64 _ => StackU64 vec
  | StackFloat _ => StackFloat vec
  | StackDouble _ => StackDouble vec
  end.

(** Width in bits of an integral element type; none for [float], [double]. *)
Definition stack_width (s : EvalStack) : option Z :=
  match s with
  | StackU8 _ => Some 8
  | StackU16 _ => Some 16
  | StackU32 _ => Some 32
  | StackU64 _ => Some 64
  | StackFloat _ | StackDouble _ => None
  end.

(** [sizeof(T)] of the element type. *)
Definition stack_elem_size (s : EvalStack) : nat :=
  match s with
  | StackU8 _ => 1
  | StackU16 _ => 2
  | StackU32 _ | StackFloat _ => 4
  | StackU64 _ | StackDouble _ => 8
  end.

(** [eval_stack = {}] value-initialises the first alternative. *)
Definition EvalStack_default : EvalStack := StackU8 [].

Section GekkoIRPluginImpl.
Variable platform : Platform.

(** [static_cast<val_type>(val)] for the element type of the stack. *)
Definition static_cast_elem (s : EvalStack) (val : Z) : Z :=
  match s with
  | StackU8 _ => wrap8 val
  | StackU16 _ => wrap16 val
  | StackU32 _ => wrap32 val
  | StackU64 _ => wrap64 val
  | StackFloat _ => to_float platform val
  | StackDouble _ => to_double platform val
  end.

(** [GekkoIRPlugin(GekkoIR& result, u32 base_addr)].  The constructor leaves
    [build_inst], [evaluation_mode], [operand_str_start] and
    [active_directive] without an initial value; every use of them follows a
    callout that assigns them. *)
Definition GekkoIRPlugin_new (base_addr : Z) : GekkoIRPlugin :=
  mkGekkoIRPlugin
    (mkGekkoIR [IRBlock_new base_addr] [])
    0%nat
    (mkGekkoInstruction 0 0 0 "" 0 false)
    None
    0%nat
    ∅ ∅ ∅
    EvalMode.RelAddrDoublePass
    [] []
    0%nat
    EvalStack_default
    ""%string
    GekkoDirective.kByte
    None.

(** *** Helper functions *)

(** [*active_block] *)
Definition get_active_block : M GekkoIRPlugin IRBlock :=
  p <- get_plugin ;;
  match blocks (output_result p) !! active_block p with
  | Some b => ret b
  | None => abort "active_block does not point to a block"
  end.

Definition modify_active_block (f : IRBlock -> IRBlock) : M GekkoIRPlugin unit :=
  p <- get_plugin ;;
  match blocks (output_result p) !! active_block p with
  | Some b =>
      put_plugin
        (set_output_result
           (mkGekkoIR (<[active_block p := f b]> (blocks (output_result p)))
                      (operand_pool (output_result p))) p)
  | None => abort "active_block does not point to a block"
  end.

Definition CurrentAddress : M GekkoIRPlugin Z :=
  b <- get_active_block ;; ret (BlockEndAddress b).

Definition LookupVar (p : GekkoIRPlugin) (var : string) : option Z :=
  constants p !! var.

Definition LookupLabel (p : GekkoIRPlugin) (lab : string) : option Z :=
  labels p !! lab.

Definition AddStringBytes (str : string) (null_term : bool) : M GekkoIRPlugin unit :=
  modify_active_block
    (alter_chunks
       (alter_ByteChunk
          (fun bytes =>
             bytes ++ ConvertStringLiteral str ++ (if null_term then [0] else [])))).

(** [AddBytes<T>(val)] with [size = sizeof(T)]; a [float] or [double] is
    pushed through its bit pattern. *)
Definition AddBytes (size : nat) (val : Z) : M GekkoIRPlugin unit :=
  modify_active_block
    (alter_chunks (alter_ByteChunk (fun bytes => bytes ++ big_endian_bytes size val))).

(** [(1 << bits)] is an [int] expression: it and the [- 1] that follows are
    defined for [bits <= 30]. *)
Definition int_shl1 (bits : Z) : option Z :=
  if bits <=? 30 then Some (2 ^ bits) else None.

Definition PadAlign (bits : Z) : M GekkoIRPlugin unit :=
  match int_shl1 bits with
  | None => abort "1 << bits overflows int"
  | Some pow =>
      let align_mask := pow - 1 in
      current_addr <- CurrentAddress ;;
      if Z.land current_addr align_mask =? 0 then ret tt
      else
        modify_active_block
          (alter_chunks
             (alter_PadChunk
                (fun current_pad =>
                   wrap64 (current_pad
                           + wrap32 (pow - Z.land current_addr align_mask)))))
  end.

Definition PadSpace (space : Z) : M GekkoIRPlugin unit :=
  modify_active_block
    (alter_chunks (alter_PadChunk (fun current_pad => wrap64 (current_pad + space)))).

(** [active_block = &output_result.blocks.emplace_back(address);]
    The argument is converted to the [u32] parameter of the function. *)
Definition StartBlock (address : Z) : M GekkoIRPlugin unit :=
  modify_plugin
    (fun p =>
       set_active_block (List.length (blocks (output_result p)))
         (set_output_result
            (mkGekkoIR (blocks (output_result p) ++ [IRBlock_new (wrap32 address)])
                       (operand_pool (output_result p))) p)).

Definition StartBlockAlign (bits : Z) : M GekkoIRPlugin unit :=
  match int_shl1 bits with
  | None => abort "1 << bits overflows int"
  | Some pow =>
      let align_mask := pow - 1 in
      current_addr <- CurrentAddress ;;
      if Z.land current_addr align_mask =? 0 then ret tt
      else StartBlock (wrap32 (pow + Z.land current_addr (not_w 32 align_mask)))
  end.

Definition StartInstruction (mnemonic_index : nat) (extended : bool)
  : M GekkoIRPlugin unit :=
  current_line <- lex_get CurrentLine ;;
  line_number <- lex_get LineNumber ;;
  modify_plugin
    (fun p =>
       set_operand_scan_begin (List.length (operand_pool (output_result p)))
         (set_build_inst
            (mkGekkoInstruction mnemonic_index 0 0 current_line line_number extended)
            p)).

Definition pop_fixup : M GekkoIRPlugin Fixup :=
  p <- get_plugin ;;
  match fixup_stack p with
  | top :: rest => put_plugin (set_fixup_stack rest p) ;; ret top
  | [] => abort "fixup_stack.top() on an empty stack"
  end.

Definition push_fixup (f : Fixup) : M GekkoIRPlugin unit :=
  modify_plugin (fun p => set_fixup_stack (f :: fixup_stack p) p).

Definition AddBinaryEvaluator (evaluator : Z -> Z -> option Z) : M GekkoIRPlugin unit :=
  rhs <- pop_fixup ;;
  lhs <- pop_fixup ;;
  push_fixup (FixupBinaryEvaluator evaluator lhs rhs).

Definition AddUnaryEvaluator (evaluator : Z -> option Z) : M GekkoIRPlugin unit :=
  sub <- pop_fixup ;;
  push_fixup (FixupUnaryEvaluator evaluator sub).

Definition AddAbsoluteAddressConv : M GekkoIRPlugin unit :=
  inst_address <- CurrentAddress ;;
  sub <- pop_fixup ;;
  push_fixup (FixupAbsoluteAddressConv inst_address sub).

Definition AddLiteral (lit : Z) : M GekkoIRPlugin unit :=
  push_fixup (FixupLiteral lit).

Definition AddSymbolResolve (sym : string) (absolute : bool) : M GekkoIRPlugin unit :=
  source_address <- CurrentAddress ;;
  current_line <- lex_get CurrentLine ;;
  line_number <- lex_get LineNumber ;;
  (* Lexer should currently point to the label, as it hasn't been eaten yet *)
  col_number <- lex_get ColNumber ;;
  let err_on_fail :=
    AssemblerError.mk ("Unresolved symbol '" ++ sym ++ "'")%string
      current_line line_number col_number (String.length sym) in
  push_fixup (FixupSymbolResolve sym absolute source_address err_on_fail).

(** [str_right - str_left] on [size_t] *)
Definition size_t_sub (a b : nat) : nat :=
  Z.to_nat (wrap64 (Z.of_nat a - Z.of_nat b)).

Definition SaveOperandFixup (str_left str_right : nat) : M GekkoIRPlugin unit :=
  top <- pop_fixup ;;
  modify_plugin
    (fun p =>
       set_output_result
         (mkGekkoIR (blocks (output_result p))
            (operand_pool (output_result p)
             ++ [(Interval.mk str_left (size_t_sub str_right str_left), 0)]))
         (set_operand_fixups (operand_fixups p ++ [top]) p)).

(** The body of the loop of [RunFixups] from index [i] on. *)
Fixpoint RunFixups_from (fixups : list Fixup) (i : nat) : M GekkoIRPlugin unit :=
  match fixups with
  | [] => ret tt
  | f :: rest =>
      p <- get_plugin ;;
      e <- get_error ;;
      match call_fixup (args_right_to_left platform) (labels p) (constants p) f e with
      | None => abort "an evaluator without a defined result"
      | Some (v, e') =>
          set_error e' ;;
          match operand_pool (output_result p) !! i with
          | None => abort "operand_pool[i] out of range"
          | Some (tag, _) =>
              put_plugin
                (set_output_result
                   (mkGekkoIR (blocks (output_result p))
                      (<[i := (tag, v)]> (operand_pool (output_result p)))) p) ;;
              match e' with
              | Some _ => ret tt
              | None => RunFixups_from rest (S i)
              end
          end
      end
  end.

Definition RunFixups : M GekkoIRPlugin unit :=
  p <- get_plugin ;; RunFixups_from (operand_fixups p) 0.

Definition FinishInstruction : M GekkoIRPlugin unit :=
  p <- get_plugin ;;
  let inst := build_inst p in
  let inst' :=
    mkGekkoInstruction (mnemonic_index inst) (operand_scan_begin p)
      (size_t_sub (List.length (operand_pool (output_result p))) (operand_scan_begin p))
      (raw_text inst) (line_number inst) (is_extended inst) in
  put_plugin (set_build_inst inst' p) ;;
  modify_active_block (alter_chunks (alter_InstChunk (fun insts => insts ++ [inst']))) ;;
  modify_plugin (set_operand_scan_begin 0%nat).

Definition get_eval_stack : M GekkoIRPlugin EvalStack :=
  p <- get_plugin ;; ret (eval_stack p).

Definition put_eval_stack (s : EvalStack) : M GekkoIRPlugin unit :=
  modify_plugin (set_eval_stack s).

(** [PushCast<T>(val)]: [vec.push_back(static_cast<val_type>(val))] *)
Definition PushCast (val : Z) : M GekkoIRPlugin unit :=
  s <- get_eval_stack ;;
  put_eval_stack (stack_with_vec s (stack_vec s ++ [static_cast_elem s val])).

(** [VISIT_BINARY_OP]: [auto rhs = vec.back(); vec.pop_back();
    vec.back() = vec.back() OPERATOR rhs;] and [VISIT_UNARY_OP]:
    [vec.back() = OPERATOR vec.back();]; on a floating point stack both
    are [ASSERT(false)]. *)
Definition EvalOperatorAbs (operation : AsmOp.t) : M GekkoIRPlugin unit :=
  s <- get_eval_stack ;;
  match stack_width s with
  | None => abort "ASSERT(false): operator on a floating point stack"
  | Some w =>
      match operation with
      | AsmOp.kNeg | AsmOp.kNot =>
          match last (stack_vec s) with
          | None => abort "vec.back() on an empty vector"
          | Some val =>
              match unary_operator w operation val with
              | None => abort "operator without a defined result"
              | Some r => put_eval_stack (stack_with_vec s (removelast (stack_vec s) ++ [r]))
              end
          end
      | _ =>
          match last (stack_vec s) with
          | None => abort "vec.back() on an empty vector"
          | Some rhs =>
              let vec := removelast (stack_vec s) in
              match last vec with
              | None => abort "vec.back() on an empty vector"
              | Some lhs =>
                  match binary_operator w operation lhs rhs with
                  | None => abort "operator without a defined result"
                  | Some r => put_eval_stack (stack_with_vec s (removelast vec ++ [r]))
                  end
              end
          end
      end
  end.

Definition EvalOperatorRel (operation : AsmOp.t) : M GekkoIRPlugin unit :=
  match operation with
  | AsmOp.kNeg | AsmOp.kNot => AddUnaryEvaluator (unary_operator 32 operation)
  | _ => AddBinaryEvaluator (binary_operator 32 operation)
  end.

Definition is_value_terminal (type : Terminal.t) : bool :=
  match type with
  | Terminal.kHex | Terminal.kDec | Terminal.kOct | Terminal.kBin
  | Terminal.kGPR | Terminal.kFPR | Terminal.kSPR | Terminal.kCRField
  | Terminal.kLt | Terminal.kGt | Terminal.kEq | Terminal.kSo => true
  | _ => false
  end.

Definition EvalTerminalRel (type : Terminal.t) (tok : AssemblerToken)
  : M GekkoIRPlugin unit :=
  match type with
  | Terminal.kDot => a <- CurrentAddress ;; AddLiteral a
  | Terminal.kId =>
      p <- get_plugin ;;
      match labels p !! token_val tok with
      | Some address => AddLiteral address
      | None =>
          match constants p !! token_val tok with
          | Some value => AddLiteral (wrap32 value)
          | None => AddSymbolResolve (token_val tok) false
          end
      end
  | _ =>
      if is_value_terminal type then
        match eval_integral 32 (token_type tok) (token_val tok) with
        | Some val => AddLiteral val
        | None => abort "ASSERT(val.has_value())"
        end
      else
        (* Parser should disallow this from happening *)
        abort "ASSERT(false)"
  end.

(** [tok.EvalToken<T>()] for the element type of the stack. *)
Definition EvalToken (s : EvalStack) (tok : AssemblerToken) : option Z :=
  match s with
  | StackFloat _ =>
      match token_type tok with
      | TokenType.kFloatLit => Some (stof platform (token_val tok))
      | _ => None
      end
  | StackDouble _ =>
      match token_type tok with
      | TokenType.kFloatLit => Some (stod platform (token_val tok))
      | _ => None
      end
  | _ =>
      match stack_width s with
      | Some w => eval_integral w (token_type tok) (token_val tok)
      | None => None
      end
  end.

(** [EvalTerminalAbs] visits the stack with [EvalTerminalAbsGeneric<T>]. *)
Definition EvalTerminalAbs (type : Terminal.t) (tok : AssemblerToken)
  : M GekkoIRPlugin unit :=
  s <- get_eval_stack ;;
  match type with
  | Terminal.kDot => a <- CurrentAddress ;; PushCast a
  | Terminal.kId =>
      p <- get_plugin ;;
      match labels p !! token_val tok with
      | Some address => PushCast address
      | None =>
          match constants p !! token_val tok with
          | Some value => PushCast value
          | None =>
              EmitErrorHere
                ("Undefined reference to Label/Constant '" ++ ValStr tok ++ "'")%string
          end
      end
  | _ =>
      if is_value_terminal type || match type with Terminal.kFlt => true | _ => false end
      then
        match EvalToken s tok with
        | Some val => put_eval_stack (stack_with_vec s (stack_vec s ++ [val]))
        | None => abort "ASSERT(val.has_value())"
        end
      else
        (* Parser should disallow this from happening *)
        abort "ASSERT(false)"
  end.

(** [std::get<std::vector<T>>(eval_stack).back()] *)
Definition eval_stack_back (w : Z) : M GekkoIRPlugin Z :=
  s <- get_eval_stack ;;
  if bool_decide (stack_width s = Some w) then
    match last (stack_vec s) with
    | Some v => ret v
    | None => abort "vec.back() on an empty vector"
    end
  else abort "std::bad_variant_access".

(** [for (auto&& val : vec) { AddBytes(val); }] *)
Fixpoint AddBytes_each (size : nat) (vec : list Z) : M GekkoIRPlugin unit :=
  match vec with
  | [] => ret tt
  | val :: rest => AddBytes size val ;; AddBytes_each size rest
  end.

(** *** Overrides *)

Definition GekkoIRPlugin_OnDirectivePre (directive : GekkoDirective.t)
  : M GekkoIRPlugin unit :=
  modify_plugin
    (fun p =>
       set_eval_stack
         match directive with
         | GekkoDirective.kByte => StackU8 []
         | GekkoDirective.k2byte => StackU16 []
         | GekkoDirective.k4byte | GekkoDirective.kLocate | GekkoDirective.kPadAlign
         | GekkoDirective.kAlign | GekkoDirective.kZeros | GekkoDirective.kSkip =>
             StackU32 []
         | GekkoDirective.k8byte | GekkoDirective.kDefVar => StackU64 []
         | GekkoDirective.kFloat => StackFloat []
         | GekkoDirective.kDouble => StackDouble []
         | _ => EvalStack_default
         end
         (set_active_directive directive
            (set_evaluation_mode EvalMode.AbsAddrSinglePass p))).

Definition GekkoIRPlugin_OnDirectivePost (directive : GekkoDirective.t)
  : M GekkoIRPlugin unit :=
  match directive with
  | GekkoDirective.kDefVar =>
      p <- get_plugin ;;
      match active_var p with
      | None => abort "ASSERT(active_var != nullptr)"
      | Some name =>
          v <- eval_stack_back 64 ;;
          modify_plugin
            (fun p => set_active_var None (set_constants (<[name := v]> (constants p)) p))
      end
  | GekkoDirective.kLocate => v <- eval_stack_back 32 ;; StartBlock v
  | GekkoDirective.kZeros => v <- eval_stack_back 32 ;; PadSpace v
  | GekkoDirective.kSkip =>
      a <- CurrentAddress ;; v <- eval_stack_back 32 ;; StartBlock (wrap32 (a + v))
  | GekkoDirective.kPadAlign => v <- eval_stack_back 32 ;; PadAlign v
  | GekkoDirective.kAlign => v <- eval_stack_back 32 ;; StartBlockAlign v
  | GekkoDirective.kAscii => p <- get_plugin ;; AddStringBytes (string_lit p) false
  | GekkoDirective.kAsciz => p <- get_plugin ;; AddStringBytes (string_lit p) true
  (* .nbyte and .float/double directives are handled by OnResolvedExprPost *)
  | _ => ret tt
  end ;;
  put_eval_stack EvalStack_default.

Definition GekkoIRPlugin_OnInstructionPre (mnemonic_info : ParseInfo.t) (extended : bool)
  : M GekkoIRPlugin unit :=
  modify_plugin (set_evaluation_mode EvalMode.RelAddrDoublePass) ;;
  StartInstruction (ParseInfo.mnemonic_index mnemonic_info) extended.

Definition GekkoIRPlugin_OnInstructionPost (_ : ParseInfo.t) (_ : bool)
  : M GekkoIRPlugin unit :=
  FinishInstruction.

Definition GekkoIRPlugin_OnOperandPre : M GekkoIRPlugin unit :=
  c <- lex_get ColNumber ;; modify_plugin (set_operand_str_start c).

Definition GekkoIRPlugin_OnOperandPost : M GekkoIRPlugin unit :=
  p <- get_plugin ;;
  c <- lex_get ColNumber ;;
  SaveOperandFixup (operand_str_start p) c.

Definition GekkoIRPlugin_OnResolvedExprPost : M GekkoIRPlugin unit :=
  p <- get_plugin ;;
  match active_directive p with
  | GekkoDirective.kByte | GekkoDirective.k2byte | GekkoDirective.k4byte
  | GekkoDirective.k8byte | GekkoDirective.kFloat | GekkoDirective.kDouble =>
      let s := eval_stack p in
      AddBytes_each (stack_elem_size s) (stack_vec s) ;;
      put_eval_stack (stack_with_vec s [])
  | _ => ret tt
  end.

Definition GekkoIRPlugin_OnOperator (operation : AsmOp.t) : M GekkoIRPlugin unit :=
  p <- get_plugin ;;
  match evaluation_mode p with
  | EvalMode.RelAddrDoublePass => EvalOperatorRel operation
  | EvalMode.AbsAddrSinglePass => EvalOperatorAbs operation
  end.

Definition GekkoIRPlugin_OnTerminal (type : Terminal.t) (val : AssemblerToken)
  : M GekkoIRPlugin unit :=
  match type with
  | Terminal.kStr => modify_plugin (set_string_lit (token_val val))
  | _ =>
      p <- get_plugin ;;
      match evaluation_mode p with
      | EvalMode.RelAddrDoublePass => EvalTerminalRel type val
      | EvalMode.AbsAddrSinglePass => EvalTerminalAbs type val
      end
  end.

Definition undefined_reference (id : string) : string :=
  ("Undefined reference to Label/Constant '" ++ id ++ "'")%string.

Definition GekkoIRPlugin_OnHiaddr (id : string) : M GekkoIRPlugin unit :=
  p <- get_plugin ;;
  match evaluation_mode p with
  | EvalMode.RelAddrDoublePass =>
      AddSymbolResolve id true ;;
      AddLiteral 16 ;;
      AddBinaryEvaluator (binary_operator 32 AsmOp.kRsh) ;;
      AddLiteral 0xffff ;;
      AddBinaryEvaluator (binary_operator 32 AsmOp.kAnd)
  | EvalMode.AbsAddrSinglePass =>
      match LookupLabel p id with
      | Some lbl =>
          PushCast lbl ;;
          PushCast 16 ;;
          EvalOperatorAbs AsmOp.kRsh ;;
          PushCast 0xffff ;;
          EvalOperatorAbs AsmOp.kAnd
      | None =>
          match LookupVar p id with
          | Some var =>
              PushCast var ;;
              PushCast 16 ;;
              EvalOperatorAbs AsmOp.kRsh ;;
              PushCast 0xffff ;;
              EvalOperatorAbs AsmOp.kAnd
          | None => EmitErrorHere (undefined_reference id)
          end
      end
  end.

Definition GekkoIRPlugin_OnLoaddr (id : string) : M GekkoIRPlugin unit :=
  p <- get_plugin ;;
  match evaluation_mode p with
  | EvalMode.RelAddrDoublePass =>
      AddSymbolResolve id true ;;
      AddLiteral 0xffff ;;
      AddBinaryEvaluator (binary_operator 32 AsmOp.kAnd)
  | EvalMode.AbsAddrSinglePass =>
      match LookupLabel p id with
      | Some lbl =>
          PushCast lbl ;;
          PushCast 0xffff ;;
          EvalOperatorAbs AsmOp.kAnd
      | None =>
          match LookupVar p id with
          | Some var =>
              PushCast var ;;
              PushCast 0xffff ;;
              EvalOperatorAbs AsmOp.kAnd
          | None => EmitErrorHere (undefined_reference id)
          end
      end
  end.

Definition GekkoIRPlugin_OnCloseParen (type : ParenType.t) : M GekkoIRPlugin unit :=
  p <- get_plugin ;;
  match evaluation_mode p with
  | EvalMode.RelAddrDoublePass =>
      match type with
      | ParenType.kRelConv => AddAbsoluteAddressConv
      | ParenType.kNormal => ret tt
      end
  | EvalMode.AbsAddrSinglePass =>
      a <- CurrentAddress ;;
      PushCast a ;;
      EvalOperatorAbs AsmOp.kSub
  end.

Definition already_defined (name : string) : string :=
  ("Label/Constant " ++ name ++ " is already defined")%string.

Definition GekkoIRPlugin_OnLabelDecl (name : string) : M GekkoIRPlugin unit :=
  p <- get_plugin ;;
  if bool_decide (name ∈ symset p) then EmitErrorHere (already_defined name)
  else
    a <- CurrentAddress ;;
    modify_plugin
      (fun p => set_symset ({[name]} ∪ symset p) (set_labels (<[name := a]> (labels p)) p)).

(** [active_var = &constants[std::string(name)];] creates a zero entry when
    the key is new. *)
Definition GekkoIRPlugin_OnVarDecl (name : string) : M GekkoIRPlugin unit :=
  p <- get_plugin ;;
  if bool_decide (name ∈ symset p) then EmitErrorHere (already_defined name)
  else
    modify_plugin
      (fun p =>
         set_symset ({[name]} ∪ symset p)
           (set_active_var (Some name)
              (set_constants
                 (match constants p !! name with
                  | Some _ => constants p
                  | None => <[name := 0]> (constants p)
                  end) p))).

Definition GekkoIRPlugin_PostParseAction : M GekkoIRPlugin unit := RunFixups.

#[export] Instance GekkoIRPlugin_ParsePlugin : ParsePlugin GekkoIRPlugin := {
  ForwardError err p := set_owner_error (Some err) p;
  Error p := owner_error p;
  PostParseAction := GekkoIRPlugin_PostParseAction;
  OnDirectivePre := GekkoIRPlugin_OnDirectivePre;
  OnDirectivePost := GekkoIRPlugin_OnDirectivePost;
  OnInstructionPre := GekkoIRPlugin_OnInstructionPre;
  OnInstructionPost := GekkoIRPlugin_OnInstructionPost;
  OnOperandPre := GekkoIRPlugin_OnOperandPre;
  OnOperandPost := GekkoIRPlugin_OnOperandPost;
  OnResolvedExprPre := ret tt;
  OnResolvedExprPost := GekkoIRPlugin_OnResolvedExprPost;
  OnOperator := GekkoIRPlugin_OnOperator;
  OnTerminal := GekkoIRPlugin_OnTerminal;
  OnHiaddr := GekkoIRPlugin_OnHiaddr;
  OnLoaddr := GekkoIRPlugin_OnLoaddr;
  OnOpenParen := fun _ => ret tt;
  OnCloseParen := GekkoIRPlugin_OnCloseParen;
  OnError := ret tt;
  OnLabelDecl := GekkoIRPlugin_OnLabelDecl;
  OnVarDecl := GekkoIRPlugin_OnVarDecl
}.

End GekkoIRPluginImpl.

(** The base class [ParsePlugin] itself: every callout is an empty function
    and only the forwarded error is kept. *)
#[export] Instance Base_ParsePlugin : ParsePlugin (option AssemblerError.t) := {
  ForwardError err _ := Some err;
  Error p := p;
  PostParseAction := ret tt;
  OnDirectivePre := fun _ => ret tt;
  OnDirectivePost := fun _ => ret tt;
  OnInstructionPre := fun _ _ => ret tt;
  OnInstructionPost := fun _ _ => ret tt;
  OnOperandPre := ret tt;
  OnOperandPost := ret tt;
  OnResolvedExprPre := ret tt;
  OnResolvedExprPost := ret tt;
  OnOperator := fun _ => ret tt;
  OnTerminal := fun _ _ => ret tt;
  OnHiaddr := fun _ => ret tt;
  OnLoaddr := fun _ => ret tt;
  OnOpenParen := fun _ => ret tt;
  OnCloseParen := fun _ => ret tt;
  OnError := ret tt;
  OnLabelDecl := fun _ => ret tt;
  OnVarDecl := fun _ => ret tt
}.

(** * GekkoParser *)

(** [enum ParseStep] of [ParseOperandList] *)
Module ParseStep.
Inductive t := _Operand | _Comma | _Lparen | _Rparen | _OptComma.
End ParseStep.

Section Parser.
(** Mapping of normal and of extended Gekko mnemonics to their index and
    argument form ([std::map<std::string, ParseInfo>]). *)
Variable mnemonic_tokens : string -> option ParseInfo.t.
Variable extended_mnemonic_tokens : string -> option ParseInfo.t.

Context {P : Type} {plugin_impl : ParsePlugin P}.

Definition MatchOperandFirst (tok : AssemblerToken) : bool :=
  match token_type tok with
  | TokenType.kMinus | TokenType.kTilde | TokenType.kLparen | TokenType.kGrave
  | TokenType.kIdentifier | TokenType.kDecimalLit | TokenType.kOctalLit
  | TokenType.kHexadecimalLit | TokenType.kBinaryLit | TokenType.kDot => true
  | _ => false
  end.

Definition ParseImm : M P unit :=
  tok <- lex Lookahead ;;
  match token_type tok with
  | TokenType.kHexadecimalLit =>
      OnTerminal Terminal.kHex tok ;; unless_error (lex_ Eat)
  | TokenType.kDecimalLit =>
      OnTerminal Terminal.kDec tok ;; unless_error (lex_ Eat)
  | TokenType.kOctalLit =>
      OnTerminal Terminal.kOct tok ;; unless_error (lex_ Eat)
  | TokenType.kBinaryLit =>
      OnTerminal Terminal.kBin tok ;; unless_error (lex_ Eat)
  | _ =>
      EmitErrorHere
        ("Invalid " ++ TypeStr tok ++ " with value '" ++ ValStr tok ++ "'")%string
  end.

Definition ParseId : M P unit :=
  tok <- lex Lookahead ;;
  match token_type tok with
  | TokenType.kIdentifier => OnTerminal Terminal.kId tok ;; unless_error (lex_ Eat)
  | _ =>
      EmitErrorHere ("Expected an identifier, but found '" ++ ValStr tok ++ "'")%string
  end.

Definition empty_token : AssemblerToken :=
  mkToken TokenType.kInvalid "" "" (Interval.mk 0 0).

Definition ParseIdLocation : M P unit :=
  toks <- lex (LookaheadN 3) ;;
  let tok0 := nth 0 toks empty_token in
  let tok1 := nth 1 toks empty_token in
  let tok2 := nth 2 toks empty_token in
  match token_type tok1 with
  | TokenType.kAt =>
      if String.eqb (token_val tok2) "ha" then
        OnHiaddr (token_val tok0) ;; unless_error (lex_ (EatN 3))
      else if String.eqb (token_val tok2) "l" then
        OnLoaddr (token_val tok0) ;; unless_error (lex_ (EatN 3))
      else ParseId
  | _ => ParseId
  end.

Definition ParsePpcBuiltin : M P unit :=
  tok <- lex Lookahead ;;
  match token_type tok with
  | TokenType.kGPR => OnTerminal Terminal.kGPR tok
  | TokenType.kFPR => OnTerminal Terminal.kFPR tok
  | TokenType.kSPR => OnTerminal Terminal.kSPR tok
  | TokenType.kCRField => OnTerminal Terminal.kCRField tok
  | TokenType.kLt => OnTerminal Terminal.kLt tok
  | TokenType.kGt => OnTerminal Terminal.kGt tok
  | TokenType.kEq => OnTerminal Terminal.kEq tok
  | TokenType.kSo => OnTerminal Terminal.kSo tok
  | _ =>
      tok' <- lex LookaheadRef ;;
      EmitErrorHere ("Unexpected token '" ++ ValStr tok' ++ "' in ppc builtin")%string
  end ;;
  unless_error (lex_ Eat).

Definition ParseBaseexpr : M P unit :=
  tok <- lex LookaheadType ;;
  match tok with
  | TokenType.kHexadecimalLit | TokenType.kDecimalLit | TokenType.kOctalLit
  | TokenType.kBinaryLit => ParseImm
  | TokenType.kIdentifier => ParseIdLocation
  | TokenType.kGPR | TokenType.kFPR | TokenType.kSPR | TokenType.kCRField
  | TokenType.kLt | TokenType.kGt | TokenType.kEq | TokenType.kSo => ParsePpcBuiltin
  | TokenType.kDot =>
      t <- lex Lookahead ;;
      OnTerminal Terminal.kDot t ;;
      unless_error (lex_ Eat)
  | _ =>
      tok' <- lex LookaheadRef ;;
      EmitErrorHere ("Unexpected token '" ++ ValStr tok' ++ "' in expression")%string
  end.

(** [ParseParen], with the recursive call to [ParseBitor] as a parameter. *)
Definition ParseParen_body (ParseBitor : M P unit) : M P unit :=
  is_lparen <- HasToken TokenType.kLparen ;;
  if is_lparen then
    OnOpenParen ParenType.kNormal ;;
    unless_error (
      lex_ Eat ;;
      ParseBitor ;;
      unless_error (
        is_rparen <- HasToken TokenType.kRparen ;;
        when is_rparen (OnCloseParen ParenType.kNormal) ;;
        ParseToken TokenType.kRparen))
  else
    is_grave <- HasToken TokenType.kGrave ;;
    if is_grave then
      OnOpenParen ParenType.kRelConv ;;
      lex_ Eat ;;
      ParseBitor ;;
      unless_error (
        is_grave' <- HasToken TokenType.kGrave ;;
        when is_grave' (OnCloseParen ParenType.kRelConv) ;;
        ParseToken TokenType.kGrave)
    else ParseBaseexpr.

Fixpoint ParseUnary_body (fuel : nat) (ParseParen : M P unit) : M P unit :=
  match fuel with
  | O => out_of_fuel
  | S fuel' =>
      tok <- lex LookaheadType ;;
      match tok with
      | TokenType.kMinus =>
          lex_ Eat ;;
          ParseUnary_body fuel' ParseParen ;;
          unless_error (OnOperator AsmOp.kNeg)
      | TokenType.kTilde =>
          lex_ Eat ;;
          ParseUnary_body fuel' ParseParen ;;
          unless_error (OnOperator AsmOp.kNot)
      | _ => ParseParen
      end
  end.

(** The loop shared by the binary operator levels:
    [while (tok is an operator of the level) { Eat(); operand();
    if (state.error) return; OnOperator(op); tok = LookaheadType(); }] *)
Fixpoint binary_operator_loop (fuel : nat) (level : TokenType.t -> option AsmOp.t)
    (operand : M P unit) : M P unit :=
  match fuel with
  | O => out_of_fuel
  | S fuel' =>
      tok <- lex LookaheadType ;;
      match level tok with
      | None => ret tt
      | Some op =>
          lex_ Eat ;;
          operand ;;
          unless_error (OnOperator op ;; binary_operator_loop fuel' level operand)
      end
  end.

Definition binary_level (fuel : nat) (level : TokenType.t -> option AsmOp.t)
    (operand : M P unit) : M P unit :=
  operand ;; unless_error (binary_operator_loop fuel level operand).

Definition multiplication_level (tok : TokenType.t) : option AsmOp.t :=
  match tok with
  | TokenType.kStar => Some AsmOp.kMul
  | TokenType.kSlash => Some AsmOp.kDiv
  | _ => None
  end.
Definition addition_level (tok : TokenType.t) : option AsmOp.t :=
  match tok with
  | TokenType.kPlus => Some AsmOp.kAdd
  | TokenType.kMinus => Some AsmOp.kSub
  | _ => None
  end.
Definition shift_level (tok : TokenType.t) : option AsmOp.t :=
  match tok with
  | TokenType.kLsh => Some AsmOp.kLsh
  | TokenType.kRsh => Some AsmOp.kRsh
  | _ => None
  end.
Definition bitand_level (tok : TokenType.t) : option AsmOp.t :=
  match tok with TokenType.kAmpersand => Some AsmOp.kAnd | _ => None end.
Definition bitxor_level (tok : TokenType.t) : option AsmOp.t :=
  match tok with TokenType.kCaret => Some AsmOp.kXor | _ => None end.
Definition bitor_level (tok : TokenType.t) : option AsmOp.t :=
  match tok with TokenType.kPipe => Some AsmOp.kOr | _ => None end.

(** [ParseBitor] and, through it, the whole expression grammar; [fuel]
    bounds the nesting depth and the length of every operator chain. *)
Fixpoint ParseBitor (fuel : nat) : M P unit :=
  match fuel with
  | O => out_of_fuel
  | S fuel' =>
      let ParseParen := ParseParen_body (ParseBitor fuel') in
      let ParseUnary := ParseUnary_body fuel' ParseParen in
      let ParseMultiplication := binary_level fuel' multiplication_level ParseUnary in
      let ParseAddition := binary_level fuel' addition_level ParseMultiplication in
      let ParseShift := binary_level fuel' shift_level ParseAddition in
      let ParseBitand := binary_level fuel' bitand_level ParseShift in
      let ParseBitxor := binary_level fuel' bitxor_level ParseBitand in
      binary_level fuel' bitor_level ParseBitxor
  end.

Definition ParseParen (fuel : nat) : M P unit := ParseParen_body (ParseBitor fuel).
Definition ParseUnary (fuel : nat) : M P unit := ParseUnary_body fuel (ParseParen fuel).
Definition ParseMultiplication (fuel : nat) : M P unit :=
  binary_level fuel multiplication_level (ParseUnary fuel).
Definition ParseAddition (fuel : nat) : M P unit :=
  binary_level fuel addition_level (ParseMultiplication fuel).
Definition ParseShift (fuel : nat) : M P unit :=
  binary_level fuel shift_level (ParseAddition fuel).
Definition ParseBitand (fuel : nat) : M P unit :=
  binary_level fuel bitand_level (ParseShift fuel).
Definition ParseBitxor (fuel : nat) : M P unit :=
  binary_level fuel bitxor_level (ParseBitand fuel).

Definition ParseOperand (fuel : nat) : M P unit :=
  OnOperandPre ;;
  ParseBitor fuel ;;
  unless_error OnOperandPost.

Definition parse_steps (alg : ParseAlg.t) : list ParseStep.t :=
  let O := ParseStep._Operand in
  let C := ParseStep._Comma in
  match alg with
  | ParseAlg.Op1 => [O]
  | ParseAlg.Op1Or2 => [O; ParseStep._OptComma; O]
  | ParseAlg.Op2Or3 => [O; C; O; ParseStep._OptComma; O]
  | ParseAlg.Op1Off1 => [O; C; O; ParseStep._Lparen; O; ParseStep._Rparen]
  | ParseAlg.Op2 => [O; C; O]
  | ParseAlg.Op3 => [O; C; O; C; O]
  | ParseAlg.Op4 => [O; C; O; C; O; C; O]
  | ParseAlg.Op5 => [O; C; O; C; O; C; O; C; O]
  | ParseAlg.Op1Off1Op2 =>
      [O; C; O; ParseStep._Lparen; O; ParseStep._Rparen; C; O; C; O]
  | ParseAlg.None | ParseAlg.NoneOrOp1 => []
  end.

(** [for (ParseStep step : steps) { ... }] *)
Fixpoint run_parse_steps (fuel : nat) (steps : list ParseStep.t) : M P unit :=
  match steps with
  | [] => ret tt
  | step :: rest =>
      match step with
      | ParseStep._Operand =>
          ParseOperand fuel ;; unless_error (run_parse_steps fuel rest)
      | ParseStep._Comma =>
          ParseToken TokenType.kComma ;; unless_error (run_parse_steps fuel rest)
      | ParseStep._Lparen =>
          ParseToken TokenType.kLparen ;; unless_error (run_parse_steps fuel rest)
      | ParseStep._Rparen =>
          ParseToken TokenType.kRparen ;; unless_error (run_parse_steps fuel rest)
      | ParseStep._OptComma =>
          has_comma <- HasToken TokenType.kComma ;;
          if has_comma then
            ParseToken TokenType.kComma ;; unless_error (run_parse_steps fuel rest)
          else ret tt
      end
  end.

Definition ParseOperandList (fuel : nat) (alg : ParseAlg.t) : M P unit :=
  match alg with
  | ParseAlg.None => ret tt
  | ParseAlg.NoneOrOp1 =>
      tok <- lex Lookahead ;;
      when (MatchOperandFirst tok) (ParseOperand fuel)
  | _ => run_parse_steps fuel (parse_steps alg)
  end.

Definition ParseInstruction (fuel : nat) : M P unit :=
  lex_ (SetIdentifierMatchRule IdentifierMatchRule.kMnemonic) ;;
  mnemonic_token <- lex Lookahead ;;
  match token_type mnemonic_token with
  | TokenType.kIdentifier =>
      let found :=
        match mnemonic_tokens (token_val mnemonic_token) with
        | Some info => Some (info, false)
        | None =>
            match extended_mnemonic_tokens (token_val mnemonic_token) with
            | Some info => Some (info, true)
            | None => None
            end
        end in
      match found with
      | None =>
          EmitErrorHere
            ("Unknown or unsupported mnemonic '" ++ ValStr mnemonic_token ++ "'")%string
      | Some (info, is_extended) =>
          OnInstructionPre info is_extended ;;
          lex_ EatAndReset ;;
          ParseOperandList fuel (ParseInfo.parse_algorithm info) ;;
          unless_error (OnInstructionPost info is_extended)
      end
  | _ => lex_ (SetIdentifierMatchRule IdentifierMatchRule.kTypical)
  end.

Definition ParseLabel : M P unit :=
  tokens <- lex (LookaheadN 2) ;;
  let tok0 := nth 0 tokens empty_token in
  let tok1 := nth 1 tokens empty_token in
  match token_type tok0, token_type tok1 with
  | TokenType.kIdentifier, TokenType.kColon =>
      OnLabelDecl (token_val tok0) ;;
      unless_error (lex_ (EatN 2))
  | _, _ => ret tt
  end.

Definition ParseResolvedExpr (fuel : nat) : M P unit :=
  OnResolvedExprPre ;;
  ParseBitor fuel ;;
  unless_error OnResolvedExprPost.

(** [while (state.HasToken(TokenType::kComma)) { Eat(); item();
    if (state.error) return; }] *)
Fixpoint comma_list_loop (fuel : nat) (item : M P unit) : M P unit :=
  match fuel with
  | O => out_of_fuel
  | S fuel' =>
      has_comma <- HasToken TokenType.kComma ;;
      if has_comma then
        lex_ Eat ;; item ;; unless_error (comma_list_loop fuel' item)
      else ret tt
  end.

Definition ParseExpressionList (fuel : nat) : M P unit :=
  ParseResolvedExpr fuel ;;
  unless_error (comma_list_loop fuel (ParseResolvedExpr fuel)).

Definition ParseFloat : M P unit :=
  flt_token <- lex LookaheadFloat ;;
  match token_type flt_token with
  | TokenType.kFloatLit => OnTerminal Terminal.kFlt flt_token ;; lex_ Eat
  | _ => EmitErrorHere "Invalid floating point literal"
  end.

Definition ParseFloatList (fuel : nat) : M P unit :=
  ParseFloat ;;
  unless_error (comma_list_loop fuel ParseFloat).

Definition ParseDefvar (fuel : nat) : M P unit :=
  tok <- lex Lookahead ;;
  match token_type tok with
  | TokenType.kIdentifier =>
      OnVarDecl (token_val tok) ;;
      unless_error (
        lex_ Eat ;;
        ParseToken TokenType.kComma ;;
        unless_error (ParseResolvedExpr fuel))
  | _ =>
      EmitErrorHere ("Expected an identifier, but found '" ++ ValStr tok ++ "'")%string
  end.

Definition ParseString : M P unit :=
  tok <- lex Lookahead ;;
  match token_type tok with
  | TokenType.kStringLit => OnTerminal Terminal.kStr tok ;; lex_ Eat
  | _ =>
      EmitErrorHere ("Expected a string literal, but found '" ++ ValStr tok ++ "'")%string
  end.

Definition ParseDirective (fuel : nat) : M P unit :=
  lex_ (SetIdentifierMatchRule IdentifierMatchRule.kDirective) ;;
  tok <- lex Lookahead ;;
  match token_type tok with
  | TokenType.kIdentifier =>
      match directives_map_find (token_val tok) with
      | None =>
          EmitErrorHere ("Unknown assembler directive '" ++ ValStr tok ++ "'")%string
      | Some directive =>
          OnDirectivePre directive ;;
          lex_ EatAndReset ;;
          match directive with
          | GekkoDirective.kByte | GekkoDirective.k2byte | GekkoDirective.k4byte
          | GekkoDirective.k8byte => ParseExpressionList fuel
          | GekkoDirective.kFloat | GekkoDirective.kDouble => ParseFloatList fuel
          | GekkoDirective.kLocate | GekkoDirective.kZeros | GekkoDirective.kSkip =>
              ParseResolvedExpr fuel
          | GekkoDirective.kPadAlign | GekkoDirective.kAlign => ParseImm
          | GekkoDirective.kDefVar => ParseDefvar fuel
          | GekkoDirective.kAscii | GekkoDirective.kAsciz => ParseString
          end ;;
          unless_error (OnDirectivePost directive)
      end
  | _ =>
      EmitErrorHere ("Unexpected token '" ++ ValStr tok ++ "' in directive type")%string
  end.

Definition ParseLine (fuel : nat) : M P unit :=
  is_dot <- HasToken TokenType.kDot ;;
  if is_dot then ParseToken TokenType.kDot ;; ParseDirective fuel
  else ParseInstruction fuel.

(** [while (!state.eof && !state.error) { ... }] of [ParseProgram] *)
Fixpoint ParseProgram_loop (fuel : nat) (line_fuel : nat) : M P unit :=
  match fuel with
  | O => out_of_fuel
  | S fuel' =>
      at_eof <- get_eof ;;
      e <- get_error ;;
      if at_eof || bool_decide (is_Some e) then ret tt
      else
        tok <- lex Lookahead ;;
        match token_type tok with
        | TokenType.kEof => set_eof true ;; ParseProgram_loop fuel' line_fuel
        | TokenType.kEol =>
            lex_ Eat ;;
            ParseLabel ;;
            unless_error (ParseLine line_fuel ;; ParseProgram_loop fuel' line_fuel)
        | _ =>
            EmitErrorHere
              ("Unexpected token '" ++ ValStr tok
               ++ "' where line should have ended")%string ;;
            ParseProgram_loop fuel' line_fuel
        end
  end.

Definition ParseProgram (fuel : nat) : M P unit :=
  tok <- lex Lookahead ;;
  match token_type tok with
  | TokenType.kEof => set_eof true
  | _ =>
      ParseLabel ;;
      unless_error (
        ParseLine fuel ;;
        unless_error (ParseProgram_loop fuel fuel))
  end.

(** [ParseState::ParseState(std::string_view input_str, ParsePlugin& plugin)] *)
Definition ParseState_new (input_str : string) (p : P) : ParseState P :=
  mkParseState (Lexer_new input_str) p None false.

(** [ParseWithPlugin(plugin, input)]: the plugin object after the call. *)
Definition ParseWithPlugin (fuel : nat) (p : P) (input : string) : outcome P :=
  let run : M P unit :=
    ParseProgram fuel ;;
    e <- get_error ;;
    match e with
    | Some err => OnError ;; modify_plugin (ForwardError err)
    | None =>
        PostParseAction ;;
        e' <- get_error ;;
        match e' with
        | Some err => OnError ;; modify_plugin (ForwardError err)
        | None => ret tt
        end
    end in
  match run (ParseState_new input p) with
  | Done (_, st) => Done (plugin st)
  | Abort why => Abort why
  | OutOfFuel => OutOfFuel
  end.

End Parser.

(** [FailureOr<GekkoIR> ParseToIR(std::string_view assembly,
    u32 base_virtual_address)] *)
Definition ParseToIR (platform : Platform)
    (mnemonic_tokens extended_mnemonic_tokens : string -> option ParseInfo.t)
    (fuel : nat) (assembly : string) (base_virtual_address : Z)
  : outcome (AssemblerError.t + GekkoIR) :=
  match ParseWithPlugin (plugin_impl := GekkoIRPlugin_ParsePlugin platform)
          mnemonic_tokens extended_mnemonic_tokens fuel
          (GekkoIRPlugin_new base_virtual_address) assembly with
  | Done p =>
      match owner_error p with
      | Some err => Done (inl err)
      | None => Done (inr (output_result p))
      end
  | Abort why => Abort why
  | OutOfFuel => OutOfFuel
  end.

(** ** An excerpt of the mnemonic tables *)

(** Modelled from the spec: the enumerators of [GekkoMnemonic] and
    [ExtendedGekkoMnemonic] are declared in a header that is not part of the
    sources at hand; the key of an entry is [base_index * 4 + variant_bits],
    with [base_index] the position of the mnemonic's descriptor in the
    descriptor array.  The entries below are the rows of [mnemonic_tokens] and
    [extended_mnemonic_tokens] for the mnemonics used in the examples. *)
Definition kVariantPermutations : nat := 4.

Definition mnemonic_tokens_excerpt (name : string) : option ParseInfo.t :=
  if String.eqb name "addi" then Some (ParseInfo.mk (3 * kVariantPermutations) ParseAlg.Op3)
  else if String.eqb name "addis" then Some (ParseInfo.mk (6 * kVariantPermutations) ParseAlg.Op3)
  else if String.eqb name "ori" then Some (ParseInfo.mk (38 * kVariantPermutations) ParseAlg.Op3)
  else if String.eqb name "lwz" then Some (ParseInfo.mk (92 * kVariantPermutations) ParseAlg.Op1Off1)
  else if String.eqb name "b" then Some (ParseInfo.mk (144 * kVariantPermutations) ParseAlg.Op1)
  else if String.eqb name "bl" then Some (ParseInfo.mk (144 * kVariantPermutations + 1) ParseAlg.Op1)
  else None.

Definition extended_mnemonic_tokens_excerpt (name : string) : option ParseInfo.t :=
  if String.eqb name "nop" then Some (ParseInfo.mk (201 * kVariantPermutations) ParseAlg.None)
  else if String.eqb name "li" then Some (ParseInfo.mk (202 * kVariantPermutations) ParseAlg.Op2)
  else if String.eqb name "lis" then Some (ParseInfo.mk (203 * kVariantPermutations) ParseAlg.Op2)
  else if String.eqb name "blr" then Some (ParseInfo.mk (38 * kVariantPermutations) ParseAlg.None)
  else None.

(** A platform for the examples: argument evaluation from left to right; the
    floating point conversions are not exercised. *)
Definition example_platform : Platform :=
  mkPlatform false (fun _ => 0) (fun _ => 0) (fun _ => 0) (fun _ => 0).

Definition assemble_ir (fuel : nat) (assembly : string) (base : Z)
  : outcome (AssemblerError.t + GekkoIR) :=
  ParseToIR example_platform mnemonic_tokens_excerpt extended_mnemonic_tokens_excerpt
    fuel assembly base.

(** The line separator of the source texts in the examples. *)
Definition nl : string := String newline EmptyString.

(** * Notions used to state the properties *)

(** The high adjusted half of a 32 bit value: [((S + 0x8000) >> 16) & 0xFFFF]. *)
Definition high_adjusted (s : Z) : Z := Z.land (Z.shiftr (s + 0x8000) 16) 0xFFFF.

(** The closure [OnHiaddr] leaves on the fixup stack in the double-pass mode. *)
Definition Hiaddr_fixup (id : string) (source_address : Z) (err : AssemblerError.t)
  : Fixup :=
  FixupBinaryEvaluator (binary_operator 32 AsmOp.kAnd)
    (FixupBinaryEvaluator (binary_operator 32 AsmOp.kRsh)
       (FixupSymbolResolve id true source_address err) (FixupLiteral 16))
    (FixupLiteral 0xffff).

(** The values of the operand pool and the bytes of the chunks of an IR. *)
Definition pool_values (ir : GekkoIR) : list Z := snd <$> operand_pool ir.

Definition chunk_data (c : ChunkVariant) : list Z :=
  match c with
  | ByteChunk bytes => bytes
  | _ => []
  end.

Definition ir_bytes (ir : GekkoIR) : list (list Z) :=
  (fun b => concat (chunk_data <$> chunks b)) <$> blocks ir.

Definition assembled_values (r : outcome (AssemblerError.t + GekkoIR))
  : option (list Z * list (list Z)) :=
  match r with
  | Done (inr ir) => Some (pool_values ir, ir_bytes ir)
  | _ => None
  end.

Definition assembly_error (r : outcome (AssemblerError.t + GekkoIR))
  : option AssemblerError.t :=
  match r with
  | Done (inl err) => Some err
  | _ => None
  end.


(** The saved errors ([err_on_fail]) of the symbol references of a fixup whose
    symbol is in neither the label table nor the constant table. *)
Fixpoint undefined_references (labels constants : gmap string Z) (f : Fixup)
  : list AssemblerError.t :=
  match f with
  | FixupLiteral _ => []
  | FixupSymbolResolve sym _ _ err_on_fail =>
      match labels !! sym, constants !! sym with
      | None, None => [err_on_fail]
      | _, _ => []
      end
  | FixupUnaryEvaluator _ sub => undefined_references labels constants sub
  | FixupBinaryEvaluator _ lhs rhs =>
      undefined_references labels constants lhs
      ++ undefined_references labels constants rhs
  | FixupAbsoluteAddressConv _ sub => undefined_references labels constants sub
  end.

(** Every evaluator met while calling the fixup has a defined result. *)
Definition fixup_evaluates (rtl : bool) (labels constants : gmap string Z) (f : Fixup)
  : Prop :=
  forall err, is_Some (call_fixup rtl labels constants f err).

(** The parse state after one iteration of the loop of [RunFixups]: the value
    [v] written to [operand_pool[i]] and [owner->error] as the fixup left it. *)
Definition fixup_written (i : nat) (v : Z) (e : option AssemblerError.t)
    (st : ParseState GekkoIRPlugin) : ParseState GekkoIRPlugin :=
  let p := plugin st in
  let pool := operand_pool (output_result p) in
  mkParseState (lexer st)
    (set_output_result
       (mkGekkoIR (blocks (output_result p))
          (match pool !! i with
           | Some (tag, _) => <[i := (tag, v)]> pool
           | None => pool
           end)) p)
    e (eof st).

(** What the fixup phase leaves untouched. *)
Definition same_tables (st st' : ParseState GekkoIRPlugin) : Prop :=
  lexer st' = lexer st
  /\ labels (plugin st') = labels (plugin st)
  /\ constants (plugin st') = constants (plugin st)
  /\ symset (plugin st') = symset (plugin st)
  /\ operand_fixups (plugin st') = operand_fixups (plugin st)
  /\ blocks (output_result (plugin st')) = blocks (output_result (plugin st))
  /\ List.length (operand_pool (output_result (plugin st')))
     = List.length (operand_pool (output_result (plugin st))).

(** The value of the operand at index [k] of the pool. *)
Definition pool_value (st : ParseState GekkoIRPlugin) (k : nat) : option Z :=
  snd <$> operand_pool (output_result (plugin st)) !! k.

(** A parse state at the start of the fixup phase, for the examples: three
    operands, the second a reference to the symbol [A] that no table holds. *)
Definition example_unresolved_A : AssemblerError.t :=
  AssemblerError.mk "Unresolved symbol 'A'" "addi r3, r0, A" 0 13 1.

Definition example_fixup_state : ParseState GekkoIRPlugin :=
  ParseState_new "addi r3, r0, A"
    (set_operand_fixups
       [FixupLiteral 3; FixupSymbolResolve "A" false 0 example_unresolved_A; FixupLiteral 7]
       (set_output_result
          (mkGekkoIR [IRBlock_new 0]
             [(Interval.mk 5 2, 0); (Interval.mk 13 1, 0); (Interval.mk 16 1, 0)])
          (GekkoIRPlugin_new 0))).

(** A computation keeps a property [J] of the plugin object. *)
Definition preserves {P A : Type} (J : P -> Prop) (c : M P A) : Prop :=
  forall st a st', c st = Done (a, st') -> J (plugin st) -> J (plugin st').

(** Every callout the parser issues while parsing keeps [J]. *)
Record callouts_preserve {P : Type} {plugin_impl : ParsePlugin P} (J : P -> Prop)
  : Prop := mk_callouts_preserve {
  cp_OnDirectivePre : forall d, preserves J (OnDirectivePre d);
  cp_OnDirectivePost : forall d, preserves J (OnDirectivePost d);
  cp_OnInstructionPre : forall info ext, preserves J (OnInstructionPre info ext);
  cp_OnInstructionPost : forall info ext, preserves J (OnInstructionPost info ext);
  cp_OnOperandPre : preserves J OnOperandPre;
  cp_OnOperandPost : preserves J OnOperandPost;
  cp_OnResolvedExprPre : preserves J OnResolvedExprPre;
  cp_OnResolvedExprPost : preserves J OnResolvedExprPost;
  cp_OnOperator : forall op, preserves J (OnOperator op);
  cp_OnTerminal : forall type tok, preserves J (OnTerminal type tok);
  cp_OnHiaddr : forall id, preserves J (OnHiaddr id);
  cp_OnLoaddr : forall id, preserves J (OnLoaddr id);
  cp_OnOpenParen : forall type, preserves J (OnOpenParen type);
  cp_OnCloseParen : forall type, preserves J (OnCloseParen type);
  cp_OnLabelDecl : forall name, preserves J (OnLabelDecl name);
  cp_OnVarDecl : forall name, preserves J (OnVarDecl name)
}.

(** What holds of the IR generating plugin at every point of a parse:
    - an identifier is in at most one of the two symbol tables, and the set of
      defined names is the union of their keys;
    - the constant being declared has its entry;
    - there is one pending fixup for every operand of the pool, and every
      operand still holds its placeholder [0];
    - the active block is a block of the output, and the base address of every
      block and every label address is a [u32]. *)
Definition GekkoIR_invariant (p : GekkoIRPlugin) : Prop :=
  dom (labels p) ## dom (constants p)
  /\ symset p = dom (labels p) ∪ dom (constants p)
  /\ (forall name, active_var p = Some name -> name ∈ dom (constants p))
  /\ List.length (operand_fixups p) = List.length (operand_pool (output_result p))
  /\ Forall (fun t : TaggedOperand => snd t = 0) (operand_pool (output_result p))
  /\ (active_block p < List.length (blocks (output_result p)))%nat
  /\ Forall (fun b => 0 <= block_address b < 2 ^ 32) (blocks (output_result p))
  /\ map_Forall (fun (_ : string) a => 0 <= a < 2 ^ 32) (labels p).

(** A declaration callout rejects [name]: it returns with the error
    [Label/Constant name is already defined] and the symbol tables as they
    were. *)
Definition rejects_redeclaration (decl : string -> M GekkoIRPlugin unit)
    (name : string) (st : ParseState GekkoIRPlugin) : Prop :=
  exists st' e,
    decl name st = Done (tt, st')
    /\ error st' = Some e
    /\ AssemblerError.message e = already_defined name
    /\ labels (plugin st') = labels (plugin st)
    /\ constants (plugin st') = constants (plugin st)
    /\ symset (plugin st') = symset (plugin st).

(** The parse state after [ParseProgram] on a source text, for the examples
    (the initial state where the parser has not returned). *)
Definition parsed_state (fuel : nat) (input : string) (base : Z)
  : ParseState GekkoIRPlugin :=
  let st0 := ParseState_new input (GekkoIRPlugin_new base) in
  match ParseProgram (plugin_impl := GekkoIRPlugin_ParsePlugin example_platform)
          mnemonic_tokens_excerpt extended_mnemonic_tokens_excerpt fuel st0 with
  | Done (_, st) => st
  | _ => st0
  end.

(** Every operand that is a reference to a label by its name holds the
    address of the label. *)
Definition resolves_to_label_address (p : GekkoIRPlugin) : Prop :=
  forall (k : nat) (sym : string) (absolute : bool) (source_address : Z)
         (err : AssemblerError.t) (address : Z),
    operand_fixups p !! k = Some (FixupSymbolResolve sym absolute source_address err) ->
    labels p !! sym = Some address ->
    pool_values (output_result p) !! k = Some address.

From Stdlib Require DecimalString DecimalNat.

(** * AssemblerTables: instruction templates and operand lists *)

(** [constexpr u32 insert_val(u32 val, u32 left, u32 right)]:
    [val << (31 - right) & mask(left, right)] *)
Definition insert_val (val left right : Z) : Z :=
  Z.land (wrap32 (Z.shiftl val (31 - right))) (mask_of left right).

Definition insert_opcode (opcode : Z) : Z := insert_val opcode 0 5.

(** [((spr & 0b0000011111) << 5) | ((spr & 0b1111100000) >> 5)] *)
Definition spr_bitswap (spr : Z) : Z :=
  Z.lor (wrap32 (Z.shiftl (Z.land spr 31) 5)) (Z.shiftr (Z.land spr 992) 5).

Definition kMaxOperands : nat := 5.

(** [struct OperandList]: [list] is a [std::array] of [kMaxOperands] tagged
    values; an access outside of the array has no defined result ([None]). *)
Module OperandList.

Record t := mk {
  list : Datatypes.list TaggedOperand;
  count : Z;
  overfill : bool
}.

(** [operands[index]] read and written *)
Definition get (index : nat) (ol : t) : option Z := snd <$> list ol !! index.

Definition set (index : nat) (val : Z) (ol : t) : option t :=
  match list ol !! index with
  | Some (tag, _) => Some (mk (<[index := (tag, val)]> (list ol)) (count ol) (overfill ol))
  | None => None
  end.

(** [auto tmp = list[i]; list[i] = list[before]; list[before] = tmp;] *)
Definition swap_entries (i before : nat) (l : Datatypes.list TaggedOperand)
  : option (Datatypes.list TaggedOperand) :=
  match l !! i, l !! before with
  | Some tmp, Some b => Some (<[before := tmp]> (<[i := b]> l))
  | _, _ => None
  end.

(** [for (size_t i = before + 1; i <= count && i < kMaxOperands; i++)]: the
    guard fails after at most [kMaxOperands] iterations. *)
Fixpoint Insert_loop (fuel : nat) (i before : nat) (cnt : Z)
    (l : Datatypes.list TaggedOperand) : option (Datatypes.list TaggedOperand) :=
  match fuel with
  | O => Some l
  | S fuel' =>
      if (Z.of_nat i <=? cnt) && (i <? kMaxOperands)%nat then
        match swap_entries i before l with
        | Some l' => Insert_loop fuel' (S i) before cnt l'
        | None => None
        end
      else Some l
  end.

(** [void OperandList::Insert(size_t before, u32 val)] *)
Definition Insert (before : nat) (val : Z) (ol : t) : option t :=
  let overfill' := count ol =? Z.of_nat kMaxOperands in
  match Insert_loop kMaxOperands (S before) before (count ol) (list ol) with
  | Some l =>
      if (before <? length l)%nat then
        Some (mk (<[before := (Interval.mk 0 0, val)]> l)
                 (if overfill' then count ol else wrap32 (count ol + 1))
                 overfill')
      else None
  | None => None
  end.

(** [template <typename It> void Copy(It begin, It end)] on the sequence
    [src]. *)
Definition Copy (src : Datatypes.list TaggedOperand) (ol : t) : t :=
  let n := Nat.min (length src) (length (list ol)) in
  mk (take n src ++ drop n (list ol)) (Z.of_nat n)
     (length (list ol) <? length src)%nat.

(** The values of the operands in use. *)
Definition values (ol : t) : Datatypes.list Z :=
  snd <$> take (Z.to_nat (count ol)) (list ol).

End OperandList.

(** ** Operand translators of the extended mnemonics *)

Definition and_then {A B : Type} (x : option A) (f : A -> option B) : option B :=
  match x with Some a => f a | None => None end.

(** [operands[2] = -operands[2];] *)
Definition negate_SIMM (operands : OperandList.t) : option OperandList.t :=
  and_then (OperandList.get 2 operands) (fun v =>
  OperandList.set 2 (wrap32 (- v)) operands).

(** The exclusive-or exchange of [operands[1]] and [operands[2]]. *)
Definition swap_ops_1_2 (operands : OperandList.t) : option OperandList.t :=
  and_then (OperandList.get 2 operands) (fun o2 =>
  and_then (OperandList.get 1 operands) (fun o1 =>
  and_then (OperandList.set 2 (Z.lxor o2 o1) operands) (fun ops1 =>
  and_then (OperandList.get 1 ops1) (fun o1' =>
  and_then (OperandList.get 2 ops1) (fun o2' =>
  and_then (OperandList.set 1 (Z.lxor o1' o2') ops1) (fun ops2 =>
  and_then (OperandList.get 2 ops2) (fun o2'' =>
  and_then (OperandList.get 1 ops2) (fun o1'' =>
  OperandList.set 2 (Z.lxor o2'' o1'') ops2)))))))).

Definition set_compare_word_mode (operands : OperandList.t) : option OperandList.t :=
  and_then
    (if OperandList.count operands =? 2 then OperandList.Insert 0 0 operands
     else Some operands)
    (OperandList.Insert 1 0).

Definition fill_bo_bi (BO BI : Z) (operands : OperandList.t) : option OperandList.t :=
  and_then (OperandList.Insert 0 BO operands) (OperandList.Insert 1 BI).

Definition bitswap_idx (Idx : nat) (operands : OperandList.t) : option OperandList.t :=
  and_then (OperandList.get Idx operands) (fun v =>
  OperandList.set Idx (spr_bitswap v) operands).

Definition fill_bo_bicond (BO Cond ParamCount : Z) (operands : OperandList.t)
  : option OperandList.t :=
  and_then
    (if OperandList.count operands <? ParamCount then OperandList.Insert 0 0 operands
     else Some operands) (fun ops1 =>
  and_then (OperandList.get 0 ops1) (fun v =>
  and_then (OperandList.set 0 (Z.lor (wrap32 (Z.shiftl v 2)) Cond) ops1)
    (OperandList.Insert 0 BO))).

Definition fill_bo (BO : Z) : OperandList.t -> option OperandList.t :=
  OperandList.Insert 0 BO.

Definition trap_set_TO (TO : Z) : OperandList.t -> option OperandList.t :=
  OperandList.Insert 0 TO.

Definition fill_mtspr (SPRG : Z) : OperandList.t -> option OperandList.t :=
  OperandList.Insert 0 SPRG.

Definition fill_mfspr (SPRG : Z) : OperandList.t -> option OperandList.t :=
  OperandList.Insert 1 SPRG.

Definition fill_mtspr_bat (SPRG : Z) (operands : OperandList.t) : option OperandList.t :=
  and_then (OperandList.get 0 operands) (fun v =>
  OperandList.Insert 0 (wrap32 (2 * v + SPRG)) operands).

Definition fill_mfspr_bat (SPRG : Z) (operands : OperandList.t) : option OperandList.t :=
  and_then (OperandList.get 1 operands) (fun v =>
  OperandList.Insert 1 (wrap32 (2 * v + SPRG)) operands).

(** The value of a [u32] read as a two's complement number. *)
Definition signed32 (v : Z) : Z := if v <? 2 ^ 31 then v else v - 2 ^ 32.

(** * Notions used to state the properties of the lexer *)

(** The cursor is at or beyond the end of the input. *)
Definition at_end (lx : Lexer) : Prop :=
  (String.length (lex_string lx) <= CursorPosition.index (pos lx))%nat.

(** The characters of the input before index [i]. *)
Definition chars_before (s : string) (i : nat) : list ascii :=
  take i (list_ascii_of_string s).

(** The number of line breaks before index [i]. *)
Definition line_of (s : string) (i : nat) : nat :=
  length (List.filter (fun c => Ascii.eqb c newline) (chars_before s i)).

(** The number of characters at the head of a list before its first line
    break. *)
Fixpoint until_newline (l : list ascii) : nat :=
  match l with
  | [] => 0
  | c :: l' => if Ascii.eqb c newline then 0 else S (until_newline l')
  end.

(** The number of characters between the last line break before index [i]
    (or the start of the input) and [i]. *)
Definition col_of (s : string) (i : nat) : nat :=
  until_newline (rev (chars_before s i)).

(** A cursor position whose line and column are those of its index. *)
Definition cursor_consistent (s : string) (p : CursorPosition.t) : Prop :=
  (CursorPosition.index p <= String.length s)%nat
  /\ CursorPosition.line p = line_of s (CursorPosition.index p)
  /\ CursorPosition.col p = col_of s (CursorPosition.index p).

Definition Lexer_consistent (lx : Lexer) : Prop :=
  cursor_consistent (lex_string lx) (pos lx)
  /\ cursor_consistent (lex_string lx) (scan_pos lx)
  /\ Forall (fun t : TaggedToken => cursor_consistent (lex_string lx) (fst t))
       (lexed_tokens lx).

(** A scanning step: only the scan cursor moves, and forward. *)
Definition scans (lx lx' : Lexer) : Prop :=
  lex_string lx' = lex_string lx
  /\ pos lx' = pos lx
  /\ lexed_tokens lx' = lexed_tokens lx
  /\ match_rule lx' = match_rule lx
  /\ (CursorPosition.index (scan_pos lx) <= CursorPosition.index (scan_pos lx'))%nat
  /\ (cursor_consistent (lex_string lx) (scan_pos lx) ->
      cursor_consistent (lex_string lx) (scan_pos lx')).

(** A lexing step: the input, the buffered tokens and the match rule stay,
    the cursor moves forward and the scan cursor ends on it. *)
Definition lexes (lx lx' : Lexer) : Prop :=
  lex_string lx' = lex_string lx
  /\ lexed_tokens lx' = lexed_tokens lx
  /\ match_rule lx' = match_rule lx
  /\ scan_pos lx' = pos lx'
  /\ (CursorPosition.index (pos lx) <= CursorPosition.index (pos lx'))%nat
  /\ (cursor_consistent (lex_string lx) (pos lx) ->
      cursor_consistent (lex_string lx) (pos lx')).

(** The token [LexSingle] returns at the end of the input. *)
Definition eof_token : AssemblerToken :=
  mkToken TokenType.kEof "" "" (Interval.mk 0 0).

(** The public operations of the lexer that move it, and sequences of them. *)
Inductive LexerOp :=
| OpLookahead
| OpLookaheadFloat
| OpEat
| OpEatAndReset
| OpSetIdentifierMatchRule (rule : IdentifierMatchRule.t)
| OpLookaheadN (n : nat)
| OpEatN (n : nat).

Definition run_op (lx : Lexer) (op : LexerOp) : Lexer :=
  match op with
  | OpLookahead => snd (Lookahead lx)
  | OpLookaheadFloat => snd (LookaheadFloat lx)
  | OpEat => Eat lx
  | OpEatAndReset => EatAndReset lx
  | OpSetIdentifierMatchRule rule => SetIdentifierMatchRule rule lx
  | OpLookaheadN n => snd (LookaheadN n lx)
  | OpEatN n => EatN n lx
  end.

Definition run_ops (ops : list LexerOp) (lx : Lexer) : Lexer :=
  fold_left run_op ops lx.

(** The index in the input of the token that [LineNumber], [ColNumber] and
    [CurrentLine] report on: the first buffered token, or the cursor. *)
Definition reported_index (lx : Lexer) : nat :=
  match lexed_tokens lx with
  | [] => CursorPosition.index (pos lx)
  | front :: _ => CursorPosition.index (fst front)
  end.

(** An operation of the lexer that keeps the input and the consistency of the
    recorded positions. *)
Definition lexer_step (lx lx' : Lexer) : Prop :=
  lex_string lx' = lex_string lx
  /\ (Lexer_consistent lx -> Lexer_consistent lx').

(** * AssembleInstructionDialog *)

(** The instruction word [AssembleInstructionDialog::OnEditChanged] reads back
    from the bytes of the first block: [m_code = 0; for (size_t i = 0; i < 4 &&
    i < block_bytes.size(); i++) m_code = (m_code << 8) | block_bytes[i];] *)
Definition instruction_code (block_bytes : list Z) : Z :=
  fold_left (fun m_code b => Z.lor (wrap32 (Z.shiftl m_code 8)) b) (take 4 block_bytes) 0.

(** * Notions used to state the properties of the IR generator *)

(** Run in [st], where [b] is the active block, [c] returns and leaves an
    active block with the same base address whose end address is [n] bytes
    further on (in [u32] arithmetic). *)
Definition advances_by (st : ParseState GekkoIRPlugin) (b : IRBlock)
    (c : M GekkoIRPlugin unit) (n : Z) : Prop :=
  exists st' b',
    c st = Done (tt, st')
    /\ blocks (output_result (plugin st')) !! active_block (plugin st') = Some b'
    /\ block_address b' = block_address b
    /\ BlockEndAddress b' = wrap32 (BlockEndAddress b + n).

(** The closure [OnLoaddr] leaves on the fixup stack in the double-pass mode. *)
Definition Loaddr_fixup (id : string) (source_address : Z) (err : AssemblerError.t)
  : Fixup :=
  FixupBinaryEvaluator (binary_operator 32 AsmOp.kAnd)
    (FixupSymbolResolve id true source_address err) (FixupLiteral 0xffff).

(** Between two parse states only the values of the operands of the pool
    differ (and the error): the lexer, the end of file flag, every other
    member of the plugin, the blocks and the source intervals of the operands
    are the same. *)
Definition only_operand_values_change (st st' : ParseState GekkoIRPlugin) : Prop :=
  lexer st' = lexer st
  /\ eof st' = eof st
  /\ exists pool',
       fst <$> pool' = fst <$> operand_pool (output_result (plugin st))
       /\ plugin st'
          = set_output_result
              (mkGekkoIR (blocks (output_result (plugin st))) pool') (plugin st).

(** The error forwarded to the plugin object ([owner_error]) is [e]. *)
Definition error_is (e : option AssemblerError.t) (p : GekkoIRPlugin) : Prop :=
  owner_error p = e.

(** * Notions used to state the properties of string literals *)

(** The items of the body of a string literal without numeric escapes: a
    character other than the backslash, or a backslash followed by a character
    that starts neither an octal nor a hexadecimal escape. *)
Inductive LiteralItem :=
| PlainChar (c : ascii)
| SimpleEscape (c : ascii).

Definition item_source (item : LiteralItem) : list ascii :=
  match item with
  | PlainChar c => [c]
  | SimpleEscape c => ["\"%char; c]
  end.

Definition item_ok (item : LiteralItem) : Prop :=
  match item with
  | PlainChar c => c <> "\"%char
  | SimpleEscape c => is_octal c = false /\ c <> "x"%char
  end.

Definition item_byte (item : LiteralItem) : Z :=
  match item with
  | PlainChar c => Z.of_nat (char_code c)
  | SimpleEscape c => Z.of_nat (char_code (simple_escape c))
  end.

(** The text of the literal: the items between two double quotes. *)
Definition literal_of_items (items : list LiteralItem) : string :=
  string_of_list_ascii (dquote :: concat (item_source <$> items) ++ [dquote]).

(** * Notions used to state the round trips through the lexer *)

(** The characters of the input from the scan cursor on. *)
Definition suffix_at (lx : Lexer) : list ascii :=
  drop (CursorPosition.index (scan_pos lx)) (list_ascii_of_string (lex_string lx)).

(** A decimal numeral with at least one digit and no leading zero, the
    numeral [0] itself apart. *)
Definition canonical_decimal (d : Decimal.uint) : Prop :=
  match d with
  | Decimal.Nil => False
  | Decimal.D0 Decimal.Nil => True
  | Decimal.D0 _ => False
  | _ => True
  end.

(** The text of a decimal numeral. *)
Definition decimal_text (d : Decimal.uint) : string :=
  DecimalString.NilEmpty.string_of_uint d.

(** An item the string automaton takes as part of the body of a literal:
    a character that is none of line break, double quote, backslash and NUL,
    or a backslash followed by a character that is none of an octal digit,
    [x], line break and NUL. *)
Definition item_lexable (item : LiteralItem) : Prop :=
  match item with
  | PlainChar c => _normal c = true /\ c <> Ascii.zero
  | SimpleEscape c => _sce c = true /\ c <> Ascii.zero
  end.

(** * DolphinQt/Debugger/AssemblerWidget.cpp: the output formats *)

(** [struct CodeBlock], the fields the widget reads. *)
Module CodeBlock.
Record t := mk {
  block_address : Z;
  instructions : list Z
}.
End CodeBlock.

Definition hex_digit (d : Z) : ascii :=
  nth (Z.to_nat d) (list_ascii_of_string "0123456789abcdef") "0"%char.

(** The hexadecimal digits of [v], least significant first. *)
Fixpoint hex_digits_rev (fuel : nat) (v : Z) : list ascii :=
  match fuel with
  | O => []
  | S fuel' =>
      hex_digit (v mod 16) :: (if v / 16 =? 0 then [] else hex_digits_rev fuel' (v / 16))
  end.

(** [fmt::format("{:0Nx}", v)] for an unsigned [v] of at most 64 bits. *)
Definition format_hex (width : nat) (v : Z) : list ascii :=
  let digits := rev (hex_digits_rev 16 v) in
  repeat "0"%char (width - length digits) ++ digits.

(** [out_str << s] on the characters written so far. *)
Definition put (out : list ascii) (s : string) : list ascii :=
  out ++ list_ascii_of_string s.

(** First loop of [DeserializeBlock], from index [i] on. *)
Fixpoint DeserializeBlock_bytes (instructions : list Z) (i : nat) (out : list ascii)
  : list ascii :=
  match instructions with
  | [] => out
  | b :: rest =>
      let out := out ++ format_hex 2 b in
      let out :=
        if (i mod 8 =? 7)%nat then out ++ [newline]
        else if (i mod 4 =? 3)%nat then out ++ [" "%char]
        else out in
      DeserializeBlock_bytes rest (S i) out
  end.

(** [for (; i % 4 != 0; i++)] of [DeserializeBlock]; it ends within three
    rounds. *)
Fixpoint DeserializeBlock_pad (fuel : nat) (i : nat) (out : list ascii) (did_pad : bool)
  : nat * list ascii * bool :=
  match fuel with
  | O => (i, out, did_pad)
  | S fuel' =>
      if (i mod 4 =? 0)%nat then (i, out, did_pad)
      else DeserializeBlock_pad fuel' (S i) (put out "00") true
  end.

Definition DeserializeBlock (blk : CodeBlock.t) (out : list ascii) (pad4 : bool)
  : list ascii :=
  let i := length (CodeBlock.instructions blk) in
  let out := DeserializeBlock_bytes (CodeBlock.instructions blk) 0 out in
  if pad4 then
    let '(i, out, did_pad) := DeserializeBlock_pad 3 i out false in
    if did_pad then out ++ [if (i mod 8 =? 0)%nat then newline else " "%char]
    else out
  else if negb (i mod 8 =? 7)%nat then out ++ [newline]
  else out.

(** The line count both Gecko formats announce for a block of [size] bytes,
    and whether the closing words go on a line of their own. *)
Definition gecko_nlines (size : nat) : Z * bool :=
  let nlines := wrap32 (1 + wrap32 ((Z.of_nat size - 1) / 8)) in
  if (size mod 8 =? 0)%nat || (4 <? size mod 8)%nat
  then (wrap32 (nlines + 1), true)
  else (nlines, false).

Definition DeserializeToGeckoExec (blocks : list CodeBlock.t) (out : list ascii)
  : list ascii :=
  fold_left
    (fun out blk =>
       match CodeBlock.instructions blk with
       | [] => out
       | _ =>
           let '(nlines, ret_on_newline) :=
             gecko_nlines (length (CodeBlock.instructions blk)) in
           let out := put out "c0000000 " ++ format_hex 8 nlines ++ [newline] in
           let out := DeserializeBlock blk out true in
           if ret_on_newline then put out "4e800020 00000000" ++ [newline]
           else put out "4e800020" ++ [newline]
       end)
    blocks out.

Definition DeserializeToGeckoTramp (blocks : list CodeBlock.t) (out : list ascii)
  : list ascii :=
  fold_left
    (fun out blk =>
       match CodeBlock.instructions blk with
       | [] => out
       | _ =>
           let inject_addr :=
             Z.lor (Z.land (CodeBlock.block_address blk) 33554431) 33554432 in
           let '(nlines, padding_on_newline) :=
             gecko_nlines (length (CodeBlock.instructions blk)) in
           let out :=
             put out "c" ++ format_hex 7 inject_addr ++ [" "%char]
               ++ format_hex 8 nlines ++ [newline] in
           let out := DeserializeBlock blk out true in
           if padding_on_newline then put out "60000000 00000000" ++ [newline]
           else put out "00000000" ++ [newline]
       end)
    blocks out.

(** A line of a Gecko code: two words of eight hexadecimal digits with one
    space between them. *)
Definition is_gecko_line (l : list ascii) : bool :=
  (length l =? 17)%nat
  && forallb isxdigit (take 8 l)
  && match l !! 8%nat with Some c => Ascii.eqb c " " | None => false end
  && forallb isxdigit (drop 9 l).

(** The text of a list of lines, each closed by a line break. *)
Definition lines_text (lines : list (list ascii)) : list ascii :=
  concat ((fun l => l ++ [newline]) <$> lines).

(** The hexadecimal digits of a text, its spaces and line breaks left out. *)
Definition payload (text : list ascii) : list ascii :=
  List.filter isxdigit text.

(** The zero bytes that pad a block of [size] bytes to a multiple of four. *)
Definition pad4_bytes (size : nat) : nat := ((4 - size mod 4) mod 4)%nat.

(** What both Gecko formats write for a block after its header, from byte
    index [i] on: the bytes, the padding of [DeserializeBlock] and the closing
    words, [long] on a line of their own or [short] at the end of the last
    line. *)
Definition gecko_tail (long short : string) (instructions : list Z) (i : nat)
    (out : list ascii) : list ascii :=
  let size := (i + length instructions)%nat in
  let out := DeserializeBlock_bytes instructions i out in
  let '(i', out, did_pad) := DeserializeBlock_pad 3 size out false in
  let out :=
    if did_pad then out ++ [if (i' mod 8 =? 0)%nat then newline else " "%char]
    else out in
  if (size mod 8 =? 0)%nat || (4 <? size mod 8)%nat
  then put out long ++ [newline]
  else put out short ++ [newline].

(** Whether the closing words of a block of [size] bytes go on a line of
    their own. *)
Definition closes_on_new_line (size : nat) : bool :=
  (size mod 8 =? 0)%nat || (4 <? size mod 8)%nat.


(** * Where the references of an operand were made *)

(** Every address captured in the closures of a fixup (the [source_address]
    of a symbol reference and the [inst_address] of a conversion to a relative
    address) is [a]. *)
Fixpoint refs_from (a : Z) (f : Fixup) : Prop :=
  match f with
  | FixupLiteral _ => True
  | FixupSymbolResolve _ _ source_address _ => source_address = a
  | FixupUnaryEvaluator _ sub => refs_from a sub
  | FixupBinaryEvaluator _ lhs rhs => refs_from a lhs /\ refs_from a rhs
  | FixupAbsoluteAddressConv inst_address sub => inst_address = a /\ refs_from a sub
  end.

(** The instruction at position [ii] of the chunk [ci] of a block. *)
Definition inst_in_block (b : IRBlock) (ci ii : nat) : option GekkoInstruction :=
  match chunks b !! ci with
  | Some (InstChunk insts) => insts !! ii
  | _ => None
  end.

(** The block cut off just before that instruction: the chunks before its
    chunk and the instructions before it in its chunk. *)
Definition block_before (b : IRBlock) (ci ii : nat) : IRBlock :=
  mkIRBlock
    (take ci (chunks b)
     ++ match chunks b !! ci with
        | Some (InstChunk insts) => [InstChunk (take ii insts)]
        | _ => []
        end)
    (block_address b).

(** The address of the instruction: the end address of the block cut off
    just before it. *)
Definition instruction_address (b : IRBlock) (ci ii : nat) : Z :=
  BlockEndAddress (block_before b ci ii).

(** The operands of the instructions of a block are operands of the pool,
    and the references of their fixups were made from the address of their
    instruction. *)
Definition block_refs_ok (fixups : list Fixup) (b : IRBlock) : Prop :=
  forall ci ii inst,
    inst_in_block b ci ii = Some inst ->
    (op_index inst + op_count inst <= List.length fixups)%nat
    /\ forall k f,
         (op_index inst <= k < op_index inst + op_count inst)%nat ->
         fixups !! k = Some f ->
         refs_from (instruction_address b ci ii) f.

Definition operands_refer_from_their_instruction (p : GekkoIRPlugin) : Prop :=
  Forall (block_refs_ok (operand_fixups p)) (blocks (output_result p)).

(** The plugin with its callout at the end of an instruction left out: the
    callouts the parser issues everywhere else.  It serves the proofs about
    the lines that are not instructions and about the operands of an
    instruction; the parser functions over it are those over the plugin. *)
Definition GekkoIRPlugin_within_instruction (platform : Platform)
  : ParsePlugin GekkoIRPlugin := {|
  ForwardError err p := set_owner_error (Some err) p;
  Error p := owner_error p;
  PostParseAction := GekkoIRPlugin_PostParseAction platform;
  OnDirectivePre := GekkoIRPlugin_OnDirectivePre;
  OnDirectivePost := GekkoIRPlugin_OnDirectivePost;
  OnInstructionPre := GekkoIRPlugin_OnInstructionPre;
  OnInstructionPost := fun _ _ => ret tt;
  OnOperandPre := GekkoIRPlugin_OnOperandPre;
  OnOperandPost := GekkoIRPlugin_OnOperandPost;
  OnResolvedExprPre := ret tt;
  OnResolvedExprPost := GekkoIRPlugin_OnResolvedExprPost;
  OnOperator := GekkoIRPlugin_OnOperator;
  OnTerminal := GekkoIRPlugin_OnTerminal platform;
  OnHiaddr := GekkoIRPlugin_OnHiaddr platform;
  OnLoaddr := GekkoIRPlugin_OnLoaddr platform;
  OnOpenParen := fun _ => ret tt;
  OnCloseParen := GekkoIRPlugin_OnCloseParen platform;
  OnError := ret tt;
  OnLabelDecl := GekkoIRPlugin_OnLabelDecl;
  OnVarDecl := GekkoIRPlugin_OnVarDecl
|}.

(** The plugin while the operands of an instruction are parsed: [p0] is the
    plugin when the instruction was started and [a] the end address of its
    active block then.  The blocks are as they were, [k] fixups are on the
    fixup stack above those of [p0], and these and the operand fixups saved
    since were all made from [a]. *)
Definition within_instruction (a : Z) (p0 : GekkoIRPlugin) (k : nat) (p : GekkoIRPlugin)
  : Prop :=
  blocks (output_result p) = blocks (output_result p0)
  /\ active_block p = active_block p0
  /\ operand_scan_begin p = operand_scan_begin p0
  /\ evaluation_mode p = EvalMode.RelAddrDoublePass
  /\ (exists xs, fixup_stack p = xs ++ fixup_stack p0
                 /\ List.length xs = k /\ Forall (refs_from a) xs)
  /\ (exists fs, operand_fixups p = operand_fixups p0 ++ fs /\ Forall (refs_from a) fs).

(** A computation started without an error in a state of [G k] ends without
    an error in a state of [G k']. *)
Definition steps_quietly {P A : Type} (G : nat -> P -> Prop) (k k' : nat) (c : M P A)
  : Prop :=
  forall st r st',
    c st = Done (r, st') -> error st = None -> G k (plugin st) ->
    error st' = None /\ G k' (plugin st').

(** A computation started without an error in a state of [G k] ends in a
    state of [G k'] when it ends without an error. *)
Definition steps {P A : Type} (G : nat -> P -> Prop) (k k' : nat) (c : M P A) : Prop :=
  forall st r st',
    c st = Done (r, st') -> error st = None -> G k (plugin st) ->
    error st' = None -> G k' (plugin st').

(** The source text of the example of a forward reference: a branch, a [lis]
    and an [addi] that name a label declared after them. *)
Definition forward_reference_example : string :=
  "nop" ++ nl ++ "b lbl" ++ nl ++ "lis r3, lbl@ha" ++ nl
  ++ "addi r3, r3, lbl@l" ++ nl ++ "lbl: nop".
(** * Properties *)

#[local] Set Warnings "-clear-no-such-hyp".

(** ** Fixed width arithmetic *)

(** Closed bounds [lo <= c < hi] on numerals. *)
Ltac closed_range := vm_compute; split; [intro; discriminate | reflexivity].

Lemma wrap_range w x : 0 <= w -> 0 <= wrap w x < 2 ^ w.
Proof. intros Hw. unfold wrap. apply Z.mod_pos_bound. apply Z.pow_pos_nonneg; lia. Qed.

Lemma wrap_small w x : 0 <= x < 2 ^ w -> wrap w x = x.
Proof. intros H. unfold wrap. apply Z.mod_small. exact H. Qed.

Lemma wrap32_range x : 0 <= wrap32 x < 2 ^ 32.
Proof. apply wrap_range. lia. Qed.

Lemma wrap32_small x : 0 <= x < 2 ^ 32 -> wrap32 x = x.
Proof. apply wrap_small. Qed.

Lemma wrap32_idem x : wrap32 (wrap32 x) = wrap32 x.
Proof. apply wrap32_small, wrap32_range. Qed.

Lemma wrap32_add_l x y : wrap32 (wrap32 x + y) = wrap32 (x + y).
Proof. unfold wrap32, wrap. apply Zplus_mod_idemp_l. Qed.

Lemma wrap32_add_r x y : wrap32 (x + wrap32 y) = wrap32 (x + y).
Proof. unfold wrap32, wrap. apply Zplus_mod_idemp_r. Qed.


(** ** Operand descriptors *)

Lemma land_range_mask v k l :
  0 <= l <= k -> Z.land v (2 ^ k - 2 ^ l) = v mod 2 ^ k - v mod 2 ^ l.
Proof.
  intros Hkl.
  assert (Hm : 2 ^ k - 2 ^ l = Z.ldiff (Z.ones k) (Z.ones l)).
  { rewrite <- Z.sub_nocarry_ldiff.
    - rewrite !Z.ones_equiv. lia.
    - apply Z.bits_inj'. intros n Hn. rewrite Z.ldiff_spec, Z.bits_0.
      destruct (Z.ltb_spec n l) as [Hlt | Hge].
      + rewrite (Z.ones_spec_low k n) by lia. rewrite andb_false_r. reflexivity.
      + rewrite (Z.ones_spec_high l n) by lia. reflexivity. }
  rewrite Hm.
  assert (He : Z.land v (Z.ldiff (Z.ones k) (Z.ones l))
               = Z.ldiff (Z.land v (Z.ones k)) (Z.ones l)).
  { apply Z.bits_inj'. intros n Hn.
    rewrite !Z.land_spec, !Z.ldiff_spec, !Z.land_spec. apply andb_assoc. }
  rewrite He, Z.land_ones by lia.
  rewrite Z.ldiff_ones_r by lia.
  rewrite Z.shiftr_div_pow2, Z.shiftl_mul_pow2 by lia.
  assert (Hl : 0 < 2 ^ l) by (apply Z.pow_pos_nonneg; lia).
  assert (Hmm : (v mod 2 ^ k) mod 2 ^ l = v mod 2 ^ l).
  { apply Z.mod_mod_divide.
    exists (2 ^ (k - l)). rewrite <- Z.pow_add_r by lia. f_equal. lia. }
  pose proof (Z.div_mod (v mod 2 ^ k) (2 ^ l) ltac:(lia)) as Hd.
  rewrite Hmm in Hd. lia.
Qed.

(** The unsigned case holds for every mask and every shift below 32. *)
Lemma unsigned_decode (m s v : Z) :
  0 <= s < 32 -> 0 <= m < 2 ^ 32 -> 0 <= v ->
  Z.shiftr (Z.land (wrap32 (Z.shiftl v s)) m) s = Z.land (Z.shiftr m s) v.
Proof.
  intros Hs Hm Hv. apply Z.bits_inj'. intros n Hn.
  rewrite Z.shiftr_spec, !Z.land_spec, Z.shiftr_spec by lia.
  unfold wrap32, wrap.
  destruct (Z.ltb_spec (n + s) 32) as [Hlt | Hge].
  - rewrite Z.mod_pow2_bits_low by lia.
    rewrite Z.shiftl_spec by lia. replace (n + s - s) with n by lia.
    apply andb_comm.
  - rewrite Z.mod_pow2_bits_high by lia.
    assert (Z.testbit m (n + s) = false) as ->; [|reflexivity].
    destruct (Z.eq_dec m 0) as [-> | Hne]; [apply Z.bits_0|].
    apply Z.bits_above_log2; [lia|].
    assert (Z.log2 m < 32) by (apply Z.log2_lt_pow2; lia). lia.
Qed.

Lemma Fits_unsigned d v :
  is_signed d = false -> 0 <= shift d < 32 -> 0 <= mask d < 2 ^ 32 ->
  mask_lobit d = 1 -> 0 <= v ->
  Fits d v = true <-> DecodeField d (Fit d v) = v.
Proof.
  intros Hsg Hs Hm Hlo Hv. unfold Fits, DecodeField, Fit, TruncBits. rewrite Hsg, Hlo. simpl.
  replace (Z.land (Z.land (wrap32 (Z.shiftl v (shift d))) (mask d)) (mask d))
    with (Z.land (wrap32 (Z.shiftl v (shift d))) (mask d)).
  2:{ rewrite <- Z.land_assoc, Z.land_diag. reflexivity. }
  rewrite unsigned_decode by assumption.
  change (not_w 32 (wrap32 (1 - 1))) with (Z.ones 32).
  rewrite Z.land_ones by lia.
  fold (mask_sh d). rewrite Z.eqb_eq.
  assert (H0 : 0 <= Z.land (mask_sh d) v) by (apply Z.land_nonneg; right; lia).
  assert (Hl : Z.log2 (Z.land (mask_sh d) v) < 32).
  { assert (Hms : 0 <= mask_sh d) by (unfold mask_sh; apply Z.shiftr_nonneg; lia).
    pose proof (Z.log2_land (mask_sh d) v Hms Hv) as Hle.
    assert (Z.log2 (mask_sh d) < 32); [|lia].
    unfold mask_sh. destruct (Z.eq_dec (mask d) 0) as [E0 | Hne].
    - rewrite E0, Z.shiftr_0_l. simpl. lia.
    - rewrite Z.log2_shiftr by lia.
      assert (Z.log2 (mask d) < 32) by (apply Z.log2_lt_pow2; lia). lia. }
  rewrite <- Z.land_ones, Z.land_ones_low by lia. reflexivity.
Qed.

Lemma not_w32_val x : 0 <= x < 2 ^ 32 -> not_w 32 x = 2 ^ 32 - 1 - x.
Proof.
  intros Hx. unfold not_w, wrap.
  replace (Z.lnot x) with (- x - 1) by (unfold Z.lnot; lia).
  symmetry. apply Z.mod_unique with (-1); lia.
Qed.

(** The signed descriptors of the catalogue are range masks at shift 0 whose
    bits run from bit [l] up to bit [h]. *)
Lemma Fits_signed d v h l :
  In (h, l) [(15, 2); (25, 2); (15, 0); (12, 0)] ->
  is_signed d = true -> shift d = 0 -> mask d = 2 ^ (h + 1) - 2 ^ l ->
  mask_hibit d = 2 ^ h -> mask_lobit d = 2 ^ l ->
  0 <= v < 2 ^ 32 ->
  Fits d v = true <-> DecodeField d (Fit d v) = v.
Proof.
  intros Hin Hsg Hs Hm Hhi Hlo Hv.
  unfold Fits, DecodeField, Fit, TruncBits. rewrite Hsg, Hs, Hhi, Hlo, Hm.
  rewrite Z.shiftl_0_r, Z.shiftr_0_r, (wrap32_small v) by exact Hv.
  rewrite <- Z.land_assoc, Z.land_diag.
  assert (Hhl : 0 <= l <= h /\ h < 31).
  { simpl in Hin. intuition (try congruence); match goal with
    | E : (_, _) = (h, l) |- _ => inversion E; subst; lia end. }
  assert (HL : 0 < 2 ^ l <= 2 ^ h) by (split; [apply Z.pow_pos_nonneg | apply Z.pow_le_mono_r]; lia).
  assert (HH : 2 ^ h < 2 ^ 31) by (apply Z.pow_lt_mono_r; lia).
  rewrite (wrap32_small (2 ^ h - 1)), (wrap32_small (2 ^ l - 1)) by lia.
  rewrite !not_w32_val by lia.
  replace (2 ^ l - 1) with (Z.ones l) at 1 by (rewrite Z.ones_equiv; lia).
  rewrite Z.land_ones by lia.
  rewrite (land_range_mask v (h + 1) l) by lia.
  replace (2 ^ 32 - 1 - (2 ^ l - 1)) with (2 ^ 32 - 2 ^ l) by lia.
  rewrite land_range_mask by lia.
  simpl andb. unfold wrap32, wrap.
  rewrite andb_true_iff, orb_true_iff, Z.eqb_eq, !Z.leb_le.
  simpl in Hin.
  destruct Hin as [E | [E | [E | [E | []]]]]; inversion E; subst h l; clear E;
    change (2 ^ (15 + 1)) with 65536 in *; change (2 ^ (25 + 1)) with 67108864 in *;
    change (2 ^ (12 + 1)) with 8192 in *;
    change (2 ^ 15) with 32768 in *; change (2 ^ 25) with 33554432 in *;
    change (2 ^ 12) with 4096 in *; change (2 ^ 2) with 4 in *;
    change (2 ^ 0) with 1 in *; change (2 ^ 32) with 4294967296 in *;
    match goal with
    | |- context [?a <=? ?b] => destruct (Z.leb_spec a b)
    end; Z.div_mod_to_equations; lia.
Qed.

(** ** C2: operand-fit decidability *)

(** C2. For every operand descriptor [d] of the fixed catalogue and every
    [u32] value [v], [Fits d v] holds exactly when decoding the encoded field
    [Fit d v] (shift the masked field back down, sign extend when [d] is
    signed, truncated low bits restored as zero) gives [v] back. *)
Theorem Fits_iff_decode_roundtrip (d : OperandDesc) (v : Z) :
  In d operand_catalogue -> 0 <= v < 2 ^ 32 ->
  (Fits d v = true <-> DecodeField d (Fit d v) = v).
Proof.
  intros Hin Hv. unfold operand_catalogue in Hin. simpl in Hin.
  repeat (destruct Hin as [<- | Hin];
    [ first
        [ apply Fits_unsigned; [reflexivity | vm_compute; intuition congruence
                               | vm_compute; intuition congruence | reflexivity | lia]
        | apply (Fits_signed _ v 15 2); [simpl; tauto | reflexivity .. | exact Hv]
        | apply (Fits_signed _ v 25 2); [simpl; tauto | reflexivity .. | exact Hv]
        | apply (Fits_signed _ v 15 0); [simpl; tauto | reflexivity .. | exact Hv]
        | apply (Fits_signed _ v 12 0); [simpl; tauto | reflexivity .. | exact Hv] ]
    | ]).
  destruct Hin.
Qed.

Lemma Fits_iff_decode_roundtrip_witness :
  (Fits _SIMM 0xFFFF8000 = true <-> DecodeField _SIMM (Fit _SIMM 0xFFFF8000) = 0xFFFF8000)
  /\ Fits _SIMM 0xFFFF8000 = true
  /\ Fits _SIMM 0x8000 = false /\ DecodeField _SIMM (Fit _SIMM 0x8000) = 0xFFFF8000
  /\ Fits _BD 0x7FFE = false /\ DecodeField _BD (Fit _BD 0x7FFE) = 0x7FFC.
Proof.
  split.
  - apply (Fits_iff_decode_roundtrip _SIMM 0xFFFF8000).
    + unfold operand_catalogue. simpl. tauto.
    + lia.
  - vm_compute. repeat split; reflexivity.
Defined.

(** ** C3: the end address of a block *)

Lemma fold_end_address cs acc :
  fold_left (fun a chunk => wrap32 (a + chunk_size chunk)) cs (wrap32 acc)
  = wrap32 (acc + sum_chunk_bytes cs).
Proof.
  revert acc. induction cs as [|c cs IH]; intros acc; simpl.
  - rewrite Z.add_0_r. reflexivity.
  - rewrite wrap32_add_l.
    assert (Hc : wrap32 (acc + chunk_size c) = wrap32 (acc + chunk_bytes c)).
    { rewrite <- wrap32_add_r. rewrite <- (wrap32_add_r acc (chunk_bytes c)). f_equal. f_equal.
      destruct c; simpl; unfold wrap32, wrap64, wrap.
      - rewrite (Z.mod_mod_divide _ (2 ^ 64) (2 ^ 32)) by (exists (2 ^ 32); reflexivity).
        rewrite Z.mod_mod by lia. f_equal. lia.
      - apply Z.mod_mod. lia.
      - apply Z.mod_mod. lia. }
    rewrite Hc, IH. f_equal. lia.
Qed.

Lemma BlockEndAddress_range b :
  0 <= block_address b < 2 ^ 32 -> 0 <= BlockEndAddress b < 2 ^ 32.
Proof.
  intros Hb. unfold BlockEndAddress.
  rewrite <- (wrap32_small (block_address b)) by exact Hb.
  rewrite fold_end_address. apply wrap32_range.
Qed.

(** C3. For every IR block (its base address being a [u32]) the end address
    is the base address plus the sum of the chunk sizes, where an instruction
    chunk of [n] instructions counts [4 * n] bytes, a byte chunk its length
    and a pad chunk its count; the sum is taken in [u32] arithmetic, and is the
    exact integer sum whenever that sum is below [2 ^ 32]. *)
Theorem BlockEndAddress_base_plus_chunks (b : IRBlock) :
  0 <= block_address b < 2 ^ 32 ->
  BlockEndAddress b = wrap32 (block_address b + sum_chunk_bytes (chunks b))
  /\ (0 <= sum_chunk_bytes (chunks b) ->
      block_address b + sum_chunk_bytes (chunks b) < 2 ^ 32 ->
      BlockEndAddress b = block_address b + sum_chunk_bytes (chunks b)).
Proof.
  intros Hb.
  assert (H : BlockEndAddress b = wrap32 (block_address b + sum_chunk_bytes (chunks b))).
  { unfold BlockEndAddress.
    rewrite <- (wrap32_small (block_address b)) at 1 by exact Hb.
    apply fold_end_address. }
  split; [exact H|].
  intros Hs Hlt. rewrite H. apply wrap32_small. lia.
Qed.

Lemma BlockEndAddress_base_plus_chunks_witness :
  let b := mkIRBlock [InstChunk [mkGekkoInstruction 0 0 0 "" 0 false;
                                 mkGekkoInstruction 0 0 0 "" 0 false];
                      ByteChunk [1; 2; 3]; PadChunk 5] 0x80000000 in
  BlockEndAddress b = wrap32 (block_address b + sum_chunk_bytes (chunks b))
  /\ BlockEndAddress b = 0x80000010.
Proof.
  intros b.
  assert (Hb : 0 <= block_address b < 2 ^ 32) by (subst b; closed_range).
  destruct (BlockEndAddress_base_plus_chunks b Hb) as [Hwrap Hexact].
  split; [exact Hwrap|].
  rewrite Hexact; [reflexivity | subst b; vm_compute; discriminate | subst b; reflexivity].
Defined.

(** ** C9: [.align] *)

Lemma CurrentAddress_run (st : ParseState GekkoIRPlugin) (b : IRBlock) :
  blocks (output_result (plugin st)) !! active_block (plugin st) = Some b ->
  CurrentAddress st = Done (BlockEndAddress b, st).
Proof.
  intros Hb. unfold CurrentAddress, get_active_block, bind, get_plugin, ret.
  rewrite Hb. reflexivity.
Qed.

Lemma align_mask_land a bits :
  0 <= bits -> Z.land a (2 ^ bits - 1) = a mod 2 ^ bits.
Proof.
  intros Hb. rewrite <- Z.land_ones by lia. f_equal. rewrite Z.ones_equiv. lia.
Qed.

Lemma align_down a bits :
  0 <= bits <= 30 -> 0 <= a < 2 ^ 32 ->
  Z.land a (not_w 32 (2 ^ bits - 1)) = a / 2 ^ bits * 2 ^ bits.
Proof.
  intros Hb Ha.
  assert (Hp : 0 < 2 ^ bits <= 2 ^ 30) by (split; [apply Z.pow_pos_nonneg | apply Z.pow_le_mono_r]; lia).
  rewrite not_w32_val by lia.
  replace (2 ^ 32 - 1 - (2 ^ bits - 1)) with (2 ^ 32 - 2 ^ bits) by lia.
  rewrite land_range_mask by lia.
  rewrite (Z.mod_small a (2 ^ 32)) by lia.
  pose proof (Z.div_mod a (2 ^ bits) ltac:(lia)). lia.
Qed.

(** X25. For [.align BITS] with [BITS <= 30] (the range in which the [int]
    expression [(1 << bits) - 1] of the source is defined): when the end
    address of the active block is a multiple of [2 ^ BITS] the state is left
    as it is and no block is started; otherwise a new block is appended and
    made the active one, and its base address is the end address rounded up to
    the next multiple of [2 ^ BITS], in [u32] arithmetic (the exact integer
    when that multiple is below [2 ^ 32]). *)
Theorem StartBlockAlign_rounds_up (st : ParseState GekkoIRPlugin) (b : IRBlock) (bits : Z) :
  blocks (output_result (plugin st)) !! active_block (plugin st) = Some b ->
  0 <= block_address b < 2 ^ 32 ->
  0 <= bits <= 30 ->
  let current_end := BlockEndAddress b in
  let rounded := (current_end / 2 ^ bits + 1) * 2 ^ bits in
  (current_end mod 2 ^ bits = 0 -> StartBlockAlign bits st = Done (tt, st))
  /\ (current_end mod 2 ^ bits <> 0 ->
      exists st' : ParseState GekkoIRPlugin,
        StartBlockAlign bits st = Done (tt, st')
        /\ blocks (output_result (plugin st'))
           = blocks (output_result (plugin st)) ++ [IRBlock_new (wrap32 rounded)]
        /\ blocks (output_result (plugin st')) !! active_block (plugin st')
           = Some (IRBlock_new (wrap32 rounded))
        /\ (rounded < 2 ^ 32 -> wrap32 rounded = rounded)
        /\ current_end < rounded <= current_end + 2 ^ bits
        /\ rounded mod 2 ^ bits = 0).
Proof.
  intros Hb Hbase Hbits current_end rounded.
  pose proof (BlockEndAddress_range b Hbase) as Hend. fold current_end in Hend.
  assert (Hp : 0 < 2 ^ bits) by (apply Z.pow_pos_nonneg; lia).
  assert (Hsh : int_shl1 bits = Some (2 ^ bits)).
  { unfold int_shl1. destruct (Z.leb_spec bits 30); [reflexivity | lia]. }
  assert (Hrun : StartBlockAlign bits st
                 = if current_end mod 2 ^ bits =? 0 then Done (tt, st)
                   else StartBlock (wrap32 rounded) st).
  { unfold StartBlockAlign. rewrite Hsh. unfold bind.
    rewrite (CurrentAddress_run st b Hb). fold current_end.
    rewrite align_mask_land by lia.
    destruct (current_end mod 2 ^ bits =? 0); [reflexivity|].
    rewrite align_down by lia.
    replace (2 ^ bits + current_end / 2 ^ bits * 2 ^ bits) with rounded
      by (unfold rounded; lia).
    reflexivity. }
  rewrite Hrun. split.
  - intros Hz. rewrite Hz. reflexivity.
  - intros Hnz. destruct (Z.eqb_spec (current_end mod 2 ^ bits) 0) as [E | _]; [contradiction|].
    eexists. split; [reflexivity|]. simpl. rewrite wrap32_idem.
    split; [reflexivity|]. split.
    { rewrite lookup_app_r by lia. rewrite Nat.sub_diag. reflexivity. }
    split.
    { intros Hlt. apply wrap32_small. unfold rounded.
      assert (0 <= current_end / 2 ^ bits) by (apply Z.div_pos; lia). nia. }
    pose proof (Z.div_mod current_end (2 ^ bits) ltac:(lia)) as Hdm.
    pose proof (Z.mod_pos_bound current_end (2 ^ bits) Hp) as Hmb.
    split; [unfold rounded; nia|].
    unfold rounded. apply Z.mod_mul. lia.
Qed.

Lemma StartBlockAlign_rounds_up_witness :
  let st := ParseState_new ".align 4"
              (set_output_result
                 (mkGekkoIR [mkIRBlock [ByteChunk [1; 2; 3]] 0x80000000] [])
                 (GekkoIRPlugin_new 0x80000000)) in
  exists st' : ParseState GekkoIRPlugin,
    StartBlockAlign 4 st = Done (tt, st')
    /\ blocks (output_result (plugin st'))
       = [mkIRBlock [ByteChunk [1; 2; 3]] 0x80000000; IRBlock_new 0x80000010].
Proof.
  intros st.
  destruct (StartBlockAlign_rounds_up st (mkIRBlock [ByteChunk [1; 2; 3]] 0x80000000) 4)
    as [_ Hup]; [reflexivity | closed_range | lia |].
  destruct Hup as (st' & Hrun & Hblocks & _); [vm_compute; discriminate|].
  exists st'. split; [exact Hrun | exact Hblocks].
Defined.

(** C9. [.align BITS] is not defined for every [BITS]: the operand reaches
    [StartBlockAlign] unchecked, and from [BITS = 31] on the [int] expression
    [(1 << bits) - 1] of the source has no defined value, whatever the state.
    So [.align 32] after one byte at [0x80000000], and [.align 31] after one
    byte at [0] (where the rounded-up address is [0x80000000]), find an end
    address that is not aligned and start no block: the run is undefined.
    [.align 2] after one byte at [0x80000000] starts the block at
    [0x80000004]. *)
Theorem StartBlockAlign_undefined_from_31 :
  (forall (n : nat) (st : ParseState GekkoIRPlugin),
     StartBlockAlign (31 + Z.of_nat n) st = Abort "1 << bits overflows int")
  /\ assemble_ir 100 (".byte 1" ++ nl ++ ".align 32") 0x80000000
     = Abort "1 << bits overflows int"
  /\ assemble_ir 100 (".byte 1" ++ nl ++ ".align 31") 0
     = Abort "1 << bits overflows int"
  /\ exists ir,
       assemble_ir 100 (".byte 1" ++ nl ++ ".align 2") 0x80000000 = Done (inr ir)
       /\ block_address <$> blocks ir = [0x80000000; 0x80000004].
Proof.
  split.
  { intros n st. unfold StartBlockAlign, int_shl1.
    destruct (Z.leb_spec (31 + Z.of_nat n) 30) as [H|_]; [lia | reflexivity]. }
  split; [vm_compute; reflexivity|].
  split; [vm_compute; reflexivity|].
  eexists. split; vm_compute; reflexivity.
Qed.

(** ** C1: [@ha] *)

Lemma Hiaddr_fixup_value rtl (labels constants : gmap string Z) id src err a e :
  labels !! id = Some a ->
  call_fixup rtl labels constants (Hiaddr_fixup id src err) e
  = Some (Z.land (Z.shiftr a 16) 0xffff, e).
Proof.
  intros Ha. unfold Hiaddr_fixup. destruct rtl; simpl; rewrite Ha; reflexivity.
Qed.

Lemma OnHiaddr_double_pass platform (st : ParseState GekkoIRPlugin) (b : IRBlock) id :
  evaluation_mode (plugin st) = EvalMode.RelAddrDoublePass ->
  blocks (output_result (plugin st)) !! active_block (plugin st) = Some b ->
  exists st' err,
    GekkoIRPlugin_OnHiaddr platform id st = Done (tt, st')
    /\ fixup_stack (plugin st')
       = Hiaddr_fixup id (BlockEndAddress b) err :: fixup_stack (plugin st).
Proof.
  intros Hmode Hb.
  unfold GekkoIRPlugin_OnHiaddr, bind at 1, get_plugin. rewrite Hmode.
  unfold AddSymbolResolve, bind at 1 2.
  rewrite (CurrentAddress_run st b Hb).
  unfold AddBinaryEvaluator, AddLiteral, push_fixup, pop_fixup, bind, lex_get,
    modify_plugin, get_plugin, put_plugin, ret. simpl.
  eexists. eexists. split; reflexivity.
Qed.

(** C1. The source computes [(S >> 16) & 0xFFFF] for [S@ha], in both
    evaluation modes, and not the high adjusted half: for [S = 0x12348000] an
    instruction operand [S@ha] and a [.4byte S@ha] both give [0x1234], where
    [((S + 0x8000) >> 16) & 0xFFFF] is [0x1235]. *)
Theorem OnHiaddr_is_not_high_adjusted :
  assembled_values
    (assemble_ir 50
       (".defvar S, 0x12348000" ++ nl ++ "lis r3, S@ha" ++ nl ++ ".4byte S@ha")
       0x80000000)
  = Some ([3; 0x1234], [[0; 0; 0x12; 0x34]])
  /\ high_adjusted 0x12348000 = 0x1235
  /\ Z.land (Z.shiftr 0x12348000 16) 0xFFFF = 0x1234.
Proof. vm_compute. repeat split; reflexivity. Qed.

(** ** C5: comments *)

Lemma single_char_token_hash : single_char_token "#" = TokenType.kInvalid.
Proof. reflexivity. Qed.

(** Whatever the lexer state, a ['#'] at the scan position after the leading
    blanks comes out as an invalid token. *)
Lemma LexSingle_hash (lx : Lexer) :
  Peek (ScanStart (SkipWs lx)) = "#"%char ->
  token_type (fst (LexSingle lx)) = TokenType.kInvalid
  /\ invalid_reason (fst (LexSingle lx)) = unrecognized_character.
Proof.
  intros Hp. unfold LexSingle. rewrite Hp.
  assert (Hhead : IdentifierHeadExtra (Step (ScanStart (SkipWs lx))) "#" = false).
  { unfold IdentifierHeadExtra. destruct (match_rule _); reflexivity. }
  simpl. rewrite Hhead. simpl.
  destruct (ScanFinishOut (Step (ScanStart (SkipWs lx)))) as [s l]. simpl. split; reflexivity.
Qed.

(** C5. The lexer of the source has no case for ['#']: the character comes
    out as an invalid token ("Unrecognized character"), and a statement
    followed by a ['#'] comment is rejected where the statement alone
    assembles. *)
Theorem hash_comment_is_not_elided :
  (let tok := fst (LexSingle (Lexer_new "# c")) in
   token_type tok = TokenType.kInvalid /\ token_val tok = "#"%string
   /\ invalid_reason tok = "Unrecognized character"%string)
  /\ assembly_error (assemble_ir 50 "nop # c" 0x80000000)
     = Some (AssemblerError.mk "Unrecognized character" "nop # c" 0 4 1)
  /\ assembled_values (assemble_ir 50 "nop" 0x80000000) = Some ([], [[]]).
Proof. vm_compute. repeat split; reflexivity. Qed.

(** ** C6: parentheses *)

Lemma OnCloseParen_single_pass platform (st : ParseState GekkoIRPlugin) (b : IRBlock)
    (type : ParenType.t) (vec : list Z) (v : Z) :
  evaluation_mode (plugin st) = EvalMode.AbsAddrSinglePass ->
  blocks (output_result (plugin st)) !! active_block (plugin st) = Some b ->
  eval_stack (plugin st) = StackU32 (vec ++ [v]) ->
  exists st',
    GekkoIRPlugin_OnCloseParen platform type st = Done (tt, st')
    /\ eval_stack (plugin st') = StackU32 (vec ++ [wrap32 (v - wrap32 (BlockEndAddress b))]).
Proof.
  intros Hmode Hb Hs.
  unfold GekkoIRPlugin_OnCloseParen, bind at 1, get_plugin. rewrite Hmode.
  unfold bind at 1. rewrite (CurrentAddress_run st b Hb).
  destruct st as [lx p e eo]. destruct p. simpl in *. subst.
  unfold PushCast, EvalOperatorAbs, bind, get_eval_stack, put_eval_stack, get_plugin,
    modify_plugin, ret. simpl.
  rewrite !last_snoc. simpl. rewrite !removelast_last. rewrite last_snoc.
  eexists. split; reflexivity.
Qed.

(** C6. In the single-pass mode [OnCloseParen] subtracts the current address
    for a round parenthesis as it does for the back-tick: [.4byte (5)] at
    [0x80000000] emits [5 - 0x80000000 = 0x80000005], where [.4byte 5] emits
    [5]; in the double-pass mode [(5)] and [5] give the same operand. *)
Theorem round_paren_changes_value_in_single_pass :
  assembled_values (assemble_ir 50 ".4byte (5)" 0x80000000)
  = Some ([], [[0x80; 0; 0; 5]])
  /\ assembled_values (assemble_ir 50 ".4byte 5" 0x80000000)
     = Some ([], [[0; 0; 0; 5]])
  /\ assembled_values (assemble_ir 50 "li r3, (5)" 0x80000000)
     = assembled_values (assemble_ir 50 "li r3, 5" 0x80000000).
Proof. vm_compute. repeat split; reflexivity. Qed.

(** ** C10: [LookaheadTagRef] *)

Lemma LookaheadRef_buffered (lx : Lexer) :
  lexed_tokens lx <> [] -> snd (LookaheadRef lx) = lx.
Proof.
  intros Hne. unfold LookaheadRef, Lookahead.
  destruct (lexed_tokens lx); [contradiction | reflexivity].
Qed.

(** With some, but fewer than [num_fwd], tokens buffered the loop never ends:
    [LookaheadRef] lexes only into an empty buffer. *)
Lemma LookaheadTagRef_loop_stuck (fuel num_fwd : nat) (lx : Lexer) :
  (0 < List.length (lexed_tokens lx) < num_fwd)%nat ->
  LookaheadTagRef_loop fuel num_fwd lx = None.
Proof.
  intros [Hpos Hlt]. induction fuel as [|fuel IH]; simpl; [reflexivity|].
  destruct (Nat.ltb_spec (List.length (lexed_tokens lx)) num_fwd) as [_ | Hge]; [|lia].
  rewrite LookaheadRef_buffered; [exact IH|].
  destruct (lexed_tokens lx); [simpl in Hpos; lia | discriminate].
Qed.

(** With exactly [num_fwd] tokens buffered the loop is skipped and the final
    access [lexed_tokens[num_fwd]] is one past the end. *)
Lemma LookaheadTagRef_one_past_end (fuel : nat) (lx : Lexer) :
  LookaheadTagRef (S fuel) (List.length (lexed_tokens lx)) lx = Some (None, lx).
Proof.
  unfold LookaheadTagRef. simpl. rewrite Nat.ltb_irrefl.
  rewrite lookup_ge_None_2 by lia. reflexivity.
Qed.

Lemma LookaheadTagRef_loop_step (fuel num_fwd : nat) (lx : Lexer) :
  LookaheadTagRef_loop (S fuel) num_fwd lx
  = if (List.length (lexed_tokens lx) <? num_fwd)%nat
    then LookaheadTagRef_loop fuel num_fwd (snd (LookaheadRef lx))
    else Some lx.
Proof. reflexivity. Qed.

(** C10. [LookaheadTagRef(2)] on a lexer that has one token buffered never
    leaves its loop, whatever the number of iterations allowed; and
    [LookaheadTagRef(n)] with [n] tokens buffered (here none and one) reads
    [lexed_tokens[n]] outside the deque. *)
Theorem LookaheadTagRef_hangs_or_reads_out_of_bounds (fuel : nat) :
  let lx1 := snd (Lookahead (Lexer_new "a b c")) in
  List.length (lexed_tokens lx1) = 1%nat
  /\ LookaheadTagRef fuel 2 lx1 = None
  /\ LookaheadTagRef (S fuel) 1 lx1 = Some (None, lx1)
  /\ LookaheadTagRef (S fuel) 0 (Lexer_new "a b c") = Some (None, Lexer_new "a b c")
  /\ LookaheadTagRef (S (S fuel)) 1 (Lexer_new "a b c") = Some (None, lx1).
Proof.
  intros lx1.
  assert (Hlen : List.length (lexed_tokens lx1) = 1%nat) by reflexivity.
  split; [exact Hlen|]. split.
  { unfold LookaheadTagRef. rewrite LookaheadTagRef_loop_stuck; [reflexivity | lia]. }
  split.
  { rewrite <- Hlen at 1. apply LookaheadTagRef_one_past_end. }
  split.
  { apply (LookaheadTagRef_one_past_end fuel (Lexer_new "a b c")). }
  unfold LookaheadTagRef. rewrite !LookaheadTagRef_loop_step.
  change (List.length (lexed_tokens (Lexer_new "a b c")) <? 1)%nat with true.
  cbv iota.
  change (snd (LookaheadRef (Lexer_new "a b c"))) with lx1.
  change (List.length (lexed_tokens lx1) <? 1)%nat with false.
  reflexivity.
Qed.

(** ** C8: the fixup phase *)

Section FixupPhase.
Variable platform : Platform.
Variables labels0 constants0 : gmap string Z.

Let rtl := args_right_to_left platform.

(** A fixup without undefined references leaves [owner->error] alone; one with
    undefined references sets it to the saved error of one of them. *)
Lemma call_fixup_error (f : Fixup) (e e' : option AssemblerError.t) (v : Z) :
  call_fixup rtl labels0 constants0 f e = Some (v, e') ->
  (undefined_references labels0 constants0 f = [] -> e' = e)
  /\ (undefined_references labels0 constants0 f <> [] ->
      exists err, e' = Some err /\ In err (undefined_references labels0 constants0 f)).
Proof.
  revert e e' v. induction f as [lit | sym absolute src err | ev sub IH
                                | ev lhs IHl rhs IHr | addr sub IH]; intros e e' v Hc.
  - simpl in *. inversion Hc; subst. split; [reflexivity | intros H; contradiction].
  - simpl in *. destruct (labels0 !! sym) as [a|].
    + inversion Hc; subst. split; [reflexivity | intros H; contradiction].
    + destruct (constants0 !! sym) as [c|]; inversion Hc; subst.
      * split; [reflexivity | intros H; contradiction].
      * split; [discriminate | intros _; exists err; split; [reflexivity | left; reflexivity]].
  - simpl in *. destruct (call_fixup rtl labels0 constants0 sub e) as [[v1 e1]|] eqn:Hs;
      [|discriminate].
    destruct (ev v1); inversion Hc; subst. exact (IH _ _ _ Hs).
  - simpl in Hc. simpl undefined_references.
    destruct rtl.
    + destruct (call_fixup true labels0 constants0 rhs e) as [[r e1]|] eqn:Hr; [|discriminate].
      destruct (call_fixup true labels0 constants0 lhs e1) as [[l e2]|] eqn:Hl; [|discriminate].
      destruct (ev l r); inversion Hc; subst.
      destruct (IHr _ _ _ Hr) as [Hr0 Hr1]. destruct (IHl _ _ _ Hl) as [Hl0 Hl1].
      split.
      * intros Hnil. apply app_eq_nil in Hnil as [Hln Hrn].
        rewrite (Hl0 Hln). exact (Hr0 Hrn).
      * intros Hne.
        destruct (undefined_references labels0 constants0 lhs) as [|x xs] eqn:El.
        -- rewrite (Hl0 eq_refl). simpl in Hne. exact (Hr1 Hne).
        -- destruct (Hl1 ltac:(discriminate)) as (err & -> & Hin).
           exists err. split; [reflexivity | apply in_or_app; left; exact Hin].
    + destruct (call_fixup false labels0 constants0 lhs e) as [[l e1]|] eqn:Hl; [|discriminate].
      destruct (call_fixup false labels0 constants0 rhs e1) as [[r e2]|] eqn:Hr; [|discriminate].
      destruct (ev l r); inversion Hc; subst.
      destruct (IHr _ _ _ Hr) as [Hr0 Hr1]. destruct (IHl _ _ _ Hl) as [Hl0 Hl1].
      split.
      * intros Hnil. apply app_eq_nil in Hnil as [Hln Hrn].
        rewrite (Hr0 Hrn). exact (Hl0 Hln).
      * intros Hne.
        destruct (undefined_references labels0 constants0 rhs) as [|x xs] eqn:Er.
        -- rewrite (Hr0 eq_refl). rewrite app_nil_r in Hne. 
           destruct (Hl1 Hne) as (err & -> & Hin).
           exists err. split; [reflexivity | apply in_or_app; left; exact Hin].
        -- destruct (Hr1 ltac:(discriminate)) as (err & -> & Hin).
           exists err. split; [reflexivity | apply in_or_app; right; exact Hin].
  - simpl in *. destruct (call_fixup rtl labels0 constants0 sub e) as [[v1 e1]|] eqn:Hs;
      [|discriminate].
    inversion Hc; subst. exact (IH _ _ _ Hs).
Qed.

End FixupPhase.

Section RunFixupsLoop.
Variable platform : Platform.

Let rtl := args_right_to_left platform.

Lemma RunFixups_from_cons (f : Fixup) (rest : list Fixup) (i : nat)
    (st : ParseState GekkoIRPlugin) (v : Z) (e' : option AssemblerError.t) :
  call_fixup rtl (labels (plugin st)) (constants (plugin st)) f (error st) = Some (v, e') ->
  (i < List.length (operand_pool (output_result (plugin st))))%nat ->
  RunFixups_from platform (f :: rest) i st
  = match e' with
    | Some _ => Done (tt, fixup_written i v e' st)
    | None => RunFixups_from platform rest (S i) (fixup_written i v e' st)
    end.
Proof.
  intros Hc Hi.
  destruct (lookup_lt_is_Some_2 _ _ Hi) as [[tag old] Hl].
  unfold fixup_written. simpl RunFixups_from.
  unfold bind, get_plugin, get_error, set_error, put_plugin, ret. fold rtl.
  rewrite Hc. cbn [plugin lexer error eof]. rewrite Hl. destruct e'; reflexivity.
Qed.

Lemma same_tables_refl st : same_tables st st.
Proof. unfold same_tables. repeat split; reflexivity. Qed.

Lemma same_tables_trans st1 st2 st3 :
  same_tables st1 st2 -> same_tables st2 st3 -> same_tables st1 st3.
Proof.
  unfold same_tables. intros (?&?&?&?&?&?&?) (?&?&?&?&?&?&?).
  repeat split; congruence.
Qed.

Lemma fixup_written_same_tables i v e st : same_tables st (fixup_written i v e st).
Proof.
  unfold same_tables, fixup_written. simpl. repeat split; try reflexivity.
  destruct (operand_pool (output_result (plugin st)) !! i) as [[tag old]|]; [|reflexivity].
  apply length_insert.
Qed.

Lemma fixup_written_error i v e st : error (fixup_written i v e st) = e.
Proof. reflexivity. Qed.

Lemma fixup_written_value_eq i v e st :
  (i < List.length (operand_pool (output_result (plugin st))))%nat ->
  pool_value (fixup_written i v e st) i = Some v.
Proof.
  intros Hi. destruct (lookup_lt_is_Some_2 _ _ Hi) as [[tag old] Hl].
  unfold pool_value, fixup_written. simpl. rewrite Hl.
  rewrite list_lookup_insert_eq by exact Hi. reflexivity.
Qed.

Lemma fixup_written_value_ne i k v e st :
  i <> k -> pool_value (fixup_written i v e st) k = pool_value st k.
Proof.
  intros Hne. unfold pool_value, fixup_written. simpl.
  destruct (operand_pool (output_result (plugin st)) !! i) as [[tag old]|]; [|reflexivity].
  rewrite list_lookup_insert_ne by exact Hne. reflexivity.
Qed.

(** Fixups whose every symbol is defined: the loop runs through, leaves no
    error, and writes the value of each fixup to its operand. *)
Lemma RunFixups_from_defined (fixups : list Fixup) :
  forall (i : nat) (st : ParseState GekkoIRPlugin),
    error st = None ->
    (i + List.length fixups <= List.length (operand_pool (output_result (plugin st))))%nat ->
    (forall f, In f fixups ->
       undefined_references (labels (plugin st)) (constants (plugin st)) f = []
       /\ fixup_evaluates rtl (labels (plugin st)) (constants (plugin st)) f) ->
    exists st',
      RunFixups_from platform fixups i st = Done (tt, st')
      /\ error st' = None
      /\ same_tables st st'
      /\ (forall k, (k < i \/ i + List.length fixups <= k)%nat ->
            pool_value st' k = pool_value st k)
      /\ (forall k f, fixups !! k = Some f ->
            exists v, call_fixup rtl (labels (plugin st)) (constants (plugin st)) f None
                      = Some (v, None)
                      /\ pool_value st' (i + k) = Some v).
Proof.
  induction fixups as [|f rest IH]; intros i st He Hlen Hall.
  - exists st. split; [reflexivity|]. split; [exact He|].
    split; [apply same_tables_refl|]. split; [reflexivity|].
    intros k g Hk. rewrite lookup_nil in Hk. discriminate.
  - simpl in Hlen.
    destruct (Hall f (or_introl eq_refl)) as [Hundef Hev].
    destruct (Hev None) as [[v e'] Hc].
    destruct (call_fixup_error platform _ _ f None e' v Hc) as [Hsame _].
    specialize (Hsame Hundef). subst e'.
    rewrite (RunFixups_from_cons f rest i st v None) by first [rewrite He; exact Hc | lia].
    pose proof (fixup_written_same_tables i v None st) as Hst.
    destruct Hst as (Hlx & Hlab & Hcon & Hsym & Hfix & Hblk & Hpl).
    destruct (IH (S i) (fixup_written i v None st)) as (st' & Hrun & He' & Hst' & Hout & Hval).
    + reflexivity.
    + rewrite Hpl. lia.
    + intros g Hg. rewrite Hlab, Hcon. apply Hall. right. exact Hg.
    + exists st'. split; [exact Hrun|]. split; [exact He'|]. split.
      { eapply same_tables_trans; [apply fixup_written_same_tables | exact Hst']. }
      split.
      * intros k Hk. simpl in Hk. rewrite Hout by lia.
        apply fixup_written_value_ne. lia.
      * intros k g Hk. destruct k as [|k]; simpl in Hk.
        -- inversion Hk; subst g. exists v. split; [exact Hc|].
           rewrite Nat.add_0_r. rewrite Hout by lia.
           apply fixup_written_value_eq. lia.
        -- destruct (Hval k g Hk) as (w & Hw & Hp).
           rewrite Hlab, Hcon in Hw. exists w. split; [exact Hw|].
           replace (i + S k)%nat with (S i + k)%nat by lia. exact Hp.
Qed.

Lemma RunFixups_from_cons_inv (f : Fixup) (rest : list Fixup) (i : nat)
    (st st1 : ParseState GekkoIRPlugin) :
  RunFixups_from platform (f :: rest) i st = Done (tt, st1) ->
  exists v e',
    call_fixup rtl (labels (plugin st)) (constants (plugin st)) f (error st) = Some (v, e')
    /\ (i < List.length (operand_pool (output_result (plugin st))))%nat.
Proof.
  simpl RunFixups_from.
  unfold bind, get_plugin, get_error, set_error, put_plugin, ret. fold rtl.
  destruct (call_fixup rtl (labels (plugin st)) (constants (plugin st)) f (error st))
    as [[v e']|]; [|discriminate].
  cbn [plugin lexer error eof].
  destruct (operand_pool (output_result (plugin st)) !! i) as [[tag old]|] eqn:Hl;
    [|discriminate].
  intros _. exists v, e'. split; [reflexivity|].
  apply lookup_lt_Some in Hl. exact Hl.
Qed.

(** Running a prefix that leaves no error, then the rest. *)
Lemma RunFixups_from_app (pre rest : list Fixup) :
  forall (i : nat) (st st1 : ParseState GekkoIRPlugin),
    RunFixups_from platform pre i st = Done (tt, st1) ->
    error st1 = None ->
    RunFixups_from platform (pre ++ rest) i st
    = RunFixups_from platform rest (i + List.length pre) st1.
Proof.
  induction pre as [|f pre IH]; intros i st st1 Hrun He1.
  - simpl in *. inversion Hrun; subst. rewrite Nat.add_0_r. reflexivity.
  - destruct (RunFixups_from_cons_inv _ _ _ _ _ Hrun) as (v & e' & Hc & Hi).
    rewrite <- app_comm_cons.
    rewrite (RunFixups_from_cons f (pre ++ rest) i st v e' Hc Hi).
    rewrite (RunFixups_from_cons f pre i st v e' Hc Hi) in Hrun.
    destruct e' as [err|].
    + inversion Hrun; subst. simpl in He1. discriminate.
    + rewrite (IH _ _ _ Hrun He1). f_equal. simpl. lia.
Qed.

End RunFixupsLoop.

(** X26. The fixup phase, started without an error and with an operand for
    every fixup, on fixups whose evaluators all have a defined result:
    - when every referenced symbol is in the label table or the constant
      table, the phase ends without an error (and has written the value of
      every fixup to its operand);
    - when [f] is the first fixup that references a symbol in neither table,
      the phase ends with an error that is the error saved ([err_on_fail],
      with the source span of the reference) for an undefined reference of
      [f]; the final state is the one reached by running the fixups up to and
      including [f] only, and the operands after that of [f] are untouched:
      no later fixup is evaluated. *)
Theorem RunFixups_undefined_symbol (platform : Platform) (st : ParseState GekkoIRPlugin) :
  let p := plugin st in
  let rtl := args_right_to_left platform in
  let undefined := undefined_references (labels p) (constants p) in
  let evaluates := fixup_evaluates rtl (labels p) (constants p) in
  error st = None ->
  (List.length (operand_fixups p) <= List.length (operand_pool (output_result p)))%nat ->
  ((forall f, In f (operand_fixups p) -> undefined f = [] /\ evaluates f) ->
   exists st',
     RunFixups platform st = Done (tt, st')
     /\ error st' = None
     /\ same_tables st st'
     /\ (forall k f, operand_fixups p !! k = Some f ->
           exists v, call_fixup rtl (labels p) (constants p) f None = Some (v, None)
                     /\ pool_value st' k = Some v))
  /\ (forall pre f post,
        operand_fixups p = pre ++ f :: post ->
        (forall g, In g pre -> undefined g = [] /\ evaluates g) ->
        undefined f <> [] -> evaluates f ->
        exists st' err,
          RunFixups platform st = Done (tt, st')
          /\ error st' = Some err
          /\ In err (undefined f)
          /\ RunFixups_from platform (pre ++ [f]) 0 st = Done (tt, st')
          /\ same_tables st st'
          /\ (forall k, (List.length pre < k)%nat -> pool_value st' k = pool_value st k)).
Proof.
  intros p rtl undefined evaluates. subst p rtl undefined evaluates. intros He Hlen.
  assert (Hrun0 : RunFixups platform st
                  = RunFixups_from platform (operand_fixups (plugin st)) 0 st)
    by reflexivity.
  split.
  - intros Hall.
    destruct (RunFixups_from_defined platform (operand_fixups (plugin st)) 0 st He Hlen Hall)
      as (st' & Hrun & He' & Hst & _ & Hval).
    exists st'. rewrite Hrun0. repeat split; try assumption; apply Hst.
  - intros pre f post Hfix Hpre Hundef Hev.
    rewrite Hfix, length_app in Hlen. simpl in Hlen.
    destruct (RunFixups_from_defined platform pre 0 st He ltac:(lia) Hpre)
      as (st1 & Hrun1 & He1 & Hst1 & Hout1 & _).
    pose proof Hst1 as (Hlx & Hlab & Hcon & Hsym & Hfx & Hblk & Hpl).
    destruct (Hev None) as [[v e'] Hc].
    destruct (call_fixup_error platform _ _ f None e' v Hc) as [_ Herr].
    destruct (Herr Hundef) as (err & -> & Hin).
    assert (Hc1 : call_fixup (args_right_to_left platform) (labels (plugin st1))
                    (constants (plugin st1)) f (error st1) = Some (v, Some err)).
    { rewrite Hlab, Hcon, He1. exact Hc. }
    assert (Hi : (0 + List.length pre
                  < List.length (operand_pool (output_result (plugin st1))))%nat)
      by (rewrite Hpl; lia).
    exists (fixup_written (0 + List.length pre) v (Some err) st1), err.
    rewrite Hrun0, Hfix.
    rewrite (RunFixups_from_app platform pre (f :: post) 0 st st1 Hrun1 He1).
    rewrite (RunFixups_from_app platform pre [f] 0 st st1 Hrun1 He1).
    rewrite !(RunFixups_from_cons platform f _ _ st1 v (Some err) Hc1 Hi).
    split; [reflexivity|]. split; [reflexivity|]. split; [exact Hin|].
    split; [reflexivity|]. split.
    + eapply same_tables_trans; [exact Hst1 | apply fixup_written_same_tables].
    + intros k Hk. rewrite fixup_written_value_ne by lia. apply Hout1. lia.
Qed.

Lemma RunFixups_undefined_symbol_witness :
  exists st' : ParseState GekkoIRPlugin,
    RunFixups example_platform example_fixup_state = Done (tt, st')
    /\ error st' = Some example_unresolved_A
    /\ pool_value st' 0 = Some 3
    /\ pool_value st' 2 = Some 0.
Proof.
  destruct (RunFixups_undefined_symbol example_platform example_fixup_state)
    as [_ Hfail]; [reflexivity | simpl; lia |].
  destruct (Hfail [FixupLiteral 3]
              (FixupSymbolResolve "A" false 0 example_unresolved_A)
              [FixupLiteral 7])
    as (st' & err & Hrun & Herr & Hin & Hpre & _ & Hrest).
  - reflexivity.
  - intros g [<- | []]. split; [reflexivity|]. intros e. eexists. reflexivity.
  - vm_compute. discriminate.
  - intros e. vm_compute. eexists. reflexivity.
  - exists st'. split; [exact Hrun|].
    assert (Herr' : err = example_unresolved_A).
    { vm_compute in Hin. destruct Hin as [<- | []]. reflexivity. }
    subst err. split; [exact Herr|].
    split.
    + vm_compute in Hpre. inversion Hpre. reflexivity.
    + rewrite Hrest by (simpl; lia). reflexivity.
Defined.

(** C8. A reference to a symbol of neither table does not always end the
    fixup phase with its saved error.  [li r3, 1 / A] parses without error and
    leaves, for its second operand, a fixup with an undefined reference to
    [A]; in the fixup phase the reference records the error and returns [0],
    and the quotient [1 / 0] that the evaluator then takes has no defined
    value, in either order of evaluation of the arguments: the phase does not
    return, and no error is produced.  [li r3, 1 + A] gives the saved error
    with the span of [A]. *)
Theorem RunFixups_divides_by_undefined_symbol :
  let st := parsed_state 100 "li r3, 1 / A" 0x80000000 in
  error st = None
  /\ (exists f err,
        operand_fixups (plugin st) !! 1%nat = Some f
        /\ undefined_references (labels (plugin st)) (constants (plugin st)) f = [err]
        /\ AssemblerError.message err = "Unresolved symbol 'A'")
  /\ (forall platform : Platform,
        RunFixups platform st = Abort "an evaluator without a defined result")
  /\ assemble_ir 100 "li r3, 1 / A" 0x80000000
     = Abort "an evaluator without a defined result"
  /\ assembly_error (assemble_ir 100 "li r3, 1 + A" 0x80000000)
     = Some (AssemblerError.mk "Unresolved symbol 'A'" "li r3, 1 + A" 0 11 1).
Proof.
  intros st.
  split; [vm_compute; reflexivity|].
  split; [vm_compute; eexists _, _; repeat split; reflexivity|].
  split.
  { intros [rtl f1 f2 f3 f4]. destruct rtl; vm_compute; reflexivity. }
  split; vm_compute; reflexivity.
Qed.

(** ** Properties of the plugin that hold throughout a parse *)

Section Preserves.
Context {P : Type}.
Variable J : P -> Prop.

Lemma preserves_ret {A : Type} (a : A) : preserves J (ret a).
Proof. intros st b st' H HJ. inversion H; subst. exact HJ. Qed.

Lemma preserves_bind {A B : Type} (c : M P A) (k : A -> M P B) :
  preserves J c -> (forall a, preserves J (k a)) -> preserves J (bind c k).
Proof.
  intros Hc Hk st b st' H HJ. unfold bind in H.
  destruct (c st) as [[a st1] | why |] eqn:E; try discriminate.
  exact (Hk a st1 b st' H (Hc st a st1 E HJ)).
Qed.

Lemma preserves_abort {A : Type} (why : string) : preserves J (abort (A := A) why).
Proof. intros st a st' H. discriminate. Qed.

Lemma preserves_out_of_fuel {A : Type} : preserves J (out_of_fuel (A := A)).
Proof. intros st a st' H. discriminate. Qed.

Lemma preserves_lex {A : Type} (f : Lexer -> A * Lexer) : preserves J (lex f).
Proof.
  intros st a st' H HJ. unfold lex in H. destruct (f (lexer st)).
  inversion H; subst. exact HJ.
Qed.

Lemma preserves_lex_ (f : Lexer -> Lexer) : preserves J (lex_ f).
Proof. intros st a st' H HJ. inversion H; subst. exact HJ. Qed.

Lemma preserves_lex_get {A : Type} (f : Lexer -> A) : preserves J (lex_get f).
Proof. intros st a st' H HJ. inversion H; subst. exact HJ. Qed.

Lemma preserves_get_error : preserves J get_error.
Proof. intros st a st' H HJ. inversion H; subst. exact HJ. Qed.

Lemma preserves_set_error e : preserves J (set_error e).
Proof. intros st a st' H HJ. inversion H; subst. exact HJ. Qed.

Lemma preserves_get_eof : preserves J get_eof.
Proof. intros st a st' H HJ. inversion H; subst. exact HJ. Qed.

Lemma preserves_set_eof b : preserves J (set_eof b).
Proof. intros st a st' H HJ. inversion H; subst. exact HJ. Qed.

Lemma preserves_get_plugin : preserves J get_plugin.
Proof. intros st a st' H HJ. inversion H; subst. exact HJ. Qed.

Lemma preserves_get_state : preserves J get_state.
Proof. intros st a st' H HJ. inversion H; subst. exact HJ. Qed.

Lemma preserves_modify_plugin (f : P -> P) :
  (forall p, J p -> J (f p)) -> preserves J (modify_plugin f).
Proof. intros Hf st a st' H HJ. inversion H; subst. simpl. apply Hf. exact HJ. Qed.

Lemma preserves_unless_error (k : M P unit) :
  preserves J k -> preserves J (unless_error k).
Proof.
  intros Hk. unfold unless_error. apply preserves_bind; [apply preserves_get_error|].
  intros [e|]; [apply preserves_ret | exact Hk].
Qed.

Lemma preserves_when (b : bool) (k : M P unit) :
  preserves J k -> preserves J (when b k).
Proof. intros Hk. destruct b; [exact Hk | apply preserves_ret]. Qed.

Lemma preserves_HasToken tp : preserves J (HasToken tp).
Proof.
  unfold HasToken. apply preserves_bind; [apply preserves_lex|].
  intros t. apply preserves_ret.
Qed.

Lemma preserves_EmitErrorHere message : preserves J (EmitErrorHere message).
Proof.
  unfold EmitErrorHere.
  apply preserves_bind; [apply preserves_lex|]. intros tok.
  apply preserves_bind; [apply preserves_lex_get|]. intros l.
  apply preserves_bind; [apply preserves_lex_get|]. intros n.
  apply preserves_bind; [apply preserves_lex_get|]. intros c.
  destruct (token_type tok); apply preserves_set_error.
Qed.

Lemma preserves_ParseToken tp : preserves J (ParseToken tp).
Proof.
  unfold ParseToken. apply preserves_bind; [apply preserves_lex|]. intros tok.
  destruct (TokenType.eqb (token_type tok) tp);
    [apply preserves_lex_ | apply preserves_EmitErrorHere].
Qed.

End Preserves.

Create HintDb pres.

#[local] Hint Resolve preserves_ret preserves_abort preserves_out_of_fuel preserves_lex
  preserves_lex_ preserves_lex_get preserves_get_error preserves_set_error
  preserves_get_eof preserves_set_eof preserves_get_plugin preserves_get_state
  preserves_HasToken preserves_EmitErrorHere preserves_ParseToken : pres.

(** One step of a structural proof of [preserves]. *)
Ltac pres_step :=
  match goal with
  | |- preserves _ (bind _ _) => apply preserves_bind; [|intros ?]
  | |- preserves _ (unless_error _) => apply preserves_unless_error
  | |- preserves _ (when _ _) => apply preserves_when
  | |- preserves _ (match ?x with _ => _ end) => destruct x
  | |- preserves _ _ => solve [eauto with pres]
  end.

Ltac pres := repeat pres_step.

Section ParserPreserves.
Variable mnemonic_tokens : string -> option ParseInfo.t.
Variable extended_mnemonic_tokens : string -> option ParseInfo.t.
Context {P : Type} {plugin_impl : ParsePlugin P}.
Variable J : P -> Prop.
Hypothesis callouts : callouts_preserve J.

(** The callouts' facts as hypotheses, then the structural steps. *)
Ltac pres_callouts :=
  let C := fresh "C" in
  pose proof callouts as C; destruct C; pres.

Lemma ParseImm_preserves : preserves J ParseImm.
Proof. unfold ParseImm. pres_callouts. Qed.

Lemma ParseId_preserves : preserves J ParseId.
Proof. unfold ParseId. pres_callouts. Qed.

Local Hint Resolve ParseImm_preserves ParseId_preserves : pres.

Lemma ParseIdLocation_preserves : preserves J ParseIdLocation.
Proof. unfold ParseIdLocation. pres_callouts. Qed.

Lemma ParsePpcBuiltin_preserves : preserves J ParsePpcBuiltin.
Proof. unfold ParsePpcBuiltin. pres_callouts. Qed.

Local Hint Resolve ParseIdLocation_preserves ParsePpcBuiltin_preserves : pres.

Lemma ParseBaseexpr_preserves : preserves J ParseBaseexpr.
Proof. unfold ParseBaseexpr. pres_callouts. Qed.

Local Hint Resolve ParseBaseexpr_preserves : pres.

Lemma ParseParen_body_preserves (bitor : M P unit) :
  preserves J bitor -> preserves J (ParseParen_body bitor).
Proof. intros Hb. unfold ParseParen_body. pres_callouts. Qed.

Lemma ParseUnary_body_preserves (fuel : nat) (paren : M P unit) :
  preserves J paren -> preserves J (ParseUnary_body fuel paren).
Proof.
  intros Hp. induction fuel as [|fuel IH]; simpl; [apply preserves_out_of_fuel|]. pres_callouts.
Qed.

Lemma binary_operator_loop_preserves (fuel : nat) level (operand : M P unit) :
  preserves J operand -> preserves J (binary_operator_loop fuel level operand).
Proof.
  intros Ho. induction fuel as [|fuel IH]; simpl; [apply preserves_out_of_fuel|]. pres_callouts.
Qed.

Lemma binary_level_preserves (fuel : nat) level (operand : M P unit) :
  preserves J operand -> preserves J (binary_level fuel level operand).
Proof.
  intros Ho. unfold binary_level.
  pose proof (binary_operator_loop_preserves fuel level operand Ho). pres_callouts.
Qed.

Lemma ParseBitor_preserves (fuel : nat) : preserves J (ParseBitor fuel).
Proof.
  induction fuel as [|fuel IH]; simpl; [apply preserves_out_of_fuel|].
  repeat apply binary_level_preserves.
  apply ParseUnary_body_preserves, ParseParen_body_preserves, IH.
Qed.

Local Hint Resolve ParseBitor_preserves : pres.

Lemma ParseOperand_preserves (fuel : nat) : preserves J (ParseOperand fuel).
Proof. unfold ParseOperand. pres_callouts. Qed.

Local Hint Resolve ParseOperand_preserves : pres.

Lemma run_parse_steps_preserves (fuel : nat) (steps : list ParseStep.t) :
  preserves J (run_parse_steps fuel steps).
Proof.
  induction steps as [|step rest IH]; simpl; [apply preserves_ret|].
  destruct step; pres_callouts.
Qed.

Local Hint Resolve run_parse_steps_preserves : pres.

Lemma ParseOperandList_preserves (fuel : nat) alg : preserves J (ParseOperandList fuel alg).
Proof. unfold ParseOperandList. destruct alg; pres_callouts. Qed.

Local Hint Resolve ParseOperandList_preserves : pres.

Lemma ParseInstruction_preserves (fuel : nat) :
  preserves J (ParseInstruction mnemonic_tokens extended_mnemonic_tokens fuel).
Proof. unfold ParseInstruction. pres_callouts. Qed.

Lemma ParseLabel_preserves : preserves J ParseLabel.
Proof. unfold ParseLabel. pres_callouts. Qed.

Lemma ParseResolvedExpr_preserves (fuel : nat) : preserves J (ParseResolvedExpr fuel).
Proof. unfold ParseResolvedExpr. pres_callouts. Qed.

Local Hint Resolve ParseInstruction_preserves ParseLabel_preserves
  ParseResolvedExpr_preserves : pres.

Lemma comma_list_loop_preserves (fuel : nat) (item : M P unit) :
  preserves J item -> preserves J (comma_list_loop fuel item).
Proof.
  intros Hi. induction fuel as [|fuel IH]; simpl; [apply preserves_out_of_fuel|]. pres_callouts.
Qed.

Lemma ParseFloat_preserves : preserves J ParseFloat.
Proof. unfold ParseFloat. pres_callouts. Qed.

Local Hint Resolve comma_list_loop_preserves ParseFloat_preserves : pres.

Lemma ParseExpressionList_preserves (fuel : nat) : preserves J (ParseExpressionList fuel).
Proof. unfold ParseExpressionList. pres_callouts. Qed.

Lemma ParseFloatList_preserves (fuel : nat) : preserves J (ParseFloatList fuel).
Proof. unfold ParseFloatList. pres_callouts. Qed.

Lemma ParseDefvar_preserves (fuel : nat) : preserves J (ParseDefvar fuel).
Proof. unfold ParseDefvar. pres_callouts. Qed.

Lemma ParseString_preserves : preserves J ParseString.
Proof. unfold ParseString. pres_callouts. Qed.

Local Hint Resolve ParseExpressionList_preserves ParseFloatList_preserves
  ParseDefvar_preserves ParseString_preserves : pres.

Lemma ParseDirective_preserves (fuel : nat) : preserves J (ParseDirective fuel).
Proof. unfold ParseDirective. pres_callouts. Qed.

Local Hint Resolve ParseDirective_preserves : pres.

Lemma ParseLine_preserves (fuel : nat) :
  preserves J (ParseLine mnemonic_tokens extended_mnemonic_tokens fuel).
Proof. unfold ParseLine. pres_callouts. Qed.

Local Hint Resolve ParseLine_preserves : pres.

Lemma ParseProgram_loop_preserves (fuel line_fuel : nat) :
  preserves J (ParseProgram_loop mnemonic_tokens extended_mnemonic_tokens fuel line_fuel).
Proof.
  induction fuel as [|fuel IH]; simpl; [apply preserves_out_of_fuel|].
  apply preserves_bind; [apply preserves_get_eof|]. intros at_eof.
  apply preserves_bind; [apply preserves_get_error|]. intros e.
  destruct (at_eof || bool_decide (is_Some e)); [apply preserves_ret|]. pres_callouts.
Qed.

Local Hint Resolve ParseProgram_loop_preserves : pres.

(** Whatever the source text, a property of the plugin that every callout
    keeps holds after [ParseProgram] when it held before. *)
Lemma ParseProgram_preserves (fuel : nat) :
  preserves J (ParseProgram mnemonic_tokens extended_mnemonic_tokens fuel).
Proof. unfold ParseProgram. pres_callouts. Qed.

End ParserPreserves.

(** ** The invariant of the IR generating plugin *)

Ltac inv_split :=
  unfold GekkoIR_invariant;
  refine (conj _ (conj _ (conj _ (conj _ (conj _ (conj _ (conj _ _))))))).

Lemma GekkoIRPlugin_new_invariant (base_addr : Z) :
  0 <= base_addr < 2 ^ 32 -> GekkoIR_invariant (GekkoIRPlugin_new base_addr).
Proof.
  intros Hb. inv_split; simpl.
  - set_solver.
  - set_solver.
  - intros name H. discriminate.
  - reflexivity.
  - constructor.
  - lia.
  - repeat constructor; simpl; lia.
  - apply map_Forall_empty.
Qed.

(** Running a primitive of the state monad. *)
Ltac run_inv H :=
  unfold bind, ret, abort, get_plugin, put_plugin, modify_plugin, get_error, set_error,
    lex_get in H;
  repeat (simpl in H; case_match; try discriminate);
  simplify_eq.

Lemma get_active_block_run (st : ParseState GekkoIRPlugin) b st' :
  get_active_block st = Done (b, st') ->
  st' = st /\ blocks (output_result (plugin st)) !! active_block (plugin st) = Some b.
Proof.
  unfold get_active_block, bind, get_plugin, ret, abort. intros H.
  destruct (blocks (output_result (plugin st)) !! active_block (plugin st)) eqn:E;
    inversion H; subst. split; reflexivity.
Qed.

Lemma get_active_block_preserves J : preserves J get_active_block.
Proof. intros st b st' H HJ. apply get_active_block_run in H as [-> _]. exact HJ. Qed.

Lemma CurrentAddress_preserves J : preserves J CurrentAddress.
Proof.
  unfold CurrentAddress. apply preserves_bind; [apply get_active_block_preserves|].
  intros b. apply preserves_ret.
Qed.

Lemma CurrentAddress_u32 (st st' : ParseState GekkoIRPlugin) a :
  GekkoIR_invariant (plugin st) -> CurrentAddress st = Done (a, st') ->
  st' = st /\ 0 <= a < 2 ^ 32.
Proof.
  intros HJ H. unfold CurrentAddress, bind in H.
  destruct (get_active_block st) as [[b st1]| |] eqn:E; try discriminate.
  apply get_active_block_run in E as [-> Hb]. inversion H; subst. split; [reflexivity|].
  apply BlockEndAddress_range.
  destruct HJ as (_ & _ & _ & _ & _ & _ & Hba & _).
  rewrite Forall_forall in Hba. apply Hba.
  eapply list_elem_of_lookup_2. exact Hb.
Qed.

Lemma modify_active_block_preserves (f : IRBlock -> IRBlock) :
  (forall b, block_address (f b) = block_address b) ->
  preserves GekkoIR_invariant (modify_active_block f).
Proof.
  intros Hf st a st' H HJ. unfold modify_active_block, bind, get_plugin, put_plugin, abort in H.
  destruct (blocks (output_result (plugin st)) !! active_block (plugin st)) as [b|] eqn:E;
    inversion H; subst; clear H.
  destruct HJ as (Hd & Hs & Hav & Hfx & Hph & Hab & Hba & Hlu).
  inv_split; simpl; try assumption.
  - rewrite length_insert. exact Hab.
  - apply Forall_insert; [exact Hba|]. rewrite Hf.
    rewrite Forall_forall in Hba. apply Hba.
    eapply list_elem_of_lookup_2. exact E.
Qed.

Lemma alter_chunks_address g b : block_address (alter_chunks g b) = block_address b.
Proof. reflexivity. Qed.

Lemma modify_unrelated_preserves (f : GekkoIRPlugin -> GekkoIRPlugin) :
  (forall p, labels (f p) = labels p) ->
  (forall p, constants (f p) = constants p) ->
  (forall p, symset (f p) = symset p) ->
  (forall p, active_var (f p) = active_var p) ->
  (forall p, operand_fixups (f p) = operand_fixups p) ->
  (forall p, output_result (f p) = output_result p) ->
  (forall p, active_block (f p) = active_block p) ->
  preserves GekkoIR_invariant (modify_plugin f).
Proof.
  intros H1 H2 H3 H4 H5 H6 H7. apply preserves_modify_plugin. intros p HJ.
  unfold GekkoIR_invariant. rewrite H1, H2, H3, H4, H5, H6, H7. exact HJ.
Qed.

Ltac unrelated := apply modify_unrelated_preserves; intros; reflexivity.

Lemma StartBlock_preserves address : preserves GekkoIR_invariant (StartBlock address).
Proof.
  unfold StartBlock. apply preserves_modify_plugin. intros p HJ.
  destruct HJ as (Hd & Hs & Hav & Hfx & Hph & Hab & Hba & Hlu).
  inv_split; simpl; try assumption.
  - rewrite length_app. simpl. lia.
  - apply Forall_app. split; [exact Hba|]. repeat constructor; simpl; apply wrap32_range.
Qed.

Lemma pop_fixup_preserves : preserves GekkoIR_invariant pop_fixup.
Proof.
  unfold pop_fixup. intros st a st' H HJ. run_inv H. exact HJ.
Qed.

Lemma push_fixup_preserves f : preserves GekkoIR_invariant (push_fixup f).
Proof. unfold push_fixup. unrelated. Qed.

Lemma put_eval_stack_preserves s : preserves GekkoIR_invariant (put_eval_stack s).
Proof. unfold put_eval_stack. unrelated. Qed.

Lemma get_eval_stack_preserves J : preserves J get_eval_stack.
Proof.
  unfold get_eval_stack. apply preserves_bind; [apply preserves_get_plugin|].
  intros p. apply preserves_ret.
Qed.

Lemma StartInstruction_preserves idx ext :
  preserves GekkoIR_invariant (StartInstruction idx ext).
Proof.
  unfold StartInstruction.
  apply preserves_bind; [apply preserves_lex_get|]. intros l.
  apply preserves_bind; [apply preserves_lex_get|]. intros n. unrelated.
Qed.

Lemma SaveOperandFixup_preserves l r :
  preserves GekkoIR_invariant (SaveOperandFixup l r).
Proof.
  unfold SaveOperandFixup. apply preserves_bind; [apply pop_fixup_preserves|].
  intros top. apply preserves_modify_plugin. intros p HJ.
  destruct HJ as (Hd & Hs & Hav & Hfx & Hph & Hab & Hba & Hlu).
  inv_split; simpl; try assumption.
  - rewrite !length_app. simpl. lia.
  - apply Forall_app. split; [exact Hph|]. repeat constructor.
Qed.

Lemma bind_Done {P A B : Type} (c : M P A) (k : A -> M P B) st b st2 :
  bind c k st = Done (b, st2) ->
  exists a st1, c st = Done (a, st1) /\ k a st1 = Done (b, st2).
Proof.
  unfold bind. destruct (c st) as [[a st1]| |]; try discriminate.
  intros H. exists a, st1. split; [reflexivity | exact H].
Qed.

Lemma FinishInstruction_preserves : preserves GekkoIR_invariant FinishInstruction.
Proof.
  unfold FinishInstruction. intros st a st' H HJ.
  apply bind_Done in H as (p & st1 & H1 & H). inversion H1; subst p st1; clear H1.
  apply bind_Done in H as (u & st2 & H2 & H). inversion H2; subst u st2; clear H2.
  refine (preserves_bind _ _ _ _ _ _ _ _ H HJ).
  - apply modify_active_block_preserves. intros b. reflexivity.
  - intros _. unrelated.
Qed.

#[local] Hint Resolve get_active_block_preserves CurrentAddress_preserves
  StartBlock_preserves pop_fixup_preserves push_fixup_preserves put_eval_stack_preserves
  get_eval_stack_preserves StartInstruction_preserves SaveOperandFixup_preserves
  FinishInstruction_preserves : pres.

Lemma modify_chunks_preserves g :
  preserves GekkoIR_invariant (modify_active_block (alter_chunks g)).
Proof. apply modify_active_block_preserves. intros b. reflexivity. Qed.

#[local] Hint Resolve modify_chunks_preserves : pres.

Lemma AddStringBytes_preserves str nt : preserves GekkoIR_invariant (AddStringBytes str nt).
Proof. unfold AddStringBytes. pres. Qed.

Lemma AddBytes_preserves size val : preserves GekkoIR_invariant (AddBytes size val).
Proof. unfold AddBytes. pres. Qed.

#[local] Hint Resolve AddStringBytes_preserves AddBytes_preserves : pres.

Lemma AddBytes_each_preserves size vec : preserves GekkoIR_invariant (AddBytes_each size vec).
Proof. induction vec as [|v vec IH]; simpl; pres. Qed.

Lemma PadAlign_preserves bits : preserves GekkoIR_invariant (PadAlign bits).
Proof.
  unfold PadAlign. destruct (int_shl1 bits); [|pres].
  apply preserves_bind; [pres|]. intros a.
  destruct (Z.land a (z - 1) =? 0); pres.
Qed.

Lemma PadSpace_preserves space : preserves GekkoIR_invariant (PadSpace space).
Proof. unfold PadSpace. pres. Qed.

Lemma StartBlockAlign_preserves bits : preserves GekkoIR_invariant (StartBlockAlign bits).
Proof.
  unfold StartBlockAlign. destruct (int_shl1 bits); [|pres].
  apply preserves_bind; [pres|]. intros a.
  destruct (Z.land a (z - 1) =? 0); pres.
Qed.

Lemma AddBinaryEvaluator_preserves ev : preserves GekkoIR_invariant (AddBinaryEvaluator ev).
Proof. unfold AddBinaryEvaluator. pres. Qed.

Lemma AddUnaryEvaluator_preserves ev : preserves GekkoIR_invariant (AddUnaryEvaluator ev).
Proof. unfold AddUnaryEvaluator. pres. Qed.

Lemma AddAbsoluteAddressConv_preserves : preserves GekkoIR_invariant AddAbsoluteAddressConv.
Proof. unfold AddAbsoluteAddressConv. pres. Qed.

Lemma AddLiteral_preserves lit : preserves GekkoIR_invariant (AddLiteral lit).
Proof. unfold AddLiteral. pres. Qed.

Lemma AddSymbolResolve_preserves sym absolute :
  preserves GekkoIR_invariant (AddSymbolResolve sym absolute).
Proof. unfold AddSymbolResolve. pres. Qed.

#[local] Hint Resolve AddBytes_each_preserves PadAlign_preserves PadSpace_preserves
  StartBlockAlign_preserves AddBinaryEvaluator_preserves AddUnaryEvaluator_preserves
  AddAbsoluteAddressConv_preserves AddLiteral_preserves AddSymbolResolve_preserves : pres.

Section PluginPreserves.
Variable platform : Platform.

Lemma PushCast_preserves val : preserves GekkoIR_invariant (PushCast platform val).
Proof. unfold PushCast. pres. Qed.

Lemma EvalOperatorAbs_preserves op : preserves GekkoIR_invariant (EvalOperatorAbs op).
Proof. unfold EvalOperatorAbs. pres. Qed.

Lemma EvalOperatorRel_preserves op : preserves GekkoIR_invariant (EvalOperatorRel op).
Proof. unfold EvalOperatorRel. pres. Qed.

Local Hint Resolve PushCast_preserves EvalOperatorAbs_preserves EvalOperatorRel_preserves
  : pres.

Lemma EvalTerminalRel_preserves type tok :
  preserves GekkoIR_invariant (EvalTerminalRel type tok).
Proof.
  unfold EvalTerminalRel. destruct type; try (destruct (is_value_terminal _)); pres.
Qed.

Lemma EvalTerminalAbs_preserves type tok :
  preserves GekkoIR_invariant (EvalTerminalAbs platform type tok).
Proof.
  unfold EvalTerminalAbs. apply preserves_bind; [pres|]. intros s.
  destruct type; try (destruct (is_value_terminal _ || _)); pres.
Qed.

Lemma eval_stack_back_run w (st : ParseState GekkoIRPlugin) v st' :
  eval_stack_back w st = Done (v, st') -> st' = st.
Proof.
  intros H. cbv beta iota delta [eval_stack_back bind get_eval_stack get_plugin ret abort] in H.
  destruct (bool_decide (stack_width (eval_stack (plugin st)) = Some w)); [|discriminate].
  destruct (last (stack_vec (eval_stack (plugin st)))); inversion H. reflexivity.
Qed.

Lemma eval_stack_back_preserves J w : preserves J (eval_stack_back w).
Proof. intros st v st' H HJ. apply eval_stack_back_run in H as ->. exact HJ. Qed.

Local Hint Resolve EvalTerminalRel_preserves EvalTerminalAbs_preserves
  eval_stack_back_preserves : pres.

Lemma OnDirectivePre_preserves d :
  preserves GekkoIR_invariant (GekkoIRPlugin_OnDirectivePre d).
Proof. unfold GekkoIRPlugin_OnDirectivePre. unrelated. Qed.

Lemma OnDirectivePost_preserves d :
  preserves GekkoIR_invariant (GekkoIRPlugin_OnDirectivePost d).
Proof.
  unfold GekkoIRPlugin_OnDirectivePost.
  apply preserves_bind; [|intros _; pres].
  destruct d; try solve [pres].
  (* .defvar: the entry of the constant being declared is overwritten *)
  intros st a st' H HJ.
  apply bind_Done in H as (p & st1 & H1 & H). inversion H1; subst p st1; clear H1.
  destruct (active_var (plugin st)) as [name|] eqn:Hav; [|discriminate].
  apply bind_Done in H as (v & st1 & H1 & H). apply eval_stack_back_run in H1 as ->.
  inversion H; subst; clear H.
  destruct HJ as (Hd & Hs & Hvar & Hfx & Hph & Hab & Hba & Hlu).
  specialize (Hvar name Hav).
  assert (Hdom : dom (<[name := v]> (constants (plugin st))) = dom (constants (plugin st))).
  { rewrite dom_insert_L. set_solver. }
  inv_split; simpl; try assumption.
  - rewrite Hdom. exact Hd.
  - rewrite Hdom. exact Hs.
  - intros n Hn. discriminate.
Qed.

Lemma OnInstructionPre_preserves info ext :
  preserves GekkoIR_invariant (GekkoIRPlugin_OnInstructionPre info ext).
Proof.
  unfold GekkoIRPlugin_OnInstructionPre. apply preserves_bind; [unrelated | intros _; pres].
Qed.

Lemma OnOperandPre_preserves : preserves GekkoIR_invariant GekkoIRPlugin_OnOperandPre.
Proof.
  unfold GekkoIRPlugin_OnOperandPre. apply preserves_bind; [pres|]. intros c. unrelated.
Qed.

Lemma OnOperandPost_preserves : preserves GekkoIR_invariant GekkoIRPlugin_OnOperandPost.
Proof. unfold GekkoIRPlugin_OnOperandPost. pres. Qed.

Lemma OnResolvedExprPost_preserves :
  preserves GekkoIR_invariant GekkoIRPlugin_OnResolvedExprPost.
Proof. unfold GekkoIRPlugin_OnResolvedExprPost. pres. Qed.

Lemma OnOperator_preserves op : preserves GekkoIR_invariant (GekkoIRPlugin_OnOperator op).
Proof. unfold GekkoIRPlugin_OnOperator. pres. Qed.

Lemma OnTerminal_preserves type tok :
  preserves GekkoIR_invariant (GekkoIRPlugin_OnTerminal platform type tok).
Proof.
  unfold GekkoIRPlugin_OnTerminal. destruct type; try solve [pres]. unrelated.
Qed.

Lemma OnHiaddr_preserves id : preserves GekkoIR_invariant (GekkoIRPlugin_OnHiaddr platform id).
Proof.
  unfold GekkoIRPlugin_OnHiaddr, LookupLabel, LookupVar. pres.
Qed.

Lemma OnLoaddr_preserves id : preserves GekkoIR_invariant (GekkoIRPlugin_OnLoaddr platform id).
Proof.
  unfold GekkoIRPlugin_OnLoaddr, LookupLabel, LookupVar. pres.
Qed.

Lemma OnCloseParen_preserves type :
  preserves GekkoIR_invariant (GekkoIRPlugin_OnCloseParen platform type).
Proof. unfold GekkoIRPlugin_OnCloseParen. pres. Qed.

End PluginPreserves.

Lemma OnLabelDecl_preserves name :
  preserves GekkoIR_invariant (GekkoIRPlugin_OnLabelDecl name).
Proof.
  unfold GekkoIRPlugin_OnLabelDecl. intros st u st' H HJ.
  apply bind_Done in H as (p & st1 & H1 & H). inversion H1; subst p st1; clear H1.
  destruct (bool_decide (name ∈ symset (plugin st))) eqn:Hin.
  - exact (preserves_EmitErrorHere _ _ _ _ _ H HJ).
  - apply bool_decide_eq_false in Hin.
    apply bind_Done in H as (a & st1 & H1 & H).
    destruct (CurrentAddress_u32 _ _ _ HJ H1) as [-> Ha].
    inversion H; subst; clear H.
    destruct HJ as (Hd & Hs & Hvar & Hfx & Hph & Hab & Hba & Hlu).
    rewrite Hs in Hin.
    inv_split; simpl; try assumption.
    + rewrite dom_insert_L. set_solver.
    + rewrite dom_insert_L, Hs. set_solver.
    + apply map_Forall_insert_2; assumption.
Qed.

Lemma OnVarDecl_preserves name :
  preserves GekkoIR_invariant (GekkoIRPlugin_OnVarDecl name).
Proof.
  unfold GekkoIRPlugin_OnVarDecl. intros st u st' H HJ.
  apply bind_Done in H as (p & st1 & H1 & H). inversion H1; subst p st1; clear H1.
  destruct (bool_decide (name ∈ symset (plugin st))) eqn:Hin.
  - exact (preserves_EmitErrorHere _ _ _ _ _ H HJ).
  - apply bool_decide_eq_false in Hin.
    inversion H; subst; clear H.
    destruct HJ as (Hd & Hs & Hvar & Hfx & Hph & Hab & Hba & Hlu).
    rewrite Hs in Hin.
    assert (Hnone : constants (plugin st) !! name = None).
    { apply not_elem_of_dom. set_solver. }
    inv_split; simpl; rewrite ?Hnone; try assumption.
    + rewrite dom_insert_L. set_solver.
    + rewrite dom_insert_L, Hs. set_solver.
    + intros n Hn. inversion Hn; subst. rewrite dom_insert_L. set_solver.
Qed.

(** Every callout of the IR generating plugin keeps the invariant. *)
Lemma GekkoIRPlugin_callouts_preserve (platform : Platform) :
  callouts_preserve (plugin_impl := GekkoIRPlugin_ParsePlugin platform) GekkoIR_invariant.
Proof.
  constructor; simpl; intros.
  - apply OnDirectivePre_preserves.
  - apply OnDirectivePost_preserves.
  - apply OnInstructionPre_preserves.
  - unfold GekkoIRPlugin_OnInstructionPost. apply FinishInstruction_preserves.
  - apply OnOperandPre_preserves.
  - apply OnOperandPost_preserves.
  - apply preserves_ret.
  - apply OnResolvedExprPost_preserves.
  - apply OnOperator_preserves.
  - apply OnTerminal_preserves.
  - apply OnHiaddr_preserves.
  - apply OnLoaddr_preserves.
  - apply preserves_ret.
  - apply OnCloseParen_preserves.
  - apply OnLabelDecl_preserves.
  - apply OnVarDecl_preserves.
Qed.

(** The invariant holds after parsing any source text at a [u32] base
    address. *)
Lemma ParseProgram_invariant (platform : Platform)
    (mnemonic_tokens extended_mnemonic_tokens : string -> option ParseInfo.t)
    (fuel : nat) (input : string) (base_addr : Z) (st' : ParseState GekkoIRPlugin) :
  0 <= base_addr < 2 ^ 32 ->
  ParseProgram (plugin_impl := GekkoIRPlugin_ParsePlugin platform)
    mnemonic_tokens extended_mnemonic_tokens fuel
    (ParseState_new input (GekkoIRPlugin_new base_addr)) = Done (tt, st') ->
  GekkoIR_invariant (plugin st').
Proof.
  intros Hb Hrun.
  eapply (ParseProgram_preserves mnemonic_tokens extended_mnemonic_tokens
            GekkoIR_invariant (GekkoIRPlugin_callouts_preserve platform)).
  - exact Hrun.
  - apply GekkoIRPlugin_new_invariant. exact Hb.
Qed.

Lemma EmitErrorHere_message (message : string) (st : ParseState GekkoIRPlugin) :
  token_type (fst (Lookahead (lexer st))) <> TokenType.kInvalid ->
  exists st' e,
    EmitErrorHere message st = Done (tt, st')
    /\ error st' = Some e
    /\ AssemblerError.message e = message
    /\ plugin st' = plugin st.
Proof.
  intros Hvalid. unfold EmitErrorHere, bind, lex, lex_get, set_error.
  destruct (Lookahead (lexer st)) as [tok lx]. simpl in Hvalid. cbn [lexer plugin error eof].
  destruct (token_type tok); try contradiction;
    eexists _, _; (split; [reflexivity|]); repeat split; reflexivity.
Qed.

Lemma redeclaration_rejected (name : string) (st : ParseState GekkoIRPlugin) :
  name ∈ symset (plugin st) ->
  token_type (fst (Lookahead (lexer st))) <> TokenType.kInvalid ->
  rejects_redeclaration GekkoIRPlugin_OnLabelDecl name st
  /\ rejects_redeclaration GekkoIRPlugin_OnVarDecl name st.
Proof.
  intros Hin Hvalid.
  destruct (EmitErrorHere_message (already_defined name) st Hvalid)
    as (st' & e & Hrun & He & Hm & Hp).
  split; exists st', e;
    (split;
     [ unfold GekkoIRPlugin_OnLabelDecl, GekkoIRPlugin_OnVarDecl, bind, get_plugin;
       rewrite (bool_decide_eq_true_2 _ Hin); exact Hrun
     | rewrite Hp; repeat split; assumption ]).
Qed.

(** C7. After parsing any source text (any sequence of label declarations,
    [.defvar] directives and anything else) at a [u32] base address, no
    identifier is a key of both the label table and the constant table, and
    the set of defined names is the union of their keys.  In that state, a
    further declaration of a name that either table holds, as a label or as a
    constant and at any position of the lexer where the look-ahead token is
    not an invalid one (at both call sites it is the identifier), returns with
    the error [Label/Constant name is already defined] and both tables as
    they were. *)
Theorem identifiers_defined_at_most_once (platform : Platform)
    (mnemonic_tokens extended_mnemonic_tokens : string -> option ParseInfo.t)
    (fuel : nat) (input : string) (base_addr : Z) (st : ParseState GekkoIRPlugin) :
  0 <= base_addr < 2 ^ 32 ->
  ParseProgram (plugin_impl := GekkoIRPlugin_ParsePlugin platform)
    mnemonic_tokens extended_mnemonic_tokens fuel
    (ParseState_new input (GekkoIRPlugin_new base_addr)) = Done (tt, st) ->
  let p := plugin st in
  dom (labels p) ## dom (constants p)
  /\ symset p = dom (labels p) ∪ dom (constants p)
  /\ (forall (name : string) (lx : Lexer) (e : option AssemblerError.t) (at_eof : bool),
        name ∈ dom (labels p) \/ name ∈ dom (constants p) ->
        token_type (fst (Lookahead lx)) <> TokenType.kInvalid ->
        rejects_redeclaration GekkoIRPlugin_OnLabelDecl name (mkParseState lx p e at_eof)
        /\ rejects_redeclaration GekkoIRPlugin_OnVarDecl name (mkParseState lx p e at_eof)).
Proof.
  intros Hb Hrun p.
  pose proof (ParseProgram_invariant platform _ _ _ _ _ _ Hb Hrun) as HJ.
  destruct HJ as (Hd & Hs & _). fold p in Hd, Hs.
  split; [exact Hd|]. split; [exact Hs|].
  intros name lx e at_eof Hin Hvalid.
  apply redeclaration_rejected; [|exact Hvalid].
  simpl. fold p. rewrite Hs. set_solver.
Qed.

(** After [a: nop] and [.defvar b, 1], declaring [a] or [b] again, as a label
    or as a constant, is rejected. *)
Lemma identifiers_defined_at_most_once_witness :
  let p := plugin (parsed_state 100 ("a: nop" ++ nl ++ ".defvar b, 1") 0x80000000) in
  labels p = {[ "a" := 0x80000000 ]}
  /\ constants p = {[ "b" := 1 ]}
  /\ dom (labels p) ## dom (constants p)
  /\ rejects_redeclaration GekkoIRPlugin_OnVarDecl "a"
       (mkParseState (Lexer_new "a, 2") p None false)
  /\ rejects_redeclaration GekkoIRPlugin_OnLabelDecl "b"
       (mkParseState (Lexer_new "b: nop") p None false).
Proof.
  intros p.
  assert (Hb : 0 <= 0x80000000 < 2 ^ 32) by closed_range.
  assert (Hrun : ParseProgram (plugin_impl := GekkoIRPlugin_ParsePlugin example_platform)
                   mnemonic_tokens_excerpt extended_mnemonic_tokens_excerpt 100
                   (ParseState_new ("a: nop" ++ nl ++ ".defvar b, 1")
                      (GekkoIRPlugin_new 0x80000000))
                 = Done (tt, parsed_state 100 ("a: nop" ++ nl ++ ".defvar b, 1") 0x80000000))
    by (vm_compute; reflexivity).
  destruct (identifiers_defined_at_most_once example_platform _ _ _ _ _ _ Hb Hrun)
    as (Hd & _ & Hrej).
  fold p in Hd, Hrej.
  assert (Hl : labels p = {[ "a" := 0x80000000 ]}) by (vm_compute; reflexivity).
  assert (Hc : constants p = {[ "b" := 1 ]}) by (vm_compute; reflexivity).
  split; [exact Hl|]. split; [exact Hc|]. split; [exact Hd|].
  split.
  - apply (Hrej "a" (Lexer_new "a, 2") None false).
    + left. rewrite Hl. set_solver.
    + vm_compute. discriminate.
  - apply (Hrej "b" (Lexer_new "b: nop") None false).
    + right. rewrite Hc. set_solver.
    + vm_compute. discriminate.
Defined.

(** ** Forward references *)

(** A bare identifier that neither table holds yet, in an instruction operand:
    the reference is deferred, relative to the address of the instruction that
    is being built. *)
Lemma EvalTerminalRel_undefined_identifier (tok : AssemblerToken)
    (st : ParseState GekkoIRPlugin) (b : IRBlock) :
  blocks (output_result (plugin st)) !! active_block (plugin st) = Some b ->
  labels (plugin st) !! token_val tok = None ->
  constants (plugin st) !! token_val tok = None ->
  exists err st',
    EvalTerminalRel Terminal.kId tok st = Done (tt, st')
    /\ fixup_stack (plugin st')
       = FixupSymbolResolve (token_val tok) false (BlockEndAddress b) err
         :: fixup_stack (plugin st)
    /\ labels (plugin st') = labels (plugin st)
    /\ error st' = error st.
Proof.
  intros Hb Hl Hc.
  unfold EvalTerminalRel, bind at 1, get_plugin. rewrite Hl, Hc.
  unfold AddSymbolResolve, bind at 1. rewrite (CurrentAddress_run st b Hb).
  unfold bind, lex_get, push_fixup, modify_plugin. simpl.
  eexists _, _. split; [reflexivity|]. repeat split; reflexivity.
Qed.


(** What [ParseWithPlugin] does after a parse without error: the fixup phase,
    and when that leaves no error either, nothing more. *)
Lemma ParseWithPlugin_after_parse (platform : Platform)
    (mnemonic_tokens extended_mnemonic_tokens : string -> option ParseInfo.t)
    (fuel : nat) (input : string) (p0 : GekkoIRPlugin)
    (st st' : ParseState GekkoIRPlugin) :
  ParseProgram (plugin_impl := GekkoIRPlugin_ParsePlugin platform)
    mnemonic_tokens extended_mnemonic_tokens fuel (ParseState_new input p0)
  = Done (tt, st) ->
  error st = None ->
  RunFixups platform st = Done (tt, st') ->
  error st' = None ->
  ParseWithPlugin (plugin_impl := GekkoIRPlugin_ParsePlugin platform)
    mnemonic_tokens extended_mnemonic_tokens fuel p0 input = Done (plugin st').
Proof.
  intros Hparse He Hfix He'.
  unfold ParseWithPlugin, bind. rewrite Hparse.
  unfold get_error at 1. rewrite He.
  cbn [PostParseAction GekkoIRPlugin_ParsePlugin].
  unfold GekkoIRPlugin_PostParseAction. rewrite Hfix.
  unfold get_error. rewrite He'. reflexivity.
Qed.

(** * Further properties of the assembler tables *)

(** ** Field masks *)

Lemma mask_of_value (left right : Z) :
  0 <= left <= right -> right <= 31 ->
  mask_of left right = 2 ^ (32 - left) - 2 ^ (31 - right).
Proof.
  intros Hl Hr.
  assert (Hall : forallb (fun l : nat =>
                   forallb (fun r : nat =>
                     mask_of (Z.of_nat l) (Z.of_nat r)
                     =? 2 ^ (32 - Z.of_nat l) - 2 ^ (31 - Z.of_nat r))
                     (seq l (32 - l))) (seq 0 32) = true)
    by (vm_compute; reflexivity).
  rewrite forallb_forall in Hall.
  specialize (Hall (Z.to_nat left)). rewrite forallb_forall in Hall.
  specialize (Hall ltac:(apply in_seq; lia) (Z.to_nat right) ltac:(apply in_seq; lia)).
  rewrite !Z2Nat.id in Hall by lia. apply Z.eqb_eq. exact Hall.
Qed.

(** X1. [mask(left, right)] sets exactly the bits [left .. right] in the
    numbering of the PowerPC manuals (bit 0 is the most significant bit of the
    word): bit [i], counted from the least significant bit, is set if and only
    if [31 - right <= i <= 31 - left]. *)
Theorem mask_of_bits (left right i : Z) :
  0 <= left <= right -> right <= 31 -> 0 <= i ->
  Z.testbit (mask_of left right) i = (31 - right <=? i) && (i <=? 31 - left).
Proof.
  intros Hl Hr Hi. rewrite mask_of_value by assumption.
  replace (2 ^ (32 - left) - 2 ^ (31 - right))
    with (Z.shiftl (Z.ones (right - left + 1)) (31 - right)).
  2:{ rewrite Z.shiftl_mul_pow2, Z.ones_equiv by lia.
      replace (32 - left) with ((right - left + 1) + (31 - right)) by lia.
      rewrite !Z.pow_add_r by lia. unfold Z.pred. ring. }
  destruct (Z.leb_spec (31 - right) i) as [Hge | Hlt].
  - rewrite Z.shiftl_spec by lia.
    destruct (Z.leb_spec i (31 - left)) as [Hle | Hgt].
    + apply Z.ones_spec_low. lia.
    + apply Z.ones_spec_high. lia.
  - apply Z.shiftl_spec_low. lia.
Qed.

Lemma mask_of_bits_witness :
  Z.testbit (mask_of 6 10) 21 = (31 - 10 <=? 21) && (21 <=? 31 - 6).
Proof. apply mask_of_bits; lia. Defined.

(** X2. [insert_val(val, left, right)] places the low [right - left + 1] bits
    of [val] in the field [left .. right] and nothing outside of it: shifting
    the result back down gives [val] modulo [2^(right - left + 1)], and the
    result is [(val mod 2^(right - left + 1)) * 2^(31 - right)]. *)
Theorem insert_val_field (val left right : Z) :
  0 <= left <= right -> right <= 31 -> 0 <= val < 2 ^ 32 ->
  insert_val val left right = val mod 2 ^ (right - left + 1) * 2 ^ (31 - right)
  /\ Z.shiftr (insert_val val left right) (31 - right) = val mod 2 ^ (right - left + 1)
  /\ Z.land (insert_val val left right) (mask_of left right) = insert_val val left right.
Proof.
  intros Hl Hr Hv.
  assert (Hval : insert_val val left right
                 = val mod 2 ^ (right - left + 1) * 2 ^ (31 - right)).
  { unfold insert_val. rewrite mask_of_value by assumption.
    rewrite land_range_mask by lia.
    unfold wrap32, wrap. rewrite Z.shiftl_mul_pow2 by lia.
    set (b := 31 - right). set (k := right - left + 1).
    assert (Hb : 0 <= b) by (unfold b; lia). assert (Hk : 0 < k) by (unfold k; lia).
    replace (32 - left) with (k + b) by (unfold k, b; lia).
    assert (Hpb : 0 < 2 ^ b) by (apply Z.pow_pos_nonneg; lia).
    assert (Hpk : 0 < 2 ^ k) by (apply Z.pow_pos_nonneg; lia).
    assert (Hmul : forall x n, 0 < n -> (x * 2 ^ b) mod (n * 2 ^ b) = (x mod n) * 2 ^ b).
    { intros x n Hn. rewrite Z.mul_mod_distr_r by lia. reflexivity. }
    assert (E1 : ((val * 2 ^ b) mod 2 ^ 32) mod 2 ^ (k + b) = (val mod 2 ^ k) * 2 ^ b).
    { rewrite Z.mod_mod_divide.
      - rewrite Z.pow_add_r by lia. apply Hmul. exact Hpk.
      - exists (2 ^ (32 - (k + b))). rewrite <- Z.pow_add_r by (unfold k, b; lia).
        f_equal. unfold k, b. lia. }
    assert (E2 : ((val * 2 ^ b) mod 2 ^ 32) mod 2 ^ b = 0).
    { rewrite Z.mod_mod_divide.
      - apply Z.mod_mul. lia.
      - exists (2 ^ (32 - b)). rewrite <- Z.pow_add_r by (unfold b; lia).
        f_equal. lia. }
    rewrite E1, E2. lia. }
  split; [exact Hval|]. split.
  - rewrite Hval, Z.shiftr_div_pow2 by lia. apply Z.div_mul.
    apply Z.pow_nonzero; lia.
  - unfold insert_val. rewrite <- Z.land_assoc, Z.land_diag. reflexivity.
Qed.

Lemma insert_val_field_witness :
  insert_val 31 0 5 = 31 mod 2 ^ (5 - 0 + 1) * 2 ^ (31 - 5)
  /\ Z.shiftr (insert_val 31 0 5) (31 - 5) = 31 mod 2 ^ (5 - 0 + 1)
  /\ Z.land (insert_val 31 0 5) (mask_of 0 5) = insert_val 31 0 5.
Proof. apply insert_val_field; lia. Defined.

Lemma spr_bitswap_low (spr : Z) : spr_bitswap spr = spr_bitswap (Z.land spr 1023).
Proof.
  unfold spr_bitswap. rewrite <- !Z.land_assoc.
  change (Z.land 1023 31) with 31. change (Z.land 1023 992) with 992. reflexivity.
Qed.

(** X3. [spr_bitswap] exchanges the two five bit halves of a ten bit special
    purpose register number: its result is below [1024], it reads only the low
    ten bits of its argument, and applying it twice gives those ten bits
    back. *)
Theorem spr_bitswap_involution (spr : Z) :
  0 <= spr_bitswap spr < 1024
  /\ spr_bitswap spr = Z.land spr 31 * 32 + Z.land spr 1023 / 32
  /\ spr_bitswap (spr_bitswap spr) = Z.land spr 1023.
Proof.
  assert (Hall : forallb (fun n : nat =>
                   let x := Z.of_nat n in
                   (0 <=? spr_bitswap x) && (spr_bitswap x <? 1024)
                   && (spr_bitswap x =? Z.land x 31 * 32 + Z.land x 1023 / 32)
                   && (spr_bitswap (spr_bitswap x) =? x)) (seq 0 1024) = true)
    by (vm_compute; reflexivity).
  rewrite forallb_forall in Hall.
  assert (Hr : 0 <= Z.land spr 1023 < 1024).
  { change 1023 with (Z.ones 10). rewrite Z.land_ones by lia.
    apply Z.mod_pos_bound. lia. }
  specialize (Hall (Z.to_nat (Z.land spr 1023)) ltac:(apply in_seq; lia)).
  cbv zeta in Hall. rewrite Z2Nat.id in Hall by lia.
  rewrite !andb_true_iff, !Z.eqb_eq, Z.leb_le, Z.ltb_lt in Hall.
  destruct Hall as [[[H0 H1] H2] H3].
  rewrite (spr_bitswap_low spr).
  split; [lia|]. split; [|exact H3].
  rewrite H2. rewrite <- !Z.land_assoc.
  change (Z.land 1023 31) with 31. change (Z.land 1023 1023) with 1023. reflexivity.
Qed.

(** ** Operand lists *)

(** X4. [OperandList::Insert(before, val)] on a list that holds [count]
    operands, [before <= count]: the exchange loop moves the operands from
    [before] on one place up and [val] (with an empty source interval) takes
    place [before].  With room left, the count grows by one and the values in
    use are the old ones with [val] inserted; on a full list the last operand
    is dropped, the count stays and [overfill] is set. *)
Theorem Insert_inserts (before : nat) (val : Z) (ol : OperandList.t) :
  length (OperandList.list ol) = kMaxOperands ->
  0 <= OperandList.count ol <= Z.of_nat kMaxOperands ->
  Z.of_nat before <= OperandList.count ol ->
  (before < kMaxOperands)%nat ->
  let l := OperandList.list ol in
  let full := OperandList.count ol =? Z.of_nat kMaxOperands in
  let kept := if full then 4%nat else Z.to_nat (OperandList.count ol) in
  exists ol',
    OperandList.Insert before val ol = Some ol'
    /\ OperandList.list ol'
       = take before l ++ (Interval.mk 0 0, val) :: drop before (take kept l)
         ++ drop (S kept) l
    /\ OperandList.count ol'
       = (if full then OperandList.count ol else OperandList.count ol + 1)
    /\ OperandList.overfill ol' = full
    /\ (full = false ->
        OperandList.values ol'
        = take before (OperandList.values ol) ++ val :: drop before (OperandList.values ol)).
Proof.
  intros Hlen Hc Hb Hb5. destruct ol as [l c f]. simpl in *.
  unfold kMaxOperands in *.
  destruct l as [|e0 [|e1 [|e2 [|e3 [|e4 [|]]]]]]; try discriminate.
  assert (Hcases : c = 0 \/ c = 1 \/ c = 2 \/ c = 3 \/ c = 4 \/ c = 5) by lia.
  destruct Hcases as [-> | [-> | [-> | [-> | [-> | ->]]]]];
    destruct before as [|[|[|[|[|]]]]]; try lia;
    (eexists; split; [reflexivity|]; repeat split; try reflexivity;
     intros; try discriminate; reflexivity).
Qed.

Lemma Insert_inserts_witness :
  let ol := OperandList.mk
              [(Interval.mk 4 2, 3); (Interval.mk 8 2, 4); (Interval.mk 0 0, 0);
               (Interval.mk 0 0, 0); (Interval.mk 0 0, 0)] 2 false in
  exists ol',
    OperandList.Insert 1 7 ol = Some ol'
    /\ OperandList.values ol' = [3; 7; 4].
Proof.
  intros ol.
  destruct (Insert_inserts 1 7 ol) as (ol' & Hrun & _ & _ & _ & Hv).
  - reflexivity.
  - simpl. unfold kMaxOperands. lia.
  - simpl. lia.
  - unfold kMaxOperands. lia.
  - exists ol'. split; [exact Hrun|]. apply Hv. reflexivity.
Defined.

(** X5. [swap_ops_1_2] exchanges the values of operands 1 and 2, for all
    values, and leaves their source intervals, the other operands, the count
    and the overfill flag as they were. *)
Theorem swap_ops_1_2_exchanges (operands : OperandList.t) (t1 t2 : Interval.t)
    (v1 v2 : Z) :
  OperandList.list operands !! 1%nat = Some (t1, v1) ->
  OperandList.list operands !! 2%nat = Some (t2, v2) ->
  swap_ops_1_2 operands
  = Some (OperandList.mk
            (<[1%nat := (t1, v2)]> (<[2%nat := (t2, v1)]> (OperandList.list operands)))
            (OperandList.count operands) (OperandList.overfill operands)).
Proof.
  intros H1 H2. destruct operands as [l c f]. simpl in *.
  destruct l as [|e0 [|e1 [|e2 l]]]; try discriminate.
  simpl in H1, H2. inversion H1; inversion H2; subst.
  unfold swap_ops_1_2, and_then, OperandList.get, OperandList.set. simpl.
  assert (Hx : forall a b, Z.lxor a (Z.lxor b a) = b).
  { intros a b. rewrite (Z.lxor_comm b a), <- Z.lxor_assoc, Z.lxor_nilpotent.
    apply Z.lxor_0_l. }
  repeat f_equal.
  - apply Hx.
  - apply Hx.
Qed.

Lemma swap_ops_1_2_exchanges_witness :
  swap_ops_1_2
    (OperandList.mk
       [(Interval.mk 4 2, 3); (Interval.mk 8 2, 4); (Interval.mk 12 2, 5);
        (Interval.mk 0 0, 0); (Interval.mk 0 0, 0)] 3 false)
  = Some (OperandList.mk
            [(Interval.mk 4 2, 3); (Interval.mk 8 2, 5); (Interval.mk 12 2, 4);
             (Interval.mk 0 0, 0); (Interval.mk 0 0, 0)] 3 false).
Proof.
  apply (swap_ops_1_2_exchanges
           (OperandList.mk
              [(Interval.mk 4 2, 3); (Interval.mk 8 2, 4); (Interval.mk 12 2, 5);
               (Interval.mk 0 0, 0); (Interval.mk 0 0, 0)] 3 false)
           (Interval.mk 8 2) (Interval.mk 12 2) 4 5); reflexivity.
Defined.

(** X6. [set_compare_word_mode], the operand translator of the word compare
    mnemonics, always hands four operands to the base instruction: given
    [rA, rB] it supplies the condition register field [0] and the [L] operand
    [0]; given [crfD, rA, rB] it inserts the [L] operand [0] after the
    field. *)
Theorem set_compare_word_mode_values (operands : OperandList.t) :
  length (OperandList.list operands) = kMaxOperands ->
  OperandList.count operands = 2 \/ OperandList.count operands = 3 ->
  exists operands',
    set_compare_word_mode operands = Some operands'
    /\ OperandList.count operands' = 4
    /\ OperandList.overfill operands' = false
    /\ length (OperandList.list operands') = kMaxOperands
    /\ OperandList.values operands'
       = if OperandList.count operands =? 2
         then 0 :: 0 :: OperandList.values operands
         else take 1 (OperandList.values operands)
              ++ 0 :: drop 1 (OperandList.values operands).
Proof.
  intros Hlen Hc. destruct operands as [l c f]. simpl in *. unfold kMaxOperands in *.
  destruct l as [|e0 [|e1 [|e2 [|e3 [|e4 [|]]]]]]; try discriminate.
  destruct Hc as [-> | ->]; eexists; (split; [reflexivity|]);
    repeat split; reflexivity.
Qed.

Lemma set_compare_word_mode_values_witness :
  exists operands',
    set_compare_word_mode
      (OperandList.mk
         [(Interval.mk 5 2, 3); (Interval.mk 9 2, 4); (Interval.mk 0 0, 0);
          (Interval.mk 0 0, 0); (Interval.mk 0 0, 0)] 2 false) = Some operands'
    /\ OperandList.values operands' = [0; 0; 3; 4].
Proof.
  destruct (set_compare_word_mode_values
              (OperandList.mk
                 [(Interval.mk 5 2, 3); (Interval.mk 9 2, 4); (Interval.mk 0 0, 0);
                  (Interval.mk 0 0, 0); (Interval.mk 0 0, 0)] 2 false))
    as (ops & Hrun & _ & _ & _ & Hv).
  - reflexivity.
  - left. reflexivity.
  - exists ops. split; [exact Hrun | exact Hv].
Defined.

(** ** The range of values an operand descriptor accepts *)

Lemma Fits_unsigned_le (d : OperandDesc) (v k : Z) :
  is_signed d = false -> 0 <= k -> mask_sh d = Z.ones k -> 0 <= v ->
  (Fits d v = true <-> v <= MaxVal d).
Proof.
  intros Hsg Hk Hm Hv. unfold Fits, MaxVal. rewrite Hsg, Hm.
  rewrite Z.land_comm, Z.land_ones, Z.eqb_eq, Z.ones_equiv by lia.
  assert (Hp : 0 < 2 ^ k) by (apply Z.pow_pos_nonneg; lia).
  split.
  - intros E. pose proof (Z.mod_pos_bound v (2 ^ k) Hp). lia.
  - intros Hle. apply Z.mod_small. lia.
Qed.

Lemma Fits_signed_range_gen (d : OperandDesc) (v h l : Z) :
  is_signed d = true -> mask_hibit d = 2 ^ h -> mask_lobit d = 2 ^ l ->
  0 <= l <= h -> h < 31 -> 0 <= v < 2 ^ 32 ->
  (Fits d v = true
   <-> - (MaxVal d + 1) <= signed32 v <= MaxVal d
       /\ signed32 v mod (TruncBits d + 1) = 0).
Proof.
  intros Hsg Hhi Hlo Hlh Hh Hv. unfold Fits, MaxVal, TruncBits, signed32.
  rewrite Hsg, Hhi, Hlo.
  assert (HL : 0 < 2 ^ l <= 2 ^ h)
    by (split; [apply Z.pow_pos_nonneg | apply Z.pow_le_mono_r]; lia).
  assert (HH : 2 ^ h < 2 ^ 31) by (apply Z.pow_lt_mono_r; lia).
  assert (H31 : 2 * 2 ^ 31 = 2 ^ 32) by reflexivity.
  rewrite (wrap32_small (2 ^ h - 1)), (wrap32_small (2 ^ l - 1)) by lia.
  rewrite not_w32_val by lia.
  replace (2 ^ l - 1) with (Z.ones l) at 1 by (rewrite Z.ones_equiv; lia).
  rewrite Z.land_ones by lia.
  replace (2 ^ l - 1 + 1) with (2 ^ l) by lia.
  cbv zeta. rewrite andb_true_iff, orb_true_iff, Z.eqb_eq, !Z.leb_le.
  assert (Hmod : (v - 2 ^ 32) mod 2 ^ l = v mod 2 ^ l).
  { replace (v - 2 ^ 32) with (v + (- 2 ^ (32 - l)) * 2 ^ l).
    - apply Z_mod_plus_full.
    - rewrite Z.mul_opp_l, <- Z.pow_add_r by lia.
      replace (32 - l + l) with 32 by lia. lia. }
  destruct (Z.ltb_spec v (2 ^ 31)) as [Hlt | Hge].
  - split; intros [H1 H2]; (split; [lia | exact H2]).
  - rewrite Hmod. split; intros [H1 H2]; (split; [lia | exact H2]).
Qed.

(** X7. What [Fits] accepts, for every descriptor of the catalogue and every
    [u32] value: an unsigned descriptor accepts exactly the values up to
    [MaxVal]; a signed descriptor accepts exactly the values that, read as two's
    complement numbers, lie between [-(MaxVal + 1)] and [MaxVal] and are a
    multiple of [TruncBits + 1] (the branch displacements are multiples of
    four). *)
Theorem Fits_range (d : OperandDesc) (v : Z) :
  In d operand_catalogue -> 0 <= v < 2 ^ 32 ->
  (Fits d v = true
   <-> if is_signed d
       then - (MaxVal d + 1) <= signed32 v <= MaxVal d
            /\ signed32 v mod (TruncBits d + 1) = 0
       else v <= MaxVal d).
Proof.
  intros Hin Hv. unfold operand_catalogue in Hin. simpl in Hin.
  repeat (destruct Hin as [<- | Hin];
    [ match goal with
      | |- _ <-> (if is_signed ?d then _ else _) =>
          let b := eval vm_compute in (is_signed d) in
          change (is_signed d) with b; cbv iota
      end;
      first
        [ match goal with
          | |- Fits ?d _ = true <-> _ =>
              apply (Fits_unsigned_le d v (Z.log2 (mask_sh d) + 1));
              [reflexivity | vm_compute; discriminate | reflexivity | lia]
          end
        | apply (Fits_signed_range_gen _ v 15 2); [reflexivity .. | lia | lia | exact Hv]
        | apply (Fits_signed_range_gen _ v 25 2); [reflexivity .. | lia | lia | exact Hv]
        | apply (Fits_signed_range_gen _ v 15 0); [reflexivity .. | lia | lia | exact Hv]
        | apply (Fits_signed_range_gen _ v 12 0); [reflexivity .. | lia | lia | exact Hv] ]
    | ]).
  destruct Hin.
Qed.

(** The branch displacement field [BD] accepts [-32768 .. 32764] in steps of
    four. *)
Lemma Fits_range_witness :
  MaxVal _BD = 32767 /\ TruncBits _BD = 3
  /\ (Fits _BD 0xFFFF8000 = true
      <-> - (MaxVal _BD + 1) <= signed32 0xFFFF8000 <= MaxVal _BD
          /\ signed32 0xFFFF8000 mod (TruncBits _BD + 1) = 0).
Proof.
  split; [reflexivity|]. split; [reflexivity|].
  apply (Fits_range _BD 0xFFFF8000).
  - unfold operand_catalogue. simpl. tauto.
  - lia.
Defined.

(** * Further properties of the lexer *)

Lemma get_lookup (s : string) (i : nat) :
  String.get i s = list_ascii_of_string s !! i.
Proof.
  revert i. induction s as [|c s IH]; intros [|i]; simpl; try reflexivity. apply IH.
Qed.

Lemma length_list_ascii (s : string) :
  length (list_ascii_of_string s) = String.length s.
Proof. induction s as [|c s IH]; simpl; [reflexivity | f_equal; exact IH]. Qed.

Lemma Peek_at_end (lx : Lexer) :
  (String.length (lex_string lx) <= CursorPosition.index (scan_pos lx))%nat ->
  Peek lx = Ascii.zero.
Proof.
  intros H. unfold Peek. rewrite get_lookup.
  rewrite lookup_ge_None_2; [reflexivity|]. rewrite length_list_ascii. exact H.
Qed.

Lemma cursor_step (s : string) (p : CursorPosition.t) (c : ascii) :
  cursor_consistent s p ->
  list_ascii_of_string s !! CursorPosition.index p = Some c ->
  cursor_consistent s
    (if Ascii.eqb c newline
     then CursorPosition.mk (S (CursorPosition.index p)) (S (CursorPosition.line p)) 0
     else CursorPosition.mk (S (CursorPosition.index p)) (CursorPosition.line p)
            (S (CursorPosition.col p))).
Proof.
  intros (Hi & Hl & Hc) Hget.
  assert (Hlt : (CursorPosition.index p < String.length s)%nat).
  { rewrite <- length_list_ascii. eapply lookup_lt_Some. exact Hget. }
  assert (Htake : chars_before s (S (CursorPosition.index p))
                  = chars_before s (CursorPosition.index p) ++ [c]).
  { unfold chars_before. apply take_S_r. exact Hget. }
  unfold cursor_consistent, line_of, col_of.
  destruct (Ascii.eqb c newline) eqn:E; simpl; rewrite Htake;
    rewrite List.filter_app, length_app, rev_app_distr; simpl; rewrite E; simpl;
    (split; [lia|]); split; try reflexivity.
  - rewrite Hl. unfold line_of. lia.
  - rewrite Hl. unfold line_of. lia.
  - rewrite Hc. reflexivity.
Qed.

Lemma scans_refl (lx : Lexer) : scans lx lx.
Proof.
  exact (conj eq_refl (conj eq_refl (conj eq_refl (conj eq_refl
           (conj (le_n _) (fun H => H)))))).
Qed.

Lemma scans_trans (lx1 lx2 lx3 : Lexer) : scans lx1 lx2 -> scans lx2 lx3 -> scans lx1 lx3.
Proof.
  intros (S1 & P1 & T1 & M1 & I1 & C1) (S2 & P2 & T2 & M2 & I2 & C2).
  unfold scans. rewrite S2, P2, T2, M2.
  refine (conj S1 (conj P1 (conj T1 (conj M1 (conj _ _))))); [lia|].
  intros H. rewrite S1 in C2. auto.
Qed.

Lemma Step_scans (lx : Lexer) : scans lx (Step lx).
Proof.
  unfold Step.
  destruct (Nat.leb_spec (String.length (lex_string lx)) (CursorPosition.index (scan_pos lx)))
    as [Hge | Hlt]; [apply scans_refl|].
  assert (Hget : exists c, list_ascii_of_string (lex_string lx)
                           !! CursorPosition.index (scan_pos lx) = Some c).
  { apply lookup_lt_is_Some_2. rewrite length_list_ascii. exact Hlt. }
  destruct Hget as [c Hget].
  assert (HP : Peek lx = c) by (unfold Peek; rewrite get_lookup, Hget; reflexivity).
  rewrite HP.
  unfold scans.
  destruct (Ascii.eqb c newline) eqn:E; simpl;
    (refine (conj eq_refl (conj eq_refl (conj eq_refl (conj eq_refl (conj _ _)))));
     [lia|]);
    intros Hc; pose proof (cursor_step _ _ c Hc Hget) as Hn; rewrite E in Hn; exact Hn.
Qed.

Lemma Step_advances (lx : Lexer) :
  (CursorPosition.index (scan_pos lx) < String.length (lex_string lx))%nat ->
  CursorPosition.index (scan_pos (Step lx)) = S (CursorPosition.index (scan_pos lx)).
Proof.
  intros Hlt. unfold Step.
  destruct (Nat.leb_spec (String.length (lex_string lx)) (CursorPosition.index (scan_pos lx)));
    [lia|].
  destruct (Ascii.eqb (Peek lx) newline); reflexivity.
Qed.

Lemma scan_while_scans (P : ascii -> bool) (fuel : nat) (lx : Lexer) :
  scans lx (scan_while P fuel lx).
Proof.
  revert lx. induction fuel as [|fuel IH]; intros lx; simpl; [apply scans_refl|].
  destruct (P (Peek lx)); [|apply scans_refl].
  eapply scans_trans; [apply Step_scans | apply IH].
Qed.

Lemma scan_loop_scans (P : ascii -> bool) (lx : Lexer) : scans lx (scan_loop P lx).
Proof. apply scan_while_scans. Qed.

Lemma RunDfa_loop_scans (dfa : list DfaNode) (fuel : nat) :
  forall (dfa_index : nat) (lx : Lexer),
    scans lx (snd (RunDfa_loop dfa fuel dfa_index lx)).
Proof.
  induction fuel as [|fuel IH]; intros dfa_index lx; simpl; [apply scans_refl|].
  destruct (Ascii.eqb (Peek lx) Ascii.zero); [apply scans_refl|].
  destruct (dfa !! dfa_index) as [n|]; [|apply scans_refl].
  destruct (List.find _ (edges n)) as [edge|]; [|apply scans_refl].
  eapply scans_trans; [apply Step_scans | apply IH].
Qed.

Lemma RunDfa_scans (dfa : list DfaNode) (lx : Lexer) : scans lx (snd (RunDfa dfa lx)).
Proof.
  unfold RunDfa.
  pose proof (RunDfa_loop_scans dfa (S (remaining lx)) 0 lx) as H.
  destruct (RunDfa_loop dfa (S (remaining lx)) 0 lx) as [i lx']. exact H.
Qed.

Lemma SkipWs_lexes (lx : Lexer) : lexes lx (SkipWs lx).
Proof.
  unfold SkipWs, ScanFinish.
  pose proof (scan_loop_scans (fun c => isspace c && negb (Ascii.eqb c newline))
                (ScanStart lx)) as (S1 & P1 & T1 & M1 & I1 & C1).
  set (lx1 := scan_loop _ (ScanStart lx)) in *.
  unfold lexes. simpl in *.
  exact (conj S1 (conj T1 (conj M1 (conj eq_refl (conj I1 C1))))).
Qed.

Lemma lexes_trans (lx1 lx2 lx3 : Lexer) : lexes lx1 lx2 -> lexes lx2 lx3 -> lexes lx1 lx3.
Proof.
  intros (S1 & T1 & M1 & E1 & I1 & C1) (S2 & T2 & M2 & E2 & I2 & C2).
  unfold lexes. rewrite S2, T2, M2.
  refine (conj S1 (conj T1 (conj M1 (conj E2 (conj _ _))))); [lia|].
  intros H. rewrite S1 in C2. auto.
Qed.

Lemma LexStringLit_scans (lx : Lexer) : scans lx (snd (LexStringLit lx)).
Proof.
  unfold LexStringLit.
  pose proof (RunDfa_scans string_dfa lx) as H.
  destruct (RunDfa string_dfa lx) as [[reason|] lx']; exact H.
Qed.

(** The shape of [LexSingle]: skip blanks, step over the first character, scan
    on, and take the scan cursor as the new cursor before skipping blanks
    again. *)
Lemma LexSingle_shape (lx0 : Lexer) :
  exists lx3,
    scans (Step (ScanStart (SkipWs lx0))) lx3
    /\ snd (LexSingle lx0) = SkipWs (set_pos (scan_pos lx3) lx3).
Proof.
  unfold LexSingle. cbv zeta.
  set (lx1 := ScanStart (SkipWs lx0)). set (lx2 := Step lx1).
  match goal with
  | |- context [match ?b with pair _ _ => _ end] =>
      match type of b with (_ * Lexer)%type => set (br := b) end
  end.
  assert (Hbr : scans lx2 (snd br)).
  { subst br. repeat case_match; simpl;
      first [ apply scans_refl | apply scan_loop_scans | apply LexStringLit_scans
            | apply Step_scans
            | eapply scans_trans; [apply Step_scans | apply scan_loop_scans] ]. }
  clearbody br. destruct br as [[[tp reason] region] lx3].
  exists lx3. split; [exact Hbr|]. reflexivity.
Qed.

Lemma ScanStart_SkipWs (lx : Lexer) : ScanStart (SkipWs lx) = SkipWs lx.
Proof.
  pose proof (SkipWs_lexes lx) as (_ & _ & _ & E & _).
  unfold ScanStart, set_scan_pos. destruct (SkipWs lx). simpl in *. subst. reflexivity.
Qed.

Lemma LexSingle_lexes (lx : Lexer) : lexes lx (snd (LexSingle lx)).
Proof.
  destruct (LexSingle_shape lx) as (lx3 & Hsc & ->).
  rewrite ScanStart_SkipWs in Hsc.
  pose proof (SkipWs_lexes lx) as H1.
  pose proof (Step_scans (SkipWs lx)) as H2.
  pose proof (scans_trans _ _ _ H2 Hsc) as (S3 & P3 & T3 & M3 & I3 & C3).
  assert (H4 : lexes (SkipWs lx) (set_pos (scan_pos lx3) lx3)).
  { destruct H1 as (S1 & T1 & M1 & E1 & I1 & C1).
    unfold lexes. simpl. rewrite E1 in I3, C3.
    exact (conj S3 (conj T3 (conj M3 (conj eq_refl (conj I3 C3))))). }
  eapply lexes_trans; [exact H1|]. eapply lexes_trans; [exact H4 | apply SkipWs_lexes].
Qed.

Lemma LexSingle_advances (lx : Lexer) :
  (CursorPosition.index (pos lx) < String.length (lex_string lx))%nat ->
  (CursorPosition.index (pos lx) < CursorPosition.index (pos (snd (LexSingle lx))))%nat.
Proof.
  intros Hlt.
  destruct (LexSingle_shape lx) as (lx3 & Hsc & ->).
  rewrite ScanStart_SkipWs in Hsc.
  pose proof (SkipWs_lexes lx) as (S1 & _ & _ & E1 & I1 & _).
  destruct Hsc as (_ & _ & _ & _ & I3 & _).
  pose proof (SkipWs_lexes (set_pos (scan_pos lx3) lx3)) as (_ & _ & _ & _ & I4 & _).
  change (pos (set_pos (scan_pos lx3) lx3)) with (scan_pos lx3) in I4.
  destruct (Nat.lt_ge_cases (CursorPosition.index (scan_pos (SkipWs lx)))
              (String.length (lex_string (SkipWs lx)))) as [Hin | Hout].
  - rewrite (Step_advances _ Hin) in I3. rewrite E1 in I3. lia.
  - pose proof (Step_scans (SkipWs lx)) as (_ & _ & _ & _ & I2 & _).
    rewrite S1, E1 in Hout. rewrite E1 in I2. lia.
Qed.

Lemma substring_0_len (n : nat) (s : string) : String.substring n 0 s = ""%string.
Proof. revert n. induction s as [|c s IH]; intros [|n]; simpl; try reflexivity. apply IH. Qed.

Lemma SkipWs_at_end (lx : Lexer) :
  at_end lx -> SkipWs lx = set_scan_pos (pos lx) lx.
Proof.
  intros H. unfold at_end in H.
  unfold SkipWs, scan_loop, remaining, ScanStart, ScanFinish. simpl.
  replace (String.length (lex_string lx) - CursorPosition.index (pos lx))%nat with 0%nat
    by lia.
  simpl. destruct lx; reflexivity.
Qed.

Lemma LexSingle_at_end (lx : Lexer) :
  at_end lx -> LexSingle lx = (eof_token, set_scan_pos (pos lx) lx).
Proof.
  intros H. unfold LexSingle. cbv zeta.
  rewrite (SkipWs_at_end lx H).
  set (lx1 := ScanStart (set_scan_pos (pos lx) lx)).
  assert (E1 : lx1 = set_scan_pos (pos lx) lx) by reflexivity.
  assert (HP : Peek lx1 = Ascii.zero) by (apply Peek_at_end; exact H).
  assert (HS : Step lx1 = lx1).
  { unfold Step. destruct (Nat.leb_spec (String.length (lex_string lx1))
                             (CursorPosition.index (scan_pos lx1))) as [|Hlt];
      [reflexivity|]. unfold at_end in H. simpl in Hlt. lia. }
  rewrite HP, HS.
  assert (HI : IdentifierHeadExtra lx1 Ascii.zero = false).
  { unfold IdentifierHeadExtra. destruct (match_rule lx1); reflexivity. }
  rewrite HI. cbn -[SkipWs lx1].
  unfold ScanFinishOut. rewrite E1. simpl. rewrite Nat.sub_diag, substring_0_len.
  fold eof_token. f_equal.
  assert (E2 : set_pos (pos lx) (set_scan_pos (pos lx) lx) = set_scan_pos (pos lx) lx)
    by (destruct lx; reflexivity).
  rewrite E2. rewrite SkipWs_at_end by exact H. destruct lx; reflexivity.
Qed.

(** X8. Every call of [LexSingle] either consumes input or is at the end of
    it: the input, the buffered tokens and the match rule are left alone and
    the cursor never moves back; when the cursor is inside the input it is
    strictly further on afterwards, and when it is at the end the token is the
    end of file token (type [kEof], empty text) and the cursor stays. *)
Theorem LexSingle_progress (lx : Lexer) :
  let lx' := snd (LexSingle lx) in
  lex_string lx' = lex_string lx
  /\ lexed_tokens lx' = lexed_tokens lx
  /\ match_rule lx' = match_rule lx
  /\ (CursorPosition.index (pos lx) <= CursorPosition.index (pos lx'))%nat
  /\ ((CursorPosition.index (pos lx) < String.length (lex_string lx))%nat ->
      (CursorPosition.index (pos lx) < CursorPosition.index (pos lx'))%nat)
  /\ ((String.length (lex_string lx) <= CursorPosition.index (pos lx))%nat ->
      fst (LexSingle lx) = eof_token /\ pos lx' = pos lx).
Proof.
  intros lx'. subst lx'.
  pose proof (LexSingle_lexes lx) as (S1 & T1 & M1 & _ & I1 & _).
  refine (conj S1 (conj T1 (conj M1 (conj I1 (conj (LexSingle_advances lx) _))))).
  intros Hend. rewrite (LexSingle_at_end lx Hend). split; reflexivity.
Qed.

(** ** Line and column bookkeeping *)

Lemma lexer_step_refl (lx : Lexer) : lexer_step lx lx.
Proof. split; [reflexivity | tauto]. Qed.

Lemma lexer_step_trans (lx1 lx2 lx3 : Lexer) :
  lexer_step lx1 lx2 -> lexer_step lx2 lx3 -> lexer_step lx1 lx3.
Proof. intros [S1 C1] [S2 C2]. split; [congruence | tauto]. Qed.

Lemma lexes_step (lx lx' : Lexer) : lexes lx lx' -> lexer_step lx lx'.
Proof.
  intros (S1 & T1 & M1 & E1 & I1 & C1). split; [exact S1|].
  intros (Hp & _ & Ht). unfold Lexer_consistent. rewrite S1, T1, E1.
  split; [|split]; auto.
Qed.

Lemma scans_step (lx lx' : Lexer) : scans lx lx' -> lexer_step lx lx'.
Proof.
  intros (S1 & P1 & T1 & M1 & I1 & C1). split; [exact S1|].
  intros (Hp & Hs & Ht). unfold Lexer_consistent. rewrite S1, P1, T1.
  split; [|split]; auto.
Qed.

Lemma LexSingle_step (lx : Lexer) : lexer_step lx (snd (LexSingle lx)).
Proof. apply lexes_step, LexSingle_lexes. Qed.

Lemma buffer_step (lx : Lexer) (p : CursorPosition.t) (tok : AssemblerToken) :
  cursor_consistent (lex_string lx) p ->
  lexer_step lx (set_lexed_tokens (lexed_tokens lx ++ [(p, tok)]) lx).
Proof.
  intros Hp. split; [reflexivity|]. intros (H1 & H2 & H3).
  unfold Lexer_consistent. simpl. split; [exact H1|]. split; [exact H2|].
  apply Forall_app. split; [exact H3|]. constructor; [exact Hp | constructor].
Qed.

Lemma lex_and_buffer_step (lx : Lexer) :
  Lexer_consistent lx -> lexer_step lx (snd (lex_and_buffer lx)).
Proof.
  intros HC. unfold lex_and_buffer.
  pose proof (LexSingle_step lx) as H.
  destruct (LexSingle lx) as [tok lx'] eqn:E. simpl in *.
  eapply lexer_step_trans; [exact H|]. apply buffer_step.
  destruct H as [-> _]. apply HC.
Qed.

Lemma FeedbackTokens_step (lx : Lexer) : lexer_step lx (FeedbackTokens lx).
Proof.
  unfold FeedbackTokens. destruct (lexed_tokens lx) as [|front rest] eqn:E;
    [apply lexer_step_refl|].
  split; [reflexivity|]. intros (H1 & H2 & H3). rewrite E in H3.
  apply Forall_cons in H3 as [Hf _].
  unfold Lexer_consistent. simpl. split; [exact Hf|]. split; [exact Hf | constructor].
Qed.

Lemma set_match_rule_step (rule : IdentifierMatchRule.t) (lx : Lexer) :
  lexer_step lx (set_match_rule rule lx).
Proof. split; [reflexivity|]. intros H. exact H. Qed.

Lemma set_pos_scan_step (lx : Lexer) : lexer_step lx (set_pos (scan_pos lx) lx).
Proof.
  split; [reflexivity|]. intros (H1 & H2 & H3).
  unfold Lexer_consistent. simpl. auto.
Qed.

Lemma pop_step (lx : Lexer) (n : nat) :
  lexer_step lx (set_lexed_tokens (drop n (lexed_tokens lx)) lx).
Proof.
  split; [reflexivity|]. intros (H1 & H2 & H3).
  unfold Lexer_consistent. simpl. split; [exact H1|]. split; [exact H2|].
  apply Forall_drop. exact H3.
Qed.

Lemma Lookahead_step (lx : Lexer) :
  Lexer_consistent lx -> lexer_step lx (snd (Lookahead lx)).
Proof.
  intros HC. unfold Lookahead. destruct (lexed_tokens lx);
    [apply lex_and_buffer_step; exact HC | apply lexer_step_refl].
Qed.

Lemma Eat_step (lx : Lexer) : lexer_step lx (Eat lx).
Proof.
  unfold Eat. destruct (lexed_tokens lx) as [|front rest] eqn:E;
    [apply LexSingle_step|].
  pose proof (pop_step lx 1) as H. rewrite E in H. exact H.
Qed.

Lemma SetIdentifierMatchRule_step (rule : IdentifierMatchRule.t) (lx : Lexer) :
  lexer_step lx (SetIdentifierMatchRule rule lx).
Proof.
  unfold SetIdentifierMatchRule.
  eapply lexer_step_trans; [apply FeedbackTokens_step | apply set_match_rule_step].
Qed.

Lemma LookaheadFloat_step (lx : Lexer) :
  Lexer_consistent lx -> lexer_step lx (snd (LookaheadFloat lx)).
Proof.
  intros HC. unfold LookaheadFloat. cbv zeta.
  set (lx1 := SkipWs (FeedbackTokens lx)).
  assert (H1 : lexer_step lx lx1).
  { eapply lexer_step_trans; [apply FeedbackTokens_step | apply lexes_step, SkipWs_lexes]. }
  assert (E1 : ScanStart lx1 = lx1) by apply ScanStart_SkipWs.
  rewrite E1.
  pose proof (RunDfa_scans float_dfa lx1) as H2.
  destruct (RunDfa float_dfa lx1) as [failure_reason lx2]. simpl in H2.
  set (lx3 := if (CursorPosition.index (scan_pos lx2) =? CursorPosition.index (pos lx1))%nat
              then Step lx2 else lx2).
  assert (H3 : scans lx1 lx3).
  { subst lx3. destruct (_ =? _)%nat; [|exact H2].
    eapply scans_trans; [exact H2 | apply Step_scans]. }
  unfold ScanFinishOut. simpl.
  assert (Hp : cursor_consistent (lex_string lx) (pos lx1)).
  { destruct H1 as [S1 C1]. rewrite <- S1. apply (C1 HC). }
  eapply lexer_step_trans; [exact H1|].
  eapply lexer_step_trans; [apply scans_step; exact H3|].
  eapply lexer_step_trans; [apply set_pos_scan_step|].
  apply (buffer_step (set_pos (scan_pos lx3) lx3)). simpl.
  destruct H3 as (S3 & _). destruct H1 as [S1 _]. rewrite S3, S1. exact Hp.
Qed.

Lemma generate_tokens_step (n : nat) :
  forall lx, Lexer_consistent lx -> lexer_step lx (snd (generate_tokens n lx)).
Proof.
  induction n as [|n IH]; intros lx HC; simpl; [apply lexer_step_refl|].
  pose proof (lex_and_buffer_step lx HC) as H.
  destruct (lex_and_buffer lx) as [tok lx']. simpl in H.
  specialize (IH lx' (proj2 H HC)).
  destruct (generate_tokens n lx') as [toks lx'']. simpl in *.
  eapply lexer_step_trans; eassumption.
Qed.

Lemma LookaheadN_step (n : nat) (lx : Lexer) :
  Lexer_consistent lx -> lexer_step lx (snd (LookaheadN n lx)).
Proof.
  intros HC. unfold LookaheadN. cbv zeta.
  pose proof (generate_tokens_step (n - Nat.min (length (lexed_tokens lx)) n) lx HC) as H.
  destruct (generate_tokens _ lx) as [fresh lx']. exact H.
Qed.

Lemma lex_n_step (n : nat) : forall lx, lexer_step lx (lex_n n lx).
Proof.
  induction n as [|n IH]; intros lx; simpl; [apply lexer_step_refl|].
  eapply lexer_step_trans; [apply LexSingle_step | apply IH].
Qed.

Lemma EatN_step (n : nat) (lx : Lexer) : lexer_step lx (EatN n lx).
Proof.
  unfold EatN. cbv zeta.
  eapply lexer_step_trans; [apply pop_step | apply lex_n_step].
Qed.

Lemma run_op_step (lx : Lexer) (op : LexerOp) :
  Lexer_consistent lx -> lexer_step lx (run_op lx op).
Proof.
  intros HC. destruct op; simpl.
  - apply Lookahead_step, HC.
  - apply LookaheadFloat_step, HC.
  - apply Eat_step.
  - unfold EatAndReset.
    eapply lexer_step_trans; [apply Eat_step | apply SetIdentifierMatchRule_step].
  - apply SetIdentifierMatchRule_step.
  - apply LookaheadN_step, HC.
  - apply EatN_step.
Qed.

(** X9. After any sequence of the public operations of the lexer
    ([Lookahead], [LookaheadFloat], [Eat], [EatAndReset],
    [SetIdentifierMatchRule], [LookaheadN], [EatN]) on any input, the position
    the lexer reports is that of the current token (the first buffered token,
    or the cursor): [LineNumber] is the number of line breaks before the
    token's index, [ColNumber] is the number of characters between the last
    of those line breaks and the token, and the index is inside the input. *)
Theorem lexer_reports_token_position (s : string) (ops : list LexerOp) :
  let lx := run_ops ops (Lexer_new s) in
  lex_string lx = s
  /\ (reported_index lx <= String.length s)%nat
  /\ LineNumber lx = line_of s (reported_index lx)
  /\ ColNumber lx = col_of s (reported_index lx).
Proof.
  intros lx.
  assert (Hinit : Lexer_consistent (Lexer_new s)).
  { unfold Lexer_consistent, cursor_consistent, Lexer_new. simpl.
    repeat split; try lia; constructor. }
  assert (Hrun : forall ops lx0, lex_string lx0 = s -> Lexer_consistent lx0 ->
                   lex_string (run_ops ops lx0) = s
                   /\ Lexer_consistent (run_ops ops lx0)).
  { clear lx. intros ops0. induction ops0 as [|op ops0 IH]; intros lx0 Hs HC; simpl.
    - split; assumption.
    - destruct (run_op_step lx0 op HC) as [S1 C1].
      apply IH; [congruence | exact (C1 HC)]. }
  destruct (Hrun ops (Lexer_new s) eq_refl Hinit) as [Hs (Hp & _ & Ht)].
  fold lx in Hs, Hp, Ht. rewrite Hs in Hp, Ht.
  split; [exact Hs|].
  unfold reported_index, LineNumber, ColNumber.
  destruct (lexed_tokens lx) as [|front rest].
  - destruct Hp as (H1 & H2 & H3). auto.
  - apply Forall_cons in Ht as [(H1 & H2 & H3) _]. auto.
Qed.

(** ** Looking ahead does not change what is consumed *)

Lemma Step_buffer (q : list TaggedToken) (lx : Lexer) :
  Step (set_lexed_tokens q lx) = set_lexed_tokens q (Step lx).
Proof.
  unfold Step. simpl.
  change (Peek (set_lexed_tokens q lx)) with (Peek lx).
  destruct (_ <=? _)%nat; [reflexivity|].
  destruct (Ascii.eqb (Peek lx) newline); reflexivity.
Qed.

Lemma scan_while_buffer (P : ascii -> bool) (fuel : nat) (q : list TaggedToken) :
  forall lx, scan_while P fuel (set_lexed_tokens q lx)
             = set_lexed_tokens q (scan_while P fuel lx).
Proof.
  induction fuel as [|fuel IH]; intros lx; simpl; [reflexivity|].
  change (Peek (set_lexed_tokens q lx)) with (Peek lx).
  destruct (P (Peek lx)); [|reflexivity]. rewrite Step_buffer. apply IH.
Qed.

Lemma scan_loop_buffer (P : ascii -> bool) (q : list TaggedToken) (lx : Lexer) :
  scan_loop P (set_lexed_tokens q lx) = set_lexed_tokens q (scan_loop P lx).
Proof. unfold scan_loop. apply scan_while_buffer. Qed.

Lemma SkipWs_buffer (q : list TaggedToken) (lx : Lexer) :
  SkipWs (set_lexed_tokens q lx) = set_lexed_tokens q (SkipWs lx).
Proof.
  unfold SkipWs.
  change (ScanStart (set_lexed_tokens q lx)) with (set_lexed_tokens q (ScanStart lx)).
  rewrite scan_loop_buffer. reflexivity.
Qed.

Lemma RunDfa_loop_buffer (dfa : list DfaNode) (fuel : nat) (q : list TaggedToken) :
  forall dfa_index lx,
    RunDfa_loop dfa fuel dfa_index (set_lexed_tokens q lx)
    = (fst (RunDfa_loop dfa fuel dfa_index lx),
       set_lexed_tokens q (snd (RunDfa_loop dfa fuel dfa_index lx))).
Proof.
  induction fuel as [|fuel IH]; intros dfa_index lx; simpl; [reflexivity|].
  change (Peek (set_lexed_tokens q lx)) with (Peek lx).
  destruct (Ascii.eqb (Peek lx) Ascii.zero); [reflexivity|].
  destruct (dfa !! dfa_index) as [n|]; [|reflexivity].
  destruct (List.find _ (edges n)) as [edge|]; [|reflexivity].
  rewrite Step_buffer. apply IH.
Qed.

Lemma RunDfa_buffer (dfa : list DfaNode) (q : list TaggedToken) (lx : Lexer) :
  RunDfa dfa (set_lexed_tokens q lx)
  = (fst (RunDfa dfa lx), set_lexed_tokens q (snd (RunDfa dfa lx))).
Proof.
  unfold RunDfa. change (remaining (set_lexed_tokens q lx)) with (remaining lx).
  rewrite RunDfa_loop_buffer.
  destruct (RunDfa_loop dfa (S (remaining lx)) 0 lx) as [i lx']. reflexivity.
Qed.

Lemma LexStringLit_buffer (q : list TaggedToken) (lx : Lexer) :
  LexStringLit (set_lexed_tokens q lx)
  = (fst (LexStringLit lx), set_lexed_tokens q (snd (LexStringLit lx))).
Proof.
  unfold LexStringLit. rewrite RunDfa_buffer.
  destruct (RunDfa string_dfa lx) as [[reason|] lx']; reflexivity.
Qed.

(** [LexSingle] neither reads nor writes the buffered tokens. *)
Lemma LexSingle_buffer (q : list TaggedToken) (lx : Lexer) :
  LexSingle (set_lexed_tokens q lx)
  = (fst (LexSingle lx), set_lexed_tokens q (snd (LexSingle lx))).
Proof.
  unfold LexSingle. cbv zeta.
  rewrite SkipWs_buffer.
  change (ScanStart (set_lexed_tokens q (SkipWs lx)))
    with (set_lexed_tokens q (ScanStart (SkipWs lx))).
  set (lx1 := ScanStart (SkipWs lx)).
  change (Peek (set_lexed_tokens q lx1)) with (Peek lx1).
  rewrite Step_buffer. set (lx2 := Step lx1).
  change (Peek (set_lexed_tokens q lx2)) with (Peek lx2).
  change (IdentifierHeadExtra (set_lexed_tokens q lx2) (Peek lx1))
    with (IdentifierHeadExtra lx2 (Peek lx1)).
  match goal with
  | |- context [match ?b with pair _ _ => _ end] =>
      match type of b with (_ * Lexer)%type => set (brq := b) end
  end.
  match goal with
  | |- context [match ?b with pair _ _ => _ end] =>
      match type of b with (_ * Lexer)%type => tryif is_var b then fail else set (br := b) end
  end.
  assert (Hq : brq = (fst br, set_lexed_tokens q (snd br))).
  { subst brq br.
    repeat case_match; simpl;
      rewrite ?Step_buffer, ?scan_loop_buffer; try reflexivity;
      try apply LexStringLit_buffer. }
  rewrite Hq. clearbody br. clear Hq brq. destruct br as [[[tp reason] region] lx3].
  simpl. unfold ScanFinishOut. simpl.
  change (set_pos (scan_pos lx3) (set_lexed_tokens q lx3))
    with (set_lexed_tokens q (set_pos (scan_pos lx3) lx3)).
  rewrite SkipWs_buffer. reflexivity.
Qed.

Lemma lex_n_buffer (n : nat) (q : list TaggedToken) :
  forall lx, lex_n n (set_lexed_tokens q lx) = set_lexed_tokens q (lex_n n lx).
Proof.
  induction n as [|n IH]; intros lx; simpl; [reflexivity|].
  rewrite LexSingle_buffer. simpl. apply IH.
Qed.

Lemma generate_tokens_shape (n : nat) :
  forall lx, exists toks,
    length toks = n
    /\ snd (generate_tokens n lx)
       = set_lexed_tokens (lexed_tokens lx ++ toks) (lex_n n lx).
Proof.
  induction n as [|n IH]; intros lx; simpl.
  - exists []. split; [reflexivity|]. rewrite app_nil_r. destruct lx; reflexivity.
  - unfold lex_and_buffer.
    pose proof (LexSingle_lexes lx) as (_ & T1 & _).
    destruct (LexSingle lx) as [tok lx'] eqn:E. simpl in T1. rewrite T1.
    destruct (IH (set_lexed_tokens (lexed_tokens lx ++ [(pos lx, tok)]) lx'))
      as (toks & Hlen & Hsnd).
    destruct (generate_tokens n _) as [toks' lx'']. simpl in *.
    exists ((pos lx, tok) :: toks). split; [simpl; lia|].
    rewrite Hsnd, lex_n_buffer, <- app_assoc. reflexivity.
Qed.

(** X10. Looking ahead does not change what is consumed: for every lexer
    state and every [n], [LookaheadN<n>] followed by [EatN<n>] leaves the lexer
    exactly as [EatN<n>] alone does (the parser recognises a label this way),
    and so does [Lookahead] followed by [Eat]. *)
Theorem lookahead_then_eat (n : nat) (lx : Lexer) :
  EatN n (snd (LookaheadN n lx)) = EatN n lx
  /\ Eat (snd (Lookahead lx)) = Eat lx.
Proof.
  split.
  - unfold LookaheadN. cbv zeta.
    set (k := Nat.min (length (lexed_tokens lx)) n).
    destruct (generate_tokens_shape (n - k) lx) as (toks & Hlen & Hsnd).
    destruct (generate_tokens (n - k) lx) as [fresh lx']. simpl in Hsnd. subst lx'.
    simpl. unfold EatN. cbv zeta. simpl. fold k.
    rewrite length_app, Hlen.
    assert (Hmin : Nat.min (length (lexed_tokens lx) + (n - k)) n = n) by (subst k; lia).
    rewrite Hmin, Nat.sub_diag. simpl.
    rewrite lex_n_buffer.
    assert (Hdrop : drop n (lexed_tokens lx ++ toks) = drop k (lexed_tokens lx)).
    { destruct (Nat.le_ge_cases (length (lexed_tokens lx)) n) as [Hle | Hge].
      - assert (k = length (lexed_tokens lx)) as -> by (subst k; lia).
        rewrite drop_all, drop_ge by (rewrite length_app; lia). reflexivity.
      - assert (k = n) as Hk by (subst k; lia). rewrite Hk in *.
        rewrite Nat.sub_diag in Hlen. destruct toks; [|discriminate].
        rewrite app_nil_r. reflexivity. }
    rewrite Hdrop. reflexivity.
  - unfold Lookahead, Eat. destruct (lexed_tokens lx) as [|front rest] eqn:E.
    + unfold lex_and_buffer.
      pose proof (LexSingle_lexes lx) as (_ & T1 & _).
      destruct (LexSingle lx) as [tok lx']. simpl in *. rewrite T1, E. simpl.
      rewrite <- E, <- T1. destruct lx'; reflexivity.
    + simpl. rewrite E. reflexivity.
Qed.

(** * Further properties of the IR generator *)

(** ** The bytes of a value *)

Lemma big_endian_bytes_S (size : nat) (val : Z) :
  big_endian_bytes (S size) val
  = Z.land (Z.shiftr val (8 * Z.of_nat size)) 255 :: big_endian_bytes size val.
Proof.
  unfold big_endian_bytes. rewrite seq_S, rev_app_distr. reflexivity.
Qed.

Lemma big_endian_fold (size : nat) (val : Z) :
  forall acc,
    fold_left (fun acc b => acc * 256 + b) (big_endian_bytes size val) acc
    = acc * 2 ^ (8 * Z.of_nat size) + val mod 2 ^ (8 * Z.of_nat size).
Proof.
  induction size as [|size IH]; intros acc.
  - simpl. rewrite Z.mod_1_r. lia.
  - rewrite big_endian_bytes_S. simpl fold_left. rewrite IH.
    change 255 with (Z.ones 8). rewrite Z.land_ones, Z.shiftr_div_pow2 by lia.
    set (k := 8 * Z.of_nat size).
    replace (8 * Z.of_nat (S size)) with (k + 8) by (unfold k; lia).
    assert (Hk : 0 <= k) by (unfold k; lia).
    assert (Hp : 0 < 2 ^ k) by (apply Z.pow_pos_nonneg; lia).
    rewrite Z.pow_add_r by lia.
    rewrite (Z.rem_mul_r val (2 ^ k) (2 ^ 8)) by lia.
    change (2 ^ 8) with 256. ring.
Qed.

Lemma lor_shift_byte (m b : Z) :
  0 <= m < 2 ^ 24 -> 0 <= b < 256 ->
  Z.lor (wrap32 (Z.shiftl m 8)) b = m * 256 + b.
Proof.
  intros Hm Hb. rewrite Z.shiftl_mul_pow2 by lia. change (2 ^ 8) with 256.
  rewrite wrap32_small by lia.
  assert (Hd : Z.land (m * 256) b = 0).
  { apply Z.bits_inj'. intros n Hn. rewrite Z.land_spec, Z.bits_0.
    destruct (Z.ltb_spec n 8) as [Hlt | Hge].
    - change 256 with (2 ^ 8). rewrite Z.mul_pow2_bits_low by lia. reflexivity.
    - assert (Z.testbit b n = false) as ->; [|apply andb_false_r].
      destruct (Z.eq_dec b 0) as [-> | Hne]; [apply Z.bits_0|].
      apply Z.bits_above_log2; [lia|].
      assert (Z.log2 b < 8) by (apply Z.log2_lt_pow2; lia). lia. }
  rewrite <- Z.lxor_lor by exact Hd. symmetry. apply Z.add_nocarry_lxor. exact Hd.
Qed.

(** X11. The bytes [AddBytes<T>] pushes for a value are its big-endian
    representation: there are [sizeof(T)] of them, each below 256, and read
    most significant byte first they give the value modulo [2^(8 sizeof(T))].
    In particular the instruction word that the assemble-instruction dialog
    reads from a block that starts with the four bytes of a value is that
    value modulo [2^32]. *)
Theorem big_endian_bytes_value (size : nat) (val : Z) :
  length (big_endian_bytes size val) = size
  /\ Forall (fun b => 0 <= b < 256) (big_endian_bytes size val)
  /\ fold_left (fun acc b => acc * 256 + b) (big_endian_bytes size val) 0
     = val mod 2 ^ (8 * Z.of_nat size)
  /\ (forall rest, instruction_code (big_endian_bytes 4 val ++ rest) = val mod 2 ^ 32).
Proof.
  assert (Hlen : forall n, length (big_endian_bytes n val) = n).
  { intros n. unfold big_endian_bytes. rewrite length_fmap, length_rev, length_seq.
    reflexivity. }
  assert (Hrange : forall n, Forall (fun b => 0 <= b < 256) (big_endian_bytes n val)).
  { intros n. unfold big_endian_bytes. apply Forall_fmap, Forall_forall. intros i _.
    simpl. change 255 with (Z.ones 8). rewrite Z.land_ones by lia.
    apply Z.mod_pos_bound. lia. }
  split; [apply Hlen|]. split; [apply Hrange|]. split.
  - rewrite big_endian_fold. lia.
  - intros rest. unfold instruction_code.
    rewrite take_app_length' by (symmetry; apply Hlen).
    pose proof (big_endian_fold 4 val 0) as Hv.
    pose proof (Hrange 4%nat) as Hr.
    rewrite !big_endian_bytes_S in Hv, Hr |- *.
    change (big_endian_bytes 0 val) with (@nil Z) in *.
    repeat match goal with
           | H : Forall _ (_ :: _) |- _ => apply Forall_cons in H as [? H]
           end.
    simpl fold_left in *.
    change (8 * Z.of_nat 4) with 32 in Hv. rewrite !Z.mul_0_l, !Z.add_0_l in Hv.
    rewrite <- Hv. change (wrap32 (Z.shiftl 0 8)) with 0. rewrite Z.lor_0_l.
    set (b3 := Z.land (Z.shiftr val (8 * Z.of_nat 3)) 255) in *.
    set (b2 := Z.land (Z.shiftr val (8 * Z.of_nat 2)) 255) in *.
    set (b1 := Z.land (Z.shiftr val (8 * Z.of_nat 1)) 255) in *.
    set (b0 := Z.land (Z.shiftr val (8 * Z.of_nat 0)) 255) in *.
    rewrite (lor_shift_byte b3 b2) by lia.
    rewrite (lor_shift_byte (b3 * 256 + b2) b1) by lia.
    rewrite (lor_shift_byte ((b3 * 256 + b2) * 256 + b1) b0) by lia.
    reflexivity.
Qed.

(** ** The end address follows the bytes emitted *)

Lemma BlockEndAddress_sum (b : IRBlock) :
  0 <= block_address b < 2 ^ 32 ->
  BlockEndAddress b = wrap32 (block_address b + sum_chunk_bytes (chunks b)).
Proof.
  intros Hb. unfold BlockEndAddress.
  rewrite <- (wrap32_small (block_address b)) at 1 by exact Hb.
  apply fold_end_address.
Qed.

Lemma sum_chunk_bytes_app (cs1 cs2 : list ChunkVariant) :
  sum_chunk_bytes (cs1 ++ cs2) = sum_chunk_bytes cs1 + sum_chunk_bytes cs2.
Proof.
  induction cs1 as [|c cs1 IH]; simpl; [reflexivity|].
  unfold sum_chunk_bytes in *. simpl. rewrite IH. lia.
Qed.

Lemma sum_chunk_bytes_snoc (cs : list ChunkVariant) (c : ChunkVariant) :
  sum_chunk_bytes (cs ++ [c]) = sum_chunk_bytes cs + chunk_bytes c.
Proof. rewrite sum_chunk_bytes_app. unfold sum_chunk_bytes. simpl. lia. Qed.

Lemma alter_ByteChunk_sum (extra : list Z) (cs : list ChunkVariant) :
  sum_chunk_bytes (alter_ByteChunk (fun bytes => bytes ++ extra) cs)
  = sum_chunk_bytes cs + Z.of_nat (length extra).
Proof.
  unfold alter_ByteChunk. destruct (last cs) as [c|] eqn:E.
  - apply last_Some in E as [l' ->].
    destruct c; rewrite ?removelast_last, !sum_chunk_bytes_snoc; simpl;
      rewrite ?length_app; lia.
  - rewrite sum_chunk_bytes_snoc. simpl. lia.
Qed.

Lemma alter_InstChunk_sum (inst : GekkoInstruction) (cs : list ChunkVariant) :
  sum_chunk_bytes (alter_InstChunk (fun insts => insts ++ [inst]) cs)
  = sum_chunk_bytes cs + 4.
Proof.
  unfold alter_InstChunk. destruct (last cs) as [c|] eqn:E.
  - apply last_Some in E as [l' ->].
    destruct c; rewrite ?removelast_last, !sum_chunk_bytes_snoc; simpl;
      rewrite ?length_app; simpl; lia.
  - rewrite sum_chunk_bytes_snoc. simpl. lia.
Qed.

Lemma wrap32_wrap64_add (x y : Z) : wrap32 (x + wrap64 y) = wrap32 (x + y).
Proof.
  unfold wrap32, wrap64, wrap.
  rewrite <- Zplus_mod_idemp_r.
  rewrite (Z.mod_mod_divide y (2 ^ 64) (2 ^ 32)) by (exists (2 ^ 32); reflexivity).
  apply Zplus_mod_idemp_r.
Qed.

Lemma alter_PadChunk_sum (d base : Z) (cs : list ChunkVariant) :
  wrap32 (base + sum_chunk_bytes
                   (alter_PadChunk (fun current_pad => wrap64 (current_pad + d)) cs))
  = wrap32 (base + sum_chunk_bytes cs + d).
Proof.
  unfold alter_PadChunk. destruct (last cs) as [c|] eqn:E.
  - apply last_Some in E as [l' ->].
    destruct c; rewrite ?removelast_last, !sum_chunk_bytes_snoc; simpl;
      rewrite !Z.add_assoc, wrap32_wrap64_add; f_equal; lia.
  - rewrite sum_chunk_bytes_snoc. simpl.
    rewrite !Z.add_assoc, wrap32_wrap64_add; f_equal; lia.
Qed.

Lemma modify_active_block_run (st : ParseState GekkoIRPlugin) (b : IRBlock)
    (f : IRBlock -> IRBlock) :
  blocks (output_result (plugin st)) !! active_block (plugin st) = Some b ->
  exists st',
    modify_active_block f st = Done (tt, st')
    /\ blocks (output_result (plugin st')) !! active_block (plugin st') = Some (f b)
    /\ lexer st' = lexer st /\ error st' = error st.
Proof.
  intros Hb. unfold modify_active_block, bind, get_plugin, put_plugin. rewrite Hb.
  eexists. split; [reflexivity|]. simpl. split; [|split; reflexivity].
  apply list_lookup_insert_eq. eapply lookup_lt_Some. exact Hb.
Qed.

Lemma modify_chunks_advances (st : ParseState GekkoIRPlugin) (b : IRBlock)
    (g : list ChunkVariant -> list ChunkVariant) (n : Z) :
  blocks (output_result (plugin st)) !! active_block (plugin st) = Some b ->
  0 <= block_address b < 2 ^ 32 ->
  wrap32 (block_address b + sum_chunk_bytes (g (chunks b)))
  = wrap32 (block_address b + sum_chunk_bytes (chunks b) + n) ->
  advances_by st b (modify_active_block (alter_chunks g)) n.
Proof.
  intros Hb Hbase Hsum.
  destruct (modify_active_block_run st b (alter_chunks g) Hb) as (st' & Hrun & Hb' & _).
  exists st', (alter_chunks g b). split; [exact Hrun|]. split; [exact Hb'|].
  split; [reflexivity|].
  rewrite (BlockEndAddress_sum b Hbase).
  rewrite (BlockEndAddress_sum (alter_chunks g b)) by exact Hbase.
  simpl. rewrite Hsum. rewrite wrap32_add_l. reflexivity.
Qed.

(** X12. The end address of the active block, from which label addresses are
    taken, follows the bytes emitted (in [u32] arithmetic, the base address
    staying): [AddBytes<T>] advances it by [sizeof(T)], [AddStringBytes] by
    the number of bytes of the converted literal plus one for the terminator
    of [.asciz], [PadSpace] by the space asked for, and [FinishInstruction] by
    four. *)
Theorem emitted_bytes_advance_address (st : ParseState GekkoIRPlugin) (b : IRBlock) :
  blocks (output_result (plugin st)) !! active_block (plugin st) = Some b ->
  0 <= block_address b < 2 ^ 32 ->
  (forall size val, advances_by st b (AddBytes size val) (Z.of_nat size))
  /\ (forall str null_term,
        advances_by st b (AddStringBytes str null_term)
          (Z.of_nat (length (ConvertStringLiteral str)) + (if null_term then 1 else 0)))
  /\ (forall space, advances_by st b (PadSpace space) space)
  /\ advances_by st b FinishInstruction 4.
Proof.
  intros Hb Hbase. split; [|split; [|split]].
  - intros size val. unfold AddBytes. apply modify_chunks_advances; try assumption.
    rewrite alter_ByteChunk_sum.
    destruct (big_endian_bytes_value size val) as [-> _]. f_equal. lia.
  - intros str nt. unfold AddStringBytes. apply modify_chunks_advances; try assumption.
    rewrite alter_ByteChunk_sum, length_app. f_equal. destruct nt; simpl; lia.
  - intros space. unfold PadSpace. apply modify_chunks_advances; try assumption.
    apply alter_PadChunk_sum.
  - unfold FinishInstruction, advances_by.
    unfold bind at 1, get_plugin. cbv zeta.
    match goal with
    | |- context [put_plugin (set_build_inst ?i _)] => set (inst' := i)
    end.
    set (st1 := mkParseState (lexer st) (set_build_inst inst' (plugin st)) (error st) (eof st)).
    assert (Hb1 : blocks (output_result (plugin st1)) !! active_block (plugin st1) = Some b)
      by exact Hb.
    destruct (modify_chunks_advances st1 b
                (alter_InstChunk (fun insts => insts ++ [inst'])) 4 Hb1 Hbase)
      as (st2 & b' & Hrun & Hb' & Haddr & Hend).
    { rewrite alter_InstChunk_sum. f_equal. lia. }
    eexists _, b'. split.
    + unfold bind at 1, put_plugin. fold st1.
      unfold bind. rewrite Hrun. reflexivity.
    + simpl. auto.
Qed.

Lemma emitted_bytes_advance_address_witness :
  let st := ParseState_new ".4byte 1" (GekkoIRPlugin_new 0x80000000) in
  advances_by st (IRBlock_new 0x80000000) (AddBytes 4 1) 4
  /\ advances_by st (IRBlock_new 0x80000000) FinishInstruction 4.
Proof.
  intros st.
  destruct (emitted_bytes_advance_address st (IRBlock_new 0x80000000))
    as (H1 & _ & _ & H4); [reflexivity | closed_range |].
  split; [apply (H1 4%nat 1) | exact H4].
Defined.

(** X13. [.padalign BITS] with [BITS <= 30] (the range in which the [int]
    expression [1 << bits] of the source is defined) pads the active block up
    to the next multiple of [2^BITS]: fewer than [2^BITS] bytes of padding are
    added (none when the end address is aligned already), the base address
    stays, and the new end address is a multiple of [2^BITS]. *)
Theorem PadAlign_aligns (st : ParseState GekkoIRPlugin) (b : IRBlock) (bits : Z) :
  blocks (output_result (plugin st)) !! active_block (plugin st) = Some b ->
  0 <= block_address b < 2 ^ 32 ->
  0 <= bits <= 30 ->
  exists st' b' pad,
    PadAlign bits st = Done (tt, st')
    /\ blocks (output_result (plugin st')) !! active_block (plugin st') = Some b'
    /\ block_address b' = block_address b
    /\ 0 <= pad < 2 ^ bits
    /\ (BlockEndAddress b mod 2 ^ bits = 0 -> pad = 0 /\ st' = st)
    /\ BlockEndAddress b' = wrap32 (BlockEndAddress b + pad)
    /\ BlockEndAddress b' mod 2 ^ bits = 0.
Proof.
  intros Hb Hbase Hbits.
  pose proof (BlockEndAddress_range b Hbase) as Hend.
  set (a := BlockEndAddress b) in *.
  assert (Hp : 0 < 2 ^ bits <= 2 ^ 30)
    by (split; [apply Z.pow_pos_nonneg | apply Z.pow_le_mono_r]; lia).
  assert (H30 : 2 ^ 30 < 2 ^ 32) by reflexivity.
  assert (Hsh : int_shl1 bits = Some (2 ^ bits)).
  { unfold int_shl1. destruct (Z.leb_spec bits 30); [reflexivity | lia]. }
  pose proof (Z.mod_pos_bound a (2 ^ bits) ltac:(lia)) as Hr.
  pose proof (Z.div_mod a (2 ^ bits) ltac:(lia)) as Hdm.
  assert (Hdiv : (2 ^ bits | 2 ^ 32)).
  { exists (2 ^ (32 - bits)). rewrite <- Z.pow_add_r by lia. f_equal. lia. }
  unfold PadAlign. rewrite Hsh. unfold bind at 1.
  rewrite (CurrentAddress_run st b Hb). fold a.
  rewrite align_mask_land by lia.
  destruct (Z.eqb_spec (a mod 2 ^ bits) 0) as [Hz | Hnz].
  - exists st, b, 0. split; [reflexivity|]. split; [exact Hb|]. split; [reflexivity|].
    split; [lia|]. split; [auto|]. fold a. rewrite Z.add_0_r.
    rewrite wrap32_small by exact Hend. split; [reflexivity | exact Hz].
  - rewrite (wrap32_small (2 ^ bits - a mod 2 ^ bits)) by lia.
    destruct (modify_chunks_advances st b
                (alter_PadChunk
                   (fun current_pad => wrap64 (current_pad + (2 ^ bits - a mod 2 ^ bits))))
                (2 ^ bits - a mod 2 ^ bits) Hb Hbase)
      as (st' & b' & Hrun & Hb' & Haddr & Hend').
    { apply alter_PadChunk_sum. }
    exists st', b', (2 ^ bits - a mod 2 ^ bits).
    split; [exact Hrun|]. split; [exact Hb'|]. split; [exact Haddr|].
    split; [lia|]. split; [intros Hz; contradiction|].
    split; [exact Hend'|].
    rewrite Hend'. fold a. unfold wrap32, wrap.
    rewrite Z.mod_mod_divide by exact Hdiv.
    replace (a + (2 ^ bits - a mod 2 ^ bits)) with ((a / 2 ^ bits + 1) * 2 ^ bits) by lia.
    apply Z.mod_mul. lia.
Qed.

Lemma PadAlign_aligns_witness :
  let st := ParseState_new ".padalign 4"
              (set_output_result
                 (mkGekkoIR [mkIRBlock [ByteChunk [1; 2; 3]] 0x80000000] [])
                 (GekkoIRPlugin_new 0x80000000)) in
  exists st' b' pad,
    PadAlign 4 st = Done (tt, st')
    /\ blocks (output_result (plugin st')) !! active_block (plugin st') = Some b'
    /\ BlockEndAddress b' = wrap32 (0x80000003 + pad)
    /\ BlockEndAddress b' mod 2 ^ 4 = 0.
Proof.
  intros st.
  destruct (PadAlign_aligns st (mkIRBlock [ByteChunk [1; 2; 3]] 0x80000000) 4)
    as (st' & b' & pad & Hrun & Hb' & _ & _ & _ & Hend & Hal);
    [reflexivity | closed_range | lia |].
  exists st', b', pad. split; [exact Hrun|]. split; [exact Hb'|].
  split; [exact Hend | exact Hal].
Defined.

(** ** [@l] *)

(** X14. [S@l] is the low half of [S] in both evaluation modes.  In an
    instruction operand [OnLoaddr] defers a fixup that, whatever the address of
    the referencing instruction, evaluates to [S & 0xffff] once [S] is a label
    (its absolute address) or a constant (its low 32 bits) of the final
    tables; in a directive with elements of [w] bits it pushes
    [(T)S & (T)0xffff] for a label [S] known at that point. *)
Theorem OnLoaddr_low_half (platform : Platform) (st : ParseState GekkoIRPlugin)
    (b : IRBlock) (id : string) :
  blocks (output_result (plugin st)) !! active_block (plugin st) = Some b ->
  (evaluation_mode (plugin st) = EvalMode.RelAddrDoublePass ->
   exists st' err,
     GekkoIRPlugin_OnLoaddr platform id st = Done (tt, st')
     /\ fixup_stack (plugin st')
        = Loaddr_fixup id (BlockEndAddress b) err :: fixup_stack (plugin st)
     /\ (forall rtl (labels constants : gmap string Z) e a,
           labels !! id = Some a ->
           call_fixup rtl labels constants (Loaddr_fixup id (BlockEndAddress b) err) e
           = Some (Z.land a 0xffff, e))
     /\ (forall rtl (labels constants : gmap string Z) e c,
           labels !! id = None -> constants !! id = Some c ->
           call_fixup rtl labels constants (Loaddr_fixup id (BlockEndAddress b) err) e
           = Some (Z.land (wrap32 c) 0xffff, e)))
  /\ (evaluation_mode (plugin st) = EvalMode.AbsAddrSinglePass ->
      forall w a,
        stack_width (eval_stack (plugin st)) = Some w ->
        labels (plugin st) !! id = Some a ->
        exists st',
          GekkoIRPlugin_OnLoaddr platform id st = Done (tt, st')
          /\ eval_stack (plugin st')
             = stack_with_vec (eval_stack (plugin st))
                 (stack_vec (eval_stack (plugin st))
                  ++ [Z.land (wrap w a) (wrap w 0xffff)])).
Proof.
  intros Hb. split.
  - intros Hmode.
    unfold GekkoIRPlugin_OnLoaddr, bind at 1, get_plugin. rewrite Hmode.
    unfold AddSymbolResolve, bind at 1 2.
    rewrite (CurrentAddress_run st b Hb).
    unfold AddBinaryEvaluator, AddLiteral, push_fixup, pop_fixup, bind, lex_get,
      modify_plugin, get_plugin, put_plugin, ret. simpl.
    eexists _, _. split; [reflexivity|]. split; [reflexivity|]. split.
    + intros rtl labels0 constants0 e a Ha.
      unfold Loaddr_fixup. destruct rtl; simpl; rewrite Ha; reflexivity.
    + intros rtl labels0 constants0 e c Hl Hc.
      unfold Loaddr_fixup. destruct rtl; simpl; rewrite Hl, Hc; reflexivity.
  - intros Hmode w a Hw Ha.
    unfold GekkoIRPlugin_OnLoaddr, bind at 1, get_plugin. rewrite Hmode.
    unfold LookupLabel. rewrite Ha.
    unfold PushCast, EvalOperatorAbs, get_eval_stack, put_eval_stack, bind,
      get_plugin, modify_plugin, ret. simpl.
    destruct (eval_stack (plugin st)) as [vec|vec|vec|vec|vec|vec] eqn:Es;
      simpl in Hw; inversion Hw; subst w; simpl;
      rewrite ?last_snoc, ?removelast_last; simpl;
      rewrite ?last_snoc, ?removelast_last; simpl;
      (eexists; split; [reflexivity|]); simpl; reflexivity.
Qed.

Lemma OnLoaddr_low_half_witness :
  let st := ParseState_new "lbl@l" (GekkoIRPlugin_new 0x80000000) in
  exists st' err,
    GekkoIRPlugin_OnLoaddr example_platform "lbl" st = Done (tt, st')
    /\ call_fixup false {[ "lbl" := 0x80123456 ]} ∅
         (Loaddr_fixup "lbl" 0x80000000 err) None
       = Some (0x3456, None).
Proof.
  intros st.
  destruct (OnLoaddr_low_half example_platform st (IRBlock_new 0x80000000) "lbl")
    as [Hrel _]; [reflexivity|].
  destruct Hrel as (st' & err & Hrun & _ & Hval & _); [reflexivity|].
  exists st', err. split; [exact Hrun|].
  apply (Hval false {[ "lbl" := 0x80123456 ]} ∅ None 0x80123456). reflexivity.
Defined.

(** ** What the fixup phase leaves alone *)

Lemma only_operand_values_refl (st : ParseState GekkoIRPlugin) :
  only_operand_values_change st st.
Proof.
  split; [reflexivity|]. split; [reflexivity|].
  exists (operand_pool (output_result (plugin st))). split; [reflexivity|].
  destruct (plugin st) as [[bl pool] ? ? ? ? ? ? ? ? ? ? ? ? ? ? ?]. reflexivity.
Qed.

Lemma only_operand_values_trans (st1 st2 st3 : ParseState GekkoIRPlugin) :
  only_operand_values_change st1 st2 -> only_operand_values_change st2 st3 ->
  only_operand_values_change st1 st3.
Proof.
  intros (L1 & E1 & pool1 & T1 & P1) (L2 & E2 & pool2 & T2 & P2).
  split; [congruence|]. split; [congruence|].
  exists pool2. rewrite P2, P1. simpl. split; [|reflexivity].
  rewrite T2, P1. simpl. exact T1.
Qed.

Lemma fixup_written_only_values (i : nat) (v : Z) (e : option AssemblerError.t)
    (st : ParseState GekkoIRPlugin) :
  only_operand_values_change st (fixup_written i v e st).
Proof.
  split; [reflexivity|]. split; [reflexivity|].
  unfold fixup_written. cbv zeta. simpl.
  eexists. split; [|reflexivity].
  destruct (operand_pool (output_result (plugin st)) !! i) as [[tag old]|] eqn:E;
    [|reflexivity].
  rewrite list_fmap_insert. simpl.
  apply list_insert_id. rewrite list_lookup_fmap, E. reflexivity.
Qed.

Lemma RunFixups_from_only_values (platform : Platform) (fixups : list Fixup) :
  forall (i : nat) (st st' : ParseState GekkoIRPlugin),
    RunFixups_from platform fixups i st = Done (tt, st') ->
    only_operand_values_change st st'.
Proof.
  induction fixups as [|f rest IH]; intros i st st' Hrun.
  - simpl in Hrun. inversion Hrun; subst. apply only_operand_values_refl.
  - destruct (RunFixups_from_cons_inv platform _ _ _ _ _ Hrun) as (v & e' & Hc & Hi).
    rewrite (RunFixups_from_cons platform f rest i st v e' Hc Hi) in Hrun.
    destruct e' as [err|].
    + inversion Hrun; subst. apply fixup_written_only_values.
    + eapply only_operand_values_trans; [apply fixup_written_only_values|].
      eapply IH. exact Hrun.
Qed.

(** X15. Whenever the fixup phase returns, with or without an error, it has
    written operand values and nothing else: the label and constant tables,
    the blocks with their chunks, the source interval and the number of the
    operands, the pending fixups and the lexer are as the parse left them. *)
Theorem RunFixups_writes_operand_values_only (platform : Platform)
    (st st' : ParseState GekkoIRPlugin) :
  RunFixups platform st = Done (tt, st') ->
  only_operand_values_change st st'
  /\ labels (plugin st') = labels (plugin st)
  /\ constants (plugin st') = constants (plugin st)
  /\ blocks (output_result (plugin st')) = blocks (output_result (plugin st))
  /\ length (operand_pool (output_result (plugin st')))
     = length (operand_pool (output_result (plugin st))).
Proof.
  intros Hrun.
  assert (H : only_operand_values_change st st').
  { eapply RunFixups_from_only_values. exact Hrun. }
  split; [exact H|].
  destruct H as (_ & _ & pool' & Ht & ->). simpl.
  repeat split; try reflexivity.
  rewrite <- (length_fmap fst pool'), Ht, length_fmap. reflexivity.
Qed.

Lemma RunFixups_writes_operand_values_only_witness :
  exists st',
    RunFixups example_platform example_fixup_state = Done (tt, st')
    /\ only_operand_values_change example_fixup_state st'
    /\ pool_values (output_result (plugin st')) = [3; 0; 0].
Proof.
  destruct (RunFixups example_platform example_fixup_state) as [[[] st']| |] eqn:E;
    [|vm_compute in E; discriminate ..].
  exists st'. split; [reflexivity|].
  split; [apply (RunFixups_writes_operand_values_only example_platform _ _ E)|].
  vm_compute in E. inversion E. reflexivity.
Defined.

(** ** The result of [ParseToIR] *)

(** No callout of the IR generating plugin touches the error forwarded to the
    plugin object. *)
Section KeepsForwardedError.
Variable platform : Platform.
Variable e : option AssemblerError.t.

#[local] Hint Extern 1 (preserves (error_is _) (modify_plugin _)) =>
  (apply preserves_modify_plugin; let H := fresh in intros ? H; exact H) : pres.

Ltac keeps_error := cbv zeta; repeat (pres_step; cbv zeta).

Lemma get_active_block_keeps_error :
  preserves (error_is e) get_active_block.
Proof. unfold get_active_block. keeps_error. Qed.

#[local] Hint Resolve get_active_block_keeps_error : pres.

Lemma modify_active_block_keeps_error (f : IRBlock -> IRBlock) :
  preserves (error_is e) (modify_active_block f).
Proof.
  intros st a st' H HJ. unfold modify_active_block, bind, get_plugin, put_plugin, ret, abort in H.
  repeat case_match; simplify_eq; exact HJ.
Qed.

#[local] Hint Resolve modify_active_block_keeps_error : pres.

Lemma CurrentAddress_keeps_error :
  preserves (error_is e) CurrentAddress.
Proof. unfold CurrentAddress. keeps_error. Qed.

#[local] Hint Resolve CurrentAddress_keeps_error : pres.

Lemma AddStringBytes_keeps_error (str : string) (null_term : bool) :
  preserves (error_is e) (AddStringBytes str null_term).
Proof. unfold AddStringBytes. keeps_error. Qed.

#[local] Hint Resolve AddStringBytes_keeps_error : pres.

Lemma AddBytes_keeps_error (size : nat) (val : Z) :
  preserves (error_is e) (AddBytes size val).
Proof. unfold AddBytes. keeps_error. Qed.

#[local] Hint Resolve AddBytes_keeps_error : pres.

Lemma PadAlign_keeps_error (bits : Z) :
  preserves (error_is e) (PadAlign bits).
Proof. unfold PadAlign. keeps_error. Qed.

#[local] Hint Resolve PadAlign_keeps_error : pres.

Lemma PadSpace_keeps_error (space : Z) :
  preserves (error_is e) (PadSpace space).
Proof. unfold PadSpace. keeps_error. Qed.

#[local] Hint Resolve PadSpace_keeps_error : pres.

Lemma StartBlock_keeps_error (address : Z) :
  preserves (error_is e) (StartBlock address).
Proof. unfold StartBlock. keeps_error. Qed.

#[local] Hint Resolve StartBlock_keeps_error : pres.

Lemma StartBlockAlign_keeps_error (bits : Z) :
  preserves (error_is e) (StartBlockAlign bits).
Proof. unfold StartBlockAlign. keeps_error. Qed.

#[local] Hint Resolve StartBlockAlign_keeps_error : pres.

Lemma StartInstruction_keeps_error (mnemonic_index : nat) (extended : bool) :
  preserves (error_is e) (StartInstruction mnemonic_index extended).
Proof. unfold StartInstruction. keeps_error. Qed.

#[local] Hint Resolve StartInstruction_keeps_error : pres.

Lemma pop_fixup_keeps_error :
  preserves (error_is e) pop_fixup.
Proof.
  intros st a st' H HJ. unfold pop_fixup, bind, get_plugin, put_plugin, ret, abort in H.
  repeat case_match; simplify_eq; exact HJ.
Qed.

#[local] Hint Resolve pop_fixup_keeps_error : pres.

Lemma push_fixup_keeps_error (f : Fixup) :
  preserves (error_is e) (push_fixup f).
Proof. unfold push_fixup. keeps_error. Qed.

#[local] Hint Resolve push_fixup_keeps_error : pres.

Lemma AddBinaryEvaluator_keeps_error (evaluator : Z -> Z -> option Z) :
  preserves (error_is e) (AddBinaryEvaluator evaluator).
Proof. unfold AddBinaryEvaluator. keeps_error. Qed.

#[local] Hint Resolve AddBinaryEvaluator_keeps_error : pres.

Lemma AddUnaryEvaluator_keeps_error (evaluator : Z -> option Z) :
  preserves (error_is e) (AddUnaryEvaluator evaluator).
Proof. unfold AddUnaryEvaluator. keeps_error. Qed.

#[local] Hint Resolve AddUnaryEvaluator_keeps_error : pres.

Lemma AddAbsoluteAddressConv_keeps_error :
  preserves (error_is e) AddAbsoluteAddressConv.
Proof. unfold AddAbsoluteAddressConv. keeps_error. Qed.

#[local] Hint Resolve AddAbsoluteAddressConv_keeps_error : pres.

Lemma AddLiteral_keeps_error (lit : Z) :
  preserves (error_is e) (AddLiteral lit).
Proof. unfold AddLiteral. keeps_error. Qed.

#[local] Hint Resolve AddLiteral_keeps_error : pres.

Lemma AddSymbolResolve_keeps_error (sym : string) (absolute : bool) :
  preserves (error_is e) (AddSymbolResolve sym absolute).
Proof. unfold AddSymbolResolve. keeps_error. Qed.

#[local] Hint Resolve AddSymbolResolve_keeps_error : pres.

Lemma SaveOperandFixup_keeps_error (str_left str_right : nat) :
  preserves (error_is e) (SaveOperandFixup str_left str_right).
Proof. unfold SaveOperandFixup. keeps_error. Qed.

#[local] Hint Resolve SaveOperandFixup_keeps_error : pres.

Lemma FinishInstruction_keeps_error :
  preserves (error_is e) FinishInstruction.
Proof.
  unfold FinishInstruction. intros st a st' H HJ.
  apply bind_Done in H as (p & st1 & H1 & H). inversion H1; subst p st1; clear H1.
  apply bind_Done in H as (u & st2 & H2 & H). inversion H2; subst u st2; clear H2.
  refine (preserves_bind _ _ _ _ _ _ _ _ H HJ); [apply modify_active_block_keeps_error|].
  intros _. keeps_error.
Qed.

#[local] Hint Resolve FinishInstruction_keeps_error : pres.

Lemma put_eval_stack_keeps_error (s : EvalStack) :
  preserves (error_is e) (put_eval_stack s).
Proof. unfold put_eval_stack. keeps_error. Qed.

#[local] Hint Resolve put_eval_stack_keeps_error : pres.

Lemma PushCast_keeps_error (val : Z) :
  preserves (error_is e) (PushCast platform val).
Proof. unfold PushCast. keeps_error. Qed.

#[local] Hint Resolve PushCast_keeps_error : pres.

Lemma EvalOperatorAbs_keeps_error (operation : AsmOp.t) :
  preserves (error_is e) (EvalOperatorAbs operation).
Proof. unfold EvalOperatorAbs. keeps_error. Qed.

#[local] Hint Resolve EvalOperatorAbs_keeps_error : pres.

Lemma EvalOperatorRel_keeps_error (operation : AsmOp.t) :
  preserves (error_is e) (EvalOperatorRel operation).
Proof. unfold EvalOperatorRel. keeps_error. Qed.

#[local] Hint Resolve EvalOperatorRel_keeps_error : pres.

Lemma EvalTerminalRel_keeps_error (type : Terminal.t) (tok : AssemblerToken) :
  preserves (error_is e) (EvalTerminalRel type tok).
Proof. unfold EvalTerminalRel. keeps_error. Qed.

#[local] Hint Resolve EvalTerminalRel_keeps_error : pres.

Lemma EvalTerminalAbs_keeps_error (type : Terminal.t) (tok : AssemblerToken) :
  preserves (error_is e) (EvalTerminalAbs platform type tok).
Proof. unfold EvalTerminalAbs. keeps_error. Qed.

#[local] Hint Resolve EvalTerminalAbs_keeps_error : pres.

Lemma eval_stack_back_keeps_error (w : Z) :
  preserves (error_is e) (eval_stack_back w).
Proof. unfold eval_stack_back. keeps_error. Qed.

#[local] Hint Resolve eval_stack_back_keeps_error : pres.

Lemma AddBytes_each_keeps_error (size : nat) (vec : list Z) :
  preserves (error_is e) (AddBytes_each size vec).
Proof. induction vec as [|v vec IH]; simpl; keeps_error. Qed.

#[local] Hint Resolve AddBytes_each_keeps_error : pres.

Lemma GekkoIRPlugin_OnDirectivePre_keeps_error (directive : GekkoDirective.t) :
  preserves (error_is e) (GekkoIRPlugin_OnDirectivePre directive).
Proof. unfold GekkoIRPlugin_OnDirectivePre. keeps_error. Qed.

#[local] Hint Resolve GekkoIRPlugin_OnDirectivePre_keeps_error : pres.

Lemma GekkoIRPlugin_OnDirectivePost_keeps_error (directive : GekkoDirective.t) :
  preserves (error_is e) (GekkoIRPlugin_OnDirectivePost directive).
Proof. unfold GekkoIRPlugin_OnDirectivePost. keeps_error. Qed.

#[local] Hint Resolve GekkoIRPlugin_OnDirectivePost_keeps_error : pres.

Lemma GekkoIRPlugin_OnInstructionPre_keeps_error (mnemonic_info : ParseInfo.t) (extended : bool) :
  preserves (error_is e) (GekkoIRPlugin_OnInstructionPre mnemonic_info extended).
Proof. unfold GekkoIRPlugin_OnInstructionPre. keeps_error. Qed.

#[local] Hint Resolve GekkoIRPlugin_OnInstructionPre_keeps_error : pres.

Lemma GekkoIRPlugin_OnInstructionPost_keeps_error (mnemonic_info : ParseInfo.t) (extended : bool) :
  preserves (error_is e) (GekkoIRPlugin_OnInstructionPost mnemonic_info extended).
Proof. unfold GekkoIRPlugin_OnInstructionPost. keeps_error. Qed.

#[local] Hint Resolve GekkoIRPlugin_OnInstructionPost_keeps_error : pres.

Lemma GekkoIRPlugin_OnOperandPre_keeps_error :
  preserves (error_is e) GekkoIRPlugin_OnOperandPre.
Proof. unfold GekkoIRPlugin_OnOperandPre. keeps_error. Qed.

#[local] Hint Resolve GekkoIRPlugin_OnOperandPre_keeps_error : pres.

Lemma GekkoIRPlugin_OnOperandPost_keeps_error :
  preserves (error_is e) GekkoIRPlugin_OnOperandPost.
Proof. unfold GekkoIRPlugin_OnOperandPost. keeps_error. Qed.

#[local] Hint Resolve GekkoIRPlugin_OnOperandPost_keeps_error : pres.

Lemma GekkoIRPlugin_OnResolvedExprPost_keeps_error :
  preserves (error_is e) GekkoIRPlugin_OnResolvedExprPost.
Proof. unfold GekkoIRPlugin_OnResolvedExprPost. keeps_error. Qed.

#[local] Hint Resolve GekkoIRPlugin_OnResolvedExprPost_keeps_error : pres.

Lemma GekkoIRPlugin_OnOperator_keeps_error (operation : AsmOp.t) :
  preserves (error_is e) (GekkoIRPlugin_OnOperator operation).
Proof. unfold GekkoIRPlugin_OnOperator. keeps_error. Qed.

#[local] Hint Resolve GekkoIRPlugin_OnOperator_keeps_error : pres.

Lemma GekkoIRPlugin_OnTerminal_keeps_error (type : Terminal.t) (val : AssemblerToken) :
  preserves (error_is e) (GekkoIRPlugin_OnTerminal platform type val).
Proof. unfold GekkoIRPlugin_OnTerminal. keeps_error. Qed.

#[local] Hint Resolve GekkoIRPlugin_OnTerminal_keeps_error : pres.

Lemma GekkoIRPlugin_OnHiaddr_keeps_error (id : string) :
  preserves (error_is e) (GekkoIRPlugin_OnHiaddr platform id).
Proof. unfold GekkoIRPlugin_OnHiaddr. keeps_error. Qed.

#[local] Hint Resolve GekkoIRPlugin_OnHiaddr_keeps_error : pres.

Lemma GekkoIRPlugin_OnLoaddr_keeps_error (id : string) :
  preserves (error_is e) (GekkoIRPlugin_OnLoaddr platform id).
Proof. unfold GekkoIRPlugin_OnLoaddr. keeps_error. Qed.

#[local] Hint Resolve GekkoIRPlugin_OnLoaddr_keeps_error : pres.

Lemma GekkoIRPlugin_OnCloseParen_keeps_error (type : ParenType.t) :
  preserves (error_is e) (GekkoIRPlugin_OnCloseParen platform type).
Proof. unfold GekkoIRPlugin_OnCloseParen. keeps_error. Qed.

#[local] Hint Resolve GekkoIRPlugin_OnCloseParen_keeps_error : pres.

Lemma GekkoIRPlugin_OnLabelDecl_keeps_error (name : string) :
  preserves (error_is e) (GekkoIRPlugin_OnLabelDecl name).
Proof. unfold GekkoIRPlugin_OnLabelDecl. keeps_error. Qed.

#[local] Hint Resolve GekkoIRPlugin_OnLabelDecl_keeps_error : pres.

Lemma GekkoIRPlugin_OnVarDecl_keeps_error (name : string) :
  preserves (error_is e) (GekkoIRPlugin_OnVarDecl name).
Proof. unfold GekkoIRPlugin_OnVarDecl. keeps_error. Qed.

#[local] Hint Resolve GekkoIRPlugin_OnVarDecl_keeps_error : pres.


Lemma GekkoIRPlugin_callouts_keep_error :
  callouts_preserve (plugin_impl := GekkoIRPlugin_ParsePlugin platform) (error_is e).
Proof. constructor; simpl; intros; eauto with pres. Qed.

End KeepsForwardedError.

Lemma ParseProgram_keeps_error (platform : Platform)
    (mnemonic_tokens extended_mnemonic_tokens : string -> option ParseInfo.t)
    (fuel : nat) (input : string) (base_addr : Z) (st : ParseState GekkoIRPlugin) :
  ParseProgram (plugin_impl := GekkoIRPlugin_ParsePlugin platform)
    mnemonic_tokens extended_mnemonic_tokens fuel
    (ParseState_new input (GekkoIRPlugin_new base_addr)) = Done (tt, st) ->
  owner_error (plugin st) = None.
Proof.
  intros Hrun.
  eapply (ParseProgram_preserves mnemonic_tokens extended_mnemonic_tokens
            (error_is None) (GekkoIRPlugin_callouts_keep_error platform None)).
  - exact Hrun.
  - reflexivity.
Qed.

(** X16. What [ParseToIR] returns, for a source text on which the parser
    returns: when the parse ended with an error, that error, and the fixup
    phase is not run; when it did not, the fixup phase is run, and the result
    is the error the fixup phase left if it left one and the IR (the blocks of
    the parse with the operand values of the fixup phase) otherwise. *)
Theorem ParseToIR_result (platform : Platform)
    (mnemonic_tokens extended_mnemonic_tokens : string -> option ParseInfo.t)
    (fuel : nat) (assembly : string) (base_addr : Z) (st : ParseState GekkoIRPlugin) :
  ParseProgram (plugin_impl := GekkoIRPlugin_ParsePlugin platform)
    mnemonic_tokens extended_mnemonic_tokens fuel
    (ParseState_new assembly (GekkoIRPlugin_new base_addr)) = Done (tt, st) ->
  (forall err, error st = Some err ->
     ParseToIR platform mnemonic_tokens extended_mnemonic_tokens fuel assembly base_addr
     = Done (inl err))
  /\ (error st = None ->
      forall st', RunFixups platform st = Done (tt, st') ->
        ParseToIR platform mnemonic_tokens extended_mnemonic_tokens fuel assembly base_addr
        = Done (match error st' with
                | Some err => inl err
                | None => inr (output_result (plugin st'))
                end)
        /\ blocks (output_result (plugin st')) = blocks (output_result (plugin st))).
Proof.
  intros Hparse.
  pose proof (ParseProgram_keeps_error _ _ _ _ _ _ _ Hparse) as Hnone.
  split.
  - intros err He. unfold ParseToIR, ParseWithPlugin, bind. rewrite Hparse.
    unfold get_error at 1. rewrite He. reflexivity.
  - intros He st' Hfix.
    pose proof (RunFixups_from_only_values platform _ _ _ _ Hfix) as (_ & _ & pool' & _ & Hp).
    split; [|rewrite Hp; reflexivity].
    unfold ParseToIR, ParseWithPlugin, bind. rewrite Hparse.
    unfold get_error at 1. rewrite He.
    cbn [PostParseAction GekkoIRPlugin_ParsePlugin].
    unfold GekkoIRPlugin_PostParseAction. rewrite Hfix.
    unfold get_error. destruct (error st') as [err|] eqn:E'.
    + reflexivity.
    + simpl. rewrite Hp. simpl. rewrite Hnone. reflexivity.
Qed.

(** [nop nop] does not parse: the result is the error of the parser. *)
Lemma ParseToIR_result_witness :
  exists err,
    error (parsed_state 100 "nop nop" 0x80000000) = Some err
    /\ ParseToIR example_platform mnemonic_tokens_excerpt extended_mnemonic_tokens_excerpt
         100 "nop nop" 0x80000000 = Done (inl err).
Proof.
  assert (Hparse : ParseProgram (plugin_impl := GekkoIRPlugin_ParsePlugin example_platform)
                     mnemonic_tokens_excerpt extended_mnemonic_tokens_excerpt 100
                     (ParseState_new "nop nop" (GekkoIRPlugin_new 0x80000000))
                   = Done (tt, parsed_state 100 "nop nop" 0x80000000))
    by (vm_compute; reflexivity).
  destruct (error (parsed_state 100 "nop nop" 0x80000000)) as [err|] eqn:E;
    [|vm_compute in E; discriminate].
  exists err. split; [reflexivity|].
  exact (proj1 (ParseToIR_result example_platform _ _ _ _ _ _ Hparse) err E).
Defined.

(** * Further properties of the parser *)

(** X17. The parser reaches the plugin object through its callouts only: a
    property of the plugin that every callout keeps holds after
    [ParseProgram], on any input and for any plugin, if it held before. *)
Theorem ParseProgram_keeps_callout_invariants {P : Type} {plugin_impl : ParsePlugin P}
    (mnemonic_tokens extended_mnemonic_tokens : string -> option ParseInfo.t)
    (J : P -> Prop) (fuel : nat) (st st' : ParseState P) :
  callouts_preserve J ->
  ParseProgram mnemonic_tokens extended_mnemonic_tokens fuel st = Done (tt, st') ->
  J (plugin st) -> J (plugin st').
Proof.
  intros C H HJ.
  exact (ParseProgram_preserves mnemonic_tokens extended_mnemonic_tokens J C fuel
           st tt st' H HJ).
Qed.

(** The plugin of the base class, which only keeps a forwarded error, is left
    without one by the parser. *)
Lemma ParseProgram_keeps_callout_invariants_witness :
  exists st',
    ParseProgram (plugin_impl := Base_ParsePlugin)
      mnemonic_tokens_excerpt extended_mnemonic_tokens_excerpt 100
      (ParseState_new "nop" None) = Done (tt, st')
    /\ plugin st' = None.
Proof.
  destruct (ParseProgram (plugin_impl := Base_ParsePlugin)
              mnemonic_tokens_excerpt extended_mnemonic_tokens_excerpt 100
              (ParseState_new "nop" None)) as [[[] st']| |] eqn:E;
    [|vm_compute in E; discriminate ..].
  exists st'. split; [reflexivity|].
  apply (ParseProgram_keeps_callout_invariants (plugin_impl := Base_ParsePlugin)
           mnemonic_tokens_excerpt extended_mnemonic_tokens_excerpt
           (fun p => p = None) 100 (ParseState_new "nop" None) st').
  - constructor; simpl; intros; intros s a s' H HJ; inversion H; subst; exact HJ.
  - exact E.
  - reflexivity.
Defined.

(** * Further properties of literals *)

Lemma wrap_wrap_le (w w' x : Z) : 0 <= w <= w' -> wrap w (wrap w' x) = wrap w x.
Proof.
  intros H. unfold wrap. apply Z.mod_mod_divide.
  exists (2 ^ (w' - w)). rewrite <- Z.pow_add_r by lia. f_equal. lia.
Qed.

Lemma wrap_land (w x : Z) : 0 <= w -> wrap w x = Z.land x (Z.ones w).
Proof. intros H. unfold wrap. symmetry. apply Z.land_ones. exact H. Qed.

Lemma wrap_lor (w x y : Z) :
  0 <= w -> wrap w (Z.lor x y) = Z.lor (wrap w x) (wrap w y).
Proof. intros H. rewrite !wrap_land by exact H. apply Z.land_lor_distr_l. Qed.

Lemma wrap_shiftl (w a k : Z) :
  0 <= w -> 0 <= k -> wrap w (Z.shiftl (wrap w a) k) = wrap w (Z.shiftl a k).
Proof.
  intros Hw Hk. rewrite !wrap_land by exact Hw.
  apply Z.bits_inj'. intros n Hn. rewrite !Z.land_spec.
  destruct (Z.ltb_spec n w) as [Hlt | Hge].
  - rewrite Z.ones_spec_low by lia. rewrite !andb_true_r.
    destruct (Z.ltb_spec n k) as [Hnk | Hnk].
    + rewrite !Z.shiftl_spec_low by lia. reflexivity.
    + rewrite !Z.shiftl_spec by lia. rewrite Z.land_spec.
      rewrite Z.ones_spec_low by lia. apply andb_true_r.
  - rewrite Z.ones_spec_high by lia. rewrite !andb_false_r. reflexivity.
Qed.

Lemma wrap_lor_shiftl (w a k d : Z) :
  0 <= w -> 0 <= k ->
  wrap w (Z.lor (Z.shiftl (wrap w a) k) d) = wrap w (Z.lor (Z.shiftl a k) d).
Proof.
  intros Hw Hk. rewrite !wrap_lor by exact Hw. rewrite wrap_shiftl by assumption.
  reflexivity.
Qed.

Lemma accumulate_chars_narrow (w : Z) (step_w step : Z -> ascii -> Z) (s : string) :
  0 <= w <= 64 ->
  (forall a c, wrap w (step_w (wrap w a) c) = wrap w (step a c)) ->
  accumulate_chars w step_w s = wrap w (accumulate_chars 64 step s).
Proof.
  intros Hw Hstep. unfold accumulate_chars.
  assert (H : forall l a,
             fold_left (fun acc c => wrap w (step_w acc c)) l (wrap w a)
             = wrap w (fold_left (fun acc c => wrap 64 (step acc c)) l a)).
  { induction l as [|c l IH]; intros a; simpl; [reflexivity|].
    rewrite Hstep, <- (wrap_wrap_le w 64 (step a c)) by lia. apply IH. }
  rewrite <- (H _ 0). reflexivity.
Qed.

(** X18. A literal that does not fit the element type is truncated silently:
    for the element widths of the data directives, evaluating a token as an
    unsigned integer of [w] bits gives the low [w] bits of its evaluation as a
    [u64], for every token type and every token text. *)
Theorem eval_integral_truncates (w : Z) (tp : TokenType.t) (val : string) :
  In w [8; 16; 32; 64] ->
  eval_integral w tp val = wrap w <$> eval_integral 64 tp val.
Proof.
  intros Hin.
  assert (Hw : 2 <= w <= 64) by (simpl in Hin; lia).
  assert (Hdec : forall a c, wrap w (dec_step (wrap w a) c) = wrap w (dec_step a c)).
  { intros a c. unfold dec_step, wrap.
    rewrite <- Zplus_mod_idemp_l, Zmult_mod_idemp_l, Zplus_mod_idemp_l. reflexivity. }
  assert (Hsmall : forall x, 0 <= x < 4 -> wrap w x = x).
  { intros x Hx. apply wrap_small.
    assert (2 ^ 2 <= 2 ^ w) by (apply Z.pow_le_mono_r; lia). lia. }
  destruct tp; simpl; try reflexivity;
    try (f_equal; apply accumulate_chars_narrow; [lia|]; first
      [ exact Hdec
      | intros a c; unfold oct_step; apply wrap_lor_shiftl; lia
      | intros a c; unfold bin_step; apply wrap_lor_shiftl; lia
      | intros a c; unfold hex_step;
        rewrite !wrap_lor, wrap_shiftl, !wrap_wrap_le by lia; reflexivity ]);
    try (rewrite Hsmall by lia; reflexivity).
  destruct (sprg_map_find val) as [v|]; simpl; [|reflexivity].
  rewrite wrap_wrap_le by lia. reflexivity.
Qed.

Lemma eval_integral_truncates_witness :
  eval_integral 8 TokenType.kDecimalLit "300" = Some 44
  /\ eval_integral 8 TokenType.kDecimalLit "300"
     = wrap 8 <$> eval_integral 64 TokenType.kDecimalLit "300".
Proof.
  split; [reflexivity|]. apply eval_integral_truncates. simpl. tauto.
Defined.

Lemma str_at_list (l : list ascii) (i : nat) :
  str_at (string_of_list_ascii l) i = default Ascii.zero (l !! i).
Proof.
  unfold str_at. rewrite get_lookup, list_ascii_of_string_of_list_ascii.
  destruct (l !! i); reflexivity.
Qed.

Lemma length_string_of_list (l : list ascii) :
  String.length (string_of_list_ascii l) = length l.
Proof. rewrite <- length_list_ascii, list_ascii_of_string_of_list_ascii. reflexivity. Qed.

Lemma ConvertStringLiteral_loop_items (items : list LiteralItem) :
  forall (pre : list ascii) (fuel : nat),
    Forall item_ok items ->
    (length items <= fuel)%nat ->
    ConvertStringLiteral_loop fuel
      (string_of_list_ascii (pre ++ concat (item_source <$> items) ++ [dquote]))
      (length pre)
    = item_byte <$> items.
Proof.
  induction items as [|item items IH]; intros pre fuel Hok Hfuel.
  - simpl. destruct fuel as [|fuel]; [reflexivity|]. simpl.
    rewrite length_string_of_list, length_app. simpl.
    replace (length pre + 1 - 1)%nat with (length pre) by lia.
    rewrite Nat.ltb_irrefl. reflexivity.
  - apply Forall_cons in Hok as [Hitem Hok].
    destruct fuel as [|fuel]; [simpl in Hfuel; lia|]. simpl in Hfuel.
    cbn [ConvertStringLiteral_loop].
    set (L := pre ++ concat (item_source <$> item :: items) ++ [dquote]).
    assert (Hlen : (length pre <? String.length (string_of_list_ascii L) - 1)%nat = true).
    { apply Nat.ltb_lt. rewrite length_string_of_list. subst L.
      rewrite !length_app. simpl. rewrite length_app. destruct item; simpl; lia. }
    rewrite Hlen. rewrite !str_at_list.
    destruct item as [c | c]; simpl in Hitem.
    + assert (HL : L = (pre ++ [c]) ++ concat (item_source <$> items) ++ [dquote]).
      { subst L. simpl. rewrite <- app_assoc. reflexivity. }
      assert (H0 : L !! length pre = Some c).
      { subst L. rewrite lookup_app_r, Nat.sub_diag by lia. reflexivity. }
      rewrite H0. simpl.
      assert (Hc : Ascii.eqb c "\" = false) by (apply Ascii.eqb_neq; exact Hitem).
      rewrite Hc. f_equal.
      rewrite HL. replace (S (length pre)) with (length (pre ++ [c]))
        by (rewrite length_app; simpl; lia).
      apply IH; [exact Hok | lia].
    + destruct Hitem as [Hoct Hx].
      assert (HL : L = (pre ++ ["\"%char; c]) ++ concat (item_source <$> items) ++ [dquote]).
      { subst L. simpl. rewrite <- app_assoc. reflexivity. }
      assert (H0 : L !! length pre = Some "\"%char).
      { subst L. rewrite lookup_app_r, Nat.sub_diag by lia. reflexivity. }
      assert (H1 : L !! S (length pre) = Some c).
      { subst L. rewrite lookup_app_r by lia.
        replace (S (length pre) - length pre)%nat with 1%nat by lia. reflexivity. }
      rewrite H0. simpl. rewrite H1. simpl. rewrite Hoct.
      assert (Hc : Ascii.eqb c "x" = false) by (apply Ascii.eqb_neq; exact Hx).
      rewrite Hc. f_equal.
      rewrite HL. replace (S (S (length pre))) with (length (pre ++ ["\"%char; c]))
        by (rewrite length_app; simpl; lia).
      apply IH; [exact Hok | lia].
Qed.

(** X19. [ConvertStringLiteral] on a literal without numeric escapes: the two
    quotes are dropped, every character other than a backslash gives its own
    code, and every backslash pair gives one byte, the control character of
    [\a \b \f \n \r \t \v] and otherwise the second character itself; nothing
    else is emitted. *)
Theorem ConvertStringLiteral_items (items : list LiteralItem) :
  Forall item_ok items ->
  ConvertStringLiteral (literal_of_items items) = item_byte <$> items.
Proof.
  intros Hok. unfold ConvertStringLiteral, literal_of_items.
  change (dquote :: concat (item_source <$> items) ++ [dquote])
    with ([dquote] ++ concat (item_source <$> items) ++ [dquote]).
  apply (ConvertStringLiteral_loop_items items [dquote] _ Hok).
  rewrite length_string_of_list, !length_app. simpl.
  assert (H : (length items <= length (concat (item_source <$> items)))%nat).
  { clear Hok. induction items as [|[c|c] items IH]; [simpl; lia | ..];
      rewrite fmap_cons; cbn [concat item_source]; rewrite length_app; simpl; lia. }
  simpl. lia.
Qed.

Lemma ConvertStringLiteral_items_witness :
  literal_of_items [PlainChar "h"; PlainChar "i"; SimpleEscape "n"]
  = String dquote (String "h" (String "i" (String "\" (String "n" (String dquote "")))))
  /\ ConvertStringLiteral
       (literal_of_items [PlainChar "h"; PlainChar "i"; SimpleEscape "n"])
     = [104; 105; 10].
Proof.
  split; [reflexivity|].
  apply (ConvertStringLiteral_items [PlainChar "h"; PlainChar "i"; SimpleEscape "n"]).
  repeat constructor; simpl; discriminate.
Defined.

(** * Round trips through the lexer *)

Lemma suffix_cons (lx : Lexer) (c : ascii) (rest : list ascii) :
  suffix_at lx = c :: rest ->
  Peek lx = c
  /\ suffix_at (Step lx) = rest
  /\ CursorPosition.index (scan_pos (Step lx)) = S (CursorPosition.index (scan_pos lx)).
Proof.
  unfold suffix_at. intros H.
  set (i := CursorPosition.index (scan_pos lx)) in *.
  set (l := list_ascii_of_string (lex_string lx)) in *.
  assert (Hget : l !! i = Some c).
  { rewrite <- (Nat.add_0_r i), <- lookup_drop, H. reflexivity. }
  assert (Hlt : (i < String.length (lex_string lx))%nat).
  { rewrite <- length_list_ascii. eapply lookup_lt_Some. exact Hget. }
  assert (HP : Peek lx = c).
  { unfold Peek. fold i. rewrite get_lookup. fold l. rewrite Hget. reflexivity. }
  pose proof (Step_advances lx Hlt) as Hidx. fold i in Hidx.
  pose proof (Step_scans lx) as (S1 & _).
  split; [exact HP|]. split; [|exact Hidx].
  rewrite Hidx, S1. fold l.
  replace (S i) with (i + 1)%nat by lia.
  rewrite <- (drop_drop l 1 i), H. reflexivity.
Qed.

Lemma suffix_nil (lx : Lexer) : suffix_at lx = [] -> Peek lx = Ascii.zero.
Proof.
  unfold suffix_at. intros H. apply Peek_at_end.
  apply (f_equal length) in H. rewrite length_drop, length_list_ascii in H. simpl in H. lia.
Qed.

Lemma Peek_suffix (lx : Lexer) : Peek lx = hd Ascii.zero (suffix_at lx).
Proof.
  destruct (suffix_at lx) as [|c rest] eqn:E.
  - apply suffix_nil. exact E.
  - apply (suffix_cons lx c rest E).
Qed.

Lemma scan_while_suffix (P : ascii -> bool) (run : list ascii) :
  forall (fuel : nat) (lx : Lexer) (rest : list ascii),
    suffix_at lx = run ++ rest ->
    Forall (fun c => P c = true) run ->
    P (hd Ascii.zero rest) = false ->
    (length run <= fuel)%nat ->
    suffix_at (scan_while P fuel lx) = rest
    /\ CursorPosition.index (scan_pos (scan_while P fuel lx))
       = (CursorPosition.index (scan_pos lx) + length run)%nat.
Proof.
  induction run as [|c run IH]; intros fuel lx rest Hs Hrun Hrest Hfuel.
  - simpl in Hs. rewrite Nat.add_0_r.
    destruct fuel as [|fuel]; simpl; [auto|].
    rewrite Peek_suffix, Hs, Hrest. auto.
  - destruct fuel as [|fuel]; [simpl in Hfuel; lia|]. simpl in Hfuel.
    apply Forall_cons in Hrun as [Hc Hrun].
    destruct (suffix_cons lx c (run ++ rest) Hs) as (HP & Hs' & Hi).
    simpl. rewrite HP, Hc.
    destruct (IH fuel (Step lx) rest Hs' Hrun Hrest ltac:(lia)) as [H1 H2].
    split; [exact H1|]. rewrite H2, Hi. simpl. lia.
Qed.

Lemma substring_all (s : string) : String.substring 0 (String.length s) s = s.
Proof. induction s as [|c s IH]; simpl; [reflexivity | f_equal; exact IH]. Qed.

Lemma decimal_digits (d : Decimal.uint) :
  Forall (fun c => isdigit c = true) (list_ascii_of_string (decimal_text d)).
Proof.
  induction d; simpl; constructor; try reflexivity; assumption.
Qed.

Lemma accumulate_chars_fold (w : Z) (step : Z -> ascii -> Z) (s : string) :
  0 <= w ->
  (forall a c, wrap w (step (wrap w a) c) = wrap w (step a c)) ->
  accumulate_chars w step s = wrap w (fold_left step (list_ascii_of_string s) 0).
Proof.
  intros Hw Hstep. unfold accumulate_chars.
  assert (H : forall l a,
             fold_left (fun acc c => wrap w (step acc c)) l (wrap w a)
             = wrap w (fold_left step l a)).
  { induction l as [|c l IH]; intros a; simpl; [reflexivity|].
    rewrite Hstep. apply IH. }
  rewrite <- (H _ 0). reflexivity.
Qed.
Lemma dec_fold_of_uint (d : Decimal.uint) :
  forall acc, 0 <= acc ->
    fold_left dec_step (list_ascii_of_string (decimal_text d)) acc
    = Z.of_nat (Nat.of_uint_acc d (Z.to_nat acc)).
Proof.
  induction d; intros acc Hacc;
    [ simpl; lia
    | cbn [decimal_text DecimalString.NilEmpty.string_of_uint list_ascii_of_string
           fold_left Nat.of_uint_acc];
      fold (decimal_text d);
      match goal with
      | |- context [dec_step ?a ?c] =>
          let v := eval vm_compute in (Z.of_nat (char_code c) - 48) in
          change (dec_step a c) with (a * 10 + v)
      end;
      rewrite IHd by lia; f_equal; f_equal;
      rewrite Nat.tail_mul_spec; lia .. ].
Qed.

Lemma dec_step_wrap (w a : Z) (c : ascii) :
  0 <= w -> wrap w (dec_step (wrap w a) c) = wrap w (dec_step a c).
Proof.
  intros Hw. unfold wrap, dec_step.
  assert (0 < 2 ^ w) by (apply Z.pow_pos_nonneg; lia).
  rewrite Z.add_mod, Z.mul_mod, Z.mod_mod by lia.
  rewrite <- Z.mul_mod, <- Z.add_mod by lia. reflexivity.
Qed.

Lemma eval_integral_decimal (w : Z) (d : Decimal.uint) :
  0 <= w ->
  eval_integral w TokenType.kDecimalLit (decimal_text d)
  = Some (Z.of_nat (Nat.of_uint d) mod 2 ^ w).
Proof.
  intros Hw. unfold eval_integral.
  rewrite accumulate_chars_fold by (try exact Hw; intros; apply dec_step_wrap; exact Hw).
  rewrite dec_fold_of_uint by lia. reflexivity.
Qed.

Lemma LexSingle_digit_head (c : ascii) (t : string) :
  isdigit c = true -> c <> "0"%char ->
  LexSingle (Lexer_new (String c t))
  = let lx3 := scan_loop isdigit
                 (mkLexer (String c t) CursorPosition.zero (CursorPosition.mk 1 0 1) []
                    IdentifierMatchRule.kTypical) in
    (mkToken TokenType.kDecimalLit (fst (ScanFinishOut lx3)) "" (Interval.mk 0 0),
     SkipWs (snd (ScanFinishOut lx3))).
Proof.
  intros Hd Hn.
  destruct c as [[] [] [] [] [] [] [] []];
    try (vm_compute in Hd; discriminate Hd);
    try (exfalso; apply Hn; reflexivity);
    reflexivity.
Qed.

Lemma scan_loop_to_end (P : ascii -> bool) (lx : Lexer) :
  Forall (fun c => P c = true) (suffix_at lx) ->
  P Ascii.zero = false ->
  (CursorPosition.index (scan_pos lx) <= String.length (lex_string lx))%nat ->
  CursorPosition.index (scan_pos (scan_loop P lx)) = String.length (lex_string lx).
Proof.
  intros Hrun Hz Hle.
  assert (Hlen : length (suffix_at lx) = remaining lx).
  { unfold suffix_at, remaining. rewrite length_drop, length_list_ascii. reflexivity. }
  destruct (scan_while_suffix P (suffix_at lx) (remaining lx) lx []) as [_ Hi];
    [ symmetry; apply app_nil_r | exact Hrun | exact Hz | lia | ].
  unfold scan_loop. rewrite Hi, Hlen. unfold remaining. lia.
Qed.

(** X20.  A decimal numeral written without a leading zero is lexed as one
    decimal literal token whose text is the numeral, the lexer is then at
    the end of the input, and evaluating the token at [w] bits gives the
    number the numeral denotes modulo [2^w]. *)
Theorem decimal_numeral_round_trip (d : Decimal.uint) (w : Z) :
  canonical_decimal d -> 0 <= w ->
  let r := LexSingle (Lexer_new (decimal_text d)) in
  fst r = mkToken TokenType.kDecimalLit (decimal_text d) "" (Interval.mk 0 0)
  /\ at_end (snd r)
  /\ eval_integral w (token_type (fst r)) (token_val (fst r))
     = Some (Z.of_nat (Nat.of_uint d) mod 2 ^ w).
Proof.
  intros Hc Hw.
  assert (Hlex :
    let r := LexSingle (Lexer_new (decimal_text d)) in
    fst r = mkToken TokenType.kDecimalLit (decimal_text d) "" (Interval.mk 0 0)
    /\ at_end (snd r)).
  { destruct d as [|d'|d'|d'|d'|d'|d'|d'|d'|d'|d']; simpl in Hc; try contradiction;
      [ destruct d'; try contradiction; vm_compute; split; [reflexivity | lia] | .. ];
      cbn [decimal_text DecimalString.NilEmpty.string_of_uint]; fold (decimal_text d');
      (rewrite LexSingle_digit_head by (first [reflexivity | discriminate]));
      cbv zeta;
      match goal with
      | |- context [scan_loop isdigit ?l] =>
          pose proof (scan_loop_scans isdigit l) as (S1 & P1 & _);
          assert (Hi : CursorPosition.index (scan_pos (scan_loop isdigit l))
                       = String.length (lex_string l))
            by (apply scan_loop_to_end;
                [ apply decimal_digits | reflexivity | simpl; lia ]);
          set (lx3 := scan_loop isdigit l) in *
      end;
      simpl in S1, P1, Hi;
      (split;
       [ unfold ScanFinishOut; cbn [fst]; rewrite S1, P1, Hi; cbn [CursorPosition.index CursorPosition.zero];
         rewrite Nat.sub_0_r;
         match goal with
         | |- context [String.substring 0 (S (String.length ?t)) (String ?c ?t)] =>
             change (S (String.length t)) with (String.length (String c t))
         end;
         rewrite substring_all; reflexivity
       | unfold at_end; cbn [snd];
         pose proof (SkipWs_lexes (snd (ScanFinishOut lx3))) as (L1 & _ & _ & _ & L5 & _);
         rewrite L1; unfold ScanFinishOut in *; simpl in *; rewrite S1; simpl; lia ]). }
  destruct Hlex as [Ht He]. cbv zeta. rewrite Ht. cbn [token_type token_val].
  split; [reflexivity|]. split; [exact He|].
  apply eval_integral_decimal. exact Hw.
Qed.

Lemma decimal_numeral_round_trip_witness :
  let d := Decimal.D6 (Decimal.D5 (Decimal.D5 (Decimal.D4 (Decimal.D1 Decimal.Nil)))) in
  canonical_decimal d /\ 0 <= 16
  /\ (let r := LexSingle (Lexer_new (decimal_text d)) in
      fst r = mkToken TokenType.kDecimalLit (decimal_text d) "" (Interval.mk 0 0)
      /\ at_end (snd r)
      /\ eval_integral 16 (token_type (fst r)) (token_val (fst r))
         = Some (Z.of_nat (Nat.of_uint d) mod 2 ^ 16)).
Proof.
  intros d. split; [exact I|]. split; [lia|].
  apply (decimal_numeral_round_trip d 16); [exact I | lia].
Defined.

Lemma item_lexable_ok (item : LiteralItem) : item_lexable item -> item_ok item.
Proof.
  destruct item as [c|c]; simpl; intros [H _].
  - intros ->. discriminate H.
  - unfold _sce, _octal in H.
    destruct (is_octal c); [discriminate H|]. split; [reflexivity|].
    intros ->. discriminate H.
Qed.

Ltac dfa_node :=
  match goal with
  | |- context [string_dfa !! ?i] =>
      let v := eval hnf in (string_dfa !! i) in change (string_dfa !! i) with v
  end; cbv iota.

Lemma RunDfa_loop_string_items (items : list LiteralItem) :
  forall (fuel : nat) (lx : Lexer),
    suffix_at lx = concat (item_source <$> items) ++ [dquote] ->
    Forall item_lexable items ->
    (length (concat (item_source <$> items)) < fuel)%nat ->
    fst (RunDfa_loop string_dfa fuel 0 lx) = 2%nat
    /\ CursorPosition.index (scan_pos (snd (RunDfa_loop string_dfa fuel 0 lx)))
       = S (CursorPosition.index (scan_pos lx) + length (concat (item_source <$> items))).
Proof.
  induction items as [|[c|c] items IH]; intros fuel lx Hs Hok Hfuel.
  - simpl in Hs, Hfuel.
    destruct (suffix_cons lx dquote [] Hs) as (HP & Hs' & Hi).
    destruct fuel as [|fuel]; [lia|].
    cbn [RunDfa_loop]. rewrite HP.
    change (Ascii.eqb dquote Ascii.zero) with false. cbv iota.
    dfa_node.
    cbn [edges List.find fst snd].
    change (_normal dquote) with false. change (_invalid dquote) with false.
    change (_quote dquote) with true. cbv iota.
    pose proof (suffix_nil (Step lx) Hs') as HZ.
    destruct fuel as [|fuel]; cbn [RunDfa_loop]; rewrite ?HZ;
      cbn [fst snd]; (split; [reflexivity | simpl; lia]).
  - rewrite fmap_cons in *. cbn [concat item_source] in *. simpl in Hs, Hfuel.
    apply Forall_cons in Hok as [[Hn Hz] Hok].
    destruct (suffix_cons lx c _ Hs) as (HP & Hs' & Hi).
    destruct fuel as [|fuel]; [lia|].
    cbn [RunDfa_loop]. rewrite HP.
    destruct (Ascii.eqb_spec c Ascii.zero) as [->|_]; [contradiction|].
    dfa_node.
    cbn [edges List.find fst snd]. rewrite Hn. cbn [fst snd].
    destruct (IH fuel (Step lx) Hs' Hok ltac:(lia)) as [H1 H2].
    split; [exact H1|]. rewrite H2, Hi. simpl. lia.
  - rewrite fmap_cons in *. cbn [concat item_source] in *. simpl in Hs, Hfuel.
    apply Forall_cons in Hok as [[Hn Hz] Hok].
    destruct (suffix_cons lx _ _ Hs) as (HP & Hs' & Hi).
    destruct (suffix_cons (Step lx) _ _ Hs') as (HP' & Hs'' & Hi').
    destruct fuel as [|[|fuel]]; [lia|lia|].
    cbn [RunDfa_loop]. rewrite HP.
    change (Ascii.eqb "\" Ascii.zero) with false. cbv iota.
    dfa_node.
    cbn [edges List.find fst snd].
    change (_normal "\") with false. change (_invalid "\") with false.
    change (_quote "\") with false. change (_escape "\") with true. cbv iota.
    rewrite HP'.
    destruct (Ascii.eqb_spec c Ascii.zero) as [->|_]; [contradiction|].
    dfa_node.
    cbn [edges List.find fst snd]. rewrite Hn. cbn [fst snd].
    destruct (IH fuel (Step (Step lx)) Hs'' Hok ltac:(lia)) as [H1 H2].
    split; [exact H1|]. rewrite H2, Hi', Hi. simpl. lia.
Qed.

Lemma LexSingle_quote_head (t : string) :
  LexSingle (Lexer_new (String dquote t))
  = let r := LexStringLit
               (mkLexer (String dquote t) CursorPosition.zero (CursorPosition.mk 1 0 1) []
                  IdentifierMatchRule.kTypical) in
    (mkToken (fst (fst (fst r))) (fst (ScanFinishOut (snd r))) (snd (fst (fst r)))
       (snd (fst r)),
     SkipWs (snd (ScanFinishOut (snd r)))).
Proof.
  unfold LexSingle.
  change (ScanStart (SkipWs (Lexer_new (String dquote t))))
    with (Lexer_new (String dquote t)).
  cbv zeta.
  change (Peek (Lexer_new (String dquote t))) with dquote.
  change (Step (Lexer_new (String dquote t)))
    with (mkLexer (String dquote t) CursorPosition.zero (CursorPosition.mk 1 0 1) []
            IdentifierMatchRule.kTypical).
  change (isalpha dquote) with false. change (Ascii.eqb dquote "_") with false.
  change (Ascii.eqb dquote dquote) with true.
  cbn [orb IdentifierHeadExtra match_rule].
  destruct (LexStringLit _) as [[[tp reason] region] lx3].
  cbn [fst snd]. destruct (ScanFinishOut lx3). reflexivity.
Qed.

Lemma items_length_le (items : list LiteralItem) :
  (length items <= length (concat (item_source <$> items)))%nat.
Proof.
  induction items as [|[c|c] items IH]; [simpl; lia | ..];
    rewrite fmap_cons; cbn [concat item_source]; rewrite length_app; simpl; lia.
Qed.

(** X21.  A string literal whose body is made of plain characters and simple
    backslash escapes is lexed as one string literal token whose text is the
    whole literal with its quotes, the lexer is then at the end of the input,
    and [ConvertStringLiteral] on the token's text gives one byte per item. *)
Theorem string_literal_round_trip (items : list LiteralItem) :
  Forall item_lexable items ->
  let r := LexSingle (Lexer_new (literal_of_items items)) in
  fst r = mkToken TokenType.kStringLit (literal_of_items items) "" (Interval.mk 0 0)
  /\ at_end (snd r)
  /\ ConvertStringLiteral (token_val (fst r)) = item_byte <$> items.
Proof.
  intros Hok.
  set (body := concat (item_source <$> items)).
  assert (Ht : literal_of_items items
               = String dquote (string_of_list_ascii (body ++ [dquote]))) by reflexivity.
  assert (Hlex :
    let r := LexSingle (Lexer_new (literal_of_items items)) in
    fst r = mkToken TokenType.kStringLit (literal_of_items items) "" (Interval.mk 0 0)
    /\ at_end (snd r)).
  { rewrite Ht, LexSingle_quote_head. cbv zeta.
    set (lx2 := mkLexer _ CursorPosition.zero (CursorPosition.mk 1 0 1) [] _).
    assert (Hs : suffix_at lx2 = body ++ [dquote]).
    { unfold suffix_at. simpl. rewrite list_ascii_of_string_of_list_ascii. reflexivity. }
    assert (Hrem : remaining lx2 = length (body ++ [dquote])).
    { unfold remaining. simpl. rewrite length_string_of_list. lia. }
    unfold LexStringLit, RunDfa.
    pose proof (RunDfa_loop_scans string_dfa (S (remaining lx2)) 0 lx2) as (S1 & P1 & _).
    destruct (RunDfa_loop_string_items items (S (remaining lx2)) lx2 Hs Hok) as [H1 H2].
    { rewrite Hrem, length_app. fold body. simpl. lia. }
    destruct (RunDfa_loop string_dfa (S (remaining lx2)) 0 lx2) as [idx lx3].
    cbn [fst snd] in *. subst idx.
    dfa_node.
    cbn [match_failure_reason fst snd].
    fold body in H2. simpl in S1, P1, H2.
    split.
    - unfold ScanFinishOut. cbn [fst]. rewrite S1, P1, H2.
      cbn [CursorPosition.index CursorPosition.zero]. rewrite Nat.sub_0_r.
      replace (S (S (length body)))
        with (String.length (String dquote (string_of_list_ascii (body ++ [dquote])))).
      + rewrite substring_all. reflexivity.
      + simpl. rewrite length_string_of_list, length_app. simpl. lia.
    - unfold at_end.
      pose proof (SkipWs_lexes (snd (ScanFinishOut lx3))) as (L1 & _ & _ & _ & L5 & _).
      rewrite L1. unfold ScanFinishOut in *. simpl in *. rewrite S1, H2 in *. simpl.
      rewrite length_string_of_list, length_app. simpl. lia. }
  destruct Hlex as [Hr He]. cbv zeta. rewrite Hr. cbn [token_val].
  split; [reflexivity|]. split; [exact He|].
  unfold ConvertStringLiteral, literal_of_items.
  change (dquote :: concat (item_source <$> items) ++ [dquote])
    with ([dquote] ++ concat (item_source <$> items) ++ [dquote]).
  apply (ConvertStringLiteral_loop_items items [dquote]).
  - eapply Forall_impl; [exact Hok | exact item_lexable_ok].
  - rewrite length_string_of_list, !length_app.
    pose proof (items_length_le items). simpl. lia.
Qed.

Lemma string_literal_round_trip_witness :
  let items := [PlainChar "h"; PlainChar "i"; SimpleEscape dquote; SimpleEscape "n"] in
  Forall item_lexable items
  /\ (let r := LexSingle (Lexer_new (literal_of_items items)) in
      fst r = mkToken TokenType.kStringLit (literal_of_items items) "" (Interval.mk 0 0)
      /\ at_end (snd r)
      /\ ConvertStringLiteral (token_val (fst r)) = item_byte <$> items).
Proof.
  intros items.
  assert (H : Forall item_lexable items)
    by (repeat constructor; simpl; discriminate).
  split; [exact H|]. apply (string_literal_round_trip items H).
Defined.

Lemma RunDfa_loop_string_body (items : list LiteralItem) :
  forall (fuel : nat) (lx : Lexer) (rest : list ascii),
    suffix_at lx = concat (item_source <$> items) ++ rest ->
    Forall item_lexable items ->
    (length (concat (item_source <$> items)) <= fuel)%nat ->
    exists lx',
      RunDfa_loop string_dfa fuel 0 lx
      = RunDfa_loop string_dfa (fuel - length (concat (item_source <$> items))) 0 lx'
      /\ suffix_at lx' = rest
      /\ CursorPosition.index (scan_pos lx')
         = (CursorPosition.index (scan_pos lx) + length (concat (item_source <$> items)))%nat.
Proof.
  induction items as [|[c|c] items IH]; intros fuel lx rest Hs Hok Hfuel.
  - exists lx. simpl. rewrite Nat.sub_0_r, Nat.add_0_r. auto.
  - rewrite fmap_cons in *. cbn [concat item_source] in *. simpl in Hs, Hfuel.
    apply Forall_cons in Hok as [[Hn Hz] Hok].
    destruct (suffix_cons lx c _ Hs) as (HP & Hs' & Hi).
    destruct fuel as [|fuel]; [lia|].
    cbn [RunDfa_loop]. rewrite HP.
    destruct (Ascii.eqb_spec c Ascii.zero) as [->|_]; [contradiction|].
    dfa_node.
    cbn [edges List.find fst snd]. rewrite Hn. cbn [fst snd].
    destruct (IH fuel (Step lx) rest Hs' Hok ltac:(lia)) as (lx' & H1 & H2 & H3).
    exists lx'. split; [exact H1|]. split; [exact H2|]. rewrite H3, Hi. simpl. lia.
  - rewrite fmap_cons in *. cbn [concat item_source] in *. simpl in Hs, Hfuel.
    apply Forall_cons in Hok as [[Hn Hz] Hok].
    destruct (suffix_cons lx _ _ Hs) as (HP & Hs' & Hi).
    destruct (suffix_cons (Step lx) _ _ Hs') as (HP' & Hs'' & Hi').
    destruct fuel as [|[|fuel]]; [lia|lia|].
    cbn [RunDfa_loop]. rewrite HP.
    change (Ascii.eqb "\" Ascii.zero) with false. cbv iota.
    dfa_node.
    cbn [edges List.find fst snd].
    change (_normal "\") with false. change (_invalid "\") with false.
    change (_quote "\") with false. change (_escape "\") with true. cbv iota.
    rewrite HP'.
    destruct (Ascii.eqb_spec c Ascii.zero) as [->|_]; [contradiction|].
    dfa_node.
    cbn [edges List.find fst snd]. rewrite Hn. cbn [fst snd].
    destruct (IH fuel (Step (Step lx)) rest Hs'' Hok ltac:(lia)) as (lx' & H1 & H2 & H3).
    exists lx'. split; [exact H1|]. split; [exact H2|]. rewrite H3, Hi', Hi. simpl. lia.
Qed.

(** X22.  A string literal that is not closed before the input ends is
    rejected: the token is invalid, its text is the whole rest of the input,
    the reason is the missing terminating quote and the region of the error
    covers the whole token. *)
Theorem unterminated_string_is_invalid (items : list LiteralItem) :
  Forall item_lexable items ->
  let text := string_of_list_ascii (dquote :: concat (item_source <$> items)) in
  fst (LexSingle (Lexer_new text))
  = mkToken TokenType.kInvalid text no_terminating_quote
      (Interval.mk 0 (String.length text)).
Proof.
  intros Hok. cbv zeta.
  set (body := concat (item_source <$> items)).
  change (string_of_list_ascii (dquote :: body))
    with (String dquote (string_of_list_ascii body)).
  rewrite LexSingle_quote_head. cbv zeta.
  set (lx2 := mkLexer _ CursorPosition.zero (CursorPosition.mk 1 0 1) [] _).
  assert (Hs : suffix_at lx2 = body ++ []).
  { unfold suffix_at. simpl. rewrite list_ascii_of_string_of_list_ascii, app_nil_r.
    reflexivity. }
  assert (Hrem : remaining lx2 = length body).
  { unfold remaining. simpl. rewrite length_string_of_list. lia. }
  unfold LexStringLit, RunDfa.
  pose proof (RunDfa_loop_scans string_dfa (S (remaining lx2)) 0 lx2) as (S1 & P1 & _).
  destruct (RunDfa_loop_string_body items (S (remaining lx2)) lx2 [] Hs Hok)
    as (lx' & H1 & H2 & H3); [fold body; lia|].
  fold body in H1, H3. rewrite H1 in *.
  replace (S (remaining lx2) - length body)%nat with 1%nat in * by lia.
  cbn [RunDfa_loop] in *. rewrite (suffix_nil lx' H2) in *.
  change (Ascii.eqb Ascii.zero Ascii.zero) with true in *. cbv iota in *.
  dfa_node. cbn [match_failure_reason fst snd] in *.
  unfold ScanFinishOut. cbn [fst]. rewrite S1, P1, H3.
  simpl. rewrite length_string_of_list.
  rewrite <- (length_string_of_list body) at 1.
  rewrite substring_all. reflexivity.
Qed.

Lemma unterminated_string_is_invalid_witness :
  let items := [PlainChar "h"; PlainChar "i"; SimpleEscape dquote] in
  Forall item_lexable items
  /\ (let text := string_of_list_ascii (dquote :: concat (item_source <$> items)) in
      fst (LexSingle (Lexer_new text))
      = mkToken TokenType.kInvalid text no_terminating_quote
          (Interval.mk 0 (String.length text))).
Proof.
  intros items.
  assert (H : Forall item_lexable items)
    by (repeat constructor; simpl; discriminate).
  split; [exact H|]. apply (unterminated_string_is_invalid items H).
Defined.

(** * The Gecko output formats *)

From Stdlib Require Import ZifyNat.
Ltac Zify.zify_post_hook ::= Z.to_euclidean_division_equations.

Lemma hex2_shape (b : Z) :
  0 <= b < 256 ->
  length (format_hex 2 b) = 2%nat /\ forallb isxdigit (format_hex 2 b) = true.
Proof.
  intros Hb.
  assert (H : forallb (fun n => (length (format_hex 2 (Z.of_nat n)) =? 2)%nat
                                && forallb isxdigit (format_hex 2 (Z.of_nat n)))
                (seq 0 256) = true) by (vm_compute; reflexivity).
  rewrite forallb_forall in H.
  specialize (H (Z.to_nat b)). rewrite Z2Nat.id in H by lia.
  apply andb_true_iff in H; [|apply in_seq; lia].
  destruct H as [H1 H2]. apply Nat.eqb_eq in H1. auto.
Qed.

Lemma DeserializeBlock_bytes_mod (instrs : list Z) :
  forall (i j : nat) (out : list ascii),
    (i mod 8 = j mod 8)%nat ->
    DeserializeBlock_bytes instrs i out = DeserializeBlock_bytes instrs j out.
Proof.
  induction instrs as [|b rest IH]; intros i j out H; cbn [DeserializeBlock_bytes];
    [reflexivity|].
  replace (i mod 4)%nat with (j mod 4)%nat by lia. rewrite H.
  apply IH. lia.
Qed.

Lemma DeserializeBlock_pad_mod (fuel : nat) :
  forall (i j : nat) (out : list ascii) (did_pad : bool),
    (i mod 8 = j mod 8)%nat ->
    let r1 := DeserializeBlock_pad fuel i out did_pad in
    let r2 := DeserializeBlock_pad fuel j out did_pad in
    snd r1 = snd r2 /\ snd (fst r1) = snd (fst r2)
    /\ (fst (fst r1) mod 8 = fst (fst r2) mod 8)%nat.
Proof.
  induction fuel as [|fuel IH]; intros i j out did_pad H; cbn [DeserializeBlock_pad];
    [cbn [fst snd]; auto|].
  replace (i mod 4)%nat with (j mod 4)%nat by lia.
  destruct (j mod 4 =? 0)%nat; [cbn [fst snd]; auto|].
  apply IH. lia.
Qed.

Lemma gecko_tail_mod (long short : string) (instrs : list Z) (i j : nat)
    (out : list ascii) :
  (i mod 8 = j mod 8)%nat ->
  gecko_tail long short instrs i out = gecko_tail long short instrs j out.
Proof.
  intros H. unfold gecko_tail.
  rewrite (DeserializeBlock_bytes_mod instrs i j out H).
  set (o := DeserializeBlock_bytes instrs j out).
  assert (Hn : ((i + length instrs) mod 8 = (j + length instrs) mod 8)%nat) by lia.
  destruct (DeserializeBlock_pad_mod 3 _ _ o false Hn) as (H1 & H2 & H3).
  destruct (DeserializeBlock_pad 3 (i + length instrs) o false) as [[i1 o1] d1].
  destruct (DeserializeBlock_pad 3 (j + length instrs) o false) as [[i2 o2] d2].
  cbn [fst snd] in H1, H2, H3. subst. rewrite H3, Hn. reflexivity.
Qed.

Lemma filter_all {A : Type} (P : A -> bool) (l : list A) :
  forallb P l = true -> List.filter P l = l.
Proof.
  induction l as [|a l IH]; simpl; [reflexivity|].
  intros H. apply andb_true_iff in H as [Ha Hl]. rewrite Ha, IH by exact Hl. reflexivity.
Qed.

Lemma gecko_line_intro (w1 w2 : list ascii) :
  length w1 = 8%nat -> length w2 = 8%nat ->
  forallb isxdigit w1 = true -> forallb isxdigit w2 = true ->
  is_gecko_line (w1 ++ " "%char :: w2) = true
  /\ payload ((w1 ++ " "%char :: w2) ++ [newline]) = w1 ++ w2.
Proof.
  intros L1 L2 X1 X2. split.
  - unfold is_gecko_line.
    rewrite length_app. simpl. rewrite L1, L2. simpl.
    rewrite (take_app_length' w1) by (symmetry; exact L1). rewrite X1.
    rewrite lookup_app_r by lia. rewrite L1. simpl.
    change (w1 ++ " "%char :: w2) with (w1 ++ [" "%char] ++ w2).
    rewrite app_assoc, drop_app_length' by (rewrite length_app; simpl; lia).
    rewrite X2. reflexivity.
  - unfold payload. rewrite !List.filter_app. simpl.
    rewrite !filter_all by assumption. rewrite app_nil_r. reflexivity.
Qed.

Lemma payload_app (a b : list ascii) : payload (a ++ b) = payload a ++ payload b.
Proof. apply List.filter_app. Qed.

Lemma payload_line_break (l : list ascii) : payload (l ++ [newline]) = payload l.
Proof. rewrite payload_app. apply app_nil_r. Qed.

Lemma size_step (m : nat) :
  ((8 + m) / 8 = S (m / 8) /\ (8 + m) mod 8 = m mod 8
   /\ pad4_bytes (8 + m) = pad4_bytes m
   /\ closes_on_new_line (8 + m) = closes_on_new_line m)%nat.
Proof.
  assert (H : ((8 + m) mod 8 = m mod 8)%nat) by lia.
  unfold pad4_bytes, closes_on_new_line. rewrite H.
  replace ((8 + m) mod 4)%nat with (m mod 4)%nat by lia.
  repeat split. lia.
Qed.

Ltac closed_conds :=
  repeat match goal with
    | |- context [Nat.eqb ?x ?y] =>
        let v := eval vm_compute in (Nat.eqb x y) in
        match v with true => idtac | false => idtac end;
        change (Nat.eqb x y) with v
    | |- context [Nat.ltb ?x ?y] =>
        let v := eval vm_compute in (Nat.ltb x y) in
        match v with true => idtac | false => idtac end;
        change (Nat.ltb x y) with v
    | |- context [Nat.leb ?x ?y] =>
        let v := eval vm_compute in (Nat.leb x y) in
        match v with true => idtac | false => idtac end;
        change (Nat.leb x y) with v
    end.

Ltac run_block :=
  repeat (progress (cbn [DeserializeBlock_bytes DeserializeBlock_pad length Nat.add
                         orb negb put list_ascii_of_string fst snd];
                    closed_conds; cbv beta iota)).

Ltac norm_app :=
  repeat (progress (rewrite <- ?app_assoc, <- ?app_comm_cons; cbn [app])).

Lemma DeserializeBlock_bytes_chunk (b0 b1 b2 b3 b4 b5 b6 b7 : Z) (rest : list Z)
    (out : list ascii) :
  DeserializeBlock_bytes (b0 :: b1 :: b2 :: b3 :: b4 :: b5 :: b6 :: b7 :: rest) 0 out
  = DeserializeBlock_bytes rest 8
      (out ++ ((format_hex 2 b0 ++ format_hex 2 b1 ++ format_hex 2 b2 ++ format_hex 2 b3)
               ++ " "%char :: format_hex 2 b4 ++ format_hex 2 b5 ++ format_hex 2 b6
               ++ format_hex 2 b7) ++ [newline]).
Proof.
  change (DeserializeBlock_bytes
            (b0 :: b1 :: b2 :: b3 :: b4 :: b5 :: b6 :: b7 :: rest) 0 out)
    with (DeserializeBlock_bytes rest 8
            ((((((((((out ++ format_hex 2 b0) ++ format_hex 2 b1) ++ format_hex 2 b2)
                   ++ format_hex 2 b3) ++ [" "%char]) ++ format_hex 2 b4)
                ++ format_hex 2 b5) ++ format_hex 2 b6) ++ format_hex 2 b7)
             ++ [newline])).
  f_equal.
  generalize (format_hex 2 b0) (format_hex 2 b1) (format_hex 2 b2) (format_hex 2 b3)
    (format_hex 2 b4) (format_hex 2 b5) (format_hex 2 b6) (format_hex 2 b7).
  intros. norm_app. reflexivity.
Qed.

Lemma gecko_tail_chunk (long short : string) (b0 b1 b2 b3 b4 b5 b6 b7 : Z)
    (rest : list Z) (out : list ascii) :
  gecko_tail long short (b0 :: b1 :: b2 :: b3 :: b4 :: b5 :: b6 :: b7 :: rest) 0 out
  = gecko_tail long short rest 8
      (out ++ ((format_hex 2 b0 ++ format_hex 2 b1 ++ format_hex 2 b2 ++ format_hex 2 b3)
               ++ " "%char :: format_hex 2 b4 ++ format_hex 2 b5 ++ format_hex 2 b6
               ++ format_hex 2 b7) ++ [newline]).
Proof.
  unfold gecko_tail. rewrite DeserializeBlock_bytes_chunk. reflexivity.
Qed.

Ltac shapes :=
  repeat match goal with
    | Hx : 0 <= ?b < 256 |- _ =>
        let L := fresh "L" in
        let X := fresh "X" in
        destruct (hex2_shape b Hx) as [L X]; rewrite ?L, ?X; clear Hx L X
    end.

Ltac closed_sizes :=
  repeat match goal with
    | |- context [repeat ?c ?k] =>
        let v := eval vm_compute in (repeat c k) in
        progress change (repeat c k) with v
    | |- context [closes_on_new_line ?k] =>
        let v := eval vm_compute in (closes_on_new_line k) in
        change (closes_on_new_line k) with v
    end; cbv iota.

Ltac line_facts w1 w2 Hlen Hx :=
  let G := fresh "G" in
  assert (G : is_gecko_line (w1 ++ " "%char :: w2) = true
              /\ payload ((w1 ++ " "%char :: w2) ++ [newline]) = w1 ++ w2)
    by (apply gecko_line_intro; rewrite ?length_app, ?forallb_app; shapes;
        rewrite ?Hlen, ?Hx; reflexivity);
  destruct G as [?G1 ?G2].

Ltac tail_text :=
  unfold lines_text; cbn [fmap list_fmap concat]; norm_app; reflexivity.

Section GeckoBlock.
Variables (long short : string).
Hypothesis Hlong : is_gecko_line (list_ascii_of_string long) = true.
Hypothesis Hshort_len : length (list_ascii_of_string short) = 8%nat.
Hypothesis Hshort_x : forallb isxdigit (list_ascii_of_string short) = true.

Ltac tail_long_only :=
  exists [list_ascii_of_string long];
  split; [tail_text|];
  split; [constructor; [exact Hlong | constructor]|];
  split; [reflexivity|];
  unfold lines_text; cbn [fmap list_fmap concat repeat]; closed_sizes;
  rewrite app_nil_r, payload_line_break; reflexivity.

Ltac tail_short w1 :=
  line_facts w1 (list_ascii_of_string short) Hshort_len Hshort_x;
  exists [w1 ++ " "%char :: list_ascii_of_string short];
  split; [tail_text|];
  split; [constructor; [assumption | constructor]|];
  split; [reflexivity|];
  unfold lines_text; cbn [fmap list_fmap concat]; closed_sizes;
  rewrite app_nil_r;
  match goal with G : payload _ = _ |- _ => rewrite G end;
  norm_app; reflexivity.

Ltac tail_long w1 w2 :=
  line_facts w1 w2 Hshort_len Hshort_x;
  exists [w1 ++ " "%char :: w2; list_ascii_of_string long];
  split; [tail_text|];
  split; [constructor; [assumption | constructor; [exact Hlong | constructor]]|];
  split; [reflexivity|];
  unfold lines_text; cbn [fmap list_fmap concat]; closed_sizes;
  rewrite app_nil_r, payload_app;
  match goal with G : payload _ = _ |- _ => rewrite G end;
  rewrite payload_line_break; norm_app; reflexivity.

Lemma gecko_tail_lines :
  forall (n : nat) (instrs : list Z) (i : nat) (out : list ascii),
    (length instrs < n)%nat ->
    (i mod 8 = 0)%nat ->
    Forall (fun b => 0 <= b < 256) instrs ->
    exists lines : list (list ascii),
      gecko_tail long short instrs i out = out ++ lines_text lines
      /\ Forall (fun l => is_gecko_line l = true) lines
      /\ length lines
         = (length instrs / 8 + (if (length instrs mod 8 <=? 4) then 1 else 2))%nat
      /\ payload (lines_text lines)
         = concat (format_hex 2 <$> instrs)
           ++ repeat "0"%char (2 * pad4_bytes (length instrs))
           ++ (if closes_on_new_line (length instrs)
               then payload (list_ascii_of_string long)
               else list_ascii_of_string short).
Proof.
  induction n as [|n IH]; intros instrs i out Hn Hi Hb; [lia|].
  rewrite (gecko_tail_mod long short instrs i 0) by (rewrite Hi; reflexivity).
  destruct instrs as [|b0 [|b1 [|b2 [|b3 [|b4 [|b5 [|b6 [|b7 rest]]]]]]]].
  9:{ repeat (apply Forall_cons in Hb as [? Hb]).
      rewrite gecko_tail_chunk.
      set (line := (format_hex 2 b0 ++ format_hex 2 b1 ++ format_hex 2 b2 ++ format_hex 2 b3)
                   ++ " "%char :: format_hex 2 b4 ++ format_hex 2 b5 ++ format_hex 2 b6
                   ++ format_hex 2 b7).
      destruct (IH rest 8%nat (out ++ line ++ [newline])) as (lines & E & F & L & P);
        [simpl in Hn; lia | reflexivity | exact Hb |].
      exists (line :: lines).
      assert (G : is_gecko_line line = true
                  /\ payload (line ++ [newline])
                     = (format_hex 2 b0 ++ format_hex 2 b1 ++ format_hex 2 b2
                        ++ format_hex 2 b3)
                       ++ format_hex 2 b4 ++ format_hex 2 b5 ++ format_hex 2 b6
                       ++ format_hex 2 b7).
      { apply gecko_line_intro; rewrite ?length_app, ?forallb_app;
          shapes; reflexivity. }
      destruct G as [G1 G2].
      change (length (b0 :: b1 :: b2 :: b3 :: b4 :: b5 :: b6 :: b7 :: rest))
        with (8 + length rest)%nat.
      destruct (size_step (length rest)) as (Q1 & Q2 & Q3 & Q4).
      rewrite Q1, Q2, Q3, Q4.
      split; [|split; [|split]].
      - rewrite E. unfold lines_text. rewrite fmap_cons. cbn [concat].
        rewrite <- !app_assoc. reflexivity.
      - constructor; assumption.
      - cbn [length]. rewrite L. reflexivity.
      - unfold lines_text in *. rewrite fmap_cons. cbn [concat].
        rewrite payload_app, G2, P. rewrite !fmap_cons. cbn [concat].
        rewrite <- !app_assoc. reflexivity. }
  all: repeat (apply Forall_cons in Hb as [? Hb]); clear Hb.
  all: pose (sh := list_ascii_of_string short); pose (lg := list_ascii_of_string long).
  all: pose (z2 := ["0"%char; "0"%char]).
  all: unfold gecko_tail; run_block; unfold put; cbn [list_ascii_of_string].
  - tail_long_only.
  - tail_short (format_hex 2 b0 ++ z2 ++ z2 ++ z2).
  - tail_short (format_hex 2 b0 ++ format_hex 2 b1 ++ z2 ++ z2).
  - tail_short (format_hex 2 b0 ++ format_hex 2 b1 ++ format_hex 2 b2 ++ z2).
  - tail_short (format_hex 2 b0 ++ format_hex 2 b1 ++ format_hex 2 b2 ++ format_hex 2 b3).
  - tail_long (format_hex 2 b0 ++ format_hex 2 b1 ++ format_hex 2 b2 ++ format_hex 2 b3)
              (format_hex 2 b4 ++ z2 ++ z2 ++ z2).
  - tail_long (format_hex 2 b0 ++ format_hex 2 b1 ++ format_hex 2 b2 ++ format_hex 2 b3)
              (format_hex 2 b4 ++ format_hex 2 b5 ++ z2 ++ z2).
  - tail_long (format_hex 2 b0 ++ format_hex 2 b1 ++ format_hex 2 b2 ++ format_hex 2 b3)
              (format_hex 2 b4 ++ format_hex 2 b5 ++ format_hex 2 b6 ++ z2).
Qed.

End GeckoBlock.

Lemma gecko_nlines_count (size count : nat) :
  size <> 0%nat ->
  count = (size / 8 + (if (size mod 8 <=? 4) then 1 else 2))%nat ->
  gecko_nlines size = (wrap32 (Z.of_nat count), closes_on_new_line size).
Proof.
  intros Hs ->. unfold gecko_nlines, closes_on_new_line.
  unfold wrap32, wrap. change (2 ^ 32) with 4294967296.
  destruct (Nat.eqb_spec (size mod 8) 0) as [H0|H0];
    destruct (Nat.ltb_spec 4 (size mod 8)) as [H4|H4];
    destruct (Nat.leb_spec (size mod 8) 4) as [H5|H5];
    try lia; cbn [orb]; f_equal; lia.
Qed.

Lemma DeserializeBlock_gecko_tail (long short : string) (blk : CodeBlock.t)
    (out : list ascii) :
  (if closes_on_new_line (length (CodeBlock.instructions blk))
   then put (DeserializeBlock blk out true) long ++ [newline]
   else put (DeserializeBlock blk out true) short ++ [newline])
  = gecko_tail long short (CodeBlock.instructions blk) 0 out.
Proof.
  unfold gecko_tail, DeserializeBlock, closes_on_new_line. cbn [Nat.add].
  destruct (DeserializeBlock_pad 3 _ _ false) as [[i' out'] did_pad]. reflexivity.
Qed.

(** X23.  For a block that is not empty, [DeserializeToGeckoExec] writes a
    header whose count is the number of lines that follow it (modulo 2^32),
    every one of these lines is two words of eight hexadecimal digits, and the
    digits of the lines, read in order, are the bytes of the block, zero bytes
    up to a multiple of four, and the closing [blr], followed by a zero word
    when it starts a line. *)
Theorem GeckoExec_block_lines (blk : CodeBlock.t) (out : list ascii) :
  CodeBlock.instructions blk <> [] ->
  Forall (fun b => 0 <= b < 256) (CodeBlock.instructions blk) ->
  let size := length (CodeBlock.instructions blk) in
  exists lines : list (list ascii),
    DeserializeToGeckoExec [blk] out
    = out ++ list_ascii_of_string "c0000000 "
        ++ format_hex 8 (wrap32 (Z.of_nat (length lines))) ++ [newline]
        ++ lines_text lines
    /\ Forall (fun l => is_gecko_line l = true) lines
    /\ payload (lines_text lines)
       = concat (format_hex 2 <$> CodeBlock.instructions blk)
         ++ repeat "0"%char (2 * pad4_bytes size)
         ++ list_ascii_of_string
              (if closes_on_new_line size then "4e80002000000000" else "4e800020").
Proof.
  intros Hne Hb size.
  destruct (gecko_tail_lines "4e800020 00000000" "4e800020" eq_refl eq_refl eq_refl
              (S size) (CodeBlock.instructions blk) 0
              (put out "c0000000 "
                 ++ format_hex 8 (fst (gecko_nlines size)) ++ [newline]))
    as (lines & E & F & L & P); [unfold size; lia | reflexivity | exact Hb |].
  exists lines.
  assert (Hs : size <> 0%nat).
  { unfold size. destruct (CodeBlock.instructions blk); [congruence | simpl; lia]. }
  pose proof (gecko_nlines_count size (length lines) Hs L) as Hc.
  split; [|split; [exact F|]].
  - unfold DeserializeToGeckoExec. cbn [fold_left].
    assert (Hm : forall x y : list ascii,
               match CodeBlock.instructions blk with [] => x | _ :: _ => y end = y)
      by (intros; destruct (CodeBlock.instructions blk); [congruence | reflexivity]).
    rewrite Hm. unfold size in *. rewrite Hc in *. cbn [fst] in E. cbv beta iota.
    rewrite (DeserializeBlock_gecko_tail "4e800020 00000000" "4e800020"), E.
    unfold put. rewrite <- !app_assoc. reflexivity.
  - rewrite P. unfold size. destruct (closes_on_new_line _); reflexivity.
Qed.

Lemma GeckoExec_block_lines_witness :
  let blk := CodeBlock.mk 2147496960 [56; 96; 0; 1; 144; 100] in
  CodeBlock.instructions blk <> []
  /\ Forall (fun b => 0 <= b < 256) (CodeBlock.instructions blk)
  /\ exists lines : list (list ascii),
       DeserializeToGeckoExec [blk] []
       = [] ++ list_ascii_of_string "c0000000 "
           ++ format_hex 8 (wrap32 (Z.of_nat (length lines))) ++ [newline]
           ++ lines_text lines
       /\ Forall (fun l => is_gecko_line l = true) lines
       /\ payload (lines_text lines)
          = concat (format_hex 2 <$> CodeBlock.instructions blk)
            ++ repeat "0"%char (2 * pad4_bytes 6)
            ++ list_ascii_of_string
                 (if closes_on_new_line 6 then "4e80002000000000" else "4e800020").
Proof.
  intros blk.
  assert (H1 : CodeBlock.instructions blk <> []) by discriminate.
  assert (H2 : Forall (fun b => 0 <= b < 256) (CodeBlock.instructions blk))
    by (repeat constructor; simpl; lia).
  split; [exact H1|]. split; [exact H2|].
  exact (GeckoExec_block_lines blk [] H1 H2).
Defined.

(** X24.  For a block that is not empty, [DeserializeToGeckoTramp] writes a
    header with the injection address and a count that is the number of lines
    that follow it (modulo 2^32), every one of these lines is two words of
    eight hexadecimal digits, and the digits of the lines, read in order, are
    the bytes of the block, zero bytes up to a multiple of four, and a closing
    zero word, preceded by a [nop] when it starts a line. *)
Theorem GeckoTramp_block_lines (blk : CodeBlock.t) (out : list ascii) :
  CodeBlock.instructions blk <> [] ->
  Forall (fun b => 0 <= b < 256) (CodeBlock.instructions blk) ->
  let size := length (CodeBlock.instructions blk) in
  exists lines : list (list ascii),
    DeserializeToGeckoTramp [blk] out
    = out ++ list_ascii_of_string "c"
        ++ format_hex 7
             (Z.lor (Z.land (CodeBlock.block_address blk) 33554431) 33554432)
        ++ [" "%char]
        ++ format_hex 8 (wrap32 (Z.of_nat (length lines))) ++ [newline]
        ++ lines_text lines
    /\ Forall (fun l => is_gecko_line l = true) lines
    /\ payload (lines_text lines)
       = concat (format_hex 2 <$> CodeBlock.instructions blk)
         ++ repeat "0"%char (2 * pad4_bytes size)
         ++ list_ascii_of_string
              (if closes_on_new_line size then "6000000000000000" else "00000000").
Proof.
  intros Hne Hb size.
  destruct (gecko_tail_lines "60000000 00000000" "00000000" eq_refl eq_refl eq_refl
              (S size) (CodeBlock.instructions blk) 0
              (put out "c"
                 ++ format_hex 7
                      (Z.lor (Z.land (CodeBlock.block_address blk) 33554431) 33554432)
                 ++ [" "%char]
                 ++ format_hex 8 (fst (gecko_nlines size)) ++ [newline]))
    as (lines & E & F & L & P); [unfold size; lia | reflexivity | exact Hb |].
  exists lines.
  assert (Hs : size <> 0%nat).
  { unfold size. destruct (CodeBlock.instructions blk); [congruence | simpl; lia]. }
  pose proof (gecko_nlines_count size (length lines) Hs L) as Hc.
  split; [|split; [exact F|]].
  - unfold DeserializeToGeckoTramp. cbn [fold_left].
    assert (Hm : forall x y : list ascii,
               match CodeBlock.instructions blk with [] => x | _ :: _ => y end = y)
      by (intros; destruct (CodeBlock.instructions blk); [congruence | reflexivity]).
    rewrite Hm. unfold size in *. rewrite Hc in *. cbn [fst] in E.
    cbv beta iota zeta.
    rewrite (DeserializeBlock_gecko_tail "60000000 00000000" "00000000"), E.
    unfold put. rewrite <- !app_assoc. reflexivity.
  - rewrite P. unfold size. destruct (closes_on_new_line _); reflexivity.
Qed.

Lemma GeckoTramp_block_lines_witness :
  let blk := CodeBlock.mk 2147496960 [56; 96; 0; 1] in
  CodeBlock.instructions blk <> []
  /\ Forall (fun b => 0 <= b < 256) (CodeBlock.instructions blk)
  /\ exists lines : list (list ascii),
       DeserializeToGeckoTramp [blk] []
       = [] ++ list_ascii_of_string "c"
           ++ format_hex 7
                (Z.lor (Z.land (CodeBlock.block_address blk) 33554431) 33554432)
           ++ [" "%char]
           ++ format_hex 8 (wrap32 (Z.of_nat (length lines))) ++ [newline]
           ++ lines_text lines
       /\ Forall (fun l => is_gecko_line l = true) lines
       /\ payload (lines_text lines)
          = concat (format_hex 2 <$> CodeBlock.instructions blk)
            ++ repeat "0"%char (2 * pad4_bytes 4)
            ++ list_ascii_of_string
                 (if closes_on_new_line 4 then "6000000000000000" else "00000000").
Proof.
  intros blk.
  assert (H1 : CodeBlock.instructions blk <> []) by discriminate.
  assert (H2 : Forall (fun b => 0 <= b < 256) (CodeBlock.instructions blk))
    by (repeat constructor; simpl; lia).
  split; [exact H1|]. split; [exact H2|].
  exact (GeckoTramp_block_lines blk [] H1 H2).
Defined.

(** * The references of an operand are made from its instruction *)

(** ** The parser functions over the plugin without the end of an instruction *)

(** None of the parser functions but [ParseInstruction] (and [ParseLine] and
    the functions above it) issues the callout at the end of an instruction:
    over the plugin without that callout they are the same functions. *)
Section Within.
Variable platform : Platform.

Abbreviation PW := (GekkoIRPlugin_within_instruction platform).
Abbreviation PR := (GekkoIRPlugin_ParsePlugin platform).

Lemma ParseImm_within : ParseImm (plugin_impl := PW) = ParseImm (plugin_impl := PR).
Proof. reflexivity. Qed.

Lemma ParseIdLocation_within : ParseIdLocation (plugin_impl := PW) = ParseIdLocation (plugin_impl := PR).
Proof. reflexivity. Qed.

Lemma ParsePpcBuiltin_within : ParsePpcBuiltin (plugin_impl := PW) = ParsePpcBuiltin (plugin_impl := PR).
Proof. reflexivity. Qed.

Lemma ParseBaseexpr_within : ParseBaseexpr (plugin_impl := PW) = ParseBaseexpr (plugin_impl := PR).
Proof. reflexivity. Qed.

Lemma ParseParen_body_within bitor :
  ParseParen_body (plugin_impl := PW) bitor = ParseParen_body (plugin_impl := PR) bitor.
Proof. reflexivity. Qed.

Lemma ParseUnary_body_within fuel paren :
  ParseUnary_body (plugin_impl := PW) fuel paren = ParseUnary_body (plugin_impl := PR) fuel paren.
Proof. induction fuel as [|fuel IH]; simpl; [reflexivity | rewrite IH; reflexivity]. Qed.

Lemma binary_operator_loop_within fuel level operand :
  binary_operator_loop (plugin_impl := PW) fuel level operand
  = binary_operator_loop (plugin_impl := PR) fuel level operand.
Proof. induction fuel as [|fuel IH]; simpl; [reflexivity | rewrite IH; reflexivity]. Qed.

Lemma binary_level_within fuel level operand :
  binary_level (plugin_impl := PW) fuel level operand
  = binary_level (plugin_impl := PR) fuel level operand.
Proof. unfold binary_level. rewrite binary_operator_loop_within. reflexivity. Qed.

Lemma ParseBitor_within fuel :
  ParseBitor (plugin_impl := PW) fuel = ParseBitor (plugin_impl := PR) fuel.
Proof.
  induction fuel as [|fuel IH]; simpl; [reflexivity|].
  rewrite IH, !binary_level_within, ParseUnary_body_within, ParseParen_body_within.
  reflexivity.
Qed.

Lemma ParseOperand_within fuel :
  ParseOperand (plugin_impl := PW) fuel = ParseOperand (plugin_impl := PR) fuel.
Proof. unfold ParseOperand. rewrite ParseBitor_within. reflexivity. Qed.

Lemma run_parse_steps_within fuel steps :
  run_parse_steps (plugin_impl := PW) fuel steps
  = run_parse_steps (plugin_impl := PR) fuel steps.
Proof.
  induction steps as [|step rest IH]; [reflexivity|].
  destruct step; cbn [run_parse_steps]; rewrite IH, ?ParseOperand_within; reflexivity.
Qed.

Lemma ParseOperandList_within fuel alg :
  ParseOperandList (plugin_impl := PW) fuel alg
  = ParseOperandList (plugin_impl := PR) fuel alg.
Proof.
  unfold ParseOperandList. rewrite ParseOperand_within.
  destruct alg; first [apply run_parse_steps_within | reflexivity].
Qed.

Lemma ParseLabel_within : ParseLabel (plugin_impl := PW) = ParseLabel (plugin_impl := PR).
Proof. reflexivity. Qed.

Lemma ParseResolvedExpr_within fuel :
  ParseResolvedExpr (plugin_impl := PW) fuel = ParseResolvedExpr (plugin_impl := PR) fuel.
Proof. unfold ParseResolvedExpr. rewrite ParseBitor_within. reflexivity. Qed.

Lemma ParseExpressionList_within fuel :
  ParseExpressionList (plugin_impl := PW) fuel
  = ParseExpressionList (plugin_impl := PR) fuel.
Proof. unfold ParseExpressionList. rewrite ParseResolvedExpr_within. reflexivity. Qed.

Lemma ParseFloat_within : ParseFloat (plugin_impl := PW) = ParseFloat (plugin_impl := PR).
Proof. reflexivity. Qed.

Lemma ParseFloatList_within fuel :
  ParseFloatList (plugin_impl := PW) fuel = ParseFloatList (plugin_impl := PR) fuel.
Proof. unfold ParseFloatList. rewrite ParseFloat_within. reflexivity. Qed.

Lemma ParseDefvar_within fuel :
  ParseDefvar (plugin_impl := PW) fuel = ParseDefvar (plugin_impl := PR) fuel.
Proof. unfold ParseDefvar. rewrite ParseResolvedExpr_within. reflexivity. Qed.

Lemma ParseString_within : ParseString (plugin_impl := PW) = ParseString (plugin_impl := PR).
Proof. reflexivity. Qed.

Lemma ParseDirective_within fuel :
  ParseDirective (plugin_impl := PW) fuel = ParseDirective (plugin_impl := PR) fuel.
Proof.
  unfold ParseDirective.
  rewrite ParseExpressionList_within, ParseFloatList_within, ParseResolvedExpr_within,
    ParseImm_within, ParseDefvar_within, ParseString_within.
  reflexivity.
Qed.

End Within.

(** ** Steps of the parser between two states of a family *)

Section Steps.
Context {P : Type}.
Variable G : nat -> P -> Prop.

Lemma steps_of_quietly {A : Type} k k' (c : M P A) :
  steps_quietly G k k' c -> steps G k k' c.
Proof. intros H st r st' E He HG _. exact (proj2 (H st r st' E He HG)). Qed.

Lemma quietly_ret {A : Type} k (x : A) : steps_quietly G k k (ret x).
Proof. intros st r st' E He HG. inversion E; subst. auto. Qed.

Lemma quietly_bind {A B : Type} k m k' (c : M P A) (kont : A -> M P B) :
  steps_quietly G k m c -> (forall x, steps_quietly G m k' (kont x)) ->
  steps_quietly G k k' (bind c kont).
Proof.
  intros Hc Hk st r st' E He HG. unfold bind in E.
  destruct (c st) as [[x st1]| |] eqn:E1; try discriminate.
  destruct (Hc st x st1 E1 He HG) as [He1 HG1].
  exact (Hk x st1 r st' E He1 HG1).
Qed.

Lemma steps_bind_quietly {A B : Type} k m k' (c : M P A) (kont : A -> M P B) :
  steps_quietly G k m c -> (forall x, steps G m k' (kont x)) ->
  steps G k k' (bind c kont).
Proof.
  intros Hc Hk st r st' E He HG. unfold bind in E.
  destruct (c st) as [[x st1]| |] eqn:E1; try discriminate.
  destruct (Hc st x st1 E1 He HG) as [He1 HG1].
  exact (Hk x st1 r st' E He1 HG1).
Qed.

Lemma steps_bind_unless {A : Type} k m k' (c : M P A) (kont : M P unit) :
  steps G k m c -> steps G m k' kont ->
  steps G k k' (bind c (fun _ => unless_error kont)).
Proof.
  intros Hc Hk st r st' E He HG He'. unfold bind in E.
  destruct (c st) as [[x st1]| |] eqn:E1; try discriminate.
  unfold unless_error, bind, get_error in E.
  destruct (error st1) as [e|] eqn:E2.
  - inversion E; subst. congruence.
  - exact (Hk st1 r st' E E2 (Hc st x st1 E1 He HG E2) He').
Qed.

Lemma steps_unless_error k k' (c : M P unit) :
  steps G k k' c -> steps G k k' (unless_error c).
Proof.
  intros Hc st r st' E He HG. unfold unless_error, bind, get_error in E.
  rewrite He in E. exact (Hc st r st' E He HG).
Qed.

Lemma steps_when k (b : bool) (c : M P unit) :
  steps G k k c -> steps G k k (when b c).
Proof.
  intros Hc. destruct b; [exact Hc|]. apply steps_of_quietly, quietly_ret.
Qed.

Lemma quietly_when k (b : bool) (c : M P unit) :
  steps_quietly G k k c -> steps_quietly G k k (when b c).
Proof. intros Hc. destruct b; [exact Hc | apply quietly_ret]. Qed.

Lemma steps_abort {A : Type} k k' why : steps G k k' (abort (A := A) why).
Proof. intros st r st' E. discriminate. Qed.

Lemma quietly_abort {A : Type} k k' why : steps_quietly G k k' (abort (A := A) why).
Proof. intros st r st' E. discriminate. Qed.

Lemma steps_out_of_fuel {A : Type} k k' : steps G k k' (out_of_fuel (A := A)).
Proof. intros st r st' E. discriminate. Qed.

Lemma quietly_lex {A : Type} k (f : Lexer -> A * Lexer) : steps_quietly G k k (lex f).
Proof.
  intros st r st' E He HG. unfold lex in E. destruct (f (lexer st)).
  inversion E; subst. auto.
Qed.

Lemma quietly_lex_ k (f : Lexer -> Lexer) : steps_quietly G k k (lex_ f).
Proof. intros st r st' E He HG. inversion E; subst. auto. Qed.

Lemma quietly_lex_get {A : Type} k (f : Lexer -> A) : steps_quietly G k k (lex_get f).
Proof. intros st r st' E He HG. inversion E; subst. auto. Qed.

Lemma quietly_get_plugin_bind {A : Type} k k' (kont : P -> M P A) :
  (forall p, G k p -> steps_quietly G k k' (kont p)) ->
  steps_quietly G k k' (bind get_plugin kont).
Proof. intros H st r st' E He HG. exact (H (plugin st) HG st r st' E He HG). Qed.

Lemma quietly_modify_plugin k k' (f : P -> P) :
  (forall p, G k p -> G k' (f p)) -> steps_quietly G k k' (modify_plugin f).
Proof. intros H st r st' E He HG. inversion E; subst. simpl. auto. Qed.

Lemma quietly_HasToken k tp : steps_quietly G k k (HasToken tp).
Proof.
  unfold HasToken. eapply quietly_bind; [apply quietly_lex|]. intros t. apply quietly_ret.
Qed.

Lemma EmitErrorHere_sets_error (message : string) (st st' : ParseState P) r :
  EmitErrorHere message st = Done (r, st') -> error st' <> None.
Proof.
  unfold EmitErrorHere, bind, lex, lex_get, set_error.
  destruct (Lookahead (lexer st)) as [tok lx]. simpl.
  destruct (token_type tok); intros E; inversion E; subst; discriminate.
Qed.

Lemma steps_EmitErrorHere k k' message : steps G k k' (EmitErrorHere message).
Proof.
  intros st r st' E He HG He'. exfalso.
  exact (EmitErrorHere_sets_error _ _ _ _ E He').
Qed.

Lemma steps_ParseToken k tp : steps G k k (ParseToken tp).
Proof.
  unfold ParseToken. eapply steps_bind_quietly; [apply quietly_lex|]. intros tok.
  destruct (TokenType.eqb (token_type tok) tp);
    [apply steps_of_quietly, quietly_lex_ | apply steps_EmitErrorHere].
Qed.

End Steps.

Create HintDb steps.

#[local] Hint Resolve quietly_ret quietly_abort quietly_lex quietly_lex_ quietly_lex_get
  quietly_HasToken steps_abort steps_out_of_fuel steps_EmitErrorHere steps_ParseToken
  : steps.

#[local] Hint Extern 5 (steps _ _ _ _) =>
  (apply steps_of_quietly; solve [eauto with steps]) : steps.

(** One step of a structural proof of [steps] or [steps_quietly]. *)
Ltac steps_step :=
  match goal with
  | |- steps _ _ _ (bind _ (fun _ => unless_error _)) => eapply steps_bind_unless
  | |- steps _ _ _ (bind _ _) => eapply steps_bind_quietly; [|intros ?]
  | |- steps_quietly _ _ _ (bind _ _) => eapply quietly_bind; [|intros ?]
  | |- steps _ _ _ (unless_error _) => apply steps_unless_error
  | |- steps _ _ _ (when _ _) => apply steps_when
  | |- steps_quietly _ _ _ (when _ _) => apply quietly_when
  | |- steps _ _ _ (match ?x with _ => _ end) => destruct x
  | |- steps_quietly _ _ _ (match ?x with _ => _ end) => destruct x
  | |- steps _ _ _ _ => solve [eauto with steps]
  | |- steps_quietly _ _ _ _ => solve [eauto with steps]
  end.

Ltac steps_all := repeat steps_step.

(** ** The callouts issued while the operands of an instruction are parsed *)

Section InstructionFrame.
Variable platform : Platform.
Variable p0 : GekkoIRPlugin.
Variable b0 : IRBlock.
Hypothesis Hb0 : blocks (output_result p0) !! active_block p0 = Some b0.

Let a := BlockEndAddress b0.
Let G := within_instruction a p0.

Lemma quietly_push_fixup k f :
  refs_from a f -> steps_quietly G k (S k) (push_fixup f).
Proof.
  intros Hf. apply quietly_modify_plugin.
  intros p (B & Ac & Sb & Md & (xs & St & Ln & Fx) & Of).
  refine (conj B (conj Ac (conj Sb (conj Md (conj _ Of))))).
  exists (f :: xs). simpl. rewrite St, Ln. repeat split.
  constructor; assumption.
Qed.

Lemma quietly_pop_fixup_bind {A : Type} k k' (kont : Fixup -> M GekkoIRPlugin A) :
  (forall x, refs_from a x -> steps_quietly G k k' (kont x)) ->
  steps_quietly G (S k) k' (bind pop_fixup kont).
Proof.
  intros H st r st' E He HG.
  destruct HG as (B & Ac & Sb & Md & (xs & St & Ln & Fx) & Of).
  destruct xs as [|x xs]; [discriminate Ln|].
  apply Forall_cons in Fx as [Hx Fx].
  unfold bind at 1, pop_fixup, bind, get_plugin, put_plugin, ret in E.
  rewrite St in E. simpl in E.
  refine (H x Hx _ r st' E He _). simpl.
  refine (conj B (conj Ac (conj Sb (conj Md (conj _ Of))))).
  exists xs. simpl in Ln. repeat split; [lia | exact Fx].
Qed.

Lemma quietly_CurrentAddress_bind {A : Type} k k' (kont : Z -> M GekkoIRPlugin A) :
  steps_quietly G k k' (kont a) -> steps_quietly G k k' (bind CurrentAddress kont).
Proof.
  intros H st r st' E He HG.
  destruct HG as (B & Ac & Rest).
  assert (Hb : blocks (output_result (plugin st)) !! active_block (plugin st) = Some b0)
    by (rewrite B, Ac; exact Hb0).
  unfold bind at 1 in E. rewrite (CurrentAddress_run st b0 Hb) in E.
  exact (H st r st' E He (conj B (conj Ac Rest))).
Qed.

Lemma quietly_AddLiteral k lit : steps_quietly G k (S k) (AddLiteral lit).
Proof. apply quietly_push_fixup. exact I. Qed.

Lemma quietly_AddSymbolResolve k sym absolute :
  steps_quietly G k (S k) (AddSymbolResolve sym absolute).
Proof.
  unfold AddSymbolResolve. apply quietly_CurrentAddress_bind.
  eapply quietly_bind; [apply quietly_lex_get|]. intros l.
  eapply quietly_bind; [apply quietly_lex_get|]. intros n.
  eapply quietly_bind; [apply quietly_lex_get|]. intros c.
  apply quietly_push_fixup. reflexivity.
Qed.

Lemma quietly_AddBinaryEvaluator k evaluator :
  steps_quietly G (S (S k)) (S k) (AddBinaryEvaluator evaluator).
Proof.
  unfold AddBinaryEvaluator.
  apply quietly_pop_fixup_bind. intros rhs Hr.
  apply quietly_pop_fixup_bind. intros lhs Hl.
  apply quietly_push_fixup. split; assumption.
Qed.

Lemma quietly_AddUnaryEvaluator k evaluator :
  steps_quietly G (S k) (S k) (AddUnaryEvaluator evaluator).
Proof.
  unfold AddUnaryEvaluator.
  apply quietly_pop_fixup_bind. intros sub Hs.
  apply quietly_push_fixup. exact Hs.
Qed.

Lemma quietly_AddAbsoluteAddressConv k :
  steps_quietly G (S k) (S k) AddAbsoluteAddressConv.
Proof.
  unfold AddAbsoluteAddressConv. apply quietly_CurrentAddress_bind.
  apply quietly_pop_fixup_bind. intros sub Hs.
  apply quietly_push_fixup. split; [reflexivity | exact Hs].
Qed.

Lemma quietly_SaveOperandFixup k str_left str_right :
  steps_quietly G (S k) k (SaveOperandFixup str_left str_right).
Proof.
  unfold SaveOperandFixup.
  apply quietly_pop_fixup_bind. intros top Ht.
  apply quietly_modify_plugin.
  intros p (B & Ac & Sb & Md & Stk & (fs & Of & Ff)).
  refine (conj B (conj Ac (conj Sb (conj Md (conj Stk _))))).
  exists (fs ++ [top]). simpl. rewrite Of, app_assoc. split; [reflexivity|].
  apply Forall_app. split; [exact Ff | constructor; [exact Ht | constructor]].
Qed.

#[local] Hint Resolve quietly_AddLiteral quietly_AddSymbolResolve
  quietly_AddBinaryEvaluator quietly_AddUnaryEvaluator quietly_AddAbsoluteAddressConv
  quietly_SaveOperandFixup : steps.

Lemma quietly_EvalTerminalRel k type tok :
  steps_quietly G k (S k) (EvalTerminalRel type tok).
Proof.
  unfold EvalTerminalRel. destruct type;
    first [ apply quietly_CurrentAddress_bind; apply quietly_AddLiteral
          | apply quietly_get_plugin_bind; intros p _; steps_all
          | cbn [is_value_terminal]; steps_all ].
Qed.

Lemma quietly_OnTerminal k type tok :
  type <> Terminal.kStr ->
  steps_quietly G k (S k)
    (OnTerminal (ParsePlugin := GekkoIRPlugin_ParsePlugin platform) type tok).
Proof.
  intros Ht. cbn [OnTerminal GekkoIRPlugin_ParsePlugin]. unfold GekkoIRPlugin_OnTerminal.
  destruct type; try contradiction;
    (apply quietly_get_plugin_bind; intros p (_ & _ & _ & Md & _); rewrite Md;
     apply quietly_EvalTerminalRel).
Qed.

Lemma quietly_OnOperator_binary k op :
  op <> AsmOp.kNeg -> op <> AsmOp.kNot ->
  steps_quietly G (S (S k)) (S k)
    (OnOperator (ParsePlugin := GekkoIRPlugin_ParsePlugin platform) op).
Proof.
  intros H1 H2. cbn [OnOperator GekkoIRPlugin_ParsePlugin]. unfold GekkoIRPlugin_OnOperator.
  apply quietly_get_plugin_bind; intros p (_ & _ & _ & Md & _); rewrite Md.
  unfold EvalOperatorRel. destruct op; try contradiction; apply quietly_AddBinaryEvaluator.
Qed.

Lemma quietly_OnOperator_unary k op :
  op = AsmOp.kNeg \/ op = AsmOp.kNot ->
  steps_quietly G (S k) (S k)
    (OnOperator (ParsePlugin := GekkoIRPlugin_ParsePlugin platform) op).
Proof.
  intros H. cbn [OnOperator GekkoIRPlugin_ParsePlugin]. unfold GekkoIRPlugin_OnOperator.
  apply quietly_get_plugin_bind; intros p (_ & _ & _ & Md & _); rewrite Md.
  unfold EvalOperatorRel. destruct H as [-> | ->]; apply quietly_AddUnaryEvaluator.
Qed.

Lemma quietly_OnHiaddr k id :
  steps_quietly G k (S k)
    (OnHiaddr (ParsePlugin := GekkoIRPlugin_ParsePlugin platform) id).
Proof.
  cbn [OnHiaddr GekkoIRPlugin_ParsePlugin]. unfold GekkoIRPlugin_OnHiaddr.
  apply quietly_get_plugin_bind; intros p (_ & _ & _ & Md & _); rewrite Md.
  steps_all.
Qed.

Lemma quietly_OnLoaddr k id :
  steps_quietly G k (S k)
    (OnLoaddr (ParsePlugin := GekkoIRPlugin_ParsePlugin platform) id).
Proof.
  cbn [OnLoaddr GekkoIRPlugin_ParsePlugin]. unfold GekkoIRPlugin_OnLoaddr.
  apply quietly_get_plugin_bind; intros p (_ & _ & _ & Md & _); rewrite Md.
  steps_all.
Qed.

Lemma quietly_OnOpenParen k type :
  steps_quietly G k k
    (OnOpenParen (ParsePlugin := GekkoIRPlugin_ParsePlugin platform) type).
Proof. apply quietly_ret. Qed.

Lemma quietly_OnCloseParen_normal k :
  steps_quietly G k k
    (OnCloseParen (ParsePlugin := GekkoIRPlugin_ParsePlugin platform) ParenType.kNormal).
Proof.
  cbn [OnCloseParen GekkoIRPlugin_ParsePlugin]. unfold GekkoIRPlugin_OnCloseParen.
  apply quietly_get_plugin_bind; intros p (_ & _ & _ & Md & _); rewrite Md.
  apply quietly_ret.
Qed.

Lemma quietly_OnCloseParen_relconv k :
  steps_quietly G (S k) (S k)
    (OnCloseParen (ParsePlugin := GekkoIRPlugin_ParsePlugin platform) ParenType.kRelConv).
Proof.
  cbn [OnCloseParen GekkoIRPlugin_ParsePlugin]. unfold GekkoIRPlugin_OnCloseParen.
  apply quietly_get_plugin_bind; intros p (_ & _ & _ & Md & _); rewrite Md.
  apply quietly_AddAbsoluteAddressConv.
Qed.

Lemma quietly_OnOperandPre k :
  steps_quietly G k k (OnOperandPre (ParsePlugin := GekkoIRPlugin_ParsePlugin platform)).
Proof.
  cbn [OnOperandPre GekkoIRPlugin_ParsePlugin]. unfold GekkoIRPlugin_OnOperandPre.
  eapply quietly_bind; [apply quietly_lex_get|]. intros c.
  apply quietly_modify_plugin. intros p H. exact H.
Qed.

Lemma quietly_OnOperandPost k :
  steps_quietly G (S k) k
    (OnOperandPost (ParsePlugin := GekkoIRPlugin_ParsePlugin platform)).
Proof.
  cbn [OnOperandPost GekkoIRPlugin_ParsePlugin]. unfold GekkoIRPlugin_OnOperandPost.
  apply quietly_get_plugin_bind. intros p _.
  eapply quietly_bind; [apply quietly_lex_get|]. intros c.
  apply quietly_SaveOperandFixup.
Qed.

#[local] Hint Resolve quietly_OnHiaddr quietly_OnLoaddr quietly_OnOpenParen
  quietly_OnCloseParen_normal quietly_OnCloseParen_relconv quietly_OnOperandPre
  quietly_OnOperandPost : steps.

#[local] Hint Extern 1 (steps_quietly _ _ _ (OnTerminal _ _)) =>
  (apply quietly_OnTerminal; discriminate) : steps.

#[local] Hint Extern 1 (steps_quietly _ _ _ (OnOperator _)) =>
  (apply quietly_OnOperator_unary; auto) : steps.

(** ** The expression grammar pushes one fixup *)

Abbreviation PR := (GekkoIRPlugin_ParsePlugin platform).

Lemma ParseImm_steps k : steps G k (S k) (ParseImm (plugin_impl := PR)).
Proof. unfold ParseImm. steps_all. Qed.

Lemma ParseId_steps k : steps G k (S k) (ParseId (plugin_impl := PR)).
Proof. unfold ParseId. steps_all. Qed.

#[local] Hint Resolve ParseImm_steps ParseId_steps : steps.

Lemma ParseIdLocation_steps k : steps G k (S k) (ParseIdLocation (plugin_impl := PR)).
Proof. unfold ParseIdLocation. steps_all. Qed.

Lemma ParsePpcBuiltin_steps k : steps G k (S k) (ParsePpcBuiltin (plugin_impl := PR)).
Proof. unfold ParsePpcBuiltin. steps_all. Qed.

#[local] Hint Resolve ParseIdLocation_steps ParsePpcBuiltin_steps : steps.

Lemma ParseBaseexpr_steps k : steps G k (S k) (ParseBaseexpr (plugin_impl := PR)).
Proof. unfold ParseBaseexpr. steps_all. Qed.

#[local] Hint Resolve ParseBaseexpr_steps : steps.

Lemma ParseParen_body_steps (bitor : M GekkoIRPlugin unit) :
  (forall k, steps G k (S k) bitor) ->
  forall k, steps G k (S k) (ParseParen_body (plugin_impl := PR) bitor).
Proof. intros Hb k. unfold ParseParen_body. steps_all. Qed.

Lemma ParseUnary_body_steps (fuel : nat) (paren : M GekkoIRPlugin unit) :
  (forall k, steps G k (S k) paren) ->
  forall k, steps G k (S k) (ParseUnary_body (plugin_impl := PR) fuel paren).
Proof.
  intros Hp. induction fuel as [|fuel IH]; intros k; cbn [ParseUnary_body];
    [apply steps_out_of_fuel|].
  steps_all.
Qed.

Lemma binary_operator_loop_steps (fuel : nat) level (operand : M GekkoIRPlugin unit) :
  (forall tok op, level tok = Some op -> op <> AsmOp.kNeg /\ op <> AsmOp.kNot) ->
  (forall k, steps G k (S k) operand) ->
  forall k, steps G (S k) (S k) (binary_operator_loop (plugin_impl := PR) fuel level operand).
Proof.
  intros Hl Ho. induction fuel as [|fuel IH]; intros k; cbn [binary_operator_loop];
    [apply steps_out_of_fuel|].
  eapply steps_bind_quietly; [apply quietly_lex|]. intros tok.
  destruct (level tok) as [op|] eqn:El; [|apply steps_of_quietly, quietly_ret].
  destruct (Hl tok op El) as [H1 H2].
  eapply steps_bind_quietly; [apply quietly_lex_|]. intros _.
  eapply steps_bind_unless; [apply Ho|].
  eapply steps_bind_quietly; [apply quietly_OnOperator_binary; assumption|]. intros _.
  apply IH.
Qed.

Lemma binary_level_steps (fuel : nat) level (operand : M GekkoIRPlugin unit) :
  (forall tok op, level tok = Some op -> op <> AsmOp.kNeg /\ op <> AsmOp.kNot) ->
  (forall k, steps G k (S k) operand) ->
  forall k, steps G k (S k) (binary_level (plugin_impl := PR) fuel level operand).
Proof.
  intros Hl Ho k. unfold binary_level.
  eapply steps_bind_unless; [apply Ho|].
  apply binary_operator_loop_steps; assumption.
Qed.

Ltac binary_ops :=
  let tok := fresh in let op := fresh in let H := fresh in
  intros tok op H; destruct tok; inversion H; subst; split; discriminate.

Lemma ParseBitor_steps (fuel : nat) :
  forall k, steps G k (S k) (ParseBitor (plugin_impl := PR) fuel).
Proof.
  induction fuel as [|fuel IH]; intros k; cbn [ParseBitor]; [apply steps_out_of_fuel|].
  cbv zeta. revert k.
  repeat (apply binary_level_steps; [binary_ops|]).
  apply ParseUnary_body_steps, ParseParen_body_steps, IH.
Qed.

#[local] Hint Resolve ParseBitor_steps : steps.

Lemma ParseOperand_steps (fuel : nat) k :
  steps G k k (ParseOperand (plugin_impl := PR) fuel).
Proof. unfold ParseOperand. steps_all. Qed.

#[local] Hint Resolve ParseOperand_steps : steps.

Lemma run_parse_steps_steps (fuel : nat) (steps_list : list ParseStep.t) k :
  steps G k k (run_parse_steps (plugin_impl := PR) fuel steps_list).
Proof.
  induction steps_list as [|step rest IH]; cbn [run_parse_steps];
    [apply steps_of_quietly, quietly_ret|].
  destruct step; steps_all.
Qed.

#[local] Hint Resolve run_parse_steps_steps : steps.

Lemma ParseOperandList_steps (fuel : nat) alg k :
  steps G k k (ParseOperandList (plugin_impl := PR) fuel alg).
Proof. unfold ParseOperandList. destruct alg; steps_all. Qed.

End InstructionFrame.

(** ** The instructions of a block keep their address *)

Lemma inst_in_block_prefix pre tl base ci ii :
  (ci < List.length pre)%nat ->
  inst_in_block (mkIRBlock (pre ++ tl) base) ci ii = inst_in_block (mkIRBlock pre base) ci ii.
Proof. intros H. unfold inst_in_block. simpl. rewrite lookup_app_l by exact H. reflexivity. Qed.

Lemma block_before_prefix pre tl base ci ii :
  (ci < List.length pre)%nat ->
  block_before (mkIRBlock (pre ++ tl) base) ci ii = block_before (mkIRBlock pre base) ci ii.
Proof.
  intros H. unfold block_before. simpl.
  rewrite lookup_app_l by exact H. rewrite take_app_le by lia. reflexivity.
Qed.

(** A block whose last chunk was replaced or added: the instructions of the
    chunks before it are where they were. *)
Lemma block_refs_ok_last fixups pre tl c' base :
  block_refs_ok fixups (mkIRBlock (pre ++ tl) base) ->
  (forall ii inst,
     inst_in_block (mkIRBlock (pre ++ [c']) base) (List.length pre) ii = Some inst ->
     (op_index inst + op_count inst <= List.length fixups)%nat
     /\ forall k f,
          (op_index inst <= k < op_index inst + op_count inst)%nat ->
          fixups !! k = Some f ->
          refs_from (instruction_address (mkIRBlock (pre ++ [c']) base) (List.length pre) ii)
            f) ->
  block_refs_ok fixups (mkIRBlock (pre ++ [c']) base).
Proof.
  intros Hold Hnew ci ii inst Hi.
  destruct (lt_eq_lt_dec ci (List.length pre)) as [[Hlt | ->] | Hgt].
  - unfold instruction_address. rewrite block_before_prefix by exact Hlt.
    rewrite inst_in_block_prefix in Hi by exact Hlt.
    rewrite <- (inst_in_block_prefix pre tl) in Hi by exact Hlt.
    rewrite <- (block_before_prefix pre tl) by exact Hlt.
    exact (Hold ci ii inst Hi).
  - exact (Hnew ii inst Hi).
  - unfold inst_in_block in Hi. simpl in Hi.
    rewrite lookup_ge_None_2 in Hi; [discriminate|].
    rewrite length_app. simpl. lia.
Qed.

Lemma last_cases {A : Type} (l : list A) :
  (exists pre x, l = pre ++ [x] /\ last l = Some x /\ removelast l = pre) \/ last l = None.
Proof.
  destruct (last l) as [x|] eqn:E; [left | right; reflexivity].
  apply last_Some in E as [pre ->]. exists pre, x.
  rewrite removelast_last. auto.
Qed.

Lemma block_refs_ok_alter_ByteChunk fixups g b :
  block_refs_ok fixups b -> block_refs_ok fixups (alter_chunks (alter_ByteChunk g) b).
Proof.
  destruct b as [cs base]. intros H. unfold alter_chunks, alter_ByteChunk. simpl.
  destruct (last_cases cs) as [(pre & x & -> & -> & ->) | ->].
  - destruct x as [insts | bytes | count];
      [rewrite <- (app_nil_r (pre ++ [InstChunk insts])) in H | | 
       rewrite <- (app_nil_r (pre ++ [PadChunk count])) in H];
      (eapply block_refs_ok_last; [exact H|]);
      intros ii inst Hi; unfold inst_in_block in Hi; simpl in Hi;
      rewrite lookup_app_r, Nat.sub_diag in Hi by lia; discriminate.
  - rewrite <- (app_nil_r cs) in H. eapply block_refs_ok_last; [exact H|].
    intros ii inst Hi; unfold inst_in_block in Hi; simpl in Hi.
    rewrite lookup_app_r, Nat.sub_diag in Hi by lia. discriminate.
Qed.

Lemma block_refs_ok_alter_PadChunk fixups g b :
  block_refs_ok fixups b -> block_refs_ok fixups (alter_chunks (alter_PadChunk g) b).
Proof.
  destruct b as [cs base]. intros H. unfold alter_chunks, alter_PadChunk. simpl.
  destruct (last_cases cs) as [(pre & x & -> & -> & ->) | ->].
  - destruct x as [insts | bytes | count];
      [rewrite <- (app_nil_r (pre ++ [InstChunk insts])) in H
      | rewrite <- (app_nil_r (pre ++ [ByteChunk bytes])) in H | ];
      (eapply block_refs_ok_last; [exact H|]);
      intros ii inst Hi; unfold inst_in_block in Hi; simpl in Hi;
      rewrite lookup_app_r, Nat.sub_diag in Hi by lia; discriminate.
  - rewrite <- (app_nil_r cs) in H. eapply block_refs_ok_last; [exact H|].
    intros ii inst Hi; unfold inst_in_block in Hi; simpl in Hi.
    rewrite lookup_app_r, Nat.sub_diag in Hi by lia. discriminate.
Qed.

Lemma block_refs_ok_grow fixups more b :
  block_refs_ok fixups b -> block_refs_ok (fixups ++ more) b.
Proof.
  intros H ci ii inst Hi. destruct (H ci ii inst Hi) as [Hr Hf].
  split; [rewrite length_app; lia|].
  intros k f Hk Hl. apply (Hf k f Hk).
  rewrite lookup_app_l in Hl by lia. exact Hl.
Qed.

Lemma block_refs_ok_new fixups address : block_refs_ok fixups (IRBlock_new address).
Proof. intros ci ii inst Hi. unfold inst_in_block in Hi. simpl in Hi. discriminate. Qed.

(** An instruction appended to a block is at the end address the block had. *)
Lemma block_refs_ok_append_instruction fixups inst' b :
  block_refs_ok fixups b ->
  0 <= block_address b < 2 ^ 32 ->
  (op_index inst' + op_count inst' <= List.length fixups)%nat ->
  (forall k f,
     (op_index inst' <= k < op_index inst' + op_count inst')%nat ->
     fixups !! k = Some f -> refs_from (BlockEndAddress b) f) ->
  block_refs_ok fixups
    (alter_chunks (alter_InstChunk (fun insts => insts ++ [inst'])) b).
Proof.
  destruct b as [cs base]. intros H Hbase Hr Hf.
  unfold alter_chunks, alter_InstChunk. simpl in *.
  assert (Hfresh : block_refs_ok fixups (mkIRBlock (cs ++ [InstChunk [inst']]) base)).
  { rewrite <- (app_nil_r cs) in H. eapply block_refs_ok_last; [exact H|].
    intros ii inst Hi. unfold inst_in_block in Hi. simpl in Hi.
    rewrite lookup_app_r, Nat.sub_diag in Hi by lia. simpl in Hi.
    destruct ii as [|ii]; [|discriminate]. inversion Hi; subst inst.
    split; [exact Hr|]. intros k f Hk Hl.
    unfold instruction_address, block_before. simpl.
    rewrite lookup_app_r, Nat.sub_diag by lia. simpl.
    rewrite take_app_le, firstn_all by lia.
    replace (BlockEndAddress (mkIRBlock (cs ++ [InstChunk []]) base))
      with (BlockEndAddress (mkIRBlock cs base)); [exact (Hf k f Hk Hl)|].
    unfold BlockEndAddress. simpl. rewrite fold_left_app. simpl.
    change (wrap32 (wrap64 (0 * 4))) with 0. rewrite Z.add_0_r.
    symmetry. apply wrap32_small.
    exact (BlockEndAddress_range (mkIRBlock cs base) Hbase). }
  destruct (last_cases cs) as [(pre & x & -> & -> & ->) | ->]; [|exact Hfresh].
  destruct x as [insts | bytes | count]; [|exact Hfresh ..].
  eapply block_refs_ok_last; [exact H|].
  intros ii inst Hi. unfold inst_in_block in Hi. simpl in Hi.
  rewrite lookup_app_r, Nat.sub_diag in Hi by lia. simpl in Hi.
  destruct (lt_eq_lt_dec ii (List.length insts)) as [[Hlt | ->] | Hgt].
  - rewrite lookup_app_l in Hi by exact Hlt.
    assert (Hold : inst_in_block (mkIRBlock (pre ++ [InstChunk insts]) base)
                     (List.length pre) ii = Some inst).
    { unfold inst_in_block. simpl. rewrite lookup_app_r, Nat.sub_diag by lia. exact Hi. }
    destruct (H _ _ _ Hold) as [Hr' Hf']. split; [exact Hr'|].
    intros k f Hk Hl.
    replace (instruction_address
               (mkIRBlock (pre ++ [InstChunk (insts ++ [inst'])]) base) (List.length pre) ii)
      with (instruction_address
              (mkIRBlock (pre ++ [InstChunk insts]) base) (List.length pre) ii);
      [exact (Hf' k f Hk Hl)|].
    unfold instruction_address, block_before. simpl.
    rewrite !lookup_app_r, !Nat.sub_diag by lia. simpl.
    rewrite !take_app_le by lia. reflexivity.
  - rewrite lookup_app_r, Nat.sub_diag in Hi by lia. inversion Hi; subst inst.
    split; [exact Hr|]. intros k f Hk Hl.
    replace (instruction_address
               (mkIRBlock (pre ++ [InstChunk (insts ++ [inst'])]) base)
               (List.length pre) (List.length insts))
      with (BlockEndAddress (mkIRBlock (pre ++ [InstChunk insts]) base));
      [exact (Hf k f Hk Hl)|].
    unfold instruction_address, block_before. simpl.
    rewrite lookup_app_r, Nat.sub_diag by lia. simpl.
    rewrite take_app_le, firstn_all by lia.
    rewrite (take_app_le insts), firstn_all by lia. reflexivity.
  - rewrite lookup_ge_None_2 in Hi; [discriminate|].
    rewrite length_app. simpl. lia.
Qed.

(** ** The callouts other than the end of an instruction *)

Section KeepsInstructionReferences.
Variable platform : Platform.

Abbreviation R := operands_refer_from_their_instruction.

#[local] Hint Extern 1 (preserves operands_refer_from_their_instruction (modify_plugin _)) =>
  (apply preserves_modify_plugin; let H := fresh in intros ? H; exact H) : pres.

Ltac keeps_refs := cbv zeta; repeat (pres_step; cbv zeta).

Lemma get_active_block_keeps_refs : preserves R get_active_block.
Proof. unfold get_active_block. keeps_refs. Qed.

#[local] Hint Resolve get_active_block_keeps_refs : pres.

Lemma modify_active_block_keeps_refs (f : IRBlock -> IRBlock) :
  (forall fixups b, block_refs_ok fixups b -> block_refs_ok fixups (f b)) ->
  preserves R (modify_active_block f).
Proof.
  intros Hf st u st' H HJ.
  unfold modify_active_block, bind, get_plugin, put_plugin, ret, abort in H.
  destruct (blocks (output_result (plugin st)) !! active_block (plugin st)) as [b|] eqn:Eb;
    [|discriminate].
  inversion H; subst. unfold operands_refer_from_their_instruction in *. simpl.
  apply Forall_insert; [exact HJ|]. apply Hf.
  exact (Forall_lookup_1 _ _ _ _ HJ Eb).
Qed.

#[local] Hint Extern 1 (preserves operands_refer_from_their_instruction
                          (modify_active_block _)) =>
  (apply modify_active_block_keeps_refs; intros;
   first [apply block_refs_ok_alter_ByteChunk | apply block_refs_ok_alter_PadChunk];
   assumption) : pres.

Lemma CurrentAddress_keeps_refs : preserves R CurrentAddress.
Proof. unfold CurrentAddress. keeps_refs. Qed.

#[local] Hint Resolve CurrentAddress_keeps_refs : pres.

Lemma StartBlock_keeps_refs (address : Z) : preserves R (StartBlock address).
Proof.
  unfold StartBlock. apply preserves_modify_plugin. intros p H.
  unfold operands_refer_from_their_instruction in *. simpl.
  apply Forall_app. split; [exact H|].
  constructor; [apply block_refs_ok_new | constructor].
Qed.

Lemma pop_fixup_keeps_refs : preserves R pop_fixup.
Proof.
  intros st x st' H HJ. unfold pop_fixup, bind, get_plugin, put_plugin, ret, abort in H.
  repeat case_match; simplify_eq; exact HJ.
Qed.

#[local] Hint Resolve StartBlock_keeps_refs pop_fixup_keeps_refs : pres.

Lemma SaveOperandFixup_keeps_refs (str_left str_right : nat) :
  preserves R (SaveOperandFixup str_left str_right).
Proof.
  unfold SaveOperandFixup. apply preserves_bind; [apply pop_fixup_keeps_refs|].
  intros top. apply preserves_modify_plugin. intros p H.
  unfold operands_refer_from_their_instruction in *. simpl.
  eapply Forall_impl; [exact H|]. intros b Hb. apply block_refs_ok_grow. exact Hb.
Qed.

#[local] Hint Resolve SaveOperandFixup_keeps_refs : pres.

Lemma AddStringBytes_keeps_refs (str : string) (null_term : bool) :
  preserves R (AddStringBytes str null_term).
Proof. unfold AddStringBytes. keeps_refs. Qed.

#[local] Hint Resolve AddStringBytes_keeps_refs : pres.

Lemma AddBytes_keeps_refs (size : nat) (val : Z) :
  preserves R (AddBytes size val).
Proof. unfold AddBytes. keeps_refs. Qed.

#[local] Hint Resolve AddBytes_keeps_refs : pres.

Lemma PadAlign_keeps_refs (bits : Z) :
  preserves R (PadAlign bits).
Proof. unfold PadAlign. keeps_refs. Qed.

#[local] Hint Resolve PadAlign_keeps_refs : pres.

Lemma PadSpace_keeps_refs (space : Z) :
  preserves R (PadSpace space).
Proof. unfold PadSpace. keeps_refs. Qed.

#[local] Hint Resolve PadSpace_keeps_refs : pres.

Lemma StartBlockAlign_keeps_refs (bits : Z) :
  preserves R (StartBlockAlign bits).
Proof. unfold StartBlockAlign. keeps_refs. Qed.

#[local] Hint Resolve StartBlockAlign_keeps_refs : pres.

Lemma StartInstruction_keeps_refs (mnemonic_index : nat) (extended : bool) :
  preserves R (StartInstruction mnemonic_index extended).
Proof. unfold StartInstruction. keeps_refs. Qed.

#[local] Hint Resolve StartInstruction_keeps_refs : pres.

Lemma push_fixup_keeps_refs (f : Fixup) :
  preserves R (push_fixup f).
Proof. unfold push_fixup. keeps_refs. Qed.

#[local] Hint Resolve push_fixup_keeps_refs : pres.

Lemma AddBinaryEvaluator_keeps_refs (evaluator : Z -> Z -> option Z) :
  preserves R (AddBinaryEvaluator evaluator).
Proof. unfold AddBinaryEvaluator. keeps_refs. Qed.

#[local] Hint Resolve AddBinaryEvaluator_keeps_refs : pres.

Lemma AddUnaryEvaluator_keeps_refs (evaluator : Z -> option Z) :
  preserves R (AddUnaryEvaluator evaluator).
Proof. unfold AddUnaryEvaluator. keeps_refs. Qed.

#[local] Hint Resolve AddUnaryEvaluator_keeps_refs : pres.

Lemma AddAbsoluteAddressConv_keeps_refs :
  preserves R AddAbsoluteAddressConv.
Proof. unfold AddAbsoluteAddressConv. keeps_refs. Qed.

#[local] Hint Resolve AddAbsoluteAddressConv_keeps_refs : pres.

Lemma AddLiteral_keeps_refs (lit : Z) :
  preserves R (AddLiteral lit).
Proof. unfold AddLiteral. keeps_refs. Qed.

#[local] Hint Resolve AddLiteral_keeps_refs : pres.

Lemma AddSymbolResolve_keeps_refs (sym : string) (absolute : bool) :
  preserves R (AddSymbolResolve sym absolute).
Proof. unfold AddSymbolResolve. keeps_refs. Qed.

#[local] Hint Resolve AddSymbolResolve_keeps_refs : pres.

Lemma put_eval_stack_keeps_refs (s : EvalStack) :
  preserves R (put_eval_stack s).
Proof. unfold put_eval_stack. keeps_refs. Qed.

#[local] Hint Resolve put_eval_stack_keeps_refs : pres.

Lemma PushCast_keeps_refs (val : Z) :
  preserves R (PushCast platform val).
Proof. unfold PushCast. keeps_refs. Qed.

#[local] Hint Resolve PushCast_keeps_refs : pres.

Lemma EvalOperatorAbs_keeps_refs (operation : AsmOp.t) :
  preserves R (EvalOperatorAbs operation).
Proof. unfold EvalOperatorAbs. keeps_refs. Qed.

#[local] Hint Resolve EvalOperatorAbs_keeps_refs : pres.

Lemma EvalOperatorRel_keeps_refs (operation : AsmOp.t) :
  preserves R (EvalOperatorRel operation).
Proof. unfold EvalOperatorRel. keeps_refs. Qed.

#[local] Hint Resolve EvalOperatorRel_keeps_refs : pres.

Lemma EvalTerminalRel_keeps_refs (type : Terminal.t) (tok : AssemblerToken) :
  preserves R (EvalTerminalRel type tok).
Proof. unfold EvalTerminalRel. keeps_refs. Qed.

#[local] Hint Resolve EvalTerminalRel_keeps_refs : pres.

Lemma EvalTerminalAbs_keeps_refs (type : Terminal.t) (tok : AssemblerToken) :
  preserves R (EvalTerminalAbs platform type tok).
Proof. unfold EvalTerminalAbs. keeps_refs. Qed.

#[local] Hint Resolve EvalTerminalAbs_keeps_refs : pres.

Lemma eval_stack_back_keeps_refs (w : Z) :
  preserves R (eval_stack_back w).
Proof. unfold eval_stack_back. keeps_refs. Qed.

#[local] Hint Resolve eval_stack_back_keeps_refs : pres.

Lemma AddBytes_each_keeps_refs (size : nat) (vec : list Z) :
  preserves R (AddBytes_each size vec).
Proof. induction vec as [|v vec IH]; simpl; keeps_refs. Qed.

#[local] Hint Resolve AddBytes_each_keeps_refs : pres.

Lemma GekkoIRPlugin_OnDirectivePre_keeps_refs (directive : GekkoDirective.t) :
  preserves R (GekkoIRPlugin_OnDirectivePre directive).
Proof. unfold GekkoIRPlugin_OnDirectivePre. keeps_refs. Qed.

#[local] Hint Resolve GekkoIRPlugin_OnDirectivePre_keeps_refs : pres.

Lemma GekkoIRPlugin_OnDirectivePost_keeps_refs (directive : GekkoDirective.t) :
  preserves R (GekkoIRPlugin_OnDirectivePost directive).
Proof. unfold GekkoIRPlugin_OnDirectivePost. keeps_refs. Qed.

#[local] Hint Resolve GekkoIRPlugin_OnDirectivePost_keeps_refs : pres.

Lemma GekkoIRPlugin_OnInstructionPre_keeps_refs (mnemonic_info : ParseInfo.t) (extended : bool) :
  preserves R (GekkoIRPlugin_OnInstructionPre mnemonic_info extended).
Proof. unfold GekkoIRPlugin_OnInstructionPre. keeps_refs. Qed.

#[local] Hint Resolve GekkoIRPlugin_OnInstructionPre_keeps_refs : pres.

Lemma GekkoIRPlugin_OnOperandPre_keeps_refs :
  preserves R GekkoIRPlugin_OnOperandPre.
Proof. unfold GekkoIRPlugin_OnOperandPre. keeps_refs. Qed.

#[local] Hint Resolve GekkoIRPlugin_OnOperandPre_keeps_refs : pres.

Lemma GekkoIRPlugin_OnOperandPost_keeps_refs :
  preserves R GekkoIRPlugin_OnOperandPost.
Proof. unfold GekkoIRPlugin_OnOperandPost. keeps_refs. Qed.

#[local] Hint Resolve GekkoIRPlugin_OnOperandPost_keeps_refs : pres.

Lemma GekkoIRPlugin_OnResolvedExprPost_keeps_refs :
  preserves R GekkoIRPlugin_OnResolvedExprPost.
Proof. unfold GekkoIRPlugin_OnResolvedExprPost. keeps_refs. Qed.

#[local] Hint Resolve GekkoIRPlugin_OnResolvedExprPost_keeps_refs : pres.

Lemma GekkoIRPlugin_OnOperator_keeps_refs (operation : AsmOp.t) :
  preserves R (GekkoIRPlugin_OnOperator operation).
Proof. unfold GekkoIRPlugin_OnOperator. keeps_refs. Qed.

#[local] Hint Resolve GekkoIRPlugin_OnOperator_keeps_refs : pres.

Lemma GekkoIRPlugin_OnTerminal_keeps_refs (type : Terminal.t) (val : AssemblerToken) :
  preserves R (GekkoIRPlugin_OnTerminal platform type val).
Proof. unfold GekkoIRPlugin_OnTerminal. keeps_refs. Qed.

#[local] Hint Resolve GekkoIRPlugin_OnTerminal_keeps_refs : pres.

Lemma GekkoIRPlugin_OnHiaddr_keeps_refs (id : string) :
  preserves R (GekkoIRPlugin_OnHiaddr platform id).
Proof. unfold GekkoIRPlugin_OnHiaddr. keeps_refs. Qed.

#[local] Hint Resolve GekkoIRPlugin_OnHiaddr_keeps_refs : pres.

Lemma GekkoIRPlugin_OnLoaddr_keeps_refs (id : string) :
  preserves R (GekkoIRPlugin_OnLoaddr platform id).
Proof. unfold GekkoIRPlugin_OnLoaddr. keeps_refs. Qed.

#[local] Hint Resolve GekkoIRPlugin_OnLoaddr_keeps_refs : pres.

Lemma GekkoIRPlugin_OnCloseParen_keeps_refs (type : ParenType.t) :
  preserves R (GekkoIRPlugin_OnCloseParen platform type).
Proof. unfold GekkoIRPlugin_OnCloseParen. keeps_refs. Qed.

#[local] Hint Resolve GekkoIRPlugin_OnCloseParen_keeps_refs : pres.

Lemma GekkoIRPlugin_OnLabelDecl_keeps_refs (name : string) :
  preserves R (GekkoIRPlugin_OnLabelDecl name).
Proof. unfold GekkoIRPlugin_OnLabelDecl. keeps_refs. Qed.

#[local] Hint Resolve GekkoIRPlugin_OnLabelDecl_keeps_refs : pres.

Lemma GekkoIRPlugin_OnVarDecl_keeps_refs (name : string) :
  preserves R (GekkoIRPlugin_OnVarDecl name).
Proof. unfold GekkoIRPlugin_OnVarDecl. keeps_refs. Qed.

#[local] Hint Resolve GekkoIRPlugin_OnVarDecl_keeps_refs : pres.

Lemma callouts_within_instruction_keep_refs :
  callouts_preserve (plugin_impl := GekkoIRPlugin_within_instruction platform) R.
Proof. constructor; simpl; intros; eauto with pres. Qed.

End KeepsInstructionReferences.

(** ** The end of an instruction, and the whole parse *)

Section ParseKeepsReferences.
Variable platform : Platform.
Variables mnemonic_tokens extended_mnemonic_tokens : string -> option ParseInfo.t.

Abbreviation PR := (GekkoIRPlugin_ParsePlugin platform).
Abbreviation PW := (GekkoIRPlugin_within_instruction platform).
Abbreviation R := operands_refer_from_their_instruction.

Lemma lex_run {P A : Type} (f : Lexer -> A * Lexer) (st : ParseState P) x st' :
  lex f st = Done (x, st') -> error st' = error st /\ plugin st' = plugin st.
Proof.
  unfold lex. destruct (f (lexer st)) as [y l]. intros H. inversion H; subst. auto.
Qed.

Lemma HasToken_run {P : Type} tp (st : ParseState P) x st' :
  HasToken tp st = Done (x, st') -> error st' = error st /\ plugin st' = plugin st.
Proof.
  unfold HasToken. intros H. apply bind_Done in H as (t & st1 & H1 & H).
  inversion H; subst. exact (lex_run _ _ _ _ H1).
Qed.

Lemma FinishInstruction_keeps_refs p0 b0 st u st' :
  blocks (output_result p0) !! active_block p0 = Some b0 ->
  GekkoIR_invariant p0 ->
  operand_scan_begin p0 = List.length (operand_fixups p0) ->
  GekkoIR_invariant (plugin st) ->
  R (plugin st) ->
  within_instruction (BlockEndAddress b0) p0 0 (plugin st) ->
  FinishInstruction st = Done (u, st') ->
  R (plugin st').
Proof.
  intros Hb0 Hinv0 Hscan Hinv HR (B & Ac & Sb & Md & _ & fs & Of & Ffs) H.
  unfold FinishInstruction, modify_active_block, modify_plugin, bind, get_plugin,
    put_plugin, ret in H. simpl in H.
  rewrite B, Ac, Hb0 in H. inversion H; subst u st'; clear H.
  unfold operands_refer_from_their_instruction in *. simpl.
  rewrite B in *.
  apply Forall_insert; [exact HR|].
  pose proof (Forall_lookup_1 _ _ _ _ HR Hb0) as Hb.
  destruct Hinv0 as (_ & _ & _ & _ & _ & _ & Hba0 & _).
  pose proof (Forall_lookup_1 _ _ _ _ Hba0 Hb0) as Hbase.
  destruct Hinv as (_ & _ & _ & Hlen & _).
  assert (Hcount :
    (size_t_sub (List.length (operand_pool (output_result (plugin st))))
       (operand_scan_begin (plugin st))
     <= List.length fs)%nat).
  { rewrite <- Hlen, Sb, Hscan, Of, length_app. unfold size_t_sub, wrap64, wrap.
    rewrite Nat2Z.inj_add.
    replace (Z.of_nat (List.length (operand_fixups p0)) + Z.of_nat (List.length fs)
             - Z.of_nat (List.length (operand_fixups p0)))
      with (Z.of_nat (List.length fs)) by lia.
    pose proof (Z.mod_le (Z.of_nat (List.length fs)) (2 ^ 64)). lia. }
  apply block_refs_ok_append_instruction; simpl; [exact Hb | exact Hbase | | ];
    rewrite Sb, Hscan in *.
  - rewrite Of, length_app. lia.
  - intros k f Hk Hl. rewrite Of in Hl.
    rewrite lookup_app_r in Hl by lia.
    exact (Forall_lookup_1 _ _ _ _ Ffs Hl).
Qed.

Lemma OnInstructionPre_run info extended (st : ParseState GekkoIRPlugin) u st' :
  GekkoIRPlugin_OnInstructionPre info extended st = Done (u, st') ->
  error st' = error st
  /\ blocks (output_result (plugin st')) = blocks (output_result (plugin st))
  /\ active_block (plugin st') = active_block (plugin st)
  /\ operand_fixups (plugin st') = operand_fixups (plugin st)
  /\ operand_pool (output_result (plugin st'))
     = operand_pool (output_result (plugin st))
  /\ operand_scan_begin (plugin st')
     = List.length (operand_pool (output_result (plugin st)))
  /\ fixup_stack (plugin st') = fixup_stack (plugin st)
  /\ evaluation_mode (plugin st') = EvalMode.RelAddrDoublePass.
Proof.
  intros H. unfold GekkoIRPlugin_OnInstructionPre, StartInstruction, bind, lex_get,
    modify_plugin in H. inversion H; subst. simpl. repeat split.
Qed.

(** An instruction line keeps the invariant, from a state without an error. *)
Lemma ParseInstruction_keeps_refs (fuel : nat) st u st' :
  ParseInstruction (plugin_impl := PR) mnemonic_tokens extended_mnemonic_tokens fuel st
    = Done (u, st') ->
  error st = None ->
  GekkoIR_invariant (plugin st) -> R (plugin st) -> R (plugin st').
Proof.
  intros H He Hinv HR. unfold ParseInstruction in H.
  apply bind_Done in H as (u1 & st1 & H1 & H).
  inversion H1; subst u1 st1; clear H1.
  apply bind_Done in H as (tok & st1 & H1 & H).
  destruct (lex_run _ _ _ _ H1) as [He1 Hp1]. simpl in He1, Hp1.
  rewrite He in He1. clear H1.
  destruct (token_type tok);
    try (inversion H; subst; simpl; rewrite Hp1; exact HR).
  match type of H with
  | (match ?found with _ => _ end) _ = _ => destruct found as [[info is_extended]|]
  end.
  2:{ refine (preserves_EmitErrorHere _ _ _ _ _ H _). rewrite Hp1. exact HR. }
  apply bind_Done in H as (u2 & st2 & H2 & H).
  apply bind_Done in H as (u3 & st3 & H3 & H).
  inversion H3; subst u3 st3; clear H3.
  apply bind_Done in H as (u4 & st4 & H4 & H).
  pose proof H2 as Hpre.
  apply OnInstructionPre_run in Hpre as (E2 & B2 & A2 & F2 & P2 & S2 & K2 & M2).
  rewrite Hp1 in *.
  assert (Hinv2 : GekkoIR_invariant (plugin st2)).
  { eapply OnInstructionPre_preserves; [exact H2|]. rewrite Hp1. exact Hinv. }
  assert (HR2 : R (plugin st2)).
  { unfold operands_refer_from_their_instruction. rewrite B2, F2. exact HR. }
  match type of H4 with _ ?s = _ => set (st3 := s) in H4 end.
  assert (Hinv4 : GekkoIR_invariant (plugin st4)).
  { exact (ParseOperandList_preserves GekkoIR_invariant
             (GekkoIRPlugin_callouts_preserve platform) fuel _ _ _ _ H4 Hinv2). }
  assert (HR4 : R (plugin st4)).
  { rewrite <- ParseOperandList_within in H4.
    exact (ParseOperandList_preserves R
             (callouts_within_instruction_keep_refs platform) fuel _ _ _ _ H4 HR2). }
  unfold unless_error, bind, get_error in H.
  destruct (error st4) as [e|] eqn:E4; [inversion H; subst; exact HR4|].
  destruct (blocks (output_result (plugin st2)) !! active_block (plugin st2))
    as [b0|] eqn:Hb0.
  2:{ destruct Hinv2 as (_ & _ & _ & _ & _ & Hab & _).
      apply lookup_ge_None in Hb0. lia. }
  refine (FinishInstruction_keeps_refs (plugin st2) b0 st4 u st' Hb0 Hinv2 _ Hinv4 HR4 _ H).
  - destruct Hinv as (_ & _ & _ & Hlen & _). rewrite S2, F2. symmetry. exact Hlen.
  - refine (ParseOperandList_steps platform (plugin st2) b0 Hb0 fuel _ 0%nat
              st3 u4 st4 H4 _ _ E4).
    + simpl. congruence.
    + simpl. repeat split; try assumption.
      * exists []. repeat split. constructor.
      * exists []. rewrite app_nil_r. repeat split. constructor.
Qed.

Lemma ParseLabel_keeps_refs : preserves R (ParseLabel (plugin_impl := PR)).
Proof.
  rewrite <- ParseLabel_within.
  exact (ParseLabel_preserves R (callouts_within_instruction_keep_refs platform)).
Qed.

Lemma ParseDirective_keeps_refs (fuel : nat) :
  preserves R (ParseDirective (plugin_impl := PR) fuel).
Proof.
  rewrite <- ParseDirective_within.
  exact (ParseDirective_preserves R (callouts_within_instruction_keep_refs platform) fuel).
Qed.

Lemma ParseLine_keeps_refs (fuel : nat) st u st' :
  ParseLine (plugin_impl := PR) mnemonic_tokens extended_mnemonic_tokens fuel st
    = Done (u, st') ->
  error st = None ->
  GekkoIR_invariant (plugin st) -> R (plugin st) -> R (plugin st').
Proof.
  intros H He Hinv HR. unfold ParseLine in H.
  apply bind_Done in H as (is_dot & st1 & H1 & H).
  destruct (HasToken_run _ _ _ _ H1) as [He1 Hp1]. rewrite He in He1.
  rewrite <- Hp1 in Hinv, HR.
  destruct is_dot.
  - refine (preserves_bind R _ _ _ _ _ _ _ H HR); [apply preserves_ParseToken|].
    intros _. apply ParseDirective_keeps_refs.
  - exact (ParseInstruction_keeps_refs fuel st1 u st' H He1 Hinv HR).
Qed.

Lemma ParseProgram_loop_keeps_refs (fuel line_fuel : nat) st u st' :
  ParseProgram_loop (plugin_impl := PR) mnemonic_tokens extended_mnemonic_tokens
    fuel line_fuel st = Done (u, st') ->
  GekkoIR_invariant (plugin st) -> R (plugin st) -> R (plugin st').
Proof.
  revert st u st'. induction fuel as [|fuel IH]; intros st u st' H Hinv HR;
    [discriminate|].
  cbn [ParseProgram_loop] in H.
  apply bind_Done in H as (at_eof & st1 & H1 & H). inversion H1; subst at_eof st1; clear H1.
  apply bind_Done in H as (e & st1 & H1 & H). inversion H1; subst e st1; clear H1.
  destruct (error st) as [e|] eqn:He.
  { rewrite orb_true_r in H. inversion H; subst. exact HR. }
  destruct (eof st); [inversion H; subst; exact HR|].
  cbn [orb] in H. rewrite bool_decide_eq_false_2 in H by (intros [x Hx]; discriminate).
  apply bind_Done in H as (tok & st1 & H1 & H).
  destruct (lex_run _ _ _ _ H1) as [He1 Hp1]. rewrite He in He1.
  rewrite <- Hp1 in Hinv, HR. clear H1.
  assert (Hother : forall message,
    (EmitErrorHere message ;;
     ParseProgram_loop (plugin_impl := PR) mnemonic_tokens extended_mnemonic_tokens
       fuel line_fuel) st1 = Done (u, st') -> R (plugin st')).
  { intros message H'. apply bind_Done in H' as (u1 & st2 & H1 & H').
    refine (IH _ _ _ H' _ _).
    - exact (preserves_EmitErrorHere GekkoIR_invariant _ _ _ _ H1 Hinv).
    - exact (preserves_EmitErrorHere R _ _ _ _ H1 HR). }
  destruct (token_type tok); try exact (Hother _ H).
  - apply bind_Done in H as (u1 & st2 & H1 & H). inversion H1; subst u1 st2; clear H1.
    apply bind_Done in H as (u2 & st3 & H2 & H).
    pose proof (ParseLabel_preserves GekkoIR_invariant
                  (GekkoIRPlugin_callouts_preserve platform) _ _ _ H2 Hinv) as Hinv3.
    pose proof (ParseLabel_keeps_refs _ _ _ H2 HR) as HR3.
    unfold unless_error, bind at 1, get_error in H.
    destruct (error st3) as [e|] eqn:He3; [inversion H; subst; exact HR3|].
    apply bind_Done in H as (u3 & st4 & H3 & H).
    refine (IH _ _ _ H _ _).
    + exact (ParseLine_preserves mnemonic_tokens extended_mnemonic_tokens
               GekkoIR_invariant (GekkoIRPlugin_callouts_preserve platform)
               line_fuel _ _ _ H3 Hinv3).
    + exact (ParseLine_keeps_refs line_fuel _ _ _ H3 He3 Hinv3 HR3).
  - apply bind_Done in H as (u1 & st2 & H1 & H). inversion H1; subst u1 st2; clear H1.
    exact (IH _ _ _ H Hinv HR).
Qed.

Lemma ParseProgram_keeps_refs (fuel : nat) st u st' :
  ParseProgram (plugin_impl := PR) mnemonic_tokens extended_mnemonic_tokens fuel st
    = Done (u, st') ->
  GekkoIR_invariant (plugin st) -> R (plugin st) -> R (plugin st').
Proof.
  intros H Hinv HR. unfold ParseProgram in H.
  apply bind_Done in H as (tok & st1 & H1 & H).
  destruct (lex_run _ _ _ _ H1) as [_ S1]. rewrite <- S1 in Hinv, HR. clear H1.
  assert (Hline :
    (ParseLabel (plugin_impl := PR) ;;
     unless_error (
       ParseLine (plugin_impl := PR) mnemonic_tokens extended_mnemonic_tokens fuel ;;
       unless_error (ParseProgram_loop (plugin_impl := PR) mnemonic_tokens
                       extended_mnemonic_tokens fuel fuel))) st1 = Done (u, st') ->
    R (plugin st')).
  { clear H. intros H.
    apply bind_Done in H as (u2 & st3 & H2 & H).
    pose proof (ParseLabel_preserves GekkoIR_invariant
                  (GekkoIRPlugin_callouts_preserve platform) _ _ _ H2 Hinv) as Hinv3.
    pose proof (ParseLabel_keeps_refs _ _ _ H2 HR) as HR3.
    unfold unless_error at 1, bind at 1, get_error in H.
    destruct (error st3) as [e|] eqn:He3; [inversion H; subst; exact HR3|].
    apply bind_Done in H as (u3 & st4 & H3 & H).
    pose proof (ParseLine_preserves mnemonic_tokens extended_mnemonic_tokens
                  GekkoIR_invariant (GekkoIRPlugin_callouts_preserve platform)
                  fuel _ _ _ H3 Hinv3) as Hinv4.
    pose proof (ParseLine_keeps_refs fuel _ _ _ H3 He3 Hinv3 HR3) as HR4.
    unfold unless_error, bind, get_error in H.
    destruct (error st4) as [e|] eqn:He4; [inversion H; subst; exact HR4|].
    exact (ParseProgram_loop_keeps_refs fuel fuel _ _ _ H Hinv4 HR4). }
  destruct (token_type tok); try exact (Hline H).
  inversion H; subst. exact HR.
Qed.

End ParseKeepsReferences.

(** ** Forward references resolve relative to their instruction *)

Lemma GekkoIRPlugin_new_refs (base_addr : Z) :
  operands_refer_from_their_instruction (GekkoIRPlugin_new base_addr).
Proof.
  unfold operands_refer_from_their_instruction. simpl.
  constructor; [apply block_refs_ok_new | constructor].
Qed.


